(** * Brand forecasting pipeline: preprocessing, seasonal and sequence forecasters

    A shallow embedding of [src/data_preprocessing.py],
    [src/prophet_forecast.py] and [src/lstm_forecast.py].

    - float64 cells are extended rationals ([num]): a finite value, NaN or
      one of the two infinities; arithmetic is exact on finite values;
    - timestamps are day ordinals in [Z];
    - a data frame is a list of rows, each row carrying its key columns and
      an association list from column names to numeric cells;
    - the numerical libraries (the additive model, the recurrent network,
      the error metrics, the square root) are parameters of the sections
      that use them; the parts of pandas, scikit-learn and Prophet that
      decide control flow (grouping, NaN checks, the future time line, the
      min-max scaler) are written out;
    - the tables have the columns that the code reads unconditionally (the
      key columns, the sales and popularity columns and, in the raw table,
      the quantity column): reading a column that does not exist is outside
      the model. *)

From Stdlib Require Import List ZArith QArith Qabs Qround Bool String Ascii Lia Arith.
From Stdlib Require Import Sorted Permutation OrderedTypeEx.
From Stdlib Require Import Lqa.
Import ListNotations.

Local Open Scope string_scope.
Local Open Scope Z_scope.
Local Open Scope list_scope.

Set Implicit Arguments.

(* ===================================================================== *)
(** * Numeric cells *)
(* ===================================================================== *)

(** A float64 cell as pandas holds it. *)
Inductive num : Type :=
| Fin (q : Q)
| NaN
| PInf
| NInf.

Definition isnull (x : num) : bool :=
  match x with NaN => true | _ => false end.

Definition notnull (x : num) : bool := negb (isnull x).

Definition isfinite (x : num) : bool :=
  match x with Fin _ => true | _ => false end.

(** [np.isinf] *)
Definition isinf (x : num) : bool :=
  match x with PInf | NInf => true | _ => false end.

(** Equality of cells as values ([1/2] and [2/4] are the same number; NaN
    is only used after the missing values were dropped). *)
Definition num_eqb (x y : num) : bool :=
  match x, y with
  | Fin a, Fin b => Qeq_bool a b
  | NaN, NaN => true
  | PInf, PInf => true
  | NInf, NInf => true
  | _, _ => false
  end.

Definition Qsign (q : Q) : comparison := (0 ?= q)%Q.

Definition nopp (x : num) : num :=
  match x with
  | Fin a => Fin (- a)
  | NaN => NaN
  | PInf => NInf
  | NInf => PInf
  end.

Definition nadd (x y : num) : num :=
  match x, y with
  | Fin a, Fin b => Fin (a + b)
  | NaN, _ | _, NaN => NaN
  | PInf, NInf | NInf, PInf => NaN
  | PInf, _ | _, PInf => PInf
  | NInf, _ | _, NInf => NInf
  end.

Definition nsub (x y : num) : num := nadd x (nopp y).

(** An infinity of the sign of [q] times the sign [pos]; NaN for [q = 0]. *)
Definition signed_inf (pos : bool) (q : Q) : num :=
  match Qsign q with
  | Eq => NaN
  | Lt => if pos then PInf else NInf
  | Gt => if pos then NInf else PInf
  end.

Definition nmul (x y : num) : num :=
  match x, y with
  | Fin a, Fin b => Fin (a * b)
  | NaN, _ | _, NaN => NaN
  | PInf, Fin b => signed_inf true b
  | NInf, Fin b => signed_inf false b
  | Fin a, PInf => signed_inf true a
  | Fin a, NInf => signed_inf false a
  | PInf, PInf | NInf, NInf => PInf
  | PInf, NInf | NInf, PInf => NaN
  end.

Definition ndiv (x y : num) : num :=
  match x, y with
  | Fin a, Fin b =>
      if Qeq_bool b 0 then signed_inf true a else Fin (a / b)
  | NaN, _ | _, NaN => NaN
  | PInf, Fin b => if Qeq_bool b 0 then PInf else signed_inf true b
  | NInf, Fin b => if Qeq_bool b 0 then NInf else signed_inf false b
  | Fin _, PInf | Fin _, NInf => Fin 0
  | _, _ => NaN
  end.

(** Order on cells that are not NaN. *)
Definition num_leb (x y : num) : bool :=
  match x, y with
  | NInf, _ => true
  | _, PInf => true
  | Fin a, Fin b => Qle_bool a b
  | _, _ => false
  end.

Definition of_nat (n : nat) : num := Fin (inject_Z (Z.of_nat n)).

(** The values of a column that are not missing ([skipna=True]). *)
Definition dropna (xs : list num) : list num := filter notnull xs.

(** [Series.sum()]: missing values are skipped, the empty sum is 0. *)
Definition col_sum (xs : list num) : num :=
  fold_left nadd (dropna xs) (Fin 0).

(** [Series.mean()]: NaN when nothing is left after skipping. *)
Definition col_mean (xs : list num) : num :=
  match dropna xs with
  | [] => NaN
  | ys => ndiv (fold_left nadd ys (Fin 0)) (of_nat (List.length ys))
  end.

(** [GroupBy.first()]: the first value that is not missing. *)
Definition col_first (xs : list num) : num :=
  match dropna xs with
  | [] => NaN
  | y :: _ => y
  end.

(** [Series.nunique()]: the number of distinct values, missing ones apart. *)
Fixpoint distinct (xs : list num) : list num :=
  match xs with
  | [] => []
  | x :: t => if existsb (num_eqb x) t then distinct t else x :: distinct t
  end.

Definition nunique (xs : list num) : nat := List.length (distinct (dropna xs)).

(* ===================================================================== *)
(** * Errors *)
(* ===================================================================== *)

Inductive exn : Type :=
| FileNotFoundError (path : string)
| ValueError (msg : string).

Inductive result (A : Type) : Type :=
| Ok (a : A)
| Raise (e : exn).

Arguments Ok {A} a.
Arguments Raise {A} e.

Definition bind {A B} (r : result A) (k : A -> result B) : result B :=
  match r with
  | Ok a => k a
  | Raise e => Raise e
  end.

Notation "x <- c ;; k" := (bind c (fun x => k))
  (at level 61, c at next level, right associativity).

(* ===================================================================== *)
(** * Grouping by a key, as [DataFrame.groupby] does *)
(* ===================================================================== *)

Section Grouping.
Variable K : Type.
Variable cmp : K -> K -> comparison.

Definition key_eqb (a b : K) : bool :=
  match cmp a b with Eq => true | _ => false end.

(** The distinct keys in ascending order ([sort=True]). *)
Fixpoint insert_key (k : K) (l : list K) : list K :=
  match l with
  | [] => [k]
  | h :: t =>
      match cmp k h with
      | Lt => k :: h :: t
      | Eq => h :: t
      | Gt => h :: insert_key k t
      end
  end.

Definition unique_sorted (ks : list K) : list K :=
  fold_right insert_key [] ks.

Variable A : Type.
Variable key : A -> K.

(** One group per distinct key; a group keeps its rows in frame order. *)
Definition groupby (rows : list A) : list (K * list A) :=
  map (fun k => (k, filter (fun r => key_eqb (key r) k) rows))
      (unique_sorted (map key rows)).
End Grouping.

(** Lexicographic comparison of pairs, for grouping by several columns. *)
Definition cmp_pair {A B} (ca : A -> A -> comparison) (cb : B -> B -> comparison)
    (x y : A * B) : comparison :=
  match ca (fst x) (fst y) with
  | Eq => cb (snd x) (snd y)
  | c => c
  end.

(* ===================================================================== *)
(** * Data frames *)
(* ===================================================================== *)

(** The numeric cells of a row, by column name. *)
Definition record : Type := list (string * num).

Fixpoint lookup (c : string) (r : record) : option num :=
  match r with
  | [] => None
  | (c', v) :: t => if String.eqb c c' then Some v else lookup c t
  end.

Definition get (c : string) (r : record) : num :=
  match lookup c r with
  | Some v => v
  | None => NaN
  end.

(** [Series.fillna(method="ffill")] *)
Fixpoint ffill_from (prev : num) (xs : list num) : list num :=
  match xs with
  | [] => []
  | x :: t =>
      let v := if isnull x then prev else x in
      v :: ffill_from v t
  end.

Definition ffill (xs : list num) : list num := ffill_from NaN xs.

Definition set_cell (c : string) (v : num) (r : record) : record :=
  map (fun cv => if String.eqb (fst cv) c then (c, v) else cv) r.

(** A row of [processed_sales.csv]. *)
Record Row : Type := mkRow {
  Date : Z;
  Category : string;
  Brand : string;
  cells : record
}.

(** The table read by [pd.read_csv(PROCESSED_FILE, parse_dates=["Date"])]:
    the names of its numeric columns and its rows. *)
Record DataFrame : Type := mkFrame {
  columns : list string;
  rows : list Row
}.

Definition has_column (cols : list string) (c : string) : bool :=
  existsb (String.eqb c) cols.

(** A row of a per-brand frame after [groupby("Date", as_index=False)]:
    the timestamp and the aggregated columns. *)
Record DatedRow : Type := mkDated {
  ds : Z;
  vals : record
}.

Definition column (c : string) (df : list DatedRow) : list num :=
  map (fun r => get c (vals r)) df.

Inductive aggfn : Type := agg_sum | agg_mean | agg_first.

Definition apply_agg (f : aggfn) (xs : list num) : num :=
  match f with
  | agg_sum => col_sum xs
  | agg_mean => col_mean xs
  | agg_first => col_first xs
  end.

(** [brand_df.groupby("Date", as_index=False).agg(agg_dict)] *)
Definition aggregate_by_date (agg_dict : list (string * aggfn))
    (brand_rows : list Row) : list DatedRow :=
  map (fun g =>
         {| ds := fst g;
            vals := map (fun ca =>
                           (fst ca,
                            apply_agg (snd ca)
                                      (map (fun r => get (fst ca) (cells r)) (snd g))))
                        agg_dict |})
      (groupby Z.compare Date brand_rows).

(** [pd.date_range(start, periods=n)] with the daily default frequency. *)
Definition date_range (start : Z) (periods : nat) : list Z :=
  map (fun i => start + Z.of_nat i) (seq 0 periods).

(** [int(n * 0.8)]: the double product truncated towards zero, which for a
    length [n] is the integer part of [8 n / 10]. *)
Definition train_size_of (n : nat) : nat := (n * 8 / 10)%nat.

(** [xs[:train_size], xs[train_size:]] with [train_size = int(len(xs) * 0.8)] *)
Definition split_80_20 {A} (xs : list A) : list A * list A :=
  let train_size := train_size_of (List.length xs) in
  (firstn train_size xs, skipn train_size xs).

(** One forecast row; the seasonal forecaster also carries its bounds. *)
Record ForecastRow : Type := mkForecast {
  fc_Date : Z;
  fc_Brand : string;
  fc_Predicted_Sales : num;
  fc_bounds : option (num * num)
}.

Record MetricsRecord : Type := mkMetrics {
  m_Brand : string;
  m_RMSE : num;
  m_MAPE : num
}.

(** What one iteration of a per-brand loop does: [continue], or append a
    metrics row and a block of forecast rows. *)
Inductive outcome : Type :=
| Skipped
| Produced (m : MetricsRecord) (f : list ForecastRow).

(** The per-brand loop [for brand, brand_df in df.groupby("Brand")] with
    its two accumulators; an exception leaves the loop at once. *)
Fixpoint brand_loop (step : string -> list Row -> result outcome)
    (groups : list (string * list Row))
    (forecasts : list (list ForecastRow)) (metrics : list MetricsRecord)
  : result (list (list ForecastRow) * list MetricsRecord) :=
  match groups with
  | [] => Ok (forecasts, metrics)
  | (brand, brand_df) :: rest =>
      o <- step brand brand_df ;;
      match o with
      | Skipped => brand_loop step rest forecasts metrics
      | Produced m f => brand_loop step rest (forecasts ++ [f]) (metrics ++ [m])
      end
  end.

(** The files of the pipeline, each slot holding the table stored at the
    path constant of that name ([None]: no such file). *)
Record RawRow : Type := mkRaw {
  raw_Date : option Z;          (* [pd.to_datetime(errors="coerce")]: NaT is [None] *)
  raw_Category : string;
  raw_Brand : string;
  raw_Region : string;
  raw_cells : record
}.

Record RawFrame : Type := mkRawFrame {
  raw_columns : list string;
  raw_rows : list RawRow
}.

Record FileSystem : Type := mkFS {
  RAW_DATA_FILE : option RawFrame;
  PROCESSED_FILE : option DataFrame;
  PROPHET_FORECAST_FILE : option (list ForecastRow);
  PROPHET_METRICS_FILE : option (list MetricsRecord);
  LSTM_FORECAST_FILE : option (list ForecastRow);
  LSTM_METRICS_FILE : option (list MetricsRecord)
}.

Definition RAW_DATA_PATH : string := "data/raw/brand_sales_dataset.csv".
Definition PROCESSED_PATH : string := "data/processed/processed_sales.csv".

(** [sklearn.metrics] validates its arguments before computing. *)
Definition check_finite_targets (y_true y_pred : list num) : result unit :=
  if forallb isfinite y_true && forallb isfinite y_pred
  then Ok tt
  else Raise (ValueError "Input contains NaN or infinity.").

(* ===================================================================== *)
(** * sklearn's MinMaxScaler (feature range (0, 1)) *)
(* ===================================================================== *)

Definition matrix : Type := list (list num).

Definition mcolumn (j : nat) (X : matrix) : list num :=
  map (fun row => nth j row NaN) X.

Definition nmin (x y : num) : num := if num_leb x y then x else y.
Definition nmax (x y : num) : num := if num_leb x y then y else x.

(** [np.nanmin] / [np.nanmax] over a column. *)
Definition nanmin (xs : list num) : num :=
  match dropna xs with
  | [] => NaN
  | y :: ys => fold_left nmin ys y
  end.

Definition nanmax (xs : list num) : num :=
  match dropna xs with
  | [] => NaN
  | y :: ys => fold_left nmax ys y
  end.

(** Machine epsilon of float64. *)
Definition float_eps : Q := 1 # (2 ^ 52).

(** [_handle_zeros_in_scale]: a range below [10 * eps] counts as constant
    and is replaced by 1. *)
Definition handle_zeros_in_scale (r : num) : num :=
  match r with
  | Fin q => if Qle_bool (10 * float_eps) q then Fin q else Fin 1
  | NInf => Fin 1
  | other => other
  end.

Record MinMaxScaler : Type := mkScaler {
  scale_ : list num;
  min_ : list num
}.

(** [check_array(..., force_all_finite="allow-nan")] *)
Definition check_array (X : matrix) : result unit :=
  if existsb (existsb isinf) X
  then Raise (ValueError "Input contains infinity or a value too large.")
  else Ok tt.

Definition n_features (X : matrix) : nat :=
  match X with
  | [] => 0%nat
  | row :: _ => List.length row
  end.

Definition scaler_fit (X : matrix) : result MinMaxScaler :=
  _ <- check_array X ;;
  let cols := map (fun j => mcolumn j X) (seq 0 (n_features X)) in
  let data_min := map nanmin cols in
  let data_max := map nanmax cols in
  let data_range := map (fun mm => nsub (snd mm) (fst mm)) (combine data_min data_max) in
  let scale := map (fun r => ndiv (Fin 1) (handle_zeros_in_scale r)) data_range in
  let mins := map (fun ms => nsub (Fin 0) (nmul (fst ms) (snd ms))) (combine data_min scale) in
  Ok {| scale_ := scale; min_ := mins |}.

(** [X *= scale_; X += min_] *)
Definition transform_row (sc : MinMaxScaler) (row : list num) : list num :=
  map (fun xsm => nadd (nmul (fst xsm) (fst (snd xsm))) (snd (snd xsm)))
      (combine row (combine (scale_ sc) (min_ sc))).

Definition scaler_transform (sc : MinMaxScaler) (X : matrix) : result matrix :=
  _ <- check_array X ;;
  Ok (map (transform_row sc) X).

(** [X -= min_; X /= scale_] *)
Definition inverse_row (sc : MinMaxScaler) (row : list num) : list num :=
  map (fun xsm => ndiv (nsub (fst xsm) (snd (snd xsm))) (fst (snd xsm)))
      (combine row (combine (scale_ sc) (min_ sc))).

Definition scaler_inverse_transform (sc : MinMaxScaler) (X : matrix) : result matrix :=
  _ <- check_array X ;;
  Ok (map (inverse_row sc) X).

Definition scaler_fit_transform (X : matrix) : result (MinMaxScaler * matrix) :=
  sc <- scaler_fit X ;;
  S <- scaler_transform sc X ;;
  Ok (sc, S).

(* ===================================================================== *)
(** * The error metrics of scikit-learn and numpy, as parameters *)
(* ===================================================================== *)

Record Metrics : Type := mkMetricsLib {
  mean_squared_error_value : list num -> list num -> num;
  mean_absolute_percentage_error_value : list num -> list num -> num;
  np_sqrt : num -> num
}.

Definition mean_squared_error (L : Metrics) (y_true y_pred : list num) : result num :=
  _ <- check_finite_targets y_true y_pred ;;
  Ok (mean_squared_error_value L y_true y_pred).

Definition mean_absolute_percentage_error (L : Metrics) (y_true y_pred : list num)
  : result num :=
  _ <- check_finite_targets y_true y_pred ;;
  Ok (mean_absolute_percentage_error_value L y_true y_pred).

Definition max_date (dates : list Z) : Z :=
  match dates with
  | [] => 0
  | d :: t => fold_left Z.max t d
  end.

Definition lastn {A} (n : nat) (l : list A) : list A :=
  skipn (List.length l - n) l.

(** The brands of the table in ascending order, each with its rows. *)
Definition groupby_brand (df : DataFrame) : list (string * list Row) :=
  groupby String.compare Brand (rows df).

(* ===================================================================== *)
(** * The sequence forecaster ([lstm_forecast.py]) *)
(* ===================================================================== *)

Module Lstm.

Definition extra_regressors : list string :=
  [ "Competitor_Price"; "Category_Trend_Index"; "Customer_Growth_Rate";
    "Customer_Retention_Rate"; "Stock_Level"; "Supply_Delay_Days";
    "Inflation_Rate"; "Weather_Score"; "Is_Holiday" ].

Definition seq_length : nat := 7.

Definition agg_dict (cols : list string) : list (string * aggfn) :=
  ("Total_Sales", agg_sum) :: ("Online_Popularity", agg_mean)
  :: map (fun reg => (reg, agg_mean)) (filter (has_column cols) extra_regressors).

Definition features (brand_df_columns : list string) : list string :=
  "Total_Sales" :: "Online_Popularity"
  :: filter (has_column brand_df_columns) extra_regressors.

(** The per-brand frame: one aggregated row per date. *)
Definition brand_frame (cols : list string) (brand_rows : list Row) : list DatedRow :=
  aggregate_by_date (agg_dict cols) brand_rows.

(** [brand_df[features].values] *)
Definition feature_array (feats : list string) (brand_df : list DatedRow) : matrix :=
  map (fun r => map (fun c => get c (vals r)) feats) brand_df.

(** The samples [X[i] = scaled[i:i+seq_length]] with their labels
    [y[i] = scaled[i + seq_length, 0]]. *)
Definition sample (scaled : matrix) (i : nat) : matrix * num :=
  (firstn seq_length (skipn i scaled),
   nth 0 (nth (i + seq_length) scaled []) NaN).

Definition samples (scaled : matrix) : list (matrix * num) :=
  map (sample scaled) (seq 0 (List.length scaled - seq_length)).

(** The state of the rollout loop. *)
Record rollout_state : Type := mkRollout {
  rs_scaled : matrix;
  rs_last_seq : matrix;
  rs_future_scaled : matrix
}.

Section Forecaster.
(** The recurrent network: its state after the 80 training epochs on the
    training tensors, and its output on one window. *)
Variable Net : Type.
Variable train_net : nat -> list matrix -> list num -> Net.
Variable forward : Net -> matrix -> num.
Variable L : Metrics.

(** One pass of [for _ in range(30)]. *)
Definition rollout_step (model : Net) (s : rollout_state) : rollout_state :=
  let pred := forward model (rs_last_seq s) in
  let last_features := last (rs_scaled s) [] in
  let next_step := pred :: tl last_features in
  let scaled := rs_scaled s ++ [next_step] in
  {| rs_scaled := scaled;
     rs_last_seq := lastn seq_length scaled;
     rs_future_scaled := rs_future_scaled s ++ [next_step] |}.

Definition rollout (model : Net) (steps : nat) (scaled : matrix) : rollout_state :=
  Nat.iter steps (rollout_step model)
           {| rs_scaled := scaled;
              rs_last_seq := lastn seq_length scaled;
              rs_future_scaled := [] |}.

(** The block "Evaluation": RMSE and MAPE (in percent) on the holdout. *)
Definition evaluate (model : Net) (X_test : list matrix) (y_test : list num)
  : result (num * num) :=
  let preds := map (forward model) X_test in
  let y_true := y_test in
  mse <- mean_squared_error L y_true preds ;;
  let rmse := np_sqrt L mse in
  mape0 <- mean_absolute_percentage_error L y_true preds ;;
  let mape := nmul mape0 (Fin 100) in
  Ok (rmse, mape).

(** The block "Forecast 30 days ahead" with the inverse transform and the
    forecast frame of the brand. *)
Definition forecast_future (brand : string) (brand_df : list DatedRow)
    (X0 : matrix) (scaler : MinMaxScaler) (scaled : matrix) (model : Net)
  : result (list ForecastRow) :=
  let future_scaled := rs_future_scaled (rollout model 30 scaled) in
  let repeated_features := repeat (tl (last X0 [])) 30 in
  let full_inverse_data :=
    map (fun fr => nth 0 (fst fr) NaN :: snd fr)
        (combine future_scaled repeated_features) in
  inv <- scaler_inverse_transform scaler full_inverse_data ;;
  let future_sales := map (fun row => nth 0 row NaN) inv in
  let future_dates := date_range (max_date (map ds brand_df) + 1) 30 in
  Ok (map (fun dv => {| fc_Date := fst dv; fc_Brand := brand;
                        fc_Predicted_Sales := snd dv; fc_bounds := None |})
          (combine future_dates future_sales)).

(** The body of [for brand, brand_df in df.groupby("Brand")]. *)
Definition forecast_brand (cols : list string) (brand : string)
    (brand_rows : list Row) : result outcome :=
  let brand_df := brand_frame cols brand_rows in
  let feats := features (map fst (agg_dict cols)) in
  if (List.length brand_df <? seq_length + 1)%nat then Ok Skipped else
  let X0 := feature_array feats brand_df in
  fitted <- scaler_fit_transform X0 ;;
  let scaler := fst fitted in
  let scaled := snd fitted in
  let X := map fst (samples scaled) in
  let y := map snd (samples scaled) in
  if (List.length X <? 20)%nat then Ok Skipped else
  let X_train := fst (split_80_20 X) in
  let y_train := fst (split_80_20 y) in
  let X_test := snd (split_80_20 X) in
  let y_test := snd (split_80_20 y) in
  let model := train_net (List.length feats) X_train y_train in
  scores <- evaluate model X_test y_test ;;
  let m := {| m_Brand := brand; m_RMSE := fst scores; m_MAPE := snd scores |} in
  f <- forecast_future brand brand_df X0 scaler scaled model ;;
  Ok (Produced m f).

(** The loop over the brands of the table, from empty accumulators. *)
Definition run_brands (df : DataFrame)
  : result (list (list ForecastRow) * list MetricsRecord) :=
  brand_loop (forecast_brand (columns df)) (groupby_brand df) [] [].

(** [run_lstm_forecast()]: the new state of the files and the returned
    metrics, or the exception that ended the run. *)
Definition run_lstm_forecast (fs : FileSystem)
  : result (FileSystem * list MetricsRecord) :=
  match PROCESSED_FILE fs with
  | None => Raise (FileNotFoundError PROCESSED_PATH)
  | Some df =>
      out <- run_brands df ;;
      let forecasts := fst out in
      let metrics := snd out in
      match forecasts with
      | [] => Ok (fs, metrics)
      | _ :: _ =>
          Ok ({| RAW_DATA_FILE := RAW_DATA_FILE fs;
                 PROCESSED_FILE := PROCESSED_FILE fs;
                 PROPHET_FORECAST_FILE := PROPHET_FORECAST_FILE fs;
                 PROPHET_METRICS_FILE := PROPHET_METRICS_FILE fs;
                 LSTM_FORECAST_FILE := Some (List.concat forecasts);
                 LSTM_METRICS_FILE := Some metrics |},
              metrics)
      end
  end.
End Forecaster.

End Lstm.

(* ===================================================================== *)
(** * The seasonal forecaster ([prophet_forecast.py]) *)
(* ===================================================================== *)

Module Seasonal.

Definition extra_regressors : list string :=
  [ "Competitor_Price"; "Category_Trend_Index"; "Customer_Growth_Rate";
    "Customer_Retention_Rate"; "Stock_Level"; "Supply_Delay_Days";
    "Inflation_Rate"; "Weather_Score"; "Promotion";
    "Discount_Percentage"; "Is_Holiday" ].

Definition agg_dict (cols : list string) : list (string * aggfn) :=
  ("Total_Sales", agg_sum) :: ("Online_Popularity", agg_mean)
  :: map (fun reg => (reg, agg_mean)) (filter (has_column cols) extra_regressors).

Definition used_regressors (brand_df_columns : list string) : list string :=
  filter (has_column brand_df_columns) extra_regressors.

(** [rename(columns={"Date": "ds", "Total_Sales": "y",
    "Online_Popularity": "Trend_Score"})] on a column name. *)
Definition rename (c : string) : string :=
  if String.eqb c "Total_Sales" then "y"
  else if String.eqb c "Online_Popularity" then "Trend_Score"
  else c.

(** [brand_df[prophet_cols].rename(...)] *)
Definition select_rename (prophet_cols : list string) (r : DatedRow) : DatedRow :=
  {| ds := ds r;
     vals := map (fun c => (rename c, get c (vals r))) prophet_cols |}.

(** [replace([np.inf, -np.inf], np.nan)] *)
Definition replace_inf (x : num) : num := if isinf x then NaN else x.

Definition replace_inf_row (r : DatedRow) : DatedRow :=
  {| ds := ds r; vals := map (fun cv => (fst cv, replace_inf (snd cv))) (vals r) |}.

(** The cleaning block: infinities become NaN, rows whose target is
    missing are dropped. *)
Definition clean (prophet_df : list DatedRow) : list DatedRow :=
  let df1 := map replace_inf_row prophet_df in
  let df2 := filter (fun r => notnull (get "y" (vals r))) df1 in
  filter (fun r => notnull (get "y" (vals r))) df2.

(** The frame of one brand as the model sees it: aggregated per date,
    restricted to the model's columns under their new names, cleaned. *)
Definition prophet_frame (cols : list string) (brand_rows : list Row) : list DatedRow :=
  let brand_df := aggregate_by_date (agg_dict cols) brand_rows in
  let used := used_regressors (map fst (agg_dict cols)) in
  let prophet_cols := "Total_Sales" :: "Online_Popularity" :: used in
  clean (map (select_rename prophet_cols) brand_df).

(** [train.isnull().any().any()] *)
Definition any_null (df : list DatedRow) : bool :=
  existsb (fun r => existsb (fun cv => isnull (snd cv)) (vals r)) df.

Definition admit_regressor (train : list DatedRow) (reg : string) : bool :=
  (1 <? nunique (column reg train))%nat.

(** The block "Exclude constant regressors". *)
Definition regressors_to_use (used : list string) (train : list DatedRow)
  : list string :=
  (if admit_regressor train "Trend_Score" then ["Trend_Score"] else [])
  ++ filter (admit_regressor train) used.

(** [df[cols]] on a per-brand frame. *)
Definition select (cols : list string) (r : DatedRow) : DatedRow :=
  {| ds := ds r; vals := map (fun c => (c, get c (vals r))) cols |}.

(** [future[reg].fillna(method="ffill", inplace=True)] *)
Definition ffill_column (reg : string) (df : list DatedRow) : list DatedRow :=
  map (fun rv => {| ds := ds (fst rv); vals := set_cell reg (snd rv) (vals (fst rv)) |})
      (combine df (ffill (column reg df))).

(** [future.merge(right, on="ds", how="left")]: every row of [future]
    once per matching row of [right], or once with missing cells. *)
Definition merge_left (future : list Z) (cols : list string)
    (right : list DatedRow) : list DatedRow :=
  flat_map (fun d =>
              match filter (fun r => Z.eqb (ds r) d) right with
              | [] => [ {| ds := d; vals := map (fun c => (c, NaN)) cols |} ]
              | ms => map (fun r => {| ds := d; vals := vals (select cols r) |}) ms
              end)
           future.

Section Forecaster.
(** The fitted additive model (trend, seasonalities and regressor
    coefficients) and its prediction for one row: [yhat] with its
    lower and upper bounds. *)
Variable Model : Type.
Variable fit_params : list string -> list DatedRow -> Model.
Variable predict_row : Model -> DatedRow -> num * (num * num).
Variable L : Metrics.

(** A [Prophet] object after [add_regressor] and [fit]. *)
Record Prophet : Type := mkProphet {
  regressors : list string;
  history_dates : list Z;
  params : Model
}.

(** The checks of [Prophet.setup_dataframe]. *)
Definition setup_dataframe (regs : list string) (with_y : bool)
    (df : list DatedRow) : result unit :=
  if with_y && existsb isinf (column "y" df)
  then Raise (ValueError "Found infinity in column y.")
  else if existsb (fun name => existsb isnull (column name df)) regs
  then Raise (ValueError "Found NaN in column of a regressor.")
  else Ok tt.

(** [model.fit(df)] *)
Definition fit (regs : list string) (df : list DatedRow) : result Prophet :=
  let history := filter (fun r => notnull (get "y" (vals r))) df in
  if (List.length history <? 2)%nat
  then Raise (ValueError "Dataframe has less than 2 non-NaN rows.")
  else
    _ <- setup_dataframe regs true history ;;
    Ok {| regressors := regs;
          history_dates := unique_sorted Z.compare (map ds df);
          params := fit_params regs history |}.

(** [model.predict(df)], one output row per input row. *)
Definition predict (m : Prophet) (df : list DatedRow)
  : result (list (Z * (num * (num * num)))) :=
  match df with
  | [] => Raise (ValueError "Dataframe has no rows.")
  | _ :: _ =>
      _ <- setup_dataframe (regressors m) false df ;;
      Ok (map (fun r => (ds r, predict_row (params m) r)) df)
  end.

(** [model.make_future_dataframe(periods)], with the defaults
    [freq="D"] and [include_history=True]. *)
Definition make_future_dataframe (m : Prophet) (periods : nat) : list Z :=
  let last_date := max_date (history_dates m) in
  let dates := date_range last_date (periods + 1) in
  let dates := filter (fun d => Z.ltb last_date d) dates in
  let dates := firstn periods dates in
  history_dates m ++ dates.

(** The evaluation on the holdout: RMSE and MAPE (in percent). *)
Definition evaluate (model : Prophet) (test_predictors : list string)
    (test : list DatedRow) : result (num * num) :=
  forecast_test <- predict model (map (select test_predictors) test) ;;
  let yhat := map (fun p => fst (snd p)) forecast_test in
  mse <- mean_squared_error L (column "y" test) yhat ;;
  let rmse := np_sqrt L mse in
  mape0 <- mean_absolute_percentage_error L (column "y" test) yhat ;;
  let mape := nmul mape0 (Fin 100) in
  Ok (rmse, mape).

(** The future frame: the time line of the model, the regressors of the
    cleaned history merged in and carried forward. *)
Definition future_frame (model : Prophet) (regs : list string)
    (prophet_df : list DatedRow) : list DatedRow :=
  let future := make_future_dataframe model 30 in
  let future := merge_left future regs prophet_df in
  fold_left (fun f reg => ffill_column reg f) regs future.

Definition forecast_future (brand : string) (model : Prophet)
    (regs : list string) (prophet_df : list DatedRow)
  : result (list ForecastRow) :=
  forecast <- predict model (future_frame model regs prophet_df) ;;
  Ok (map (fun p => {| fc_Date := fst p; fc_Brand := brand;
                       fc_Predicted_Sales := fst (snd p);
                       fc_bounds := Some (snd (snd p)) |})
          forecast).

(** The body of [for brand, brand_df in df.groupby("Brand")]. *)
Definition forecast_brand (cols : list string) (brand : string)
    (brand_rows : list Row) : result outcome :=
  let used := used_regressors (map fst (agg_dict cols)) in
  let prophet_df := prophet_frame cols brand_rows in
  if (List.length prophet_df <? 3)%nat then Ok Skipped else
  let train := fst (split_80_20 prophet_df) in
  let test := snd (split_80_20 prophet_df) in
  if (List.length train <? 2)%nat || any_null train then Ok Skipped else
  match test with
  | [] => Ok Skipped
  | _ :: _ =>
      let regs := regressors_to_use used train in
      let train_predictors := "y" :: regs in
      let test_predictors := regs in
      model <- fit regs (map (select train_predictors) train) ;;
      scores <- evaluate model test_predictors test ;;
      let m := {| m_Brand := brand; m_RMSE := fst scores; m_MAPE := snd scores |} in
      f <- forecast_future brand model regs prophet_df ;;
      Ok (Produced m f)
  end.

(** The loop over the brands of the table, from empty accumulators. *)
Definition run_brands (df : DataFrame)
  : result (list (list ForecastRow) * list MetricsRecord) :=
  brand_loop (forecast_brand (columns df)) (groupby_brand df) [] [].

(** [forecast_with_prophet()]: the new state of the files and the value
    returned ([None] when nothing was forecast), or the exception. *)
Definition forecast_with_prophet (fs : FileSystem)
  : result (FileSystem * option (list MetricsRecord)) :=
  match PROCESSED_FILE fs with
  | None => Raise (FileNotFoundError PROCESSED_PATH)
  | Some df =>
      out <- run_brands df ;;
      let forecast_results := fst out in
      let metrics := snd out in
      match forecast_results with
      | [] => Ok (fs, None)
      | _ :: _ =>
          Ok ({| RAW_DATA_FILE := RAW_DATA_FILE fs;
                 PROCESSED_FILE := PROCESSED_FILE fs;
                 PROPHET_FORECAST_FILE := Some (List.concat forecast_results);
                 PROPHET_METRICS_FILE := Some metrics;
                 LSTM_FORECAST_FILE := LSTM_FORECAST_FILE fs;
                 LSTM_METRICS_FILE := LSTM_METRICS_FILE fs |},
              Some metrics)
      end
  end.
End Forecaster.

End Seasonal.

(* ===================================================================== *)
(** * Preprocessing ([data_preprocessing.py]) *)
(* ===================================================================== *)

Module Preprocessing.

Definition numeric_fill_cols : list string :=
  [ "Competitor_Price"; "Category_Trend_Index"; "Customer_Growth_Rate";
    "Customer_Retention_Rate"; "Stock_Level"; "Supply_Delay_Days";
    "Inflation_Rate"; "Weather_Score" ].

Definition numeric_cols_to_normalize : list string :=
  [ "Quantity_Sold"; "Online_Popularity";
    "Sales_Lag_1"; "Sales_MA_3";
    "Competitor_Price"; "Category_Trend_Index"; "Customer_Growth_Rate";
    "Customer_Retention_Rate"; "Stock_Level"; "Supply_Delay_Days";
    "Inflation_Rate"; "Weather_Score" ].

(** The numeric entries of [agg_dict]; its last entry, the text column
    [Category] aggregated by [first], is the group key of the same name. *)
Definition agg_dict : list (string * aggfn) :=
  [ ("Total_Sales", agg_sum); ("Quantity_Sold", agg_sum);
    ("Online_Popularity", agg_mean); ("Competitor_Price", agg_mean);
    ("Category_Trend_Index", agg_mean); ("Customer_Growth_Rate", agg_mean);
    ("Customer_Retention_Rate", agg_mean); ("Stock_Level", agg_mean);
    ("Supply_Delay_Days", agg_mean); ("Inflation_Rate", agg_mean);
    ("Weather_Score", agg_mean); ("Promotion", agg_mean);
    ("Discount_Percentage", agg_mean); ("Is_Holiday", agg_mean);
    ("Sales_Lag_1", agg_mean); ("Sales_MA_3", agg_mean);
    ("Category_Encoded", agg_first); ("Brand_Encoded", agg_first);
    ("Region_Encoded", agg_first) ].

(** The small constant of the normalisation, [1e-6]. *)
Definition epsilon : Q := 1 # 1000000.

Definition with_cells (r : RawRow) (c : record) : RawRow :=
  {| raw_Date := raw_Date r; raw_Category := raw_Category r;
     raw_Brand := raw_Brand r; raw_Region := raw_Region r; raw_cells := c |}.

Definition rcolumn (c : string) (df : list RawRow) : list num :=
  map (fun r => get c (raw_cells r)) df.

(** [df[c] = values]: the column is overwritten, or added at the end. *)
Definition assign_cell (c : string) (v : num) (r : record) : record :=
  match lookup c r with
  | Some _ => set_cell c v r
  | None => r ++ [(c, v)]
  end.

Definition assign (c : string) (values : list num) (df : list RawRow) : list RawRow :=
  map (fun rv => with_cells (fst rv) (assign_cell c (snd rv) (raw_cells (fst rv))))
      (combine df values).

(** [Series.median()] *)
Fixpoint insert_num (x : num) (l : list num) : list num :=
  match l with
  | [] => [x]
  | h :: t => if num_leb x h then x :: h :: t else h :: insert_num x t
  end.

Definition sort_nums (l : list num) : list num := fold_right insert_num [] l.

Definition median (xs : list num) : num :=
  let s := sort_nums (dropna xs) in
  let n := List.length s in
  match n with
  | O => NaN
  | _ =>
      if Nat.even n
      then ndiv (nadd (nth (n / 2 - 1) s NaN) (nth (n / 2) s NaN)) (Fin 2)
      else nth (n / 2) s NaN
  end.

(** [Series.fillna(value)] with a scalar or with another column. *)
Definition fillna (v : num) (xs : list num) : list num :=
  map (fun x => if isnull x then v else x) xs.

Definition fillna_with (other xs : list num) : list num :=
  map (fun xo => if isnull (fst xo) then snd xo else fst xo) (combine xs other).

Definition fill_median (c : string) (df : list RawRow) : list RawRow :=
  assign c (fillna (median (rcolumn c df)) (rcolumn c df)) df.

(** [df.sort_values(by=["Brand", "Date"])]: stable, NaT last. *)
Definition cmp_date (a b : option Z) : comparison :=
  match a, b with
  | Some x, Some y => Z.compare x y
  | Some _, None => Lt
  | None, Some _ => Gt
  | None, None => Eq
  end.

Definition sort_key (r : RawRow) : string * option Z := (raw_Brand r, raw_Date r).

Fixpoint insert_row (x : RawRow) (l : list RawRow) : list RawRow :=
  match l with
  | [] => [x]
  | h :: t =>
      match cmp_pair String.compare cmp_date (sort_key x) (sort_key h) with
      | Gt => h :: insert_row x t
      | _ => x :: h :: t
      end
  end.

Definition sort_values (df : list RawRow) : list RawRow :=
  fold_right insert_row [] df.

(** [LabelEncoder().fit_transform(values)]: the rank of each value among
    the sorted distinct values. *)
Fixpoint index_of (k : string) (l : list string) : nat :=
  match l with
  | [] => O
  | h :: t => if String.eqb k h then O else S (index_of k t)
  end.

Definition label_encode (values : list string) : list num :=
  let classes := unique_sorted String.compare values in
  map (fun v => of_nat (index_of v classes)) values.

(** [df.groupby("Brand")[c].transform(f)]: [f] runs on the series of each
    brand, and every row takes the value at its position in it. *)
Fixpoint positions_in_brand (before : list string) (brands : list string) : list nat :=
  match brands with
  | [] => []
  | b :: t =>
      List.length (filter (String.eqb b) before)
      :: positions_in_brand (before ++ [b]) t
  end.

Definition group_transform (f : list num -> list num) (c : string)
    (df : list RawRow) : list num :=
  map (fun rp =>
         let series :=
           rcolumn c (filter (fun r => String.eqb (raw_Brand r) (raw_Brand (fst rp))) df) in
         nth (snd rp) (f series) NaN)
      (combine df (positions_in_brand [] (map raw_Brand df))).

(** [Series.shift(1)] *)
Definition shift1 (xs : list num) : list num :=
  match xs with
  | [] => []
  | _ :: _ => NaN :: removelast xs
  end.

(** [Series.rolling(3, min_periods=1).mean()] *)
Definition rolling3_mean (xs : list num) : list num :=
  map (fun i => col_mean (skipn (i - 2) (firstn (S i) xs)))
      (seq 0 (List.length xs)).

(** [Series.bfill()] *)
Definition bfill (xs : list num) : list num := rev (ffill (rev xs)).

Section Normalisation.
(** The square root of a non-negative finite number. *)
Variable Qsqrt : Q -> Q.

Definition nsqrt (x : num) : num :=
  match x with
  | Fin q => if Qle_bool 0 q then Fin (Qsqrt q) else NaN
  | PInf => PInf
  | _ => NaN
  end.

(** [Series.std()]: the sample standard deviation ([ddof=1]) of the
    values that are not missing. *)
Definition col_var (xs : list num) : num :=
  let ys := dropna xs in
  let n := List.length ys in
  if (n <? 2)%nat then NaN
  else
    let m := col_mean ys in
    ndiv (fold_left nadd (map (fun y => nmul (nsub y m) (nsub y m)) ys) (Fin 0))
         (of_nat (n - 1)).

Definition col_std (xs : list num) : num := nsqrt (col_var xs).

(** [lambda x: (x - x.mean()) / (x.std() + 1e-6)] *)
Definition zscore (xs : list num) : list num :=
  let m := col_mean xs in
  let d := nadd (col_std xs) (Fin epsilon) in
  map (fun x => ndiv (nsub x m) d) xs.

(** [df[existing_numeric_cols] = df[existing_numeric_cols].apply(...)]:
    every new column is computed from the frame as it was. *)
Definition normalize (cols : list string) (df : list RawRow) : list RawRow :=
  let existing_numeric_cols := filter (has_column cols) numeric_cols_to_normalize in
  fold_left (fun acc c => assign c (zscore (rcolumn c df)) acc)
            existing_numeric_cols df.

Definition group_key (r : RawRow * Z) : string * (string * Z) :=
  (raw_Category (fst r), (raw_Brand (fst r), snd r)).

Definition cmp_key : string * (string * Z) -> string * (string * Z) -> comparison :=
  cmp_pair String.compare (cmp_pair String.compare Z.compare).

(** The rows whose date is not NaT, with that date ([dropna=True]). *)
Definition dated (df : list RawRow) : list (RawRow * Z) :=
  flat_map (fun r => match raw_Date r with
                     | Some d => [(r, d)]
                     | None => []
                     end) df.

(** [df.groupby(["Category", "Brand", "Date"], as_index=False).agg(agg_dict)] *)
Definition aggregate (agg : list (string * aggfn)) (df : list RawRow) : list Row :=
  map (fun g =>
         {| Date := snd (snd (fst g));
            Category := fst (fst g);
            Brand := fst (snd (fst g));
            cells := map (fun ca =>
                            (fst ca,
                             apply_agg (snd ca)
                               (map (fun r => get (fst ca) (raw_cells (fst r))) (snd g))))
                         agg |})
      (groupby cmp_key group_key (dated df)).

(** The frame after each block of [preprocess_data], in source order. *)
Definition fill_missing (cols : list string) (df : list RawRow) : list RawRow :=
  let df := fill_median "Online_Popularity" df in
  let df := fill_median "Total_Sales" df in
  let df := fill_median "Quantity_Sold" df in
  let df := fold_left (fun acc c => fill_median c acc)
                      (filter (has_column cols) numeric_fill_cols) df in
  if has_column cols "Is_Holiday"
  then assign "Is_Holiday" (fillna (Fin 0) (rcolumn "Is_Holiday" df)) df
  else df.

Definition encode (df : list RawRow) : list RawRow :=
  let df := assign "Category_Encoded" (label_encode (map raw_Category df)) df in
  let df := assign "Brand_Encoded" (label_encode (map raw_Brand df)) df in
  assign "Region_Encoded" (label_encode (map raw_Region df)) df.

Definition engineer (df : list RawRow) : list RawRow :=
  let df := assign "Sales_Lag_1" (group_transform shift1 "Total_Sales" df) df in
  let df := assign "Sales_MA_3" (group_transform rolling3_mean "Total_Sales" df) df in
  let df := assign "Sales_Lag_1"
                   (group_transform (fun x => bfill (ffill x)) "Sales_Lag_1" df) df in
  assign "Sales_MA_3"
         (fillna_with (rcolumn "Total_Sales" df) (rcolumn "Sales_MA_3" df)) df.

Definition added_columns : list string :=
  [ "Category_Encoded"; "Brand_Encoded"; "Region_Encoded";
    "Sales_Lag_1"; "Sales_MA_3" ].

Definition transform (raw : RawFrame) : DataFrame :=
  let cols0 := raw_columns raw in
  let df := fill_missing cols0 (raw_rows raw) in
  let df := sort_values df in
  let df := encode df in
  let df := engineer df in
  let cols := cols0 ++ added_columns in
  let df := normalize cols df in
  let agg := filter (fun ca => has_column cols (fst ca)) agg_dict in
  {| columns := map fst agg; rows := aggregate agg df |}.

(** [preprocess_data()]: the new state of the files and the returned
    frame, or the exception. *)
Definition preprocess_data (fs : FileSystem) : result (FileSystem * DataFrame) :=
  match RAW_DATA_FILE fs with
  | None => Raise (FileNotFoundError RAW_DATA_PATH)
  | Some raw =>
      let df_agg := transform raw in
      Ok ({| RAW_DATA_FILE := RAW_DATA_FILE fs;
             PROCESSED_FILE := Some df_agg;
             PROPHET_FORECAST_FILE := PROPHET_FORECAST_FILE fs;
             PROPHET_METRICS_FILE := PROPHET_METRICS_FILE fs;
             LSTM_FORECAST_FILE := LSTM_FORECAST_FILE fs;
             LSTM_METRICS_FILE := LSTM_METRICS_FILE fs |},
          df_agg)
  end.
End Normalisation.

End Preprocessing.

(* ===================================================================== *)
(** * Test doubles and sample tables *)
(* ===================================================================== *)

Module Examples.

(** Doubles for the numerical libraries: metrics that report 0, a network
    that answers one half on every window, an additive model that
    answers 0 with bounds 0. *)
Definition metrics_double : Metrics :=
  {| mean_squared_error_value := fun _ _ => Fin 0;
     mean_absolute_percentage_error_value := fun _ _ => Fin 0;
     np_sqrt := fun x => x |}.

Definition train_double (input_dim : nat) (X : list matrix) (y : list num) : unit := tt.
Definition forward_double (net : unit) (window : matrix) : num := Fin (1 # 2).

Definition fit_double (regs : list string) (history : list DatedRow) : unit := tt.
Definition predict_double (m : unit) (r : DatedRow) : num * (num * num) :=
  (Fin 0, (Fin 0, Fin 0)).

Definition qz (z : Z) : num := Fin (inject_Z z).

(** A brand observed on the days [1 .. n]: sales grow by one a day, the
    popularity score cycles through 0, 1, 2, and the promotion flag
    alternates. *)
Definition daily_row (brand : string) (i : nat) : Row :=
  {| Date := Z.of_nat i;
     Category := "Dairy";
     Brand := brand;
     cells := [ ("Total_Sales", qz (100 + Z.of_nat i));
                ("Online_Popularity", qz (Z.of_nat (i mod 3)));
                ("Promotion", qz (Z.of_nat (i mod 2))) ] |}.

Definition daily (brand : string) (n : nat) : list Row :=
  map (daily_row brand) (seq 1 n).

Definition with_cell (c : string) (v : num) (r : Row) : Row :=
  {| Date := Date r; Category := Category r; Brand := Brand r;
     cells := set_cell c v (cells r) |}.

Definition table_columns : list string :=
  [ "Total_Sales"; "Online_Popularity"; "Promotion" ].

(** Two healthy brands of 30 days each. *)
Definition healthy : DataFrame :=
  {| columns := table_columns; rows := daily "Alpha" 30 ++ daily "Beta" 30 |}.

(** One brand of 5 days. *)
Definition five_days : DataFrame :=
  {| columns := table_columns; rows := daily "Alpha" 5 |}.

(** One brand of 10 days. *)
Definition ten_days : DataFrame :=
  {| columns := table_columns; rows := daily "Alpha" 10 |}.

(** A brand of 10 days whose promotion flag is missing on the last day. *)
Definition promo_gap : list Row :=
  daily "Gamma" 9 ++ [ with_cell "Promotion" NaN (daily_row "Gamma" 10) ].

(** A brand of 10 days with an infinite sales figure on day 3. *)
Definition sales_overflow : list Row :=
  daily "Delta" 2 ++ [ with_cell "Total_Sales" PInf (daily_row "Delta" 3) ]
  ++ map (daily_row "Delta") (seq 4 7).

(** A healthy brand next to a brand of 2 days. *)
Definition with_tiny : DataFrame :=
  {| columns := table_columns; rows := daily "Alpha" 30 ++ daily "Tiny" 2 |}.

(** A healthy brand next to the brand with the infinite sales figure. *)
Definition with_overflow : DataFrame :=
  {| columns := table_columns; rows := daily "Alpha" 30 ++ sales_overflow |}.

(** A healthy brand next to the brand with the missing promotion flag. *)
Definition with_promo_gap : DataFrame :=
  {| columns := table_columns; rows := daily "Alpha" 30 ++ promo_gap |}.

Definition fs_of (df : DataFrame) : FileSystem :=
  {| RAW_DATA_FILE := None;
     PROCESSED_FILE := Some df;
     PROPHET_FORECAST_FILE := None;
     PROPHET_METRICS_FILE := None;
     LSTM_FORECAST_FILE := None;
     LSTM_METRICS_FILE := None |}.

(** A brand of 30 days whose stock level is 5 on every day. *)
Definition constant_stock : DataFrame :=
  {| columns := table_columns ++ [ "Stock_Level" ];
     rows := map (fun r => {| Date := Date r; Category := Category r; Brand := Brand r;
                              cells := cells r ++ [ ("Stock_Level", qz 5) ] |})
                 (daily "Alpha" 30) |}.

(** A double for the square root: the integer root of the ceiling. *)
Definition sqrt_double (q : Q) : Q := inject_Z (Z.sqrt (Qceiling q)).

(** A raw table of four sales records, two of them of the same brand on
    the same day. *)
Definition raw_row (brand : string) (day sales quantity popularity promotion : Z)
  : RawRow :=
  {| raw_Date := Some day;
     raw_Category := "Dairy";
     raw_Brand := brand;
     raw_Region := "North";
     raw_cells := [ ("Total_Sales", qz sales);
                    ("Quantity_Sold", qz quantity);
                    ("Online_Popularity", qz popularity);
                    ("Promotion", qz promotion);
                    ("Discount_Percentage", qz (10 * promotion)) ] |}.

Definition raw_sales : RawFrame :=
  {| raw_columns := [ "Date"; "Category"; "Brand"; "Region"; "Total_Sales";
                      "Quantity_Sold"; "Online_Popularity"; "Promotion";
                      "Discount_Percentage" ];
     raw_rows := [ raw_row "Beta" 2 40 4 7 1;
                   raw_row "Alpha" 1 10 1 3 1;
                   raw_row "Alpha" 1 20 2 5 0;
                   raw_row "Alpha" 2 30 3 9 1 ] |}.

Definition raw_fs : FileSystem :=
  {| RAW_DATA_FILE := Some raw_sales;
     PROCESSED_FILE := None;
     PROPHET_FORECAST_FILE := None;
     PROPHET_METRICS_FILE := None;
     LSTM_FORECAST_FILE := None;
     LSTM_METRICS_FILE := None |}.

Definition lstm_run := Lstm.run_lstm_forecast train_double forward_double metrics_double.
Definition lstm_brands := Lstm.run_brands train_double forward_double metrics_double.
Definition prophet_run := Seasonal.forecast_with_prophet fit_double predict_double metrics_double.
Definition prophet_brands := Seasonal.run_brands fit_double predict_double metrics_double.

End Examples.

(* ===================================================================== *)
(** * Facts about grouping *)
(* ===================================================================== *)

Section GroupingFacts.
Variable K : Type.
Variable cmp : K -> K -> comparison.
Hypothesis cmp_eq : forall a b, cmp a b = Eq <-> a = b.
Hypothesis cmp_antisym : forall a b, cmp a b = CompOpp (cmp b a).
Hypothesis cmp_trans : forall a b c, cmp a b = Lt -> cmp b c = Lt -> cmp a c = Lt.

Definition klt (a b : K) : Prop := cmp a b = Lt.

Lemma key_eqb_eq a b : key_eqb cmp a b = true <-> a = b.
Proof.
  unfold key_eqb. rewrite <- cmp_eq. destruct (cmp a b); split; congruence.
Qed.

Lemma key_eqb_refl a : key_eqb cmp a a = true.
Proof. now apply key_eqb_eq. Qed.

Lemma key_eqb_neq a b : key_eqb cmp a b = false <-> a <> b.
Proof.
  rewrite <- key_eqb_eq. destruct (key_eqb cmp a b); split; congruence.
Qed.

Lemma cmp_gt_lt a b : cmp a b = Gt -> cmp b a = Lt.
Proof. intros H. rewrite cmp_antisym, H. reflexivity. Qed.

Lemma insert_key_In x k l : In x (insert_key cmp k l) <-> x = k \/ In x l.
Proof.
  induction l as [|h t IH]; simpl.
  - intuition.
  - destruct (cmp k h) eqn:E; simpl.
    + apply cmp_eq in E. subst. intuition.
    + intuition.
    + rewrite IH. intuition.
Qed.

Lemma unique_sorted_In x ks : In x (unique_sorted cmp ks) <-> In x ks.
Proof.
  induction ks as [|k t IH]; simpl.
  - tauto.
  - rewrite insert_key_In, IH. intuition.
Qed.

Lemma insert_key_sorted k l :
  StronglySorted klt l -> StronglySorted klt (insert_key cmp k l).
Proof.
  induction 1 as [|h t Hs IH Hall]; simpl.
  - repeat constructor.
  - destruct (cmp k h) eqn:E.
    + now constructor.
    + constructor; [now constructor|].
      constructor; [exact E|].
      rewrite Forall_forall in *. intros y Hy. eapply cmp_trans; eauto.
      now apply Hall.
    + constructor; [exact IH|].
      rewrite Forall_forall in *. intros y Hy.
      apply insert_key_In in Hy. destruct Hy as [->|Hy].
      * now apply cmp_gt_lt.
      * now apply Hall.
Qed.

Lemma unique_sorted_sorted ks : StronglySorted klt (unique_sorted cmp ks).
Proof.
  induction ks; simpl; [constructor|]. now apply insert_key_sorted.
Qed.

Lemma klt_irrefl a : ~ klt a a.
Proof.
  unfold klt. intros H. assert (cmp a a = Eq) by now apply cmp_eq. congruence.
Qed.

Lemma sorted_NoDup l : StronglySorted klt l -> NoDup l.
Proof.
  induction 1 as [|h t Hs IH Hall]; constructor; auto.
  intros Hin. rewrite Forall_forall in Hall.
  exact (klt_irrefl (Hall _ Hin)).
Qed.

Lemma unique_sorted_NoDup ks : NoDup (unique_sorted cmp ks).
Proof. apply sorted_NoDup, unique_sorted_sorted. Qed.

Lemma insert_key_below k l :
  Forall (klt k) l -> insert_key cmp k l = k :: l.
Proof.
  destruct l as [|h t]; simpl; [reflexivity|].
  intros H. inversion H as [|? ? Hh Ht]; subst. unfold klt in Hh. now rewrite Hh.
Qed.

(** Filtering the keys before or after sorting is the same. *)
Lemma filter_insert_key (p : K -> bool) k l :
  StronglySorted klt l ->
  filter p (insert_key cmp k l) =
  if p k then insert_key cmp k (filter p l) else filter p l.
Proof.
  induction 1 as [|h t Hs IH Hall]; simpl.
  - destruct (p k); reflexivity.
  - destruct (cmp k h) eqn:E.
    + apply cmp_eq in E. subst h. simpl.
      destruct (p k) eqn:Pk; [|reflexivity].
      simpl. now rewrite (proj2 (cmp_eq k k) eq_refl).
    + simpl. destruct (p k) eqn:Pk, (p h) eqn:Ph; simpl; rewrite ?E; try reflexivity.
      symmetry. apply insert_key_below.
      rewrite Forall_forall in *. intros y Hy. apply filter_In in Hy.
      eapply cmp_trans; [exact E|]. now apply Hall.
    + simpl. rewrite IH.
      destruct (p k) eqn:Pk, (p h) eqn:Ph; simpl; rewrite ?E; reflexivity.
Qed.

Lemma filter_unique_sorted (p : K -> bool) ks :
  filter p (unique_sorted cmp ks) = unique_sorted cmp (filter p ks).
Proof.
  induction ks as [|k t IH]; simpl; [reflexivity|].
  rewrite filter_insert_key by apply unique_sorted_sorted.
  destruct (p k); simpl; now rewrite IH.
Qed.

Variable A : Type.
Variable key : A -> K.

Lemma groupby_keys (rows : list A) :
  map fst (groupby cmp key rows) = unique_sorted cmp (map key rows).
Proof.
  unfold groupby. rewrite map_map. simpl. apply map_id.
Qed.

Lemma groupby_In k g (rows : list A) :
  In (k, g) (groupby cmp key rows) ->
  In k (map key rows) /\ g = filter (fun r => key_eqb cmp (key r) k) rows.
Proof.
  unfold groupby. intros H. apply in_map_iff in H.
  destruct H as (k' & E & Hin). inversion E; subst.
  split; [exact (proj1 (unique_sorted_In _ _) Hin) | reflexivity].
Qed.

Lemma groupby_group_keys k g (rows : list A) :
  In (k, g) (groupby cmp key rows) -> Forall (fun r => key r = k) g.
Proof.
  intros H. apply groupby_In in H. destruct H as [_ ->].
  rewrite Forall_forall. intros r Hr. apply filter_In in Hr.
  now apply key_eqb_eq.
Qed.

Lemma groupby_group_nonempty k g (rows : list A) :
  In (k, g) (groupby cmp key rows) -> g <> [].
Proof.
  intros H. apply groupby_In in H. destruct H as [Hk ->].
  apply in_map_iff in Hk. destruct Hk as (r & Er & Hr).
  intros E. assert (Hin : In r (filter (fun r => key_eqb cmp (key r) k) rows)).
  { apply filter_In. split; [exact Hr|]. now apply key_eqb_eq. }
  rewrite E in Hin. exact Hin.
Qed.

Lemma groupby_keys_NoDup (rows : list A) :
  NoDup (map fst (groupby cmp key rows)).
Proof. rewrite groupby_keys. apply unique_sorted_NoDup. Qed.

Lemma groupby_keys_sorted (rows : list A) :
  StronglySorted klt (map fst (groupby cmp key rows)).
Proof. rewrite groupby_keys. apply unique_sorted_sorted. Qed.

(** Dropping the rows of one key drops its group and nothing else. *)
Lemma groupby_without b (rows : list A) :
  groupby cmp key (filter (fun r => negb (key_eqb cmp (key r) b)) rows) =
  filter (fun g => negb (key_eqb cmp (fst g) b)) (groupby cmp key rows).
Proof.
  unfold groupby.
  set (q := fun k => negb (key_eqb cmp k b)).
  assert (Hk : map key (filter (fun r => q (key r)) rows) = filter q (map key rows)).
  { induction rows as [|r t IH]; simpl; [reflexivity|].
    destruct (q (key r)); simpl; now rewrite IH. }
  change (fun r => negb (key_eqb cmp (key r) b)) with (fun r => q (key r)).
  rewrite Hk, <- filter_unique_sorted.
  induction (unique_sorted cmp (map key rows)) as [|k t IH]; simpl; [reflexivity|].
  change (negb (key_eqb cmp k b)) with (q k).
  destruct (q k) eqn:Q; simpl; [|exact IH].
  f_equal; [|exact IH].
  f_equal. clear IH Hk.
  induction rows as [|r rs IHr]; simpl; [reflexivity|].
  destruct (q (key r)) eqn:Qr; simpl.
  - destruct (key_eqb cmp (key r) k); now rewrite IHr.
  - destruct (key_eqb cmp (key r) k) eqn:E; [|exact IHr].
    apply key_eqb_eq in E. rewrite E in Qr. congruence.
Qed.
End GroupingFacts.

(* ===================================================================== *)
(** * The orders used for grouping *)
(* ===================================================================== *)

Lemma Zcmp_eq (a b : Z) : Z.compare a b = Eq <-> a = b.
Proof. apply Z.compare_eq_iff. Qed.

Lemma Zcmp_antisym (a b : Z) : Z.compare a b = CompOpp (Z.compare b a).
Proof. apply Z.compare_antisym. Qed.

Lemma Zcmp_trans (a b c : Z) :
  Z.compare a b = Lt -> Z.compare b c = Lt -> Z.compare a c = Lt.
Proof. rewrite !Z.compare_lt_iff. lia. Qed.

Lemma Scmp_eq (a b : string) : String.compare a b = Eq <-> a = b.
Proof. apply String_as_OT.cmp_eq. Qed.

Lemma Scmp_antisym (a b : string) :
  String.compare a b = CompOpp (String.compare b a).
Proof. apply String_as_OT.cmp_antisym. Qed.

Lemma Scmp_trans (a b c : string) :
  String.compare a b = Lt -> String.compare b c = Lt -> String.compare a c = Lt.
Proof.
  intros H1 H2. apply String_as_OT.cmp_lt.
  eapply String_as_OT.lt_trans; apply String_as_OT.cmp_lt; eassumption.
Qed.

(** The lexicographic product of two such orders is one. *)
Section PairOrder.
Variables (A B : Type).
Variable ca : A -> A -> comparison.
Variable cb : B -> B -> comparison.
Hypothesis ca_eq : forall a b, ca a b = Eq <-> a = b.
Hypothesis ca_antisym : forall a b, ca a b = CompOpp (ca b a).
Hypothesis ca_trans : forall a b c, ca a b = Lt -> ca b c = Lt -> ca a c = Lt.
Hypothesis cb_eq : forall a b, cb a b = Eq <-> a = b.
Hypothesis cb_antisym : forall a b, cb a b = CompOpp (cb b a).
Hypothesis cb_trans : forall a b c, cb a b = Lt -> cb b c = Lt -> cb a c = Lt.

Lemma cmp_pair_eq (x y : A * B) : cmp_pair ca cb x y = Eq <-> x = y.
Proof.
  destruct x as [a b], y as [a' b']. unfold cmp_pair. simpl.
  destruct (ca a a') eqn:E.
  - apply ca_eq in E. subst. rewrite cb_eq. split; congruence.
  - split; [discriminate|]. intros H. inversion H; subst.
    rewrite (proj2 (ca_eq a' a') eq_refl) in E. discriminate.
  - split; [discriminate|]. intros H. inversion H; subst.
    rewrite (proj2 (ca_eq a' a') eq_refl) in E. discriminate.
Qed.

Lemma cmp_pair_antisym (x y : A * B) :
  cmp_pair ca cb x y = CompOpp (cmp_pair ca cb y x).
Proof.
  destruct x as [a b], y as [a' b']. unfold cmp_pair. simpl.
  rewrite (ca_antisym a a'). destruct (ca a' a); simpl; auto.
Qed.

Lemma cmp_pair_trans (x y z : A * B) :
  cmp_pair ca cb x y = Lt -> cmp_pair ca cb y z = Lt -> cmp_pair ca cb x z = Lt.
Proof.
  destruct x as [a b], y as [a' b'], z as [a'' b'']. unfold cmp_pair. simpl.
  destruct (ca a a') eqn:E1; try discriminate;
    destruct (ca a' a'') eqn:E2; try discriminate; intros H1 H2.
  - apply ca_eq in E1, E2. subst.
    rewrite (proj2 (ca_eq a'' a'') eq_refl). eauto.
  - apply ca_eq in E1. subst. now rewrite E2.
  - apply ca_eq in E2. subst. now rewrite E1.
  - now rewrite (ca_trans E1 E2).
Qed.
End PairOrder.

Create HintDb orders.
#[local] Hint Resolve Zcmp_eq Zcmp_antisym Zcmp_trans
  Scmp_eq Scmp_antisym Scmp_trans : orders.
#[local] Hint Resolve cmp_pair_eq cmp_pair_antisym cmp_pair_trans : orders.

Ltac orders := first [exact Zcmp_trans | exact Scmp_trans | eauto with orders].

Lemma klt_Z (a b : Z) : klt Z.compare a b <-> a < b.
Proof. unfold klt. apply Z.compare_lt_iff. Qed.

(** The per-brand frame has one row per date, in ascending date order. *)
Lemma aggregate_by_date_ds agg rows :
  map ds (aggregate_by_date agg rows) = unique_sorted Z.compare (map Date rows).
Proof.
  unfold aggregate_by_date. rewrite map_map. simpl.
  apply (groupby_keys Z.compare Date rows).
Qed.

Lemma StronglySorted_impl {A} (R S : A -> A -> Prop) l :
  (forall a b, R a b -> S a b) -> StronglySorted R l -> StronglySorted S l.
Proof.
  intros H. induction 1 as [|h t Hs IH Hall]; constructor; auto.
  eapply Forall_impl; [|exact Hall]. auto.
Qed.

Lemma aggregate_by_date_sorted agg rows :
  StronglySorted Z.lt (map ds (aggregate_by_date agg rows)).
Proof.
  rewrite aggregate_by_date_ds.
  eapply StronglySorted_impl; [|apply unique_sorted_sorted; orders].
  intros a b. apply klt_Z.
Qed.

Lemma aggregate_by_date_In agg rows d :
  In d (map ds (aggregate_by_date agg rows)) <-> In d (map Date rows).
Proof.
  rewrite aggregate_by_date_ds. apply unique_sorted_In; orders.
Qed.

(** A sorted sub-list of a strongly sorted list. *)
Lemma StronglySorted_filter_map {A} (f : A -> Z) (p : A -> bool) l :
  StronglySorted Z.lt (map f l) -> StronglySorted Z.lt (map f (filter p l)).
Proof.
  induction l as [|h t IH]; simpl; intros H; [constructor|].
  inversion H as [|? ? Hs Hall]; subst.
  destruct (p h); simpl; [|now apply IH].
  constructor; [now apply IH|].
  rewrite Forall_forall in *. intros y Hy. apply Hall.
  apply in_map_iff in Hy. destruct Hy as (x & <- & Hx).
  apply filter_In in Hx. apply in_map. tauto.
Qed.

Lemma StronglySorted_app_lt l1 l2 :
  StronglySorted Z.lt (l1 ++ l2) ->
  forall a b, In a l1 -> In b l2 -> a < b.
Proof.
  induction l1 as [|h t IH]; simpl; intros H a b Ha Hb; [contradiction|].
  inversion H as [|? ? Hs Hall]; subst.
  destruct Ha as [->|Ha].
  - rewrite Forall_forall in Hall. apply Hall. apply in_or_app. now right.
  - now apply IH.
Qed.

(* ===================================================================== *)
(** * The sequence forecaster: rollout *)
(* ===================================================================== *)

Section RolloutFacts.
Variable Net : Type.
Variable forward : Net -> matrix -> num.
Variable model : Net.

(** What every pass of the rollout loop preserves. *)
Definition rollout_inv (scaled0 : matrix) (n : nat) (s : Lstm.rollout_state) : Prop :=
  Lstm.rs_scaled s = scaled0 ++ Lstm.rs_future_scaled s
  /\ List.length (Lstm.rs_future_scaled s) = n
  /\ tl (last (Lstm.rs_scaled s) []) = tl (last scaled0 [])
  /\ Forall (fun row => tl row = tl (last scaled0 []))
            (Lstm.rs_future_scaled s).

Lemma rollout_step_inv scaled0 n s :
  rollout_inv scaled0 n s ->
  rollout_inv scaled0 (S n) (Lstm.rollout_step forward model s).
Proof.
  intros (Hs & Hn & Hl & Hf). unfold rollout_inv, Lstm.rollout_step. simpl.
  repeat split.
  - rewrite Hs at 1. now rewrite app_assoc.
  - rewrite length_app, Hn. simpl. lia.
  - rewrite last_last. simpl. exact Hl.
  - apply Forall_app. split; [exact Hf|].
    constructor; [|constructor]. simpl. exact Hl.
Qed.

Lemma rollout_inv_holds scaled0 n :
  rollout_inv scaled0 n (Lstm.rollout forward model n scaled0).
Proof.
  unfold Lstm.rollout. induction n as [|n IH].
  - simpl. unfold rollout_inv. simpl. rewrite app_nil_r. auto.
  - rewrite Nat.iter_succ. now apply rollout_step_inv.
Qed.

(** In a synthetic row only the first entry, the prediction made from
    the window of the previous pass, is new. *)
Lemma rollout_step_future s :
  Lstm.rs_future_scaled (Lstm.rollout_step forward model s) =
  Lstm.rs_future_scaled s
  ++ [forward model (Lstm.rs_last_seq s) :: tl (last (Lstm.rs_scaled s) [])].
Proof. reflexivity. Qed.
End RolloutFacts.

(** C2. During the 30-step rollout of the sequence forecaster the running
    series is the observed scaled series followed by the synthetic rows,
    there are 30 of them, and in every synthetic row all features but the
    first (the sales target) equal those of the last observed scaled row. *)
Theorem C2_rollout_freezes_exogenous_features
    (Net : Type) (forward : Net -> matrix -> num) (model : Net) (scaled : matrix) :
  let final := Lstm.rollout forward model 30 scaled in
  Lstm.rs_scaled final = scaled ++ Lstm.rs_future_scaled final
  /\ List.length (Lstm.rs_future_scaled final) = 30%nat
  /\ Forall (fun next_step => tl next_step = tl (last scaled []))
            (Lstm.rs_future_scaled final).
Proof.
  intros final.
  destruct (rollout_inv_holds forward model scaled 30) as (H1 & H2 & _ & H4).
  auto.
Qed.

(* ===================================================================== *)
(** * The min-max scaler *)
(* ===================================================================== *)

(** Two cells hold the same value (a missing cell matches a missing cell). *)
Definition same_value (x y : num) : Prop := num_eqb x y = true.

Definition no_inf (x : num) : Prop := isinf x = false.

(** The scale and offset the scaler derives from one column. *)
Definition column_scale (col : list num) : num :=
  ndiv (Fin 1) (handle_zeros_in_scale (nsub (nanmax col) (nanmin col))).

Definition column_min (col : list num) : num :=
  nsub (Fin 0) (nmul (nanmin col) (column_scale col)).

Definition scale_cell (x : num) (sm : num * num) : num :=
  nadd (nmul x (fst sm)) (snd sm).

Definition unscale_cell (x : num) (sm : num * num) : num :=
  ndiv (nsub x (snd sm)) (fst sm).

(** A cell and the parameters of its column for which scaling can be undone. *)
Definition invertible_at (x : num) (sm : num * num) : Prop :=
  same_value (unscale_cell (scale_cell x sm) sm) x /\ no_inf (scale_cell x sm).

Lemma nmin_cases x y : nmin x y = x \/ nmin x y = y.
Proof. unfold nmin. destruct (num_leb x y); auto. Qed.

Lemma nmax_cases x y : nmax x y = x \/ nmax x y = y.
Proof. unfold nmax. destruct (num_leb x y); auto. Qed.

Lemma fold_pick_finite (f : num -> num -> num) ys y :
  (forall a b, f a b = a \/ f a b = b) ->
  isfinite y = true -> Forall (fun z => isfinite z = true) ys ->
  isfinite (fold_left f ys y) = true.
Proof.
  intros Hf. revert y. induction ys as [|z t IH]; simpl; intros y Hy Hall; [exact Hy|].
  inversion Hall; subst. apply IH; [|assumption].
  destruct (Hf y z) as [-> | ->]; assumption.
Qed.

Lemma dropna_finite col :
  Forall no_inf col -> Forall (fun z => isfinite z = true) (dropna col).
Proof.
  unfold dropna. intros H. rewrite Forall_forall in *. intros z Hz.
  apply filter_In in Hz. destruct Hz as [Hin Hn]. specialize (H _ Hin).
  unfold no_inf in H. destruct z; cbv in *; congruence.
Qed.

Lemma nan_stats_finite col a :
  In (Fin a) col -> Forall no_inf col ->
  exists mn mx, nanmin col = Fin mn /\ nanmax col = Fin mx.
Proof.
  intros Hin Hall. pose proof (dropna_finite Hall) as Hfin.
  assert (Hne : In (Fin a) (dropna col)) by (apply filter_In; auto).
  unfold nanmin, nanmax. destruct (dropna col) as [|y ys]; [contradiction|].
  inversion Hfin as [|? ? Hy Hys]; subst.
  assert (Hlo : isfinite (fold_left nmin ys y) = true)
    by (apply fold_pick_finite; auto using nmin_cases).
  assert (Hhi : isfinite (fold_left nmax ys y) = true)
    by (apply fold_pick_finite; auto using nmax_cases).
  destruct (fold_left nmin ys y); try discriminate.
  destruct (fold_left nmax ys y); try discriminate.
  eauto.
Qed.

Lemma handle_zeros_positive q :
  exists q', handle_zeros_in_scale (Fin q) = Fin q' /\ (0 < q')%Q.
Proof.
  unfold handle_zeros_in_scale.
  destruct (Qle_bool (10 * float_eps) q) eqn:E.
  - exists q. split; [reflexivity|]. apply Qle_bool_iff in E.
    eapply Qlt_le_trans; [|exact E]. reflexivity.
  - exists 1%Q. split; reflexivity.
Qed.

Lemma Qeq_bool_false_of_neq (s : Q) : ~ (s == 0)%Q -> Qeq_bool s 0 = false.
Proof.
  intros H. destruct (Qeq_bool s 0) eqn:E; [|reflexivity].
  apply Qeq_bool_iff in E. contradiction.
Qed.

Lemma column_params_finite col a :
  In (Fin a) col -> Forall no_inf col ->
  exists s m, column_scale col = Fin s /\ column_min col = Fin m /\ ~ (s == 0)%Q.
Proof.
  intros Hin Hall. destruct (nan_stats_finite _ Hin Hall) as (mn & mx & Hmn & Hmx).
  unfold column_min, column_scale. rewrite Hmn, Hmx.
  change (nsub (Fin mx) (Fin mn)) with (Fin (mx + - mn)).
  destruct (handle_zeros_positive (mx + - mn)) as (q' & Hq & Hpos).
  rewrite Hq. unfold ndiv.
  assert (Hq0 : ~ (q' == 0)%Q) by (intros E; rewrite E in Hpos; discriminate).
  rewrite (Qeq_bool_false_of_neq Hq0). simpl.
  exists (1 / q')%Q, (0 + - (mn * (1 / q')))%Q. repeat split.
  intros E. apply Hq0. 
  assert (H1 : (q' * (1 / q') == 1)%Q) by (field; exact Hq0).
  rewrite E in H1. rewrite Qmult_0_r in H1. discriminate.
Qed.

Lemma invertible_finite a s m :
  ~ (s == 0)%Q -> invertible_at (Fin a) (Fin s, Fin m).
Proof.
  intros Hs. unfold invertible_at, unscale_cell, scale_cell, same_value, no_inf. simpl.
  rewrite (Qeq_bool_false_of_neq Hs). simpl. split; [|reflexivity].
  apply Qeq_bool_iff. field. exact Hs.
Qed.

Lemma invertible_missing sm : invertible_at NaN sm.
Proof. destruct sm as [s m]. split; reflexivity. Qed.

(** Every cell of a column without infinities can be scaled and unscaled
    with the parameters of that column. *)
Lemma column_invertible col x :
  In x col -> Forall no_inf col ->
  invertible_at x (column_scale col, column_min col).
Proof.
  intros Hin Hall. destruct x as [a| | |].
  - destruct (column_params_finite _ Hin Hall) as (s & m & -> & -> & Hs).
    now apply invertible_finite.
  - apply invertible_missing.
  - rewrite Forall_forall in Hall. specialize (Hall _ Hin). discriminate.
  - rewrite Forall_forall in Hall. specialize (Hall _ Hin). discriminate.
Qed.

Lemma combine_map_same {A B C} (f : A -> B) (g : A -> C) l :
  combine (map f l) (map g l) = map (fun x => (f x, g x)) l.
Proof. induction l; simpl; congruence. Qed.

Lemma check_array_ok X :
  check_array X = Ok tt <-> Forall (Forall no_inf) X.
Proof.
  unfold check_array. destruct (existsb (existsb isinf) X) eqn:E.
  - split; [discriminate|]. intros H. exfalso.
    apply existsb_exists in E. destruct E as (row & Hrow & E).
    apply existsb_exists in E. destruct E as (x & Hx & E).
    rewrite Forall_forall in H. specialize (H _ Hrow).
    rewrite Forall_forall in H. specialize (H _ Hx). unfold no_inf in H. congruence.
  - split; [|reflexivity]. intros _.
    rewrite Forall_forall. intros row Hrow. rewrite Forall_forall. intros x Hx.
    unfold no_inf. destruct (isinf x) eqn:Ex; [|reflexivity].
    assert (existsb (existsb isinf) X = true); [|congruence].
    apply existsb_exists. exists row. split; [assumption|].
    apply existsb_exists. eauto.
Qed.

Lemma check_array_raises X e :
  check_array X = Raise e -> existsb (existsb isinf) X = true.
Proof.
  unfold check_array. destruct (existsb (existsb isinf) X); [reflexivity|discriminate].
Qed.

(** The scaler's two vectors, column by column. *)
Lemma scaler_fit_params X :
  check_array X = Ok tt ->
  exists sc, scaler_fit X = Ok sc
    /\ combine (scale_ sc) (min_ sc) =
       map (fun j => (column_scale (mcolumn j X), column_min (mcolumn j X)))
           (seq 0 (n_features X)).
Proof.
  intros Hc. unfold scaler_fit. rewrite Hc. simpl.
  eexists. split; [reflexivity|]. simpl.
  rewrite !combine_map_same, !map_map. simpl.
  rewrite !combine_map_same, !map_map. simpl.
  rewrite combine_map_same. reflexivity.
Qed.

Lemma Forall2_from_nth {A B} (R : A -> B -> Prop) (f : nat -> B) (d : A) l k :
  (forall j, (j < List.length l)%nat -> R (nth j l d) (f (k + j)%nat)) ->
  Forall2 R l (map f (seq k (List.length l))).
Proof.
  revert k. induction l as [|x t IH]; simpl; intros k H; constructor.
  - specialize (H 0%nat). rewrite Nat.add_0_r in H. apply H. lia.
  - apply IH. intros j Hj. specialize (H (S j)). simpl in H.
    rewrite Nat.add_succ_r in H. apply H. lia.
Qed.

Lemma transform_row_cells sc row :
  transform_row sc row =
  map (fun xsm => scale_cell (fst xsm) (snd xsm))
      (combine row (combine (scale_ sc) (min_ sc))).
Proof. reflexivity. Qed.

Lemma inverse_row_cells sc row :
  inverse_row sc row =
  map (fun xsm => unscale_cell (fst xsm) (snd xsm))
      (combine row (combine (scale_ sc) (min_ sc))).
Proof. reflexivity. Qed.

Lemma row_round_trip row P :
  Forall2 invertible_at row P ->
  Forall2 same_value
    (map (fun xsm => unscale_cell (fst xsm) (snd xsm))
         (combine (map (fun xsm => scale_cell (fst xsm) (snd xsm)) (combine row P)) P))
    row
  /\ Forall no_inf (map (fun xsm => scale_cell (fst xsm) (snd xsm)) (combine row P)).
Proof.
  induction 1 as [|x sm row P [Hx Hi] HF [IH1 IH2]]; simpl.
  - split; constructor.
  - split; constructor; assumption.
Qed.

(** Rows of the width of the table, cells that are not infinite. *)
Definition well_shaped (X : matrix) : Prop :=
  Forall (fun row => List.length row = n_features X) X /\ Forall (Forall no_inf) X.

Lemma mcolumn_no_inf j X : Forall (Forall no_inf) X -> Forall no_inf (mcolumn j X).
Proof.
  intros H. unfold mcolumn. rewrite Forall_forall in *. intros x Hx.
  apply in_map_iff in Hx. destruct Hx as (row & <- & Hrow).
  specialize (H _ Hrow). rewrite Forall_forall in H.
  destruct (Nat.lt_ge_cases j (List.length row)) as [Hj|Hj].
  - apply H. now apply nth_In.
  - rewrite nth_overflow by assumption. reflexivity.
Qed.

Lemma rows_invertible X row :
  well_shaped X -> In row X ->
  Forall2 invertible_at row
    (map (fun j => (column_scale (mcolumn j X), column_min (mcolumn j X)))
         (seq 0 (n_features X))).
Proof.
  intros [Hlen Hinf] Hrow.
  rewrite Forall_forall in Hlen. rewrite <- (Hlen _ Hrow).
  apply Forall2_from_nth with (d := NaN). intros j Hj. simpl.
  apply column_invertible.
  - unfold mcolumn. apply in_map_iff. exists row. auto.
  - now apply mcolumn_no_inf.
Qed.

(** Scaling a table and undoing it gives back every cell. *)
Lemma scaler_round_trip X :
  well_shaped X ->
  exists sc S back,
    scaler_fit_transform X = Ok (sc, S)
    /\ scaler_inverse_transform sc S = Ok back
    /\ Forall2 (Forall2 same_value) back X.
Proof.
  intros HX. pose proof HX as [Hlen Hinf].
  assert (Hc : check_array X = Ok tt) by now apply check_array_ok.
  destruct (scaler_fit_params X Hc) as (sc & Hfit & Hpar).
  assert (Hrows : forall row, In row X ->
            Forall2 same_value (inverse_row sc (transform_row sc row)) row
            /\ Forall no_inf (transform_row sc row)).
  { intros row Hrow. rewrite inverse_row_cells, transform_row_cells, Hpar.
    apply row_round_trip. now apply rows_invertible. }
  assert (HS : check_array (map (transform_row sc) X) = Ok tt).
  { apply check_array_ok. rewrite Forall_forall. intros r Hr.
    apply in_map_iff in Hr. destruct Hr as (row & <- & Hrow).
    now apply Hrows. }
  exists sc, (map (transform_row sc) X), (map (inverse_row sc) (map (transform_row sc) X)).
  unfold scaler_fit_transform, scaler_transform, scaler_inverse_transform.
  rewrite Hfit. simpl. rewrite Hc. simpl. rewrite HS. simpl.
  repeat split.
  rewrite map_map. clear - Hrows.
  induction X as [|row X IH]; simpl; constructor.
  - apply Hrows. now left.
  - apply IH. intros r Hr. apply Hrows. now right.
Qed.

Lemma scaler_fit_transform_raises X e :
  scaler_fit_transform X = Raise e -> existsb (existsb isinf) X = true.
Proof.
  unfold scaler_fit_transform, scaler_fit, scaler_transform.
  destruct (check_array X) as [[]|e'] eqn:Hc; simpl.
  - discriminate.
  - intros _. now apply check_array_raises in Hc.
Qed.

Lemma feature_array_shape feats brand_df :
  Forall (fun row => List.length row = n_features (Lstm.feature_array feats brand_df))
         (Lstm.feature_array feats brand_df).
Proof.
  unfold Lstm.feature_array. destruct brand_df as [|r t]; [constructor|].
  simpl. constructor; [reflexivity|].
  rewrite Forall_forall. intros row Hrow. apply in_map_iff in Hrow.
  destruct Hrow as (r' & <- & _). now rewrite !length_map.
Qed.


(* ===================================================================== *)
(** * The chronological split *)
(* ===================================================================== *)

Lemma floor_eight_tenths (n : nat) :
  Qfloor ((8 # 10) * inject_Z (Z.of_nat n)) = Z.of_nat (train_size_of n).
Proof.
  unfold train_size_of. rewrite Nat2Z.inj_div, Nat2Z.inj_mul.
  unfold Qfloor, Qmult, inject_Z. simpl Qnum. simpl Qden.
  rewrite Z.mul_comm. reflexivity.
Qed.

Lemma train_size_le (n : nat) : (train_size_of n <= n)%nat.
Proof.
  unfold train_size_of. apply Nat.Div0.div_le_upper_bound. lia.
Qed.

Lemma split_80_20_spec {A} (xs : list A) :
  fst (split_80_20 xs) ++ snd (split_80_20 xs) = xs
  /\ List.length (fst (split_80_20 xs)) = train_size_of (List.length xs).
Proof.
  unfold split_80_20. simpl. split.
  - apply firstn_skipn.
  - apply firstn_length_le, train_size_le.
Qed.

Lemma clean_ds_sorted df :
  StronglySorted Z.lt (map ds df) ->
  StronglySorted Z.lt (map ds (Seasonal.clean df)).
Proof.
  intros H. unfold Seasonal.clean.
  do 2 apply StronglySorted_filter_map.
  rewrite map_map. simpl. exact H.
Qed.

Lemma prophet_frame_sorted cols brand_rows :
  StronglySorted Z.lt (map ds (Seasonal.prophet_frame cols brand_rows)).
Proof.
  unfold Seasonal.prophet_frame. apply clean_ds_sorted.
  rewrite map_map. simpl. apply aggregate_by_date_sorted.
Qed.

Lemma samples_nth scaled i :
  (i < List.length scaled - Lstm.seq_length)%nat ->
  nth i (Lstm.samples scaled) ([], NaN) = Lstm.sample scaled i.
Proof.
  intros Hi. unfold Lstm.samples.
  rewrite nth_indep with (d' := Lstm.sample scaled 0)
    by (rewrite length_map, length_seq; exact Hi).
  rewrite (map_nth (Lstm.sample scaled) _ 0%nat), seq_nth by exact Hi.
  reflexivity.
Qed.


(* ===================================================================== *)
(** * The seasonal forecaster: admitted regressors *)
(* ===================================================================== *)

(** A column holds two values, neither missing, that differ. *)
Definition varies (xs : list num) : Prop :=
  exists x y, In x xs /\ In y xs /\ notnull x = true /\ notnull y = true
              /\ num_eqb x y = false.

Lemma num_eqb_refl x : num_eqb x x = true.
Proof. destruct x; simpl; auto. apply Qeq_bool_iff. reflexivity. Qed.

Lemma num_eqb_sym x y : num_eqb x y = num_eqb y x.
Proof.
  destruct x, y; simpl; auto.
  destruct (Qeq_bool q q0) eqn:E1, (Qeq_bool q0 q) eqn:E2; auto.
  - apply Qeq_bool_iff in E1. symmetry in E1. apply Qeq_bool_iff in E1. congruence.
  - apply Qeq_bool_iff in E2. symmetry in E2. apply Qeq_bool_iff in E2. congruence.
Qed.

Lemma num_eqb_trans x y z :
  num_eqb x y = true -> num_eqb y z = true -> num_eqb x z = true.
Proof.
  destruct x, y, z; simpl; try congruence.
  rewrite !Qeq_bool_iff. intros H1 H2. now rewrite H1.
Qed.

Lemma distinct_incl l x : In x (distinct l) -> In x l.
Proof.
  induction l as [|h t IH]; simpl; [tauto|].
  destruct (existsb (num_eqb h) t); simpl; intuition.
Qed.

(** Every value of the column is represented among the distinct ones. *)
Lemma distinct_represents l x :
  In x l -> exists a, In a (distinct l) /\ num_eqb x a = true.
Proof.
  revert x. induction l as [|h t IH]; simpl; intros x; [tauto|].
  intros [->|Hin].
  - destruct (existsb (num_eqb x) t) eqn:E.
    + apply existsb_exists in E. destruct E as (z & Hz & Hxz).
      destruct (IH _ Hz) as (a & Ha & Hza). exists a. split; [exact Ha|].
      eapply num_eqb_trans; eassumption.
    + exists x. split; [now left | apply num_eqb_refl].
  - destruct (IH _ Hin) as (a & Ha & Hxa).
    exists a. split; [|exact Hxa].
    destruct (existsb (num_eqb h) t); [exact Ha | now right].
Qed.

(** The distinct values differ from one another. *)
Lemma distinct_head_differs a b rest l :
  distinct l = a :: b :: rest -> num_eqb a b = false.
Proof.
  induction l as [|h t IH]; simpl; [discriminate|].
  destruct (existsb (num_eqb h) t) eqn:E; [exact IH|].
  intros H. inversion H; subst.
  destruct (num_eqb a b) eqn:Eab; [|reflexivity].
  assert (Hb : In b t) by (apply distinct_incl; rewrite H2; now left).
  assert (existsb (num_eqb a) t = true); [|congruence].
  apply existsb_exists. eauto.
Qed.

Lemma dropna_In x xs : In x (dropna xs) <-> In x xs /\ notnull x = true.
Proof. unfold dropna. apply filter_In. Qed.

Lemma nunique_varies xs : (1 < nunique xs)%nat <-> varies xs.
Proof.
  unfold nunique, varies. split.
  - intros H. destruct (distinct (dropna xs)) as [|a [|b rest]] eqn:E;
      simpl in H; try lia.
    assert (Ha : In a (dropna xs)) by (apply distinct_incl; rewrite E; now left).
    assert (Hb : In b (dropna xs))
      by (apply distinct_incl; rewrite E; right; now left).
    apply dropna_In in Ha, Hb. exists a, b.
    pose proof (distinct_head_differs _ E). tauto.
  - intros (x & y & Hx & Hy & Nx & Ny & Hxy).
    assert (Hx' : In x (dropna xs)) by now apply dropna_In.
    assert (Hy' : In y (dropna xs)) by now apply dropna_In.
    destruct (distinct_represents _ _ Hx') as (a & Ha & Hxa).
    destruct (distinct_represents _ _ Hy') as (b & Hb & Hyb).
    destruct (distinct (dropna xs)) as [|c [|d rest]]; simpl in *; try lia.
    destruct Ha as [->|[]], Hb as [->|[]].
    rewrite (num_eqb_sym y b) in Hyb.
    rewrite (num_eqb_trans _ _ _ Hxa Hyb) in Hxy. discriminate.
Qed.

Lemma regressors_to_use_In used train reg :
  In reg (Seasonal.regressors_to_use used train) <->
  (reg = "Trend_Score" \/ In reg used)
  /\ Seasonal.admit_regressor train reg = true.
Proof.
  unfold Seasonal.regressors_to_use. rewrite in_app_iff, filter_In. split.
  - intros [H|H].
    + destruct (Seasonal.admit_regressor train "Trend_Score") eqn:E;
        [|contradiction].
      destruct H as [<-|[]]. auto.
    + tauto.
  - intros [[->|H] Hadm].
    + left. rewrite Hadm. now left.
    + right. tauto.
Qed.

(** C3. For every brand the seasonal forecaster processes, a regressor is
    admitted into the model exactly when it is a candidate (the trend score
    or a covariate present in the table) and its column takes more than
    one distinct value on the brand's training split; so a column that is
    constant there is never admitted. *)
Theorem C3_admitted_regressors_vary (cols : list string) (brand_rows : list Row)
    (reg : string) :
  let train := fst (split_80_20 (Seasonal.prophet_frame cols brand_rows)) in
  let used := Seasonal.used_regressors (map fst (Seasonal.agg_dict cols)) in
  In reg (Seasonal.regressors_to_use used train) <->
  (reg = "Trend_Score" \/ In reg used)
  /\ (1 < nunique (column reg train))%nat
  /\ varies (column reg train).
Proof.
  intros train used. rewrite regressors_to_use_In.
  unfold Seasonal.admit_regressor. rewrite Nat.ltb_lt, <- nunique_varies. tauto.
Qed.

(** The stock level of the sample brand is a candidate, constant on the
    training split, and left out; the trend score and the promotion flag,
    which vary, are kept. *)
Example constant_covariate_left_out :
  let cols := columns Examples.constant_stock in
  let train := fst (split_80_20 (Seasonal.prophet_frame cols (rows Examples.constant_stock))) in
  let used := Seasonal.used_regressors (map fst (Seasonal.agg_dict cols)) in
  used = [ "Stock_Level"; "Promotion" ]
  /\ nunique (column "Stock_Level" train) = 1%nat
  /\ Seasonal.regressors_to_use used train = [ "Trend_Score"; "Promotion" ].
Proof. vm_compute. repeat split. Qed.

(* ===================================================================== *)
(** * The per-brand loop *)
(* ===================================================================== *)

Definition forecasts_of (outs : list outcome) : list (list ForecastRow) :=
  flat_map (fun o => match o with Produced _ f => [f] | Skipped => [] end) outs.

Definition metrics_of (outs : list outcome) : list MetricsRecord :=
  flat_map (fun o => match o with Produced m _ => [m] | Skipped => [] end) outs.

(** The rows of a forecast table that belong to one brand. *)
Definition rows_of_brand (b : string) (table : list ForecastRow) : list ForecastRow :=
  filter (fun r => String.eqb (fc_Brand r) b) table.

Definition date_brand (r : ForecastRow) : Z * string := (fc_Date r, fc_Brand r).

Section LoopFacts.
Variable step : string -> list Row -> result outcome.

Definition steps_to (g : string * list Row) (o : outcome) : Prop :=
  step (fst g) (snd g) = Ok o.

Lemma brand_loop_Ok groups F M F' M' :
  brand_loop step groups F M = Ok (F', M') ->
  exists outs, Forall2 steps_to groups outs
               /\ F' = F ++ forecasts_of outs /\ M' = M ++ metrics_of outs.
Proof.
  revert F M. induction groups as [|[k rows] rest IH]; simpl; intros F M H.
  - inversion H; subst. exists []. rewrite !app_nil_r. repeat split. constructor.
  - destruct (step k rows) as [o|e] eqn:E; simpl in H; [|discriminate].
    destruct o as [|m f].
    + destruct (IH _ _ H) as (outs & HF & -> & ->).
      exists (Skipped :: outs). repeat split. now constructor.
    + destruct (IH _ _ H) as (outs & HF & -> & ->).
      exists (Produced m f :: outs). simpl. rewrite <- !app_assoc.
      repeat split. now constructor.
Qed.

Lemma brand_loop_complete groups outs F M :
  Forall2 steps_to groups outs ->
  brand_loop step groups F M = Ok (F ++ forecasts_of outs, M ++ metrics_of outs).
Proof.
  intros H. revert F M. induction H as [|[k rows] o gs os Hs HF IH]; simpl; intros F M.
  - now rewrite !app_nil_r.
  - unfold steps_to in Hs. simpl in Hs. rewrite Hs. simpl.
    destruct o as [|m f]; rewrite IH; simpl; now rewrite <- ?app_assoc.
Qed.

(** An exception of the loop is the exception of one of its iterations. *)
Lemma brand_loop_Raise groups F M e :
  brand_loop step groups F M = Raise e ->
  exists k rows, In (k, rows) groups /\ step k rows = Raise e.
Proof.
  revert F M. induction groups as [|[k rows] rest IH]; simpl; intros F M H.
  - discriminate.
  - destruct (step k rows) as [o|e'] eqn:E; simpl in H.
    + destruct o; apply IH in H; destruct H as (k' & r' & Hin & Hs); eauto.
    + inversion H; subst. eauto.
Qed.

(** Groups on which the body takes [continue] can be left out. *)
Lemma brand_loop_skip (p : string * list Row -> bool) groups F M :
  (forall g, In g groups -> p g = false -> step (fst g) (snd g) = Ok Skipped) ->
  brand_loop step groups F M = brand_loop step (filter p groups) F M.
Proof.
  revert F M. induction groups as [|[k rows] rest IH]; simpl; intros F M H;
    [reflexivity|].
  destruct (p (k, rows)) eqn:Ep; simpl.
  - destruct (step k rows) as [[|m f]|e]; simpl; auto.
  - pose proof (H (k, rows) (or_introl eq_refl) Ep) as Hs. simpl in Hs.
    rewrite Hs. simpl. auto.
Qed.

(** What a body that produces rows for its own brand gives to the tables. *)
Hypothesis step_brand : forall k rows m f,
  step k rows = Ok (Produced m f) ->
  m_Brand m = k /\ Forall (fun r => fc_Brand r = k) f /\ f <> [].

Lemma step_block k rows m f :
  steps_to (k, rows) (Produced m f) ->
  m_Brand m = k /\ Forall (fun r => fc_Brand r = k) f /\ f <> [].
Proof. intros H. exact (step_brand H). Qed.

Lemma forecasts_brands groups outs b :
  Forall2 steps_to groups outs ->
  In b (map fc_Brand (List.concat (forecasts_of outs))) <->
  In b (map m_Brand (metrics_of outs)).
Proof.
  induction 1 as [|[k rows] o gs os Hs HF IH]; simpl; [tauto|].
  destruct o as [|m f]; simpl; [exact IH|].
  destruct (step_block Hs) as (Hm & Hf & Hne).
  rewrite map_app, in_app_iff, IH, Hm.
  assert (In b (map fc_Brand f) <-> k = b); [|tauto].
  split.
  - intros Hin. apply in_map_iff in Hin. destruct Hin as (r & <- & Hr).
    rewrite Forall_forall in Hf. symmetry. now apply Hf.
  - intros <-. destruct f as [|r t]; [congruence|].
    inversion Hf; subst. now left.
Qed.

Lemma rows_of_brand_own k f :
  Forall (fun r => fc_Brand r = k) f -> rows_of_brand k f = f.
Proof.
  unfold rows_of_brand. induction 1 as [|r t Hr Ht IH]; simpl; [reflexivity|].
  rewrite Hr, String.eqb_refl. now f_equal.
Qed.

Lemma rows_of_brand_other k b f :
  k <> b -> Forall (fun r => fc_Brand r = k) f -> rows_of_brand b f = [].
Proof.
  unfold rows_of_brand. intros Hkb. induction 1 as [|r t Hr Ht IH]; simpl;
    [reflexivity|].
  rewrite Hr. destruct (String.eqb_spec k b); [contradiction|exact IH].
Qed.

Lemma rows_of_brand_app b t1 t2 :
  rows_of_brand b (t1 ++ t2) = rows_of_brand b t1 ++ rows_of_brand b t2.
Proof. apply filter_app. Qed.

Lemma rows_of_brand_absent groups outs b :
  Forall2 steps_to groups outs ->
  ~ In b (map fst groups) ->
  rows_of_brand b (List.concat (forecasts_of outs)) = [].
Proof.
  induction 1 as [|[k rows] o gs os Hs HF IH]; simpl; intros Hb; [reflexivity|].
  destruct o as [|m f]; simpl; [tauto|].
  destruct (step_block Hs) as (_ & Hf & _).
  rewrite rows_of_brand_app, IH by tauto.
  rewrite (rows_of_brand_other (k := k)); auto.
Qed.

(** With one group per brand, the rows of a brand in the forecast table
    are the block its iteration appended. *)
Lemma rows_of_brand_block groups outs b :
  Forall2 steps_to groups outs ->
  NoDup (map fst groups) ->
  In b (map fc_Brand (List.concat (forecasts_of outs))) ->
  exists rows m f,
    In (b, rows) groups /\ step b rows = Ok (Produced m f)
    /\ rows_of_brand b (List.concat (forecasts_of outs)) = f.
Proof.
  induction 1 as [|[k rows] o gs os Hs HF IH]; simpl; intros Hnd Hin;
    [contradiction|].
  inversion Hnd as [|? ? Hk Hnd']; subst.
  destruct o as [|m f]; simpl in *.
  - destruct (IH Hnd' Hin) as (rows' & m' & f' & H1 & H2 & H3).
    exists rows', m', f'. auto.
  - destruct (step_block Hs) as (_ & Hf & _).
    rewrite map_app, in_app_iff in Hin. rewrite rows_of_brand_app.
    destruct (String.eqb_spec k b) as [->|Hkb].
    + exists rows, m, f. repeat split; auto.
      rewrite (rows_of_brand_own Hf), (rows_of_brand_absent b HF Hk).
      apply app_nil_r.
    + destruct Hin as [Hin|Hin].
      * exfalso. apply in_map_iff in Hin. destruct Hin as (r & Hr & Hrf).
        rewrite Forall_forall in Hf. specialize (Hf _ Hrf). congruence.
      * destruct (IH Hnd' Hin) as (rows' & m' & f' & H1 & H2 & H3).
        exists rows', m', f'. repeat split; auto.
        rewrite (rows_of_brand_other Hkb Hf). exact H3.
Qed.

(** No (Date, Brand) pair twice, when no block repeats a date. *)
Hypothesis step_dates : forall k rows m f,
  step k rows = Ok (Produced m f) -> NoDup (map fc_Date f).

Lemma step_block_dates k rows m f :
  steps_to (k, rows) (Produced m f) -> NoDup (map fc_Date f).
Proof. intros H. exact (step_dates H). Qed.

Lemma date_brand_NoDup groups outs :
  Forall2 steps_to groups outs ->
  NoDup (map fst groups) ->
  NoDup (map date_brand (List.concat (forecasts_of outs))).
Proof.
  induction 1 as [|[k rows] o gs os Hs HF IH]; simpl; intros Hnd; [constructor|].
  inversion Hnd as [|? ? Hk Hnd']; subst.
  destruct o as [|m f]; simpl; [auto|].
  destruct (step_block Hs) as (_ & Hf & _).
  pose proof (step_block_dates Hs) as Hd.
  rewrite map_app. apply NoDup_app.
  - clear - Hd. induction f as [|r t IHf]; simpl in *; [constructor|].
    inversion Hd; subst. constructor; [|auto].
    intros Hin. apply in_map_iff in Hin. destruct Hin as (r' & E & Hr').
    inversion E. apply H1. apply in_map_iff. eauto.
  - auto.
  - intros x Hx1 Hx2.
    apply in_map_iff in Hx1. destruct Hx1 as (r1 & <- & Hr1).
    apply in_map_iff in Hx2. destruct Hx2 as (r2 & E & Hr2).
    rewrite Forall_forall in Hf. specialize (Hf _ Hr1).
    assert (Hb : rows_of_brand k (List.concat (forecasts_of os)) = [])
      by (eapply rows_of_brand_absent; eauto).
    assert (Hin : In r2 (rows_of_brand k (List.concat (forecasts_of os)))).
    { apply filter_In. split; [exact Hr2|]. apply String.eqb_eq.
      unfold date_brand in E. inversion E. congruence. }
    rewrite Hb in Hin. exact Hin.
Qed.
End LoopFacts.

(* ===================================================================== *)
(** * Dates *)
(* ===================================================================== *)

Lemma date_range_length start n : List.length (date_range start n) = n.
Proof. unfold date_range. now rewrite length_map, length_seq. Qed.

Lemma date_range_In start n d :
  In d (date_range start n) <-> start <= d < start + Z.of_nat n.
Proof.
  unfold date_range. rewrite in_map_iff. split.
  - intros (i & <- & Hi). apply in_seq in Hi. lia.
  - intros H. exists (Z.to_nat (d - start)). split; [lia|].
    apply in_seq. lia.
Qed.

Lemma date_range_succ start n :
  date_range start (S n) = start :: date_range (start + 1) n.
Proof.
  unfold date_range. simpl. rewrite Z.add_0_r. f_equal.
  rewrite <- seq_shift, map_map. apply map_ext. intros i. lia.
Qed.

(** Consecutive days: strictly increasing, each one day after the other. *)
Lemma date_range_sorted start n : StronglySorted Z.lt (date_range start n).
Proof.
  revert start. induction n as [|n IH]; intros start.
  - constructor.
  - rewrite date_range_succ. constructor; [apply IH|].
    rewrite Forall_forall. intros d Hd. apply date_range_In in Hd. lia.
Qed.

Lemma sorted_Z_NoDup l : StronglySorted Z.lt l -> NoDup l.
Proof.
  induction 1 as [|h t Hs IH Hall]; constructor; auto.
  intros Hin. rewrite Forall_forall in Hall. specialize (Hall _ Hin). lia.
Qed.

Lemma fold_max_ge t d x : In x (d :: t) -> x <= fold_left Z.max t d.
Proof.
  revert d x. induction t as [|h t IH]; simpl; intros d x H.
  - destruct H as [->|[]]. lia.
  - destruct H as [->|[->|H]].
    + apply Z.le_trans with (Z.max x h); [lia|]. apply IH. now left.
    + apply Z.le_trans with (Z.max d x); [lia|]. apply IH. now left.
    + apply IH. now right.
Qed.

Lemma max_date_ge l x : In x l -> x <= max_date l.
Proof. destruct l as [|d t]; [contradiction|]. apply fold_max_ge. Qed.

Lemma fold_max_In t d : In (fold_left Z.max t d) (d :: t).
Proof.
  revert d. induction t as [|h t IH]; simpl; intros d; [now left|].
  destruct (IH (Z.max d h)) as [H|H]; [|right; right; exact H].
  rewrite <- H.
  destruct (Z.max_spec d h) as [[_ E]|[_ E]]; rewrite E; auto.
Qed.

Lemma max_date_In l : l <> [] -> In (max_date l) l.
Proof. destruct l as [|d t]; [congruence|]. intros _. apply fold_max_In. Qed.

(** The last observed date of a brand in the table. *)
Definition last_observed (b : string) (df : DataFrame) : Z :=
  max_date (map Date (filter (fun r => String.eqb (Brand r) b) (rows df))).

Lemma unique_dates_In x l : In x (unique_sorted Z.compare l) <-> In x l.
Proof. apply unique_sorted_In; orders. Qed.

Lemma max_date_unique_sorted l :
  max_date (unique_sorted Z.compare l) = max_date l.
Proof.
  destruct l as [|d t] eqn:El; [reflexivity|]. rewrite <- El.
  assert (Hne : l <> []) by (rewrite El; discriminate).
  assert (Hne' : unique_sorted Z.compare l <> []).
  { intros E. assert (In d (unique_sorted Z.compare l)).
    { apply unique_dates_In. rewrite El. now left. }
    rewrite E in H. exact H. }
  apply Z.le_antisymm.
  - apply max_date_ge. apply unique_dates_In. now apply max_date_In.
  - apply max_date_ge. apply unique_dates_In. now apply max_date_In.
Qed.

Lemma combine_fst {A B} (l1 : list A) (l2 : list B) :
  List.length l1 = List.length l2 -> map fst (combine l1 l2) = l1.
Proof.
  revert l2. induction l1 as [|a t IH]; destruct l2 as [|b t']; simpl;
    intros H; try discriminate; [reflexivity|].
  f_equal. apply IH. lia.
Qed.

(* ===================================================================== *)
(** * The sequence forecaster: what one brand contributes *)
(* ===================================================================== *)

Lemma Produced_inj m f m' f' :
  Ok (Produced m f) = Ok (Produced m' f') -> m = m' /\ f = f'.
Proof. intros H. inversion H. auto. Qed.

Lemma Ok_inj {A} (a b : A) : Ok a = Ok b -> a = b.
Proof. intros H. inversion H. reflexivity. Qed.

(** Inversion of the control flow of a loop body, one construct at a time. *)
Lemma bind_inv {A B} (c : result A) (k : A -> result B) v :
  bind c k = Ok v -> exists a, c = Ok a /\ k a = Ok v.
Proof. destruct c; simpl; [eauto|discriminate]. Qed.

Lemma if_skip_inv (b : bool) (r : result outcome) m f :
  (if b then Ok Skipped else r) = Ok (Produced m f) ->
  b = false /\ r = Ok (Produced m f).
Proof. destruct b; [discriminate|auto]. Qed.

Lemma if_raise_inv {A} (b : bool) e (r : result A) v :
  (if b then Raise e else r) = Ok v -> b = false /\ r = Ok v.
Proof. destruct b; [discriminate|auto]. Qed.

Lemma empty_skip_inv {A} (l : list A) (r : A -> list A -> result outcome) m f :
  match l with [] => Ok Skipped | x :: t => r x t end = Ok (Produced m f) ->
  exists x t, l = x :: t /\ r x t = Ok (Produced m f).
Proof. destruct l; [discriminate|eauto]. Qed.

Tactic Notation "bind_ok" hyp(H) ident(a) ident(E) :=
  apply bind_inv in H; destruct H as (a & E & H).

Unset Implicit Arguments.

Section LstmFacts.
Variable Net : Type.
Variable train_net : nat -> list matrix -> list num -> Net.
Variable forward : Net -> matrix -> num.
Variable L : Metrics.

Lemma rollout_length model n scaled :
  List.length (Lstm.rs_future_scaled (Lstm.rollout forward model n scaled)) = n.
Proof.
  destruct (rollout_inv_holds forward model scaled n) as (_ & H & _). exact H.
Qed.

Lemma inverse_transform_length sc X back :
  scaler_inverse_transform sc X = Ok back -> List.length back = List.length X.
Proof.
  unfold scaler_inverse_transform. intros H. bind_ok H u E.
  apply Ok_inj in H. subst back. apply length_map.
Qed.

Lemma fit_transform_length X fitted :
  scaler_fit_transform X = Ok fitted ->
  List.length (snd fitted) = List.length X.
Proof.
  unfold scaler_fit_transform. intros H.
  bind_ok H sc E. bind_ok H scaled E0. apply Ok_inj in H. subst fitted.
  unfold scaler_transform in E0. bind_ok E0 u E1. apply Ok_inj in E0. subst scaled.
  apply length_map.
Qed.

(** The forecast frame of a brand: 30 rows under its name, dated with
    the 30 days after the last date of its frame. *)
Lemma lstm_future_rows brand brand_df X0 scaler scaled model f :
  Lstm.forecast_future forward brand brand_df X0 scaler scaled model = Ok f ->
  Forall (fun r => fc_Brand r = brand) f
  /\ map fc_Date f = date_range (max_date (map ds brand_df) + 1) 30.
Proof.
  unfold Lstm.forecast_future. intros H. bind_ok H inv E.
  apply Ok_inj in H. subst f. split.
  - rewrite Forall_forall. intros r Hr. apply in_map_iff in Hr.
    destruct Hr as (dv & <- & _). reflexivity.
  - rewrite map_map. rewrite (map_ext _ fst) by reflexivity.
    apply combine_fst.
    rewrite date_range_length, length_map.
    rewrite (inverse_transform_length _ _ _ E), length_map, length_combine.
    rewrite rollout_length, repeat_length. reflexivity.
Qed.

(** A brand that is forecast has at least 27 dates and contributes a
    metrics row and 30 forecast rows under its own name. *)
Lemma lstm_brand_produced cols brand brand_rows m f :
  Lstm.forecast_brand train_net forward L cols brand brand_rows
    = Ok (Produced m f) ->
  m_Brand m = brand
  /\ Forall (fun r => fc_Brand r = brand) f
  /\ map fc_Date f =
     date_range (max_date (map ds (Lstm.brand_frame cols brand_rows)) + 1) 30
  /\ (Lstm.seq_length + 20 <= List.length (Lstm.brand_frame cols brand_rows))%nat.
Proof.
  unfold Lstm.forecast_brand. intros H.
  apply if_skip_inv in H. destruct H as [G1 H].
  bind_ok H fitted E.
  apply if_skip_inv in H. destruct H as [G2 H].
  bind_ok H scores E0. bind_ok H f' E1.
  apply Produced_inj in H. destruct H as [Hm Hf]. subst m f'.
  destruct (lstm_future_rows _ _ _ _ _ _ _ E1) as [Hb Hd].
  split; [reflexivity|]. split; [exact Hb|]. split; [exact Hd|].
  apply Nat.ltb_ge in G2. rewrite length_map in G2.
  unfold Lstm.samples in G2. rewrite length_map, length_seq in G2.
  rewrite (fit_transform_length _ _ E) in G2.
  unfold Lstm.feature_array in G2. rewrite length_map in G2.
  unfold Lstm.seq_length in *. lia.
Qed.
End LstmFacts.

(* ===================================================================== *)
(** * The seasonal forecaster: what one brand contributes *)
(* ===================================================================== *)

Lemma unique_sorted_of_sorted l :
  StronglySorted Z.lt l -> unique_sorted Z.compare l = l.
Proof.
  induction 1 as [|h t Hs IH Hall]; simpl; [reflexivity|].
  rewrite IH. apply insert_key_below.
  eapply Forall_impl; [|exact Hall]. intros a Ha. now apply klt_Z.
Qed.

Lemma future_dates_after last n :
  firstn n (filter (fun d => Z.ltb last d) (date_range last (n + 1)))
  = date_range (last + 1) n.
Proof.
  rewrite Nat.add_1_r, date_range_succ. simpl. rewrite Z.ltb_irrefl.
  assert (H : filter (fun d => last <? d) (date_range (last + 1) n)
              = date_range (last + 1) n).
  { apply forallb_filter_id. apply forallb_forall. intros d Hd.
    apply date_range_In in Hd. apply Z.ltb_lt. lia. }
  rewrite H. apply firstn_all2. now rewrite date_range_length.
Qed.

Lemma ffill_from_length prev xs :
  List.length (ffill_from prev xs) = List.length xs.
Proof.
  revert prev. induction xs as [|x t IH]; simpl; intros prev;
    [reflexivity|]. now rewrite IH.
Qed.

Lemma ffill_column_ds reg df :
  map ds (Seasonal.ffill_column reg df) = map ds df.
Proof.
  unfold Seasonal.ffill_column. rewrite map_map.
  rewrite (map_ext _ (fun rv => ds (fst rv))) by reflexivity.
  rewrite <- (map_map fst ds). f_equal. apply combine_fst.
  unfold ffill, column. rewrite ffill_from_length.
  now rewrite length_map.
Qed.

Lemma fold_ffill_ds regs df :
  map ds (fold_left (fun f reg => Seasonal.ffill_column reg f) regs df) = map ds df.
Proof.
  revert df. induction regs as [|r t IH]; simpl; intros df; [reflexivity|].
  now rewrite IH, ffill_column_ds.
Qed.

Lemma filter_ds_unique d right :
  NoDup (map ds right) ->
  (List.length (filter (fun r => Z.eqb (ds r) d) right) <= 1)%nat.
Proof.
  induction right as [|r t IH]; simpl; intros Hnd; [lia|].
  inversion Hnd as [|? ? Hr Ht]; subst.
  destruct (Z.eqb_spec (ds r) d) as [Ed|Hne]; simpl; [subst d|auto].
  assert (Hnil : filter (fun r0 => Z.eqb (ds r0) (ds r)) t = []).
  { destruct (filter (fun r0 => Z.eqb (ds r0) (ds r)) t) as [|x xs] eqn:E;
      [reflexivity|].
    exfalso. apply Hr.
    assert (Hx : In x (filter (fun r0 => Z.eqb (ds r0) (ds r)) t))
      by (rewrite E; now left).
    apply filter_In in Hx. destruct Hx as [Hx Hd]. apply Z.eqb_eq in Hd.
    rewrite <- Hd. now apply in_map. }
  rewrite Hnil. simpl. lia.
Qed.

(** With one row per date on the right, a left merge keeps the time line. *)
Lemma merge_left_ds future cols right :
  NoDup (map ds right) ->
  map ds (Seasonal.merge_left future cols right) = future.
Proof.
  intros Hnd. unfold Seasonal.merge_left.
  induction future as [|d t IH]; [reflexivity|].
  cbn [flat_map]. rewrite map_app, IH.
  pose proof (filter_ds_unique d right Hnd) as Hle.
  destruct (filter (fun r => Z.eqb (ds r) d) right) as [|x [|y ys]];
    simpl in *; try reflexivity. lia.
Qed.

Section SeasonalFacts.
Variable Model : Type.
Variable fit_params : list string -> list DatedRow -> Model.
Variable predict_row : Model -> DatedRow -> num * (num * num).
Variable L : Metrics.

Lemma fit_Ok regs df m :
  Seasonal.fit fit_params regs df = Ok m ->
  Seasonal.regressors m = regs
  /\ Seasonal.history_dates m = unique_sorted Z.compare (map ds df).
Proof.
  unfold Seasonal.fit.
  intros H. apply if_raise_inv in H. destruct H as [_ H].
  bind_ok H u E. apply Ok_inj in H. subst m. split; reflexivity.
Qed.

Lemma predict_Ok m df out :
  Seasonal.predict predict_row m df = Ok out -> map fst out = map ds df.
Proof.
  unfold Seasonal.predict. destruct df as [|r t]; [discriminate|].
  intros H. bind_ok H u E. apply Ok_inj in H. subst out.
  rewrite map_map. reflexivity.
Qed.

Lemma make_future_dataframe_dates (m : Seasonal.Prophet Model) n :
  Seasonal.make_future_dataframe m n =
  Seasonal.history_dates m
  ++ date_range (max_date (Seasonal.history_dates m) + 1) n.
Proof.
  unfold Seasonal.make_future_dataframe. now rewrite future_dates_after.
Qed.

Lemma future_frame_ds (m : Seasonal.Prophet Model) regs prophet_df :
  NoDup (map ds prophet_df) ->
  map ds (Seasonal.future_frame m regs prophet_df) =
  Seasonal.history_dates m
  ++ date_range (max_date (Seasonal.history_dates m) + 1) 30.
Proof.
  intros Hnd. unfold Seasonal.future_frame.
  rewrite fold_ffill_ds, merge_left_ds by exact Hnd.
  apply make_future_dataframe_dates.
Qed.

Lemma seasonal_future_rows brand (m : Seasonal.Prophet Model) regs prophet_df f :
  NoDup (map ds prophet_df) ->
  Seasonal.forecast_future predict_row brand m regs prophet_df = Ok f ->
  Forall (fun r => fc_Brand r = brand) f
  /\ map fc_Date f =
     Seasonal.history_dates m
     ++ date_range (max_date (Seasonal.history_dates m) + 1) 30.
Proof.
  intros Hnd. unfold Seasonal.forecast_future. intros H. bind_ok H out E.
  apply Ok_inj in H. subst f. split.
  - rewrite Forall_forall. intros r Hr. apply in_map_iff in Hr.
    destruct Hr as (p & <- & _). reflexivity.
  - rewrite map_map. rewrite (map_ext _ fst) by reflexivity.
    rewrite (predict_Ok _ _ _ E). now apply future_frame_ds.
Qed.

(** A brand that is forecast contributes a metrics row and, under its own
    name, one forecast row per training date followed by the 30 days
    after the last training date. *)
Lemma seasonal_brand_produced cols brand brand_rows m f :
  Seasonal.forecast_brand fit_params predict_row L cols brand brand_rows
    = Ok (Produced m f) ->
  let train := fst (split_80_20 (Seasonal.prophet_frame cols brand_rows)) in
  m_Brand m = brand
  /\ Forall (fun r => fc_Brand r = brand) f
  /\ map fc_Date f =
     map ds train ++ date_range (max_date (map ds train) + 1) 30
  /\ (2 <= List.length train)%nat.
Proof.
  intros H train. unfold Seasonal.forecast_brand in H.
  set (prophet_df := Seasonal.prophet_frame cols brand_rows) in *.
  apply if_skip_inv in H. destruct H as [_ H].
  apply if_skip_inv in H. destruct H as [G2 H].
  apply empty_skip_inv in H. destruct H as (t0 & ts & Etest & H).
  bind_ok H model E. bind_ok H scores E0. bind_ok H f' E1.
  apply Produced_inj in H. destruct H as [Hm Hf]. subst m f'.
  assert (Hsorted : StronglySorted Z.lt (map ds prophet_df))
    by apply prophet_frame_sorted.
  assert (Htrain : StronglySorted Z.lt (map ds train)).
  { destruct (split_80_20_spec prophet_df) as [Happ _].
    fold train in Happ. rewrite <- Happ, map_app in Hsorted.
    clear - Hsorted. induction (map ds train) as [|h t IH]; [constructor|].
    simpl in Hsorted. inversion Hsorted as [|? ? Hs Hall]; subst.
    constructor; [auto|]. rewrite Forall_forall in *. intros x Hx.
    apply Hall. apply in_or_app. now left. }
  destruct (fit_Ok _ _ _ E) as [_ Hh].
  destruct (seasonal_future_rows _ _ _ _ _ (sorted_Z_NoDup Hsorted) E1) as [Hb Hd].
  rewrite Hh in Hd. rewrite map_map in Hd.
  rewrite (map_ext _ ds) in Hd by reflexivity.
  fold train in Hd.
  rewrite (unique_sorted_of_sorted _ Htrain) in Hd.
  split; [reflexivity|]. split; [exact Hb|]. split; [exact Hd|].
  apply orb_false_iff in G2. destruct G2 as [G2 _].
  apply Nat.ltb_ge in G2. exact G2.
Qed.
End SeasonalFacts.

(* ===================================================================== *)
(** * The forecast tables of a run *)
(* ===================================================================== *)

Lemma key_eqb_string a b : key_eqb String.compare a b = String.eqb a b.
Proof.
  destruct (String.eqb_spec a b) as [->|Hne].
  - apply key_eqb_refl. exact Scmp_eq.
  - apply key_eqb_neq; [exact Scmp_eq | exact Hne].
Qed.

(** The group of a brand holds the rows of the table with that brand. *)
Lemma groupby_brand_In b brand_rows df :
  In (b, brand_rows) (groupby_brand df) ->
  brand_rows = filter (fun r => String.eqb (Brand r) b) (rows df).
Proof.
  intros H. apply groupby_In in H; [|exact Scmp_eq]. destruct H as [_ ->].
  apply filter_ext. intros r. apply key_eqb_string.
Qed.

Lemma groupby_brand_NoDup df : NoDup (map fst (groupby_brand df)).
Proof. apply groupby_keys_NoDup; orders. Qed.

Lemma StronglySorted_app l1 l2 :
  StronglySorted Z.lt l1 -> StronglySorted Z.lt l2 ->
  (forall a b, In a l1 -> In b l2 -> a < b) ->
  StronglySorted Z.lt (l1 ++ l2).
Proof.
  induction 1 as [|h t Hs IH Hall]; simpl; intros H2 Hlt; [exact H2|].
  constructor.
  - apply IH; [exact H2|]. intros a b Ha Hb. apply Hlt; [now right|exact Hb].
  - apply Forall_app. split; [exact Hall|].
    rewrite Forall_forall. intros b Hb. apply Hlt; [now left|exact Hb].
Qed.

(** History followed by the days after its last date is strictly
    increasing. *)
Lemma history_then_future_sorted l n :
  StronglySorted Z.lt l ->
  StronglySorted Z.lt (l ++ date_range (max_date l + 1) n).
Proof.
  intros Hl. apply StronglySorted_app; [exact Hl | apply date_range_sorted |].
  intros a b Ha Hb. apply date_range_In in Hb.
  pose proof (max_date_ge l a Ha). lia.
Qed.

Lemma StronglySorted_prefix (l1 l2 : list Z) :
  StronglySorted Z.lt (l1 ++ l2) -> StronglySorted Z.lt l1.
Proof.
  induction l1 as [|h t IH]; simpl; intros H; [constructor|].
  inversion H as [|? ? Hs Hall]; subst.
  constructor; [auto|]. rewrite Forall_forall in *. intros x Hx.
  apply Hall. apply in_or_app. now left.
Qed.

Lemma firstn_sorted (l : list Z) k :
  StronglySorted Z.lt l -> StronglySorted Z.lt (firstn k l).
Proof.
  intros H. rewrite <- (firstn_skipn k l) in H.
  exact (StronglySorted_prefix _ _ H).
Qed.

Lemma train_dates_sorted cols brand_rows :
  StronglySorted Z.lt
    (map ds (fst (split_80_20 (Seasonal.prophet_frame cols brand_rows)))).
Proof.
  unfold split_80_20. simpl. rewrite <- firstn_map.
  apply firstn_sorted, prophet_frame_sorted.
Qed.

Section RunFacts.
Variable Net : Type.
Variable train_net : nat -> list matrix -> list num -> Net.
Variable forward : Net -> matrix -> num.
Variable Model : Type.
Variable fit_params : list string -> list DatedRow -> Model.
Variable predict_row : Model -> DatedRow -> num * (num * num).
Variable L : Metrics.

Lemma lstm_step_brand cols k brand_rows m f :
  Lstm.forecast_brand train_net forward L cols k brand_rows = Ok (Produced m f) ->
  m_Brand m = k /\ Forall (fun r => fc_Brand r = k) f /\ f <> [].
Proof.
  intros H. destruct (lstm_brand_produced _ _ _ _ _ _ _ _ _ H) as (Hm & Hb & Hd & _).
  split; [exact Hm|]. split; [exact Hb|].
  intros ->. rewrite date_range_succ in Hd. discriminate.
Qed.

Lemma lstm_step_dates cols k brand_rows m f :
  Lstm.forecast_brand train_net forward L cols k brand_rows = Ok (Produced m f) ->
  NoDup (map fc_Date f).
Proof.
  intros H. destruct (lstm_brand_produced _ _ _ _ _ _ _ _ _ H) as (_ & _ & Hd & _).
  rewrite Hd. apply sorted_Z_NoDup, date_range_sorted.
Qed.

Lemma seasonal_step_brand cols k brand_rows m f :
  Seasonal.forecast_brand fit_params predict_row L cols k brand_rows
    = Ok (Produced m f) ->
  m_Brand m = k /\ Forall (fun r => fc_Brand r = k) f /\ f <> [].
Proof.
  intros H.
  destruct (seasonal_brand_produced _ _ _ _ _ _ _ _ _ H) as (Hm & Hb & Hd & _).
  split; [exact Hm|]. split; [exact Hb|].
  intros ->. simpl in Hd. symmetry in Hd. apply app_eq_nil in Hd.
  destruct Hd as [_ Hd]. rewrite date_range_succ in Hd. discriminate.
Qed.

Lemma seasonal_step_dates cols k brand_rows m f :
  Seasonal.forecast_brand fit_params predict_row L cols k brand_rows
    = Ok (Produced m f) ->
  NoDup (map fc_Date f).
Proof.
  intros H.
  destruct (seasonal_brand_produced _ _ _ _ _ _ _ _ _ H) as (_ & _ & Hd & _).
  rewrite Hd. apply sorted_Z_NoDup, history_then_future_sorted.
  apply train_dates_sorted.
Qed.

(** The rows of a brand in the table of the sequence forecaster. *)
Lemma lstm_table_rows df F M b :
  Lstm.run_brands train_net forward L df = Ok (F, M) ->
  In b (map fc_Brand (List.concat F)) ->
  map fc_Date (rows_of_brand b (List.concat F))
  = date_range (last_observed b df + 1) 30.
Proof.
  unfold Lstm.run_brands. intros H Hb.
  apply brand_loop_Ok in H. destruct H as (outs & HF & -> & ->). simpl in *.
  destruct (@rows_of_brand_block _ (lstm_step_brand (columns df)) _ _ b HF
              (groupby_brand_NoDup df) Hb)
    as (brand_rows & m & f & Hin & Hs & ->).
  destruct (lstm_brand_produced _ _ _ _ _ _ _ _ _ Hs) as (_ & _ & Hd & _).
  rewrite Hd. unfold last_observed, Lstm.brand_frame.
  rewrite aggregate_by_date_ds, max_date_unique_sorted.
  now rewrite (groupby_brand_In _ _ _ Hin).
Qed.

Lemma lstm_table_NoDup df F M :
  Lstm.run_brands train_net forward L df = Ok (F, M) ->
  NoDup (map date_brand (List.concat F)).
Proof.
  unfold Lstm.run_brands. intros H.
  apply brand_loop_Ok in H. destruct H as (outs & HF & -> & ->). simpl.
  exact (@date_brand_NoDup _ (lstm_step_brand (columns df))
           (lstm_step_dates (columns df)) _ _ HF (groupby_brand_NoDup df)).
Qed.

(** The rows of a brand in the table of the seasonal forecaster. *)
Lemma seasonal_table_rows df F M b :
  Seasonal.run_brands fit_params predict_row L df = Ok (F, M) ->
  In b (map fc_Brand (List.concat F)) ->
  let brand_rows := filter (fun r => String.eqb (Brand r) b) (rows df) in
  let train := fst (split_80_20 (Seasonal.prophet_frame (columns df) brand_rows)) in
  map fc_Date (rows_of_brand b (List.concat F))
  = map ds train ++ date_range (max_date (map ds train) + 1) 30
  /\ (2 <= List.length train)%nat.
Proof.
  unfold Seasonal.run_brands. intros H Hb.
  apply brand_loop_Ok in H. destruct H as (outs & HF & -> & ->). simpl in *.
  destruct (@rows_of_brand_block _ (seasonal_step_brand (columns df)) _ _ b HF
              (groupby_brand_NoDup df) Hb)
    as (brand_rows & m & f & Hin & Hs & ->).
  rewrite <- (groupby_brand_In _ _ _ Hin).
  destruct (seasonal_brand_produced _ _ _ _ _ _ _ _ _ Hs) as (_ & _ & Hd & Hn).
  split; [exact Hd | exact Hn].
Qed.

Lemma seasonal_table_NoDup df F M :
  Seasonal.run_brands fit_params predict_row L df = Ok (F, M) ->
  NoDup (map date_brand (List.concat F)).
Proof.
  unfold Seasonal.run_brands. intros H.
  apply brand_loop_Ok in H. destruct H as (outs & HF & -> & ->). simpl.
  exact (@date_brand_NoDup _ (seasonal_step_brand (columns df))
           (seasonal_step_dates (columns df)) _ _ HF (groupby_brand_NoDup df)).
Qed.
End RunFacts.

(** The contract of a forecast table, for the table [df] it was made
    from: no (Date, Brand) pair twice and, for every brand in it, exactly
    30 rows whose dates are consecutive days, all after the last observed
    date of the brand. *)
Definition forecast_contract (df : DataFrame) (table : list ForecastRow) : Prop :=
  NoDup (map date_brand table)
  /\ forall b, In b (map fc_Brand table) ->
       let dates := map fc_Date (rows_of_brand b table) in
       List.length dates = 30%nat
       /\ (exists start, dates = date_range start 30)
       /\ Forall (fun d => last_observed b df < d) dates.




(* ===================================================================== *)
(** * Metrics rows and forecast rows go together *)
(* ===================================================================== *)

(** The brands of a metrics table and of a forecast table are the same. *)
Definition same_brands (metrics : list MetricsRecord) (table : list ForecastRow)
  : Prop :=
  forall b, In b (map m_Brand metrics) <-> In b (map fc_Brand table).

Section TablesFacts.
Variable step : string -> list Row -> result outcome.
Hypothesis step_brand : forall k rows m f,
  step k rows = Ok (Produced m f) ->
  m_Brand m = k /\ Forall (fun r => fc_Brand r = k) f /\ f <> [].

Lemma loop_same_brands groups F M :
  brand_loop step groups [] [] = Ok (F, M) ->
  same_brands M (List.concat F) /\ (F = [] <-> M = []).
Proof.
  intros H. apply brand_loop_Ok in H. destruct H as (outs & HF & -> & ->).
  simpl. split.
  - intros b. symmetry. exact (@forecasts_brands _ step_brand _ _ b HF).
  - clear - HF. induction HF as [|g o gs os Hs HF' IH]; simpl; [tauto|].
    destruct o as [|m f]; simpl; [exact IH|]. split; discriminate.
Qed.
End TablesFacts.

(** C10. In each forecaster a completed run either forecast nothing, and
    then it wrote no file and returned no metrics, or it wrote both
    tables, and then a brand has a row in the metrics table if and only if
    it has rows in the forecast table: an iteration appends both or
    neither. *)
Theorem C10_metrics_iff_forecasts
    (Net : Type) (train_net : nat -> list matrix -> list num -> Net)
    (forward : Net -> matrix -> num)
    (Model : Type) (fit_params : list string -> list DatedRow -> Model)
    (predict_row : Model -> DatedRow -> num * (num * num))
    (L : Metrics) (fs : FileSystem) :
  (forall fs' metrics,
     Lstm.run_lstm_forecast train_net forward L fs = Ok (fs', metrics) ->
     (fs' = fs /\ metrics = [])
     \/ (exists table,
           table <> []
           /\ LSTM_FORECAST_FILE fs' = Some table
           /\ LSTM_METRICS_FILE fs' = Some metrics
           /\ same_brands metrics table))
  /\
  (forall fs' returned,
     Seasonal.forecast_with_prophet fit_params predict_row L fs = Ok (fs', returned) ->
     (fs' = fs /\ returned = None)
     \/ (exists table metrics,
           table <> []
           /\ returned = Some metrics
           /\ PROPHET_FORECAST_FILE fs' = Some table
           /\ PROPHET_METRICS_FILE fs' = Some metrics
           /\ same_brands metrics table)).
Proof.
  split.
  - intros fs' metrics. unfold Lstm.run_lstm_forecast.
    destruct (PROCESSED_FILE fs) as [df|]; [|discriminate].
    intros H. bind_ok H out E. destruct out as [F M].
    unfold Lstm.run_brands in E.
    destruct (loop_same_brands _ (lstm_step_brand _ train_net forward L (columns df))
                _ _ _ E) as [Hsame Hempty].
    pose proof (brand_loop_Ok _ _ _ _ E) as (outs & HF & HF' & _).
    simpl in H. destruct F as [|f F'].
    + apply Ok_inj in H. inversion H; subst. left. split; [reflexivity|].
      now apply Hempty.
    + apply Ok_inj in H. inversion H; subst. right.
      exists (List.concat (f :: F')). simpl. repeat split; try apply Hsame.
      intros Hnil. apply app_eq_nil in Hnil. destruct Hnil as [-> _].
      clear - HF HF'. simpl in HF'. revert HF'.
      induction HF as [|[k rows] o gs os Hs HFr IH]; simpl; [discriminate|].
      destruct o as [|m f0]; simpl; [exact IH|].
      intros Heq. inversion Heq; subst.
      destruct (lstm_step_brand _ _ _ _ _ _ _ _ _ Hs) as (_ & _ & Hne).
      now apply Hne.
  - intros fs' returned. unfold Seasonal.forecast_with_prophet.
    destruct (PROCESSED_FILE fs) as [df|]; [|discriminate].
    intros H. bind_ok H out E. destruct out as [F M].
    unfold Seasonal.run_brands in E.
    destruct (loop_same_brands _
                (seasonal_step_brand _ fit_params predict_row L (columns df))
                _ _ _ E) as [Hsame Hempty].
    pose proof (brand_loop_Ok _ _ _ _ E) as (outs & HF & HF' & _).
    simpl in H. destruct F as [|f F'].
    + apply Ok_inj in H. inversion H; subst. left. split; reflexivity.
    + apply Ok_inj in H. inversion H; subst. right.
      exists (List.concat (f :: F')), M. simpl. repeat split; try apply Hsame.
      intros Hnil. apply app_eq_nil in Hnil. destruct Hnil as [-> _].
      clear - HF HF'. simpl in HF'. revert HF'.
      induction HF as [|[k rows] o gs os Hs HFr IH]; simpl; [discriminate|].
      destruct o as [|m f0]; simpl; [exact IH|].
      intros Heq. inversion Heq; subst.
      destruct (seasonal_step_brand _ _ _ _ _ _ _ _ _ Hs) as (_ & _ & Hne).
      now apply Hne.
Qed.

(** C10, witness: two brands of 30 days each. *)
Lemma C10_metrics_iff_forecasts_witness :
  (exists fs' metrics table,
     Examples.lstm_run (Examples.fs_of Examples.healthy) = Ok (fs', metrics)
     /\ LSTM_FORECAST_FILE fs' = Some table
     /\ map m_Brand metrics = ["Alpha"; "Beta"]
     /\ same_brands metrics table)
  /\
  (exists fs' metrics table,
     Examples.prophet_run (Examples.fs_of Examples.healthy) = Ok (fs', Some metrics)
     /\ PROPHET_FORECAST_FILE fs' = Some table
     /\ map m_Brand metrics = ["Alpha"; "Beta"]
     /\ same_brands metrics table).
Proof.
  split.
  - destruct (Examples.lstm_run (Examples.fs_of Examples.healthy))
      as [[fs' metrics]|e] eqn:E; [|vm_compute in E; discriminate E].
    destruct (proj1 (C10_metrics_iff_forecasts unit Examples.train_double
                       Examples.forward_double unit Examples.fit_double
                       Examples.predict_double Examples.metrics_double
                       (Examples.fs_of Examples.healthy)) fs' metrics E)
      as [[_ Hm]|(table & _ & Hf & _ & Hsame)].
    + exfalso. subst metrics. vm_compute in E. discriminate E.
    + exists fs', metrics, table. split; [reflexivity|]. split; [exact Hf|].
      split; [|exact Hsame].
      vm_compute in E. apply Ok_inj in E. inversion E. reflexivity.
  - destruct (Examples.prophet_run (Examples.fs_of Examples.healthy))
      as [[fs' returned]|e] eqn:E; [|vm_compute in E; discriminate E].
    destruct (proj2 (C10_metrics_iff_forecasts unit Examples.train_double
                       Examples.forward_double unit Examples.fit_double
                       Examples.predict_double Examples.metrics_double
                       (Examples.fs_of Examples.healthy)) fs' returned E)
      as [[_ Hm]|(table & metrics & _ & Hr & Hf & _ & Hsame)].
    + exfalso. subst returned. vm_compute in E. discriminate E.
    + subst returned. exists fs', metrics, table. split; [reflexivity|].
      split; [exact Hf|]. split; [|exact Hsame].
      vm_compute in E. apply Ok_inj in E. inversion E. reflexivity.
Defined.

(* ===================================================================== *)
(** * Skipped brands *)
(* ===================================================================== *)

(** The table without the rows of one brand. *)
Definition without_brand (b : string) (df : DataFrame) : DataFrame :=
  {| columns := columns df;
     rows := filter (fun r => negb (String.eqb (Brand r) b)) (rows df) |}.

Definition rows_of (b : string) (df : DataFrame) : list Row :=
  filter (fun r => String.eqb (Brand r) b) (rows df).

(** The seasonal forecaster's reasons to skip a brand: fewer than 3 rows
    left once the rows without a finite target are dropped, a training
    split of fewer than 2 rows or with a missing value, an empty holdout. *)
Definition seasonal_skip_condition (cols : list string) (brand_rows : list Row)
  : Prop :=
  let prophet_df := Seasonal.prophet_frame cols brand_rows in
  let train := fst (split_80_20 prophet_df) in
  let test := snd (split_80_20 prophet_df) in
  (List.length prophet_df < 3)%nat
  \/ (List.length train < 2)%nat
  \/ Seasonal.any_null train = true
  \/ test = [].

(** The sequence forecaster's reasons: fewer than [seq_length + 1] dates,
    or fewer than 20 samples (a frame of n dates gives n - seq_length). *)
Definition lstm_too_short (cols : list string) (brand_rows : list Row) : Prop :=
  (List.length (Lstm.brand_frame cols brand_rows) < Lstm.seq_length + 1)%nat.

Definition lstm_few_samples (cols : list string) (brand_rows : list Row) : Prop :=
  (List.length (Lstm.brand_frame cols brand_rows) - Lstm.seq_length < 20)%nat.

(** No feature value of the brand is infinite. *)
Definition lstm_features_bounded (cols : list string) (brand_rows : list Row)
  : Prop :=
  existsb (existsb isinf)
    (Lstm.feature_array (Lstm.features (map fst (Lstm.agg_dict cols)))
                        (Lstm.brand_frame cols brand_rows)) = false.

Lemma if_skip_intro (b : bool) (r : result outcome) :
  (b = false -> r = Ok Skipped) -> (if b then Ok Skipped else r) = Ok Skipped.
Proof. destruct b; auto. Qed.

Lemma empty_skip_intro {A} (l : list A) (r : A -> list A -> result outcome) :
  l = [] -> match l with [] => Ok Skipped | x :: t => r x t end = Ok Skipped.
Proof. intros ->. reflexivity. Qed.

Lemma bind_intro {A B} (c : result A) (k : A -> result B) a v :
  c = Ok a -> k a = v -> bind c k = v.
Proof. intros -> <-. reflexivity. Qed.

Lemma fit_transform_accepts X :
  existsb (existsb isinf) X = false ->
  exists fitted, scaler_fit_transform X = Ok fitted.
Proof.
  intros H. assert (Hc : check_array X = Ok tt)
    by (unfold check_array; now rewrite H).
  unfold scaler_fit_transform, scaler_fit, scaler_transform. rewrite Hc.
  cbv beta iota delta [bind]. eauto.
Qed.

Section SkipFacts.
Variable Net : Type.
Variable train_net : nat -> list matrix -> list num -> Net.
Variable forward : Net -> matrix -> num.
Variable Model : Type.
Variable fit_params : list string -> list DatedRow -> Model.
Variable predict_row : Model -> DatedRow -> num * (num * num).
Variable L : Metrics.

Lemma seasonal_skips cols brand brand_rows :
  seasonal_skip_condition cols brand_rows ->
  Seasonal.forecast_brand fit_params predict_row L cols brand brand_rows
  = Ok Skipped.
Proof.
  unfold seasonal_skip_condition. intros H. unfold Seasonal.forecast_brand.
  apply if_skip_intro. intros G1. apply Nat.ltb_ge in G1.
  apply if_skip_intro. intros G2. apply orb_false_iff in G2.
  destruct G2 as [G2 G3]. apply Nat.ltb_ge in G2.
  apply empty_skip_intro.
  destruct H as [H|[H|[H|H]]]; [lia | lia | congruence | exact H].
Qed.

Lemma lstm_skips cols brand brand_rows :
  lstm_too_short cols brand_rows
  \/ (lstm_few_samples cols brand_rows /\ lstm_features_bounded cols brand_rows) ->
  Lstm.forecast_brand train_net forward L cols brand brand_rows = Ok Skipped.
Proof.
  unfold lstm_too_short, lstm_few_samples, lstm_features_bounded.
  intros H. unfold Lstm.forecast_brand.
  apply if_skip_intro. intros G1. apply Nat.ltb_ge in G1.
  destruct H as [H|[Hfew Hfin]]; [lia|].
  destruct (fit_transform_accepts _ Hfin) as (fitted & E).
  eapply bind_intro; [exact E|].
  apply if_skip_intro. intros G2. exfalso. apply Nat.ltb_ge in G2.
  rewrite length_map in G2. unfold Lstm.samples in G2.
  rewrite length_map, length_seq in G2.
  rewrite (fit_transform_length _ _ E) in G2.
  unfold Lstm.feature_array in G2. rewrite length_map in G2. lia.
Qed.
End SkipFacts.

(** A loop body that skips a brand gives the same run with and without
    the rows of that brand. *)
Lemma loop_without_skipped (step : string -> list Row -> result outcome)
    (df : DataFrame) (b : string) F M :
  step b (rows_of b df) = Ok Skipped ->
  brand_loop step (groupby_brand df) F M
  = brand_loop step (groupby_brand (without_brand b df)) F M.
Proof.
  intros Hskip. unfold groupby_brand at 2. unfold without_brand. simpl.
  rewrite (filter_ext _ (fun r => negb (key_eqb String.compare (Brand r) b)))
    by (intros r; now rewrite key_eqb_string).
  rewrite (groupby_without String.compare Scmp_eq Scmp_antisym Scmp_trans).
  apply brand_loop_skip. intros [k rows] Hin Hp. simpl in *.
  apply negb_false_iff in Hp. apply key_eqb_eq in Hp; [|exact Scmp_eq]. subst k.
  fold (groupby_brand df) in Hin.
  rewrite (groupby_brand_In _ _ _ Hin). exact Hskip.
Qed.

(** C4, counterexample. A brand of 10 days, hence of 3 samples, with one
    infinite sales figure: the scaler, which runs before the samples are
    counted, rejects it, and the run of the sequence forecaster ends with
    that exception although the other brand of the table is healthy. *)
Lemma C4_counterexample_infinite_feature :
  lstm_few_samples (columns Examples.with_overflow)
                   (rows_of "Delta" Examples.with_overflow)
  /\ Examples.lstm_brands Examples.with_overflow
     = Raise (ValueError "Input contains infinity or a value too large.")
  /\ exists F M,
       Examples.lstm_brands (without_brand "Delta" Examples.with_overflow)
       = Ok (F, M)
       /\ map m_Brand M = ["Alpha"].
Proof.
  split; [vm_compute; lia|]. split; [vm_compute; reflexivity|].
  destruct (Examples.lstm_brands (without_brand "Delta" Examples.with_overflow))
    as [[F M]|e] eqn:E; [|vm_compute in E; discriminate E].
  exists F, M. split; [reflexivity|].
  vm_compute in E. apply Ok_inj in E. inversion E. reflexivity.
Qed.

(** C4, amended. A brand that the seasonal forecaster finds with fewer
    than 3 usable rows, with a training split of fewer than 2 rows or
    with a missing value in it, or with an empty holdout, and a brand that
    the sequence forecaster finds with fewer than [seq_length + 1] dates,
    or with fewer than 20 samples and no infinite feature value, is
    skipped: its iteration takes [continue], and the run gives exactly what
    it gives on the table without the rows of that brand. *)
Theorem C4_skipped_brand_is_isolated
    (Net : Type) (train_net : nat -> list matrix -> list num -> Net)
    (forward : Net -> matrix -> num)
    (Model : Type) (fit_params : list string -> list DatedRow -> Model)
    (predict_row : Model -> DatedRow -> num * (num * num))
    (L : Metrics) (df : DataFrame) (b : string) :
  (seasonal_skip_condition (columns df) (rows_of b df) ->
     Seasonal.forecast_brand fit_params predict_row L (columns df) b (rows_of b df)
     = Ok Skipped
     /\ Seasonal.run_brands fit_params predict_row L df
        = Seasonal.run_brands fit_params predict_row L (without_brand b df))
  /\
  (lstm_too_short (columns df) (rows_of b df)
   \/ (lstm_few_samples (columns df) (rows_of b df)
       /\ lstm_features_bounded (columns df) (rows_of b df)) ->
     Lstm.forecast_brand train_net forward L (columns df) b (rows_of b df)
     = Ok Skipped
     /\ Lstm.run_brands train_net forward L df
        = Lstm.run_brands train_net forward L (without_brand b df)).
Proof.
  split; intros H.
  - pose proof (seasonal_skips _ fit_params predict_row L _ b _ H) as Hs.
    split; [exact Hs|]. unfold Seasonal.run_brands.
    now apply loop_without_skipped.
  - pose proof (lstm_skips _ train_net forward L _ b _ H) as Hs.
    split; [exact Hs|]. unfold Lstm.run_brands.
    now apply loop_without_skipped.
Qed.

(** C4, witness: a brand of 2 days next to a healthy brand of 30 days. *)
Lemma C4_skipped_brand_is_isolated_witness :
  seasonal_skip_condition (columns Examples.with_tiny)
                          (rows_of "Tiny" Examples.with_tiny)
  /\ lstm_too_short (columns Examples.with_tiny)
                    (rows_of "Tiny" Examples.with_tiny)
  /\ Examples.prophet_brands Examples.with_tiny
     = Examples.prophet_brands (without_brand "Tiny" Examples.with_tiny)
  /\ Examples.lstm_brands Examples.with_tiny
     = Examples.lstm_brands (without_brand "Tiny" Examples.with_tiny)
  /\ exists F M, Examples.lstm_brands Examples.with_tiny = Ok (F, M)
                 /\ map m_Brand M = ["Alpha"].
Proof.
  assert (H1 : seasonal_skip_condition (columns Examples.with_tiny)
                 (rows_of "Tiny" Examples.with_tiny))
    by (left; vm_compute; lia).
  assert (H2 : lstm_too_short (columns Examples.with_tiny)
                 (rows_of "Tiny" Examples.with_tiny))
    by (vm_compute; lia).
  split; [exact H1|]. split; [exact H2|].
  destruct (C4_skipped_brand_is_isolated unit Examples.train_double
              Examples.forward_double unit Examples.fit_double
              Examples.predict_double Examples.metrics_double
              Examples.with_tiny "Tiny") as [Hs Hl].
  split; [exact (proj2 (Hs H1))|]. split; [exact (proj2 (Hl (or_introl H2)))|].
  destruct (Examples.lstm_brands Examples.with_tiny) as [[F M]|e] eqn:E;
    [|vm_compute in E; discriminate E].
  exists F, M. split; [reflexivity|].
  vm_compute in E. apply Ok_inj in E. inversion E. reflexivity.
Defined.

(* ===================================================================== *)
(** * Exceptions *)
(* ===================================================================== *)

(** The exception of a library that rejects its argument. *)
Definition library_error (e : exn) : Prop := exists msg, e = ValueError msg.

Lemma bind_raise {A B} (c : result A) (k : A -> result B) e :
  bind c k = Raise e -> c = Raise e \/ exists a, c = Ok a /\ k a = Raise e.
Proof.
  destruct c as [a|e']; simpl; intros H; [right; eauto | left; congruence].
Qed.

Lemma if_ok_raise {A} (b : bool) (v : A) (r : result A) e :
  (if b then Ok v else r) = Raise e -> b = false /\ r = Raise e.
Proof. destruct b; [discriminate|auto]. Qed.

Lemma if_raise_raise {A} (b : bool) e0 (r : result A) e :
  (if b then Raise e0 else r) = Raise e ->
  (b = true /\ e = e0) \/ (b = false /\ r = Raise e).
Proof. destruct b; intros H; [left|right]; split; congruence. Qed.

Lemma empty_skip_raise {A} (l : list A) (r : A -> list A -> result outcome) e :
  match l with [] => Ok Skipped | x :: t => r x t end = Raise e ->
  exists x t, l = x :: t /\ r x t = Raise e.
Proof. destruct l; [discriminate|eauto]. Qed.

Lemma value_error msg : library_error (ValueError msg).
Proof. now exists msg. Qed.

#[local] Hint Resolve value_error : core.

Lemma check_array_error X e : check_array X = Raise e -> library_error e.
Proof.
  unfold check_array. intros H. apply if_raise_raise in H.
  destruct H as [[_ ->]|[_ H]]; [auto|discriminate].
Qed.

Lemma check_finite_targets_error y p e :
  check_finite_targets y p = Raise e -> library_error e.
Proof.
  unfold check_finite_targets. destruct (forallb isfinite y && forallb isfinite p);
    [discriminate|]. intros H. inversion H. auto.
Qed.

Lemma mean_squared_error_error L y p e :
  mean_squared_error L y p = Raise e -> library_error e.
Proof.
  unfold mean_squared_error. intros H. apply bind_raise in H.
  destruct H as [H|(a & _ & H)]; [|discriminate].
  now apply check_finite_targets_error in H.
Qed.

Lemma mean_absolute_percentage_error_error L y p e :
  mean_absolute_percentage_error L y p = Raise e -> library_error e.
Proof.
  unfold mean_absolute_percentage_error. intros H. apply bind_raise in H.
  destruct H as [H|(a & _ & H)]; [|discriminate].
  now apply check_finite_targets_error in H.
Qed.

Lemma scaler_fit_transform_error X e :
  scaler_fit_transform X = Raise e -> library_error e.
Proof.
  unfold scaler_fit_transform. intros H. apply bind_raise in H.
  destruct H as [H|(sc & _ & H)].
  - unfold scaler_fit in H. apply bind_raise in H.
    destruct H as [H|(u & _ & H)]; [|discriminate].
    now apply check_array_error in H.
  - apply bind_raise in H. destruct H as [H|(S' & _ & H)]; [|discriminate].
    unfold scaler_transform in H. apply bind_raise in H.
    destruct H as [H|(u & _ & H)]; [|discriminate].
    now apply check_array_error in H.
Qed.

Lemma scaler_inverse_transform_error sc X e :
  scaler_inverse_transform sc X = Raise e -> library_error e.
Proof.
  unfold scaler_inverse_transform. intros H. apply bind_raise in H.
  destruct H as [H|(u & _ & H)]; [|discriminate].
  now apply check_array_error in H.
Qed.

Lemma Ok_not_Raise {A} (a : A) e : Ok a = Raise e -> False.
Proof. discriminate. Qed.

Section ErrorFacts.
Variable Net : Type.
Variable train_net : nat -> list matrix -> list num -> Net.
Variable forward : Net -> matrix -> num.
Variable Model : Type.
Variable fit_params : list string -> list DatedRow -> Model.
Variable predict_row : Model -> DatedRow -> num * (num * num).
Variable L : Metrics.

Lemma lstm_evaluate_error model X_test y_test e :
  Lstm.evaluate forward L model X_test y_test = Raise e -> library_error e.
Proof.
  unfold Lstm.evaluate. intros H.
  apply bind_raise in H. destruct H as [H|(mse & _ & H)];
    [now apply mean_squared_error_error in H|].
  apply bind_raise in H. destruct H as [H|(mape & _ & H)];
    [now apply mean_absolute_percentage_error_error in H|].
  now apply Ok_not_Raise in H.
Qed.

Lemma lstm_future_error brand brand_df X0 scaler scaled model e :
  Lstm.forecast_future forward brand brand_df X0 scaler scaled model = Raise e ->
  library_error e.
Proof.
  unfold Lstm.forecast_future. intros H.
  apply bind_raise in H. destruct H as [H|(inv & _ & H)];
    [now apply scaler_inverse_transform_error in H|].
  now apply Ok_not_Raise in H.
Qed.

Lemma lstm_brand_error cols brand brand_rows e :
  Lstm.forecast_brand train_net forward L cols brand brand_rows = Raise e ->
  library_error e.
Proof.
  unfold Lstm.forecast_brand. intros H.
  apply if_ok_raise in H. destruct H as [_ H].
  apply bind_raise in H. destruct H as [H|(fitted & _ & H)];
    [now apply scaler_fit_transform_error in H|].
  apply if_ok_raise in H. destruct H as [_ H].
  apply bind_raise in H. destruct H as [H|(scores & _ & H)];
    [now apply lstm_evaluate_error in H|].
  apply bind_raise in H. destruct H as [H|(f & _ & H)];
    [now apply lstm_future_error in H|].
  now apply Ok_not_Raise in H.
Qed.

Lemma setup_dataframe_error regs with_y df e :
  Seasonal.setup_dataframe regs with_y df = Raise e -> library_error e.
Proof.
  unfold Seasonal.setup_dataframe. intros H. apply if_raise_raise in H.
  destruct H as [[_ ->]|[_ H]]; [auto|].
  apply if_raise_raise in H. destruct H as [[_ ->]|[_ H]]; [auto|discriminate].
Qed.

Lemma fit_error regs df e :
  Seasonal.fit fit_params regs df = Raise e -> library_error e.
Proof.
  unfold Seasonal.fit. intros H. apply if_raise_raise in H.
  destruct H as [[_ ->]|[_ H]]; [auto|].
  apply bind_raise in H. destruct H as [H|(u & _ & H)]; [|discriminate].
  now apply setup_dataframe_error in H.
Qed.

Lemma predict_error m df e :
  Seasonal.predict predict_row m df = Raise e -> library_error e.
Proof.
  unfold Seasonal.predict. destruct df as [|r t]; intros H.
  - inversion H. auto.
  - apply bind_raise in H. destruct H as [H|(u & _ & H)]; [|discriminate].
    now apply setup_dataframe_error in H.
Qed.

Lemma seasonal_evaluate_error m regs test e :
  Seasonal.evaluate predict_row L m regs test = Raise e -> library_error e.
Proof.
  unfold Seasonal.evaluate. intros H.
  apply bind_raise in H. destruct H as [H|(ft & _ & H)];
    [now apply predict_error in H|].
  apply bind_raise in H. destruct H as [H|(mse & _ & H)];
    [now apply mean_squared_error_error in H|].
  apply bind_raise in H. destruct H as [H|(mape & _ & H)];
    [now apply mean_absolute_percentage_error_error in H|].
  now apply Ok_not_Raise in H.
Qed.

Lemma seasonal_future_error brand m regs prophet_df e :
  Seasonal.forecast_future predict_row brand m regs prophet_df = Raise e ->
  library_error e.
Proof.
  unfold Seasonal.forecast_future. intros H.
  apply bind_raise in H. destruct H as [H|(fc & _ & H)];
    [now apply predict_error in H|].
  now apply Ok_not_Raise in H.
Qed.

Lemma seasonal_brand_error cols brand brand_rows e :
  Seasonal.forecast_brand fit_params predict_row L cols brand brand_rows
  = Raise e ->
  library_error e.
Proof.
  unfold Seasonal.forecast_brand. intros H.
  apply if_ok_raise in H. destruct H as [_ H].
  apply if_ok_raise in H. destruct H as [_ H].
  apply empty_skip_raise in H. destruct H as (t0 & ts & _ & H).
  apply bind_raise in H. destruct H as [H|(model & _ & H)];
    [now apply fit_error in H|].
  apply bind_raise in H. destruct H as [H|(scores & _ & H)];
    [now apply seasonal_evaluate_error in H|].
  apply bind_raise in H. destruct H as [H|(f & _ & H)];
    [now apply seasonal_future_error in H|].
  now apply Ok_not_Raise in H.
Qed.
End ErrorFacts.

(* ===================================================================== *)
(** * Fatal errors and completed runs *)
(* ===================================================================== *)

Lemma brand_loop_all_skipped (step : string -> list Row -> result outcome) groups :
  (forall g, In g groups -> step (fst g) (snd g) = Ok Skipped) ->
  brand_loop step groups [] [] = Ok ([], []).
Proof.
  intros H. rewrite (brand_loop_skip step (fun _ => false)).
  - assert (E : filter (fun _ : string * list Row => false) groups = [])
      by (clear H; induction groups as [|g t IH]; simpl; [reflexivity|exact IH]).
    rewrite E. reflexivity.
  - intros g Hg _. now apply H.
Qed.

(** The brand whose iteration ended the loop. *)
Lemma run_aborted_by (step : string -> list Row -> result outcome) df e :
  brand_loop step (groupby_brand df) [] [] = Raise e ->
  exists b, In b (map Brand (rows df)) /\ step b (rows_of b df) = Raise e.
Proof.
  intros H. apply brand_loop_Raise in H. destruct H as (k & brand_rows & Hin & Hs).
  exists k. split.
  - apply groupby_In in Hin; [|exact Scmp_eq]. tauto.
  - unfold rows_of. now rewrite <- (groupby_brand_In _ _ _ Hin).
Qed.

Lemma groupby_brand_member df k brand_rows :
  In (k, brand_rows) (groupby_brand df) ->
  In k (map Brand (rows df)) /\ brand_rows = rows_of k df.
Proof.
  intros Hin. split.
  - apply groupby_In in Hin; [|exact Scmp_eq]. tauto.
  - now apply groupby_brand_In.
Qed.

(** C6, counterexample. The input file is there, one brand is healthy,
    and the other, which passes every skip guard, has a missing value of
    an admitted regressor on the last day of its holdout: the prediction on
    the holdout raises, and the run of the seasonal forecaster is aborted. *)
Lemma C6_counterexample_missing_holdout_value :
  PROCESSED_FILE (Examples.fs_of Examples.with_promo_gap) <> None
  /\ ~ seasonal_skip_condition (columns Examples.with_promo_gap)
                               (rows_of "Gamma" Examples.with_promo_gap)
  /\ Examples.prophet_run (Examples.fs_of Examples.with_promo_gap)
     = Raise (ValueError "Found NaN in column of a regressor.")
  /\ exists fs' metrics,
       Examples.prophet_run
         (Examples.fs_of (without_brand "Gamma" Examples.with_promo_gap))
       = Ok (fs', Some metrics)
       /\ map m_Brand metrics = ["Alpha"].
Proof.
  split; [discriminate|]. split.
  - unfold seasonal_skip_condition. vm_compute.
    intros [H|[H|[H|H]]]; try discriminate H; lia.
  - split; [vm_compute; reflexivity|].
    destruct (Examples.prophet_run
                (Examples.fs_of (without_brand "Gamma" Examples.with_promo_gap)))
      as [[fs' [metrics|]]|e] eqn:E; try (vm_compute in E; discriminate E).
    exists fs', metrics. split; [reflexivity|].
    vm_compute in E. apply Ok_inj in E. inversion E. reflexivity.
Qed.

(** C6, amended. Each entry point raises [FileNotFoundError] if and only
    if its input file is absent, and preprocessing raises nothing else.
    With the input file present, a run of a forecaster is aborted only by
    the [ValueError] that a library raised in the iteration of a brand
    that passed the skip guards; a brand that a guard catches never aborts
    it, so a table all of whose brands are caught completes, writing
    nothing. *)
Theorem C6_fatal_only_without_input
    (Net : Type) (train_net : nat -> list matrix -> list num -> Net)
    (forward : Net -> matrix -> num)
    (Model : Type) (fit_params : list string -> list DatedRow -> Model)
    (predict_row : Model -> DatedRow -> num * (num * num))
    (L : Metrics) (Qsqrt : Q -> Q) (fs : FileSystem) :
  let preprocess := Preprocessing.preprocess_data Qsqrt in
  let prophet := Seasonal.forecast_with_prophet fit_params predict_row L in
  let lstm := Lstm.run_lstm_forecast train_net forward L in
  (RAW_DATA_FILE fs = None
   <-> preprocess fs = Raise (FileNotFoundError RAW_DATA_PATH))
  /\ (PROCESSED_FILE fs = None
      <-> prophet fs = Raise (FileNotFoundError PROCESSED_PATH))
  /\ (PROCESSED_FILE fs = None
      <-> lstm fs = Raise (FileNotFoundError PROCESSED_PATH))
  /\ (forall e, preprocess fs = Raise e -> RAW_DATA_FILE fs = None)
  /\ (forall df e,
        PROCESSED_FILE fs = Some df -> prophet fs = Raise e ->
        library_error e
        /\ exists b,
             In b (map Brand (rows df))
             /\ ~ seasonal_skip_condition (columns df) (rows_of b df)
             /\ Seasonal.forecast_brand fit_params predict_row L
                  (columns df) b (rows_of b df) = Raise e)
  /\ (forall df e,
        PROCESSED_FILE fs = Some df -> lstm fs = Raise e ->
        library_error e
        /\ exists b,
             In b (map Brand (rows df))
             /\ ~ lstm_too_short (columns df) (rows_of b df)
             /\ Lstm.forecast_brand train_net forward L
                  (columns df) b (rows_of b df) = Raise e)
  /\ (forall df,
        PROCESSED_FILE fs = Some df ->
        (forall b, In b (map Brand (rows df)) ->
                   seasonal_skip_condition (columns df) (rows_of b df)) ->
        prophet fs = Ok (fs, None))
  /\ (forall df,
        PROCESSED_FILE fs = Some df ->
        (forall b, In b (map Brand (rows df)) ->
                   lstm_too_short (columns df) (rows_of b df)) ->
        lstm fs = Ok (fs, [])).
Proof.
  intros preprocess prophet lstm.
  assert (Hp : forall df e, PROCESSED_FILE fs = Some df -> prophet fs = Raise e ->
            library_error e
            /\ exists b,
                 In b (map Brand (rows df))
                 /\ ~ seasonal_skip_condition (columns df) (rows_of b df)
                 /\ Seasonal.forecast_brand fit_params predict_row L
                      (columns df) b (rows_of b df) = Raise e).
  { intros df e Hdf H. unfold prophet, Seasonal.forecast_with_prophet in H.
    rewrite Hdf in H. apply bind_raise in H.
    destruct H as [H|([F M] & _ & H)];
      [|simpl in H; destruct F; now apply Ok_not_Raise in H].
    unfold Seasonal.run_brands in H. apply run_aborted_by in H.
    destruct H as (b & Hb & Hs).
    split; [exact (seasonal_brand_error _ _ _ _ _ _ _ _ Hs)|].
    exists b. split; [exact Hb|]. split; [|exact Hs].
    intros Hc. rewrite (seasonal_skips _ fit_params predict_row L _ b _ Hc) in Hs.
    now apply Ok_not_Raise in Hs. }
  assert (Hl : forall df e, PROCESSED_FILE fs = Some df -> lstm fs = Raise e ->
            library_error e
            /\ exists b,
                 In b (map Brand (rows df))
                 /\ ~ lstm_too_short (columns df) (rows_of b df)
                 /\ Lstm.forecast_brand train_net forward L
                      (columns df) b (rows_of b df) = Raise e).
  { intros df e Hdf H. unfold lstm, Lstm.run_lstm_forecast in H.
    rewrite Hdf in H. apply bind_raise in H.
    destruct H as [H|([F M] & _ & H)];
      [|simpl in H; destruct F; now apply Ok_not_Raise in H].
    unfold Lstm.run_brands in H. apply run_aborted_by in H.
    destruct H as (b & Hb & Hs).
    split; [exact (lstm_brand_error _ _ _ _ _ _ _ _ Hs)|].
    exists b. split; [exact Hb|]. split; [|exact Hs].
    intros Hc.
    rewrite (lstm_skips _ train_net forward L _ b _ (or_introl Hc)) in Hs.
    now apply Ok_not_Raise in Hs. }
  split; [|split; [|split; [|split; [|split; [exact Hp|split; [exact Hl|split]]]]]].
  - unfold preprocess, Preprocessing.preprocess_data.
    destruct (RAW_DATA_FILE fs); split; intros H; try reflexivity; discriminate.
  - split.
    + intros H. unfold prophet, Seasonal.forecast_with_prophet. now rewrite H.
    + intros H. destruct (PROCESSED_FILE fs) as [df|] eqn:Hdf; [|reflexivity].
      destruct (Hp df _ eq_refl H) as [[msg Hm] _]. discriminate Hm.
  - split.
    + intros H. unfold lstm, Lstm.run_lstm_forecast. now rewrite H.
    + intros H. destruct (PROCESSED_FILE fs) as [df|] eqn:Hdf; [|reflexivity].
      destruct (Hl df _ eq_refl H) as [[msg Hm] _]. discriminate Hm.
  - intros e. unfold preprocess, Preprocessing.preprocess_data.
    destruct (RAW_DATA_FILE fs); [discriminate|reflexivity].
  - intros df Hdf Hall. unfold prophet, Seasonal.forecast_with_prophet.
    rewrite Hdf. unfold Seasonal.run_brands.
    rewrite brand_loop_all_skipped; [reflexivity|].
    intros [k brand_rows] Hin. simpl.
    apply groupby_brand_member in Hin. destruct Hin as [Hk ->].
    apply seasonal_skips. now apply Hall.
  - intros df Hdf Hall. unfold lstm, Lstm.run_lstm_forecast.
    rewrite Hdf. unfold Lstm.run_brands.
    rewrite brand_loop_all_skipped; [reflexivity|].
    intros [k brand_rows] Hin. simpl.
    apply groupby_brand_member in Hin. destruct Hin as [Hk ->].
    apply lstm_skips. left. now apply Hall.
Qed.

(* ===================================================================== *)
(** * Preprocessing: the rows and their keys *)
(* ===================================================================== *)

(** The key columns of a raw row. *)
Definition raw_key (r : RawRow) : string * (string * option Z) :=
  (raw_Category r, (raw_Brand r, raw_Date r)).

(** The key columns of a row of the processed table. *)
Definition row_key (r : Row) : string * (string * Z) :=
  (Category r, (Brand r, Date r)).

(** Two frames have the same keys (in any order, any number of times). *)
Definition same_keys (df df' : list RawRow) : Prop :=
  forall k, In k (map raw_key df) <-> In k (map raw_key df').

Lemma same_keys_refl df : same_keys df df.
Proof. intros k. tauto. Qed.

Lemma same_keys_trans df1 df2 df3 :
  same_keys df1 df2 -> same_keys df2 df3 -> same_keys df1 df3.
Proof. intros H1 H2 k. rewrite (H1 k). apply H2. Qed.

Lemma assign_keys c values df :
  List.length values = List.length df ->
  map raw_key (Preprocessing.assign c values df) = map raw_key df.
Proof.
  intros Hlen. unfold Preprocessing.assign. rewrite map_map.
  rewrite (map_ext _ (fun rv => raw_key (fst rv))) by reflexivity.
  rewrite <- (map_map fst raw_key). f_equal. apply combine_fst. auto.
Qed.

Lemma assign_length c values df :
  List.length values = List.length df ->
  List.length (Preprocessing.assign c values df) = List.length df.
Proof.
  intros Hlen. rewrite <- (length_map raw_key), assign_keys by exact Hlen.
  apply length_map.
Qed.

Lemma rcolumn_length c df : List.length (Preprocessing.rcolumn c df) = List.length df.
Proof. apply length_map. Qed.

Lemma fillna_length v xs : List.length (Preprocessing.fillna v xs) = List.length xs.
Proof. apply length_map. Qed.

Lemma positions_length before brands :
  List.length (Preprocessing.positions_in_brand before brands) = List.length brands.
Proof.
  revert before. induction brands as [|b t IH]; simpl; intros before; auto.
Qed.

Lemma group_transform_length f c df :
  List.length (Preprocessing.group_transform f c df) = List.length df.
Proof.
  unfold Preprocessing.group_transform.
  rewrite length_map, length_combine, positions_length, length_map.
  apply Nat.min_id.
Qed.

Lemma label_encode_length values :
  List.length (Preprocessing.label_encode values) = List.length values.
Proof. apply length_map. Qed.

Lemma fill_median_keys c df :
  map raw_key (Preprocessing.fill_median c df) = map raw_key df.
Proof.
  unfold Preprocessing.fill_median. apply assign_keys.
  now rewrite fillna_length, rcolumn_length.
Qed.

Lemma fold_fill_median_keys cs df :
  map raw_key (fold_left (fun acc c => Preprocessing.fill_median c acc) cs df)
  = map raw_key df.
Proof.
  revert df. induction cs as [|c t IH]; simpl; intros df; [reflexivity|].
  now rewrite IH, fill_median_keys.
Qed.

Lemma fill_missing_keys cols df :
  map raw_key (Preprocessing.fill_missing cols df) = map raw_key df.
Proof.
  unfold Preprocessing.fill_missing.
  destruct (has_column cols "Is_Holiday").
  - rewrite assign_keys by (now rewrite fillna_length, rcolumn_length).
    now rewrite fold_fill_median_keys, !fill_median_keys.
  - now rewrite fold_fill_median_keys, !fill_median_keys.
Qed.

Lemma insert_row_In x r l :
  In x (Preprocessing.insert_row r l) <-> x = r \/ In x l.
Proof.
  induction l as [|h t IH]; simpl; [intuition|].
  destruct (cmp_pair String.compare Preprocessing.cmp_date
              (Preprocessing.sort_key r) (Preprocessing.sort_key h));
    simpl; rewrite ?IH; intuition.
Qed.

Lemma sort_values_In x df : In x (Preprocessing.sort_values df) <-> In x df.
Proof.
  unfold Preprocessing.sort_values. induction df as [|r t IH]; simpl; [tauto|].
  rewrite insert_row_In, IH. intuition.
Qed.

Lemma sort_values_keys df : same_keys (Preprocessing.sort_values df) df.
Proof.
  intros k. rewrite !in_map_iff. split; intros (r & E & Hr); exists r;
    (split; [exact E|]); now apply sort_values_In.
Qed.

Lemma encode_keys df :
  map raw_key (Preprocessing.encode df) = map raw_key df.
Proof.
  unfold Preprocessing.encode.
  repeat (rewrite assign_keys by (now rewrite label_encode_length, length_map)).
  reflexivity.
Qed.

Lemma engineer_keys df :
  map raw_key (Preprocessing.engineer df) = map raw_key df.
Proof.
  unfold Preprocessing.engineer.
  repeat (rewrite assign_keys;
          [| first [ apply group_transform_length
                   | unfold Preprocessing.fillna_with;
                     now rewrite length_map, length_combine, !rcolumn_length,
                                 Nat.min_id ] ]).
  reflexivity.
Qed.

Lemma zscore_length Qsqrt xs :
  List.length (Preprocessing.zscore Qsqrt xs) = List.length xs.
Proof. apply length_map. Qed.

Lemma fold_assign_keys Qsqrt (df0 : list RawRow) cs df :
  List.length df = List.length df0 ->
  map raw_key
    (fold_left (fun acc c =>
                  Preprocessing.assign c
                    (Preprocessing.zscore Qsqrt (Preprocessing.rcolumn c df0)) acc)
               cs df)
  = map raw_key df.
Proof.
  revert df. induction cs as [|c t IH]; simpl; intros df Hlen; [reflexivity|].
  assert (Hv : List.length (Preprocessing.zscore Qsqrt (Preprocessing.rcolumn c df0))
               = List.length df)
    by (now rewrite zscore_length, rcolumn_length).
  rewrite IH.
  - now apply assign_keys.
  - rewrite assign_length by exact Hv. exact Hlen.
Qed.

Lemma normalize_keys Qsqrt cols df :
  map raw_key (Preprocessing.normalize Qsqrt cols df) = map raw_key df.
Proof. unfold Preprocessing.normalize. now apply fold_assign_keys. Qed.

(** The frame that is aggregated has the keys of the raw table. *)
Lemma pipeline_keys Qsqrt cols0 cols df :
  same_keys
    (Preprocessing.normalize Qsqrt cols
       (Preprocessing.engineer
          (Preprocessing.encode
             (Preprocessing.sort_values (Preprocessing.fill_missing cols0 df)))))
    df.
Proof.
  intros k. rewrite normalize_keys, engineer_keys, encode_keys.
  rewrite (sort_values_keys _ k). now rewrite fill_missing_keys.
Qed.

Lemma cmp_key_eq a b : Preprocessing.cmp_key a b = Eq <-> a = b.
Proof. unfold Preprocessing.cmp_key. apply cmp_pair_eq; orders. Qed.

Lemma cmp_key_antisym a b :
  Preprocessing.cmp_key a b = CompOpp (Preprocessing.cmp_key b a).
Proof. unfold Preprocessing.cmp_key. apply cmp_pair_antisym; orders. Qed.

Lemma cmp_key_trans a b c :
  Preprocessing.cmp_key a b = Lt -> Preprocessing.cmp_key b c = Lt ->
  Preprocessing.cmp_key a c = Lt.
Proof. unfold Preprocessing.cmp_key. apply cmp_pair_trans; orders. Qed.

(** The keys of the aggregated table are the distinct keys of the dated
    rows, in increasing order. *)
Lemma aggregate_keys agg df :
  map row_key (Preprocessing.aggregate agg df)
  = unique_sorted Preprocessing.cmp_key
      (map Preprocessing.group_key (Preprocessing.dated df)).
Proof.
  unfold Preprocessing.aggregate. rewrite map_map.
  rewrite <- (groupby_keys Preprocessing.cmp_key Preprocessing.group_key).
  apply map_ext. intros [[c [b d]] g]. reflexivity.
Qed.

Lemma dated_keys df c b d :
  In (c, (b, d)) (map Preprocessing.group_key (Preprocessing.dated df))
  <-> In (c, (b, Some d)) (map raw_key df).
Proof.
  induction df as [|r t IH]; [simpl; tauto|].
  change (Preprocessing.dated (r :: t))
    with (match raw_Date r with Some d' => [(r, d')] | None => [] end
          ++ Preprocessing.dated t).
  rewrite map_app, in_app_iff, IH. cbn [map In]. unfold raw_key at 1.
  destruct r as [[day|] cat brand region rc]; cbn.
  - split.
    + intros [[E|[]]|H]; [left; inversion E; reflexivity|now right].
    + intros [E|H]; [left; left; inversion E; reflexivity|now right].
  - split; [intros [[]|H]; now right|].
    intros [E|H]; [discriminate E|now right].
Qed.

Lemma aggregate_NoDup agg df :
  NoDup (map row_key (Preprocessing.aggregate agg df)).
Proof.
  rewrite aggregate_keys. apply unique_sorted_NoDup.
  - exact cmp_key_eq.
  - exact cmp_key_antisym.
  - exact cmp_key_trans.
Qed.

Lemma aggregate_In agg df c b d :
  In (c, (b, d)) (map row_key (Preprocessing.aggregate agg df))
  <-> In (c, (b, Some d)) (map raw_key df).
Proof.
  rewrite aggregate_keys, <- dated_keys. apply unique_sorted_In. exact cmp_key_eq.
Qed.

(** The keys of the processed table are those of the dated raw rows, each
    one once. *)
Lemma transform_keys Qsqrt raw :
  NoDup (map row_key (rows (Preprocessing.transform Qsqrt raw)))
  /\ forall c b d,
       In (c, (b, d)) (map row_key (rows (Preprocessing.transform Qsqrt raw)))
       <-> In (c, (b, Some d)) (map raw_key (raw_rows raw)).
Proof.
  unfold Preprocessing.transform. cbn [rows]. split.
  - apply aggregate_NoDup.
  - intros c b d. rewrite aggregate_In. apply pipeline_keys.
Qed.

Lemma preprocess_data_Ok Qsqrt fs raw :
  RAW_DATA_FILE fs = Some raw ->
  Preprocessing.preprocess_data Qsqrt fs
  = Ok ({| RAW_DATA_FILE := Some raw;
           PROCESSED_FILE := Some (Preprocessing.transform Qsqrt raw);
           PROPHET_FORECAST_FILE := PROPHET_FORECAST_FILE fs;
           PROPHET_METRICS_FILE := PROPHET_METRICS_FILE fs;
           LSTM_FORECAST_FILE := LSTM_FORECAST_FILE fs;
           LSTM_METRICS_FILE := LSTM_METRICS_FILE fs |},
        Preprocessing.transform Qsqrt raw).
Proof.
  intros H. unfold Preprocessing.preprocess_data. rewrite H. reflexivity.
Qed.

(** The rows of a table with a given key. *)
Definition rows_with_key (k : string * (string * Z)) (df : DataFrame) : list Row :=
  filter (fun r => key_eqb Preprocessing.cmp_key (row_key r) k) (rows df).

Lemma NoDup_one_row (k : string * (string * Z)) (l : list Row) :
  NoDup (map row_key l) -> In k (map row_key l) ->
  List.length (filter (fun r => key_eqb Preprocessing.cmp_key (row_key r) k) l) = 1%nat.
Proof.
  induction l as [|r t IH]; simpl; intros Hnd Hin; [contradiction|].
  inversion Hnd as [|? ? Hnot Hnd']; subst.
  destruct (key_eqb Preprocessing.cmp_key (row_key r) k) eqn:E.
  - apply key_eqb_eq in E; [|exact cmp_key_eq]. subst k. simpl. f_equal.
    assert (Hnone : forall l', ~ In (row_key r) (map row_key l') ->
              filter (fun r' => key_eqb Preprocessing.cmp_key (row_key r') (row_key r)) l'
              = []).
    { induction l' as [|r' t' IH']; simpl; intros Hn; [reflexivity|].
      destruct (key_eqb Preprocessing.cmp_key (row_key r') (row_key r)) eqn:E'.
      - apply key_eqb_eq in E'; [|exact cmp_key_eq]. exfalso. apply Hn. now left.
      - apply IH'. intros H. apply Hn. now right. }
    now rewrite Hnone.
  - destruct Hin as [Hin|Hin].
    + subst k. rewrite key_eqb_refl in E by exact cmp_key_eq. discriminate E.
    + now apply IH.
Qed.

(** C9. Preprocessing is a function of the raw table alone: from any state
    of the files that holds the same raw table it returns and stores the
    same processed table, and run again on the state it left it leaves that
    state and returns that table once more.  The processed table has
    exactly one row for each (category, brand, date) of a raw row with a
    valid date, and no other row. *)
Theorem C9_preprocessing_idempotent
    (Qsqrt : Q -> Q) (fs fs1 : FileSystem) (raw : RawFrame) (out : DataFrame) :
  RAW_DATA_FILE fs = Some raw ->
  Preprocessing.preprocess_data Qsqrt fs = Ok (fs1, out) ->
  (forall fs', RAW_DATA_FILE fs' = Some raw ->
     exists fs2, Preprocessing.preprocess_data Qsqrt fs' = Ok (fs2, out)
                 /\ PROCESSED_FILE fs2 = Some out
                 /\ RAW_DATA_FILE fs2 = Some raw)
  /\ Preprocessing.preprocess_data Qsqrt fs1 = Ok (fs1, out)
  /\ (forall c b d,
        In (c, (b, Some d)) (map raw_key (raw_rows raw))
        <-> In (c, (b, d)) (map row_key (rows out)))
  /\ (forall k, In k (map row_key (rows out)) ->
        List.length (rows_with_key k out) = 1%nat).
Proof.
  intros Hraw H. rewrite (preprocess_data_Ok Qsqrt fs raw Hraw) in H.
  apply Ok_inj in H. inversion H; subst; clear H.
  destruct (transform_keys Qsqrt raw) as [Hnd Hin].
  split; [|split; [|split]].
  - intros fs' Hraw'. eexists. split; [apply preprocess_data_Ok; exact Hraw'|].
    split; reflexivity.
  - unfold Preprocessing.preprocess_data. reflexivity.
  - intros c b d. symmetry. apply Hin.
  - intros k Hk. unfold rows_with_key. now apply NoDup_one_row.
Qed.

(** C9, witness: the raw table of four records, two of them under one key. *)
Lemma C9_preprocessing_idempotent_witness :
  let out := Preprocessing.transform Examples.sqrt_double Examples.raw_sales in
  let fs1 :=
    {| RAW_DATA_FILE := Some Examples.raw_sales;
       PROCESSED_FILE := Some out;
       PROPHET_FORECAST_FILE := None;
       PROPHET_METRICS_FILE := None;
       LSTM_FORECAST_FILE := None;
       LSTM_METRICS_FILE := None |} in
  map row_key (rows out)
  = [ ("Dairy", ("Alpha", 1)); ("Dairy", ("Alpha", 2)); ("Dairy", ("Beta", 2)) ]
  /\ Preprocessing.preprocess_data Examples.sqrt_double fs1 = Ok (fs1, out).
Proof.
  intros out fs1. split; [vm_compute; reflexivity|].
  exact (proj1 (proj2
           (C9_preprocessing_idempotent Examples.sqrt_double Examples.raw_fs fs1
              Examples.raw_sales out eq_refl eq_refl))).
Defined.

(* ===================================================================== *)
(** * Preprocessing: the normalised columns *)
(* ===================================================================== *)

Lemma combine_snd {A B} (l1 : list A) (l2 : list B) :
  List.length l1 = List.length l2 -> map snd (combine l1 l2) = l2.
Proof.
  revert l2. induction l1 as [|a t IH]; destruct l2 as [|b t']; simpl;
    intros H; try discriminate; [reflexivity|].
  f_equal. apply IH. lia.
Qed.

Lemma lookup_set_cell_same c v r :
  lookup c r <> None -> lookup c (set_cell c v r) = Some v.
Proof.
  induction r as [|[c' v'] t IH]; simpl; intros H; [congruence|].
  destruct (String.eqb c c') eqn:E.
  - rewrite String.eqb_sym, E. simpl. now rewrite String.eqb_refl.
  - rewrite String.eqb_sym, E. simpl. rewrite E. now apply IH.
Qed.

Lemma lookup_set_cell_other c c' v r :
  c <> c' -> lookup c' (set_cell c v r) = lookup c' r.
Proof.
  intros Hne. induction r as [|[c0 v0] t IH]; simpl; [reflexivity|].
  destruct (String.eqb c0 c) eqn:E; simpl.
  - apply String.eqb_eq in E. subst c0.
    assert (E' : String.eqb c' c = false)
      by (apply String.eqb_neq; congruence).
    rewrite E'. exact IH.
  - rewrite IH. reflexivity.
Qed.

Lemma lookup_app_new c v r :
  lookup c r = None -> lookup c (r ++ [(c, v)]) = Some v.
Proof.
  induction r as [|[c' v'] t IH]; simpl; intros H.
  - now rewrite String.eqb_refl.
  - destruct (String.eqb c c'); [discriminate H|now apply IH].
Qed.

Lemma lookup_app_other c c' v r :
  c <> c' -> lookup c' (r ++ [(c, v)]) = lookup c' r.
Proof.
  intros Hne. induction r as [|[c0 v0] t IH]; simpl.
  - assert (E' : String.eqb c' c = false)
      by (apply String.eqb_neq; congruence).
    now rewrite E'.
  - now rewrite IH.
Qed.

Lemma get_assign_cell_same c v r : get c (Preprocessing.assign_cell c v r) = v.
Proof.
  unfold get, Preprocessing.assign_cell.
  destruct (lookup c r) eqn:E.
  - rewrite lookup_set_cell_same by congruence. reflexivity.
  - rewrite lookup_app_new by exact E. reflexivity.
Qed.

Lemma get_assign_cell_other c c' v r :
  c <> c' -> get c' (Preprocessing.assign_cell c v r) = get c' r.
Proof.
  intros Hne. unfold get, Preprocessing.assign_cell.
  destruct (lookup c r).
  - now rewrite lookup_set_cell_other.
  - now rewrite lookup_app_other.
Qed.

Lemma rcolumn_assign_same c values df :
  List.length values = List.length df ->
  Preprocessing.rcolumn c (Preprocessing.assign c values df) = values.
Proof.
  intros Hlen. unfold Preprocessing.rcolumn, Preprocessing.assign.
  rewrite map_map.
  rewrite (map_ext _ snd) by (intros [r v]; apply get_assign_cell_same).
  apply combine_snd. now symmetry.
Qed.

Lemma rcolumn_assign_other c c' values df :
  c <> c' -> List.length values = List.length df ->
  Preprocessing.rcolumn c' (Preprocessing.assign c values df)
  = Preprocessing.rcolumn c' df.
Proof.
  intros Hne Hlen. unfold Preprocessing.rcolumn, Preprocessing.assign.
  rewrite map_map.
  rewrite (map_ext _ (fun rv => get c' (raw_cells (fst rv))))
    by (intros [r v]; now apply get_assign_cell_other).
  rewrite <- (map_map fst (fun r => get c' (raw_cells r))).
  rewrite combine_fst by (now symmetry). reflexivity.
Qed.

(** A column after the loop of assignments: the z-scores of the column of
    the frame as it was if the loop assigned it, and what it was if not. *)
Lemma fold_assign_column Qsqrt (df0 : list RawRow) c cs :
  forall df, List.length df = List.length df0 ->
  Preprocessing.rcolumn c
    (fold_left (fun acc c0 =>
                  Preprocessing.assign c0
                    (Preprocessing.zscore Qsqrt (Preprocessing.rcolumn c0 df0)) acc)
               cs df)
  = if in_dec string_dec c cs
    then Preprocessing.zscore Qsqrt (Preprocessing.rcolumn c df0)
    else Preprocessing.rcolumn c df.
Proof.
  induction cs as [|c0 t IH]; intros df Hlen; [reflexivity|].
  assert (Hv : List.length (Preprocessing.zscore Qsqrt (Preprocessing.rcolumn c0 df0))
               = List.length df)
    by (now rewrite zscore_length, rcolumn_length).
  cbn [fold_left]. rewrite IH by (now rewrite assign_length).
  destruct (in_dec string_dec c t) as [Hin|Hout];
    destruct (in_dec string_dec c (c0 :: t)) as [Hin'|Hout'];
    try reflexivity.
  - exfalso. apply Hout'. now right.
  - destruct Hin' as [E|Hin']; [subst c0|contradiction].
    now apply rcolumn_assign_same.
  - apply rcolumn_assign_other; [|exact Hv].
    intros E. apply Hout'. now left.
Qed.

Lemma normalize_selected Qsqrt cols df c :
  In c Preprocessing.numeric_cols_to_normalize -> has_column cols c = true ->
  Preprocessing.rcolumn c (Preprocessing.normalize Qsqrt cols df)
  = Preprocessing.zscore Qsqrt (Preprocessing.rcolumn c df).
Proof.
  intros Hin Hc. unfold Preprocessing.normalize.
  rewrite fold_assign_column by reflexivity.
  destruct (in_dec string_dec c _) as [_|Hout]; [reflexivity|].
  exfalso. apply Hout. apply filter_In. now split.
Qed.

Lemma normalize_others Qsqrt cols df c :
  ~ In c Preprocessing.numeric_cols_to_normalize \/ has_column cols c = false ->
  Preprocessing.rcolumn c (Preprocessing.normalize Qsqrt cols df)
  = Preprocessing.rcolumn c df.
Proof.
  intros H. unfold Preprocessing.normalize.
  rewrite fold_assign_column by reflexivity.
  destruct (in_dec string_dec c _) as [Hin|_]; [|reflexivity].
  apply filter_In in Hin. destruct Hin as [Hin Hc].
  destruct H as [H|H]; [contradiction|congruence].
Qed.

(** Sums, means and sample variances of rational columns. *)
Definition Qsum (qs : list Q) : Q := fold_left Qplus qs 0%Q.

Definition Qmean (qs : list Q) : Q :=
  (Qsum qs / inject_Z (Z.of_nat (List.length qs)))%Q.

Definition Qvar (qs : list Q) : Q :=
  (Qsum (map (fun y => (y + - Qmean qs) * (y + - Qmean qs)) qs)
   / inject_Z (Z.of_nat (List.length qs - 1)))%Q.

Section ColumnFacts.
Local Open Scope Q_scope.

Lemma fold_Qplus_acc l : forall a, fold_left Qplus l a == a + Qsum l.
Proof.
  unfold Qsum. induction l as [|x t IH]; intros a; simpl.
  - ring.
  - rewrite (IH (a + x)), (IH (0 + x)). ring.
Qed.

Lemma Qsum_cons x t : Qsum (x :: t) == x + Qsum t.
Proof. unfold Qsum at 1. simpl. rewrite fold_Qplus_acc. ring. Qed.

Lemma Qsum_nonneg l : Forall (fun x => 0 <= x) l -> 0 <= Qsum l.
Proof.
  induction 1 as [|x t Hx Ht IH]; [apply Qle_refl|].
  rewrite Qsum_cons. replace 0 with (0 + 0) by reflexivity.
  now apply Qplus_le_compat.
Qed.

Lemma Qsum_ext {A} (f g : A -> Q) l :
  (forall x, f x == g x) -> Qsum (map f l) == Qsum (map g l).
Proof.
  intros H. induction l as [|x t IH]; simpl; [reflexivity|].
  now rewrite !Qsum_cons, IH, H.
Qed.

Lemma Qsum_scale {A} (f : A -> Q) k l :
  Qsum (map (fun x => f x * k) l) == Qsum (map f l) * k.
Proof.
  induction l as [|x t IH]; simpl.
  - unfold Qsum. simpl. ring.
  - rewrite !Qsum_cons, IH. ring.
Qed.

Lemma Qsum_centred m d l :
  Qsum (map (fun q => (q + - m) / d) l)
  == (Qsum l - inject_Z (Z.of_nat (List.length l)) * m) / d.
Proof.
  induction l as [|x t IH].
  - unfold Qsum, Qdiv. simpl. ring.
  - cbn [map List.length]. rewrite !Qsum_cons, IH.
    rewrite Nat2Z.inj_succ, <- Z.add_1_r, inject_Z_plus.
    unfold Qdiv. ring.
Qed.

Lemma inject_nat_nonzero n : (0 < n)%nat -> ~ inject_Z (Z.of_nat n) == 0.
Proof. intros Hn H. unfold Qeq in H. simpl in H. lia. Qed.

Lemma Qeq_bool_nonzero q : ~ q == 0 -> Qeq_bool q 0 = false.
Proof.
  intros H. destruct (Qeq_bool q 0) eqn:E; [|reflexivity].
  apply Qeq_bool_eq in E. contradiction.
Qed.

Lemma dropna_all_finite qs : dropna (map Fin qs) = map Fin qs.
Proof.
  unfold dropna. induction qs as [|q t IH]; simpl; [reflexivity|now rewrite IH].
Qed.

Lemma fold_nadd_finite qs : forall a,
  fold_left nadd (map Fin qs) (Fin a) = Fin (fold_left Qplus qs a).
Proof. induction qs as [|q t IH]; intros a; simpl; [reflexivity|apply IH]. Qed.

Lemma col_mean_finite qs :
  qs <> [] -> col_mean (map Fin qs) = Fin (Qmean qs).
Proof.
  intros Hne. unfold col_mean. rewrite dropna_all_finite.
  destruct qs as [|q t]; [congruence|].
  change (map Fin (q :: t)) with (Fin q :: map Fin t) at 1.
  cbv iota beta.
  change (Fin q :: map Fin t) with (map Fin (q :: t)).
  rewrite fold_nadd_finite, length_map. unfold of_nat, ndiv.
  rewrite Qeq_bool_nonzero by (apply inject_nat_nonzero; simpl; lia).
  reflexivity.
Qed.

Lemma col_var_finite qs :
  (2 <= List.length qs)%nat ->
  Preprocessing.col_var (map Fin qs) = Fin (Qvar qs).
Proof.
  intros Hlen. unfold Preprocessing.col_var.
  rewrite dropna_all_finite, length_map.
  destruct (Nat.ltb_spec (List.length qs) 2) as [Hlt|_]; [lia|].
  rewrite col_mean_finite by (destruct qs; [simpl in Hlen; lia|discriminate]).
  rewrite map_map.
  rewrite (map_ext _ (fun y => Fin ((y + - Qmean qs) * (y + - Qmean qs))))
    by reflexivity.
  rewrite <- (map_map (fun y => (y + - Qmean qs) * (y + - Qmean qs)) Fin).
  rewrite fold_nadd_finite. unfold of_nat, ndiv.
  rewrite Qeq_bool_nonzero by (apply inject_nat_nonzero; lia).
  reflexivity.
Qed.

Lemma Qsquare_ge_0 (x : Q) : 0 <= x * x.
Proof.
  unfold Qle, Qmult. simpl. rewrite Z.mul_1_r. apply Z.square_nonneg.
Qed.

Lemma Qvar_nonneg qs : 0 <= Qvar qs.
Proof.
  unfold Qvar, Qdiv. apply Qmult_le_0_compat.
  - apply Qsum_nonneg. rewrite Forall_forall. intros x Hx.
    apply in_map_iff in Hx. destruct Hx as (y & <- & _). apply Qsquare_ge_0.
  - apply Qinv_le_0_compat. unfold Qle. simpl. lia.
Qed.

Lemma epsilon_pos : 0 < Preprocessing.epsilon.
Proof. reflexivity. Qed.

Section Root.
Variable Qsqrt : Q -> Q.
Hypothesis Qsqrt_nonneg : forall q, 0 <= Qsqrt q.

Lemma denominator_pos q : 0 < Qsqrt q + Preprocessing.epsilon.
Proof.
  apply Qlt_le_trans with (0 + Preprocessing.epsilon).
  - rewrite Qplus_0_l. exact epsilon_pos.
  - apply Qplus_le_compat; [apply Qsqrt_nonneg|apply Qle_refl].
Qed.

(** The denominator of the z-score is never zero, whatever the column. *)
Lemma denominator_nonzero xs :
  num_eqb (nadd (Preprocessing.col_std Qsqrt xs) (Fin Preprocessing.epsilon)) (Fin 0)
  = false.
Proof.
  unfold Preprocessing.col_std, Preprocessing.nsqrt.
  destruct (Preprocessing.col_var xs) as [v| | |]; try reflexivity.
  destruct (Qle_bool 0 v); [|reflexivity].
  cbn [nadd num_eqb]. apply Qeq_bool_nonzero.
  intros H. pose proof (denominator_pos v) as Hp. rewrite H in Hp.
  exact (Qlt_irrefl 0 Hp).
Qed.

Lemma col_std_finite qs :
  (2 <= List.length qs)%nat ->
  Preprocessing.col_std Qsqrt (map Fin qs) = Fin (Qsqrt (Qvar qs)).
Proof.
  intros Hlen. unfold Preprocessing.col_std. rewrite col_var_finite by exact Hlen.
  unfold Preprocessing.nsqrt.
  rewrite (proj2 (Qle_bool_iff 0 (Qvar qs)) (Qvar_nonneg qs)). reflexivity.
Qed.

Lemma zscore_finite qs :
  (2 <= List.length qs)%nat ->
  Preprocessing.zscore Qsqrt (map Fin qs)
  = map Fin (map (fun q => (q - Qmean qs) / (Qsqrt (Qvar qs) + Preprocessing.epsilon))
                 qs).
Proof.
  intros Hlen. unfold Preprocessing.zscore.
  rewrite col_std_finite by exact Hlen.
  rewrite col_mean_finite by (destruct qs; [simpl in Hlen; lia|discriminate]).
  rewrite !map_map. apply map_ext. intros q.
  cbn [nadd nsub nopp ndiv].
  rewrite Qeq_bool_nonzero; [reflexivity|].
  intros H. pose proof (denominator_pos (Qvar qs)) as Hp. rewrite H in Hp.
  exact (Qlt_irrefl 0 Hp).
Qed.

Lemma zscore_mean qs d :
  qs <> [] -> Qmean (map (fun q => (q - Qmean qs) / d) qs) == 0.
Proof.
  intros Hne. unfold Qmean at 1. rewrite length_map.
  unfold Qminus. rewrite Qsum_centred.
  assert (E : inject_Z (Z.of_nat (List.length qs)) * Qmean qs == Qsum qs).
  { unfold Qmean. apply Qmult_div_r. apply inject_nat_nonzero.
    destruct qs; [congruence|simpl; lia]. }
  rewrite E. unfold Qdiv. ring.
Qed.

Lemma zscore_var qs d :
  qs <> [] -> ~ d == 0 ->
  Qvar (map (fun q => (q - Qmean qs) / d) qs) * (d * d) == Qvar qs.
Proof.
  intros Hne Hd. unfold Qvar at 1. rewrite length_map, map_map.
  rewrite (Qsum_ext _
             (fun q => ((q + - Qmean qs) * (q + - Qmean qs)) * (/ d * / d))).
  - rewrite Qsum_scale. unfold Qvar, Qdiv.
    generalize (/ inject_Z (Z.of_nat (List.length qs - 1))). intros k.
    field. exact Hd.
  - intros q. rewrite (zscore_mean qs d Hne). unfold Qminus, Qdiv. ring.
Qed.

End Root.
End ColumnFacts.

Lemma sqrt_double_nonneg q : (0 <= Examples.sqrt_double q)%Q.
Proof.
  unfold Examples.sqrt_double, Qle. simpl. rewrite Z.mul_1_r.
  apply Z.sqrt_nonneg.
Qed.




(* ===================================================================== *)
(** * Preprocessing: filling the missing values *)
(* ===================================================================== *)

Lemma insert_num_Forall (P : num -> Prop) x l :
  P x -> Forall P l -> Forall P (Preprocessing.insert_num x l).
Proof.
  intros Hx. induction 1 as [|h t Hh Ht IH]; simpl.
  - constructor; [exact Hx|constructor].
  - destruct (num_leb x h); repeat constructor; assumption.
Qed.

Lemma sort_nums_Forall (P : num -> Prop) l :
  Forall P l -> Forall P (Preprocessing.sort_nums l).
Proof.
  unfold Preprocessing.sort_nums. induction 1 as [|h t Hh Ht IH]; simpl;
    [constructor|]. now apply insert_num_Forall.
Qed.

Lemma insert_num_length x l :
  List.length (Preprocessing.insert_num x l) = S (List.length l).
Proof.
  induction l as [|h t IH]; simpl; [reflexivity|].
  destruct (num_leb x h); simpl; [reflexivity|now rewrite IH].
Qed.

Lemma sort_nums_length l :
  List.length (Preprocessing.sort_nums l) = List.length l.
Proof.
  unfold Preprocessing.sort_nums. induction l as [|h t IH]; simpl; [reflexivity|].
  now rewrite insert_num_length, IH.
Qed.

Lemma nth_finite l i :
  Forall (fun z => isfinite z = true) l -> (i < List.length l)%nat ->
  exists q, nth i l NaN = Fin q.
Proof.
  intros H Hi. rewrite Forall_forall in H.
  specialize (H (nth i l NaN) (nth_In l NaN Hi)).
  destruct (nth i l NaN); try discriminate. eauto.
Qed.

(** The median of a column with a value and without infinities is a
    finite number. *)
Lemma median_finite xs :
  Forall no_inf xs -> (exists x, In x xs /\ notnull x = true) ->
  exists m, Preprocessing.median xs = Fin m.
Proof.
  intros Hinf (x & Hx & Hn). unfold Preprocessing.median.
  pose proof (sort_nums_Forall _ _ (dropna_finite Hinf)) as Hfin.
  assert (Hlen : (0 < List.length (Preprocessing.sort_nums (dropna xs)))%nat).
  { rewrite sort_nums_length.
    assert (Hin : In x (dropna xs)) by (apply filter_In; auto).
    destruct (dropna xs); [contradiction|simpl; lia]. }
  set (s := Preprocessing.sort_nums (dropna xs)) in *.
  destruct (List.length s) as [|n] eqn:En; [lia|].
  assert (H1 : (S n / 2 < List.length s)%nat)
    by (rewrite En; apply Nat.div_lt; lia).
  assert (H0 : (S n / 2 - 1 < List.length s)%nat) by lia.
  destruct (nth_finite s _ Hfin H1) as (b & Hb).
  destruct (nth_finite s _ Hfin H0) as (a & Ha).
  rewrite Ha, Hb. destruct (Nat.even (S n)); [|eauto].
  cbn [nadd ndiv]. eexists. reflexivity.
Qed.

Lemma median_all_missing xs :
  Forall (fun x => isnull x = true) xs -> Preprocessing.median xs = NaN.
Proof.
  intros H. unfold Preprocessing.median.
  assert (E : dropna xs = []).
  { unfold dropna. induction H as [|x t Hx Ht IH]; simpl; [reflexivity|].
    unfold notnull. rewrite Hx. exact IH. }
  rewrite E. reflexivity.
Qed.

Lemma fillna_missing xs :
  Forall (fun x => isnull x = true) xs -> Preprocessing.fillna NaN xs = xs.
Proof.
  induction 1 as [|x t Hx Ht IH]; simpl; [reflexivity|].
  rewrite Hx, IH. destruct x; try discriminate. reflexivity.
Qed.

Lemma fill_median_column c df :
  Preprocessing.rcolumn c (Preprocessing.fill_median c df)
  = Preprocessing.fillna (Preprocessing.median (Preprocessing.rcolumn c df))
      (Preprocessing.rcolumn c df).
Proof.
  unfold Preprocessing.fill_median. apply rcolumn_assign_same.
  now rewrite fillna_length, rcolumn_length.
Qed.



(* ===================================================================== *)
(** * Preprocessing: the sort by brand and date *)
(* ===================================================================== *)

Lemma cmp_date_eq a b : Preprocessing.cmp_date a b = Eq <-> a = b.
Proof.
  destruct a as [x|], b as [y|]; simpl; try (split; congruence).
  rewrite Z.compare_eq_iff. split; congruence.
Qed.

Lemma cmp_date_antisym a b :
  Preprocessing.cmp_date a b = CompOpp (Preprocessing.cmp_date b a).
Proof.
  destruct a as [x|], b as [y|]; simpl; try reflexivity.
  apply Z.compare_antisym.
Qed.

Lemma cmp_date_trans a b c :
  Preprocessing.cmp_date a b = Lt -> Preprocessing.cmp_date b c = Lt ->
  Preprocessing.cmp_date a c = Lt.
Proof.
  destruct a as [x|], b as [y|], c as [z|]; simpl; try congruence.
  apply Zcmp_trans.
Qed.

(** The order of [sort_values(by=["Brand", "Date"])] on the sort keys. *)
Definition sort_cmp : string * option Z -> string * option Z -> comparison :=
  cmp_pair String.compare Preprocessing.cmp_date.

Lemma sort_cmp_eq a b : sort_cmp a b = Eq <-> a = b.
Proof.
  unfold sort_cmp. apply cmp_pair_eq; [exact Scmp_eq|exact cmp_date_eq].
Qed.

Lemma sort_cmp_antisym a b : sort_cmp a b = CompOpp (sort_cmp b a).
Proof. unfold sort_cmp. apply cmp_pair_antisym. exact Scmp_antisym. exact cmp_date_antisym. Qed.

Lemma sort_cmp_trans a b c :
  sort_cmp a b = Lt -> sort_cmp b c = Lt -> sort_cmp a c = Lt.
Proof.
  unfold sort_cmp. apply cmp_pair_trans.
  - exact Scmp_eq.
  - exact Scmp_trans.
  - exact cmp_date_trans.
Qed.

(** A row comes no later than another one in the sort order. *)
Definition row_le (a b : RawRow) : Prop :=
  sort_cmp (Preprocessing.sort_key a) (Preprocessing.sort_key b) <> Gt.

Lemma sort_cmp_le_trans a b c :
  sort_cmp a b <> Gt -> sort_cmp b c <> Gt -> sort_cmp a c <> Gt.
Proof.
  intros Hab Hbc.
  destruct (sort_cmp a b) eqn:E1; [| |congruence].
  - apply sort_cmp_eq in E1. now subst b.
  - destruct (sort_cmp b c) eqn:E2; [| |congruence].
    + apply sort_cmp_eq in E2. subst c. rewrite E1. discriminate.
    + rewrite (sort_cmp_trans _ _ _ E1 E2). discriminate.
Qed.

Lemma insert_row_Permutation x l :
  Permutation (Preprocessing.insert_row x l) (x :: l).
Proof.
  induction l as [|h t IH]; simpl; [reflexivity|].
  destruct (cmp_pair String.compare Preprocessing.cmp_date
              (Preprocessing.sort_key x) (Preprocessing.sort_key h));
    try reflexivity.
  rewrite IH. apply perm_swap.
Qed.

Lemma insert_row_sorted x l :
  StronglySorted row_le l -> StronglySorted row_le (Preprocessing.insert_row x l).
Proof.
  induction 1 as [|h t Hs IH Hall]; simpl.
  - constructor; constructor.
  - fold sort_cmp.
    destruct (sort_cmp (Preprocessing.sort_key x) (Preprocessing.sort_key h)) eqn:E.
    + constructor; [constructor; assumption|].
      assert (Hxh : row_le x h) by (unfold row_le; rewrite E; discriminate).
      constructor; [exact Hxh|].
      rewrite Forall_forall in *. intros y Hy.
      exact (sort_cmp_le_trans _ _ _ Hxh (Hall y Hy)).
    + constructor; [constructor; assumption|].
      assert (Hxh : row_le x h) by (unfold row_le; rewrite E; discriminate).
      constructor; [exact Hxh|].
      rewrite Forall_forall in *. intros y Hy.
      exact (sort_cmp_le_trans _ _ _ Hxh (Hall y Hy)).
    + constructor; [exact IH|].
      assert (Hhx : row_le h x).
      { unfold row_le. rewrite sort_cmp_antisym, E. discriminate. }
      rewrite Forall_forall in *. intros y Hy.
      apply (Permutation_in _ (insert_row_Permutation x t)) in Hy.
      destruct Hy as [<-|Hy]; [exact Hhx|now apply Hall].
Qed.

Lemma insert_row_filter k x l :
  filter (fun r => key_eqb sort_cmp (Preprocessing.sort_key r) k)
         (Preprocessing.insert_row x l)
  = filter (fun r => key_eqb sort_cmp (Preprocessing.sort_key r) k) (x :: l).
Proof.
  induction l as [|h t IH]; [reflexivity|].
  cbn [Preprocessing.insert_row]. fold sort_cmp.
  destruct (sort_cmp (Preprocessing.sort_key x) (Preprocessing.sort_key h)) eqn:E;
    try reflexivity.
  cbn [filter] in *. rewrite IH.
  destruct (key_eqb sort_cmp (Preprocessing.sort_key x) k) eqn:Ex;
    destruct (key_eqb sort_cmp (Preprocessing.sort_key h) k) eqn:Eh;
    try reflexivity.
  apply key_eqb_eq in Ex; [|exact sort_cmp_eq].
  apply key_eqb_eq in Eh; [|exact sort_cmp_eq].
  rewrite Ex, Eh in E. rewrite (proj2 (sort_cmp_eq k k) eq_refl) in E.
  discriminate E.
Qed.

(** X2. [df.sort_values(by=["Brand", "Date"])] rearranges the rows without
    losing or repeating one, puts them in ascending order of brand and,
    within a brand, of date with the unparsable dates last, and keeps the
    rows of one brand and date in the order they had. *)
Theorem X2_sort_values_stable (df : list RawRow) :
  Permutation (Preprocessing.sort_values df) df
  /\ StronglySorted row_le (Preprocessing.sort_values df)
  /\ forall k,
       filter (fun r => key_eqb sort_cmp (Preprocessing.sort_key r) k)
              (Preprocessing.sort_values df)
       = filter (fun r => key_eqb sort_cmp (Preprocessing.sort_key r) k) df.
Proof.
  unfold Preprocessing.sort_values. split; [|split].
  - induction df as [|r t IH]; simpl; [reflexivity|].
    rewrite insert_row_Permutation. now constructor.
  - induction df as [|r t IH]; simpl; [constructor|].
    now apply insert_row_sorted.
  - intros k. induction df as [|r t IH]; [reflexivity|].
    cbn [fold_right]. rewrite insert_row_filter. cbn [filter]. now rewrite IH.
Qed.

(* ===================================================================== *)
(** * Preprocessing: the label encoding *)
(* ===================================================================== *)

Lemma index_of_nth k l :
  In k l -> (Preprocessing.index_of k l < List.length l)%nat
            /\ nth (Preprocessing.index_of k l) l EmptyString = k.
Proof.
  induction l as [|h t IH]; simpl; intros Hin; [contradiction|].
  destruct (String.eqb_spec k h) as [->|Hne]; [split; [lia|reflexivity]|].
  destruct Hin as [E|Hin]; [congruence|].
  destruct (IH Hin) as [H1 H2]. split; [lia|exact H2].
Qed.

Lemma index_of_injective k k' l :
  In k l -> In k' l ->
  Preprocessing.index_of k l = Preprocessing.index_of k' l -> k = k'.
Proof.
  intros Hk Hk' E.
  rewrite <- (proj2 (index_of_nth k l Hk)), <- (proj2 (index_of_nth k' l Hk')).
  now rewrite E.
Qed.

Lemma index_of_monotone k k' l :
  StronglySorted (fun a b => String.compare a b = Lt) l ->
  In k l -> In k' l ->
  ((Preprocessing.index_of k l < Preprocessing.index_of k' l)%nat
   <-> String.compare k k' = Lt).
Proof.
  induction 1 as [|h t Hs IH Hall]; simpl; intros Hk Hk'; [contradiction|].
  rewrite Forall_forall in Hall.
  assert (Hirr : forall a, String.compare a a <> Lt).
  { intros a. rewrite (proj2 (Scmp_eq a a) eq_refl). discriminate. }
  destruct (String.eqb_spec k h) as [->|Hne];
    destruct (String.eqb_spec k' h) as [->|Hne'].
  - split; [lia|]. intros H. now apply Hirr in H.
  - destruct Hk' as [E|Hk']; [congruence|].
    split; [intros _; now apply Hall|lia].
  - destruct Hk as [E|Hk]; [congruence|].
    split; [lia|]. intros H. exfalso.
    pose proof (Hall _ Hk) as Hhk.
    apply (Hirr h). exact (Scmp_trans _ _ _ Hhk H).
  - destruct Hk as [E|Hk]; [congruence|].
    destruct Hk' as [E|Hk']; [congruence|].
    rewrite <- (IH Hk Hk'). lia.
Qed.

Lemma classes_sorted values :
  StronglySorted (fun a b => String.compare a b = Lt)
                 (unique_sorted String.compare values).
Proof.
  apply unique_sorted_sorted; [exact Scmp_eq|exact Scmp_antisym|exact Scmp_trans].
Qed.

Lemma classes_In v values :
  In v (unique_sorted String.compare values) <-> In v values.
Proof. apply unique_sorted_In. exact Scmp_eq. Qed.

(** X3. [LabelEncoder().fit_transform(values)] numbers the distinct
    labels 0, 1, ..., k-1 in ascending order of the labels: every code is
    below the number of classes and decodes to its label, equal labels get
    equal codes and different labels different ones, a smaller label gets a
    smaller code, and every class is the label of some row. *)
Theorem X3_label_encode_ranks (values : list string) :
  let classes := unique_sorted String.compare values in
  let code := fun v => Preprocessing.index_of v classes in
  Preprocessing.label_encode values = map (fun v => of_nat (code v)) values
  /\ (forall v, In v values ->
        (code v < List.length classes)%nat /\ nth (code v) classes EmptyString = v)
  /\ (forall v w, In v values -> In w values -> (code v = code w <-> v = w))
  /\ (forall v w, In v values -> In w values ->
        ((code v < code w)%nat <-> String.compare v w = Lt))
  /\ (forall n, (n < List.length classes)%nat ->
        In (nth n classes EmptyString) values
        /\ code (nth n classes EmptyString) = n).
Proof.
  intros classes code. split; [reflexivity|]. split; [|split; [|split]].
  - intros v Hv. apply index_of_nth. now apply classes_In.
  - intros v w Hv Hw. split; [|now intros ->].
    apply index_of_injective; now apply classes_In.
  - intros v w Hv Hw. apply index_of_monotone;
      [apply classes_sorted|now apply classes_In|now apply classes_In].
  - intros n Hn.
    assert (Hin : In (nth n classes EmptyString) classes) by now apply nth_In.
    split; [now apply classes_In|].
    destruct (index_of_nth _ _ Hin) as [Hlt Hnth].
    assert (Hnd : NoDup classes).
    { apply unique_sorted_NoDup; [exact Scmp_eq|exact Scmp_antisym|exact Scmp_trans]. }
    apply (proj1 (NoDup_nth classes EmptyString) Hnd); assumption.
Qed.

(* ===================================================================== *)
(** * Preprocessing: the features computed brand by brand *)
(* ===================================================================== *)

(** The rows of one brand, in frame order, and the values of a column that
    stand in those rows. *)
Definition brand_rows_of (b : string) (df : list RawRow) : list RawRow :=
  filter (fun r => String.eqb (raw_Brand r) b) df.

Definition pick (b : string) (df : list RawRow) (values : list num) : list num :=
  map snd (filter (fun rv => String.eqb (raw_Brand (fst rv)) b) (combine df values)).

Lemma pick_length b df values :
  List.length values = List.length df ->
  List.length (pick b df values) = List.length (brand_rows_of b df).
Proof.
  unfold pick, brand_rows_of. rewrite length_map. revert values.
  induction df as [|r t IH]; intros [|v vs] H; simpl in *; try discriminate;
    [reflexivity|].
  destruct (String.eqb (raw_Brand r) b); simpl; rewrite IH by lia; reflexivity.
Qed.

Lemma brand_rows_assign b c values df :
  List.length values = List.length df ->
  brand_rows_of b (Preprocessing.assign c values df)
  = Preprocessing.assign c (pick b df values) (brand_rows_of b df).
Proof.
  unfold pick, brand_rows_of, Preprocessing.assign. revert values.
  induction df as [|r t IH]; intros [|v vs] H; simpl in *; try discriminate;
    [reflexivity|].
  destruct (String.eqb (raw_Brand r) b); simpl; rewrite IH by lia; reflexivity.
Qed.

Lemma pick_rcolumn b c df :
  pick b df (Preprocessing.rcolumn c df) = Preprocessing.rcolumn c (brand_rows_of b df).
Proof.
  unfold pick, brand_rows_of, Preprocessing.rcolumn.
  induction df as [|r t IH]; simpl; [reflexivity|].
  destruct (String.eqb (raw_Brand r) b); simpl; now rewrite IH.
Qed.

Lemma pick_fillna_with b df other xs :
  List.length xs = List.length df -> List.length other = List.length df ->
  pick b df (Preprocessing.fillna_with other xs)
  = Preprocessing.fillna_with (pick b df other) (pick b df xs).
Proof.
  unfold pick, Preprocessing.fillna_with. revert other xs.
  induction df as [|r t IH]; intros [|o os] [|x xs] Hx Ho; simpl in *;
    try discriminate; [reflexivity|].
  destruct (String.eqb (raw_Brand r) b); simpl; rewrite IH by lia; reflexivity.
Qed.

Lemma skipn_nth_cons {A} (d : A) k l :
  (k < List.length l)%nat -> skipn k l = nth k l d :: skipn (S k) l.
Proof.
  revert l. induction k as [|k IH]; intros [|x t] H; simpl in *; try lia;
    [reflexivity|].
  apply IH. lia.
Qed.

Lemma count_app_same b before :
  List.length (filter (String.eqb b) (before ++ [b]))
  = S (List.length (filter (String.eqb b) before)).
Proof.
  rewrite filter_app, length_app. simpl. rewrite String.eqb_refl. simpl. lia.
Qed.

Lemma count_app_other b b' before :
  String.eqb b' b = false ->
  List.length (filter (String.eqb b) (before ++ [b']))
  = List.length (filter (String.eqb b) before).
Proof.
  intros H. rewrite filter_app, length_app. simpl.
  rewrite String.eqb_sym, H. simpl. lia.
Qed.

(** The values that a per-brand computation [g] gives to the rows of brand
    [b]: the part of [g b] that starts after the rows of [b] seen before. *)
Lemma positions_pick (g : string -> list num) b df : forall before,
  (List.length (filter (String.eqb b) before) + List.length (brand_rows_of b df)
   <= List.length (g b))%nat ->
  pick b df
    (map (fun rp => nth (snd rp) (g (raw_Brand (fst rp))) NaN)
         (combine df (Preprocessing.positions_in_brand before (map raw_Brand df))))
  = firstn (List.length (brand_rows_of b df))
           (skipn (List.length (filter (String.eqb b) before)) (g b)).
Proof.
  unfold pick, brand_rows_of.
  induction df as [|r t IH]; intros before Hlen; [reflexivity|].
  cbn [map Preprocessing.positions_in_brand combine filter fst snd] in *.
  destruct (String.eqb (raw_Brand r) b) eqn:E.
  - apply String.eqb_eq in E. rewrite E in *. cbn [List.length] in Hlen.
    cbn [map snd List.length firstn].
    rewrite IH by (rewrite count_app_same; lia).
    rewrite count_app_same.
    rewrite (skipn_nth_cons NaN (List.length (filter (String.eqb b) before)) (g b))
      by lia.
    reflexivity.
  - rewrite IH by (rewrite (count_app_other _ _ _ E); exact Hlen).
    now rewrite (count_app_other _ _ _ E).
Qed.

(** [df.groupby("Brand")[c].transform(f)], read on the rows of one brand:
    [f] applied to the series of that brand, whatever rows of other
    brands lie in between. *)
Lemma group_transform_pick f c df b :
  (forall s, List.length (f s) = List.length s) ->
  pick b df (Preprocessing.group_transform f c df)
  = f (Preprocessing.rcolumn c (brand_rows_of b df)).
Proof.
  intros Hf. unfold Preprocessing.group_transform.
  change (pick b df
            (map (fun rp =>
                    nth (snd rp)
                        ((fun b' => f (Preprocessing.rcolumn c (brand_rows_of b' df)))
                           (raw_Brand (fst rp))) NaN)
                 (combine df (Preprocessing.positions_in_brand [] (map raw_Brand df))))
          = f (Preprocessing.rcolumn c (brand_rows_of b df))).
  rewrite positions_pick by (rewrite Hf, rcolumn_length; simpl; lia).
  simpl. apply firstn_all2. rewrite Hf, rcolumn_length. lia.
Qed.

Lemma brand_column_assign_same b c values df :
  List.length values = List.length df ->
  Preprocessing.rcolumn c (brand_rows_of b (Preprocessing.assign c values df))
  = pick b df values.
Proof.
  intros H. rewrite brand_rows_assign by exact H.
  apply rcolumn_assign_same. now apply pick_length.
Qed.

Lemma brand_column_assign_other b c c' values df :
  c <> c' -> List.length values = List.length df ->
  Preprocessing.rcolumn c' (brand_rows_of b (Preprocessing.assign c values df))
  = Preprocessing.rcolumn c' (brand_rows_of b df).
Proof.
  intros Hne H. rewrite brand_rows_assign by exact H.
  apply rcolumn_assign_other; [exact Hne|]. now apply pick_length.
Qed.

Lemma shift1_length xs : List.length (Preprocessing.shift1 xs) = List.length xs.
Proof.
  destruct xs as [|x t]; [reflexivity|].
  unfold Preprocessing.shift1. cbn [List.length].
  rewrite removelast_firstn_len, length_firstn. simpl. lia.
Qed.

Lemma rolling3_mean_length xs :
  List.length (Preprocessing.rolling3_mean xs) = List.length xs.
Proof. unfold Preprocessing.rolling3_mean. now rewrite length_map, length_seq. Qed.

Lemma ffill_length xs : List.length (ffill xs) = List.length xs.
Proof. apply ffill_from_length. Qed.

Lemma bfill_ffill_length xs :
  List.length (Preprocessing.bfill (ffill xs)) = List.length xs.
Proof.
  unfold Preprocessing.bfill. now rewrite length_rev, ffill_length, length_rev, ffill_length.
Qed.

(** The sales, lag and moving-average columns of one brand after the
    feature engineering block. *)
Lemma engineer_brand_columns b df :
  let sales := Preprocessing.rcolumn "Total_Sales" (brand_rows_of b df) in
  let out := brand_rows_of b (Preprocessing.engineer df) in
  Preprocessing.rcolumn "Total_Sales" out = sales
  /\ Preprocessing.rcolumn "Sales_Lag_1" out
     = Preprocessing.bfill (ffill (Preprocessing.shift1 sales))
  /\ Preprocessing.rcolumn "Sales_MA_3" out
     = Preprocessing.fillna_with sales (Preprocessing.rolling3_mean sales).
Proof.
  intros sales out. unfold out, Preprocessing.engineer.
  set (df1 := Preprocessing.assign "Sales_Lag_1"
                (Preprocessing.group_transform Preprocessing.shift1 "Total_Sales" df) df).
  set (df2 := Preprocessing.assign "Sales_MA_3"
                (Preprocessing.group_transform Preprocessing.rolling3_mean
                   "Total_Sales" df1) df1).
  set (df3 := Preprocessing.assign "Sales_Lag_1"
                (Preprocessing.group_transform
                   (fun x => Preprocessing.bfill (ffill x)) "Sales_Lag_1" df2) df2).
  assert (L1 : List.length df1 = List.length df)
    by (apply assign_length, group_transform_length).
  assert (L2 : List.length df2 = List.length df1)
    by (apply assign_length, group_transform_length).
  assert (L3 : List.length df3 = List.length df2)
    by (apply assign_length, group_transform_length).
  assert (S1 : Preprocessing.rcolumn "Total_Sales" (brand_rows_of b df1) = sales)
    by (apply brand_column_assign_other;
        [discriminate|apply group_transform_length]).
  assert (G1 : Preprocessing.rcolumn "Sales_Lag_1" (brand_rows_of b df1)
               = Preprocessing.shift1 sales).
  { unfold df1. rewrite brand_column_assign_same by apply group_transform_length.
    apply group_transform_pick, shift1_length. }
  assert (S2 : Preprocessing.rcolumn "Total_Sales" (brand_rows_of b df2) = sales).
  { unfold df2. rewrite brand_column_assign_other;
      [exact S1|discriminate|apply group_transform_length]. }
  assert (G2 : Preprocessing.rcolumn "Sales_Lag_1" (brand_rows_of b df2)
               = Preprocessing.shift1 sales).
  { unfold df2. rewrite brand_column_assign_other;
      [exact G1|discriminate|apply group_transform_length]. }
  assert (M2 : Preprocessing.rcolumn "Sales_MA_3" (brand_rows_of b df2)
               = Preprocessing.rolling3_mean sales).
  { unfold df2. rewrite brand_column_assign_same by apply group_transform_length.
    rewrite group_transform_pick by apply rolling3_mean_length. now rewrite S1. }
  assert (S3 : Preprocessing.rcolumn "Total_Sales" (brand_rows_of b df3) = sales).
  { unfold df3. rewrite brand_column_assign_other;
      [exact S2|discriminate|apply group_transform_length]. }
  assert (M3 : Preprocessing.rcolumn "Sales_MA_3" (brand_rows_of b df3)
               = Preprocessing.rolling3_mean sales).
  { unfold df3. rewrite brand_column_assign_other;
      [exact M2|discriminate|apply group_transform_length]. }
  assert (G3 : Preprocessing.rcolumn "Sales_Lag_1" (brand_rows_of b df3)
               = Preprocessing.bfill (ffill (Preprocessing.shift1 sales))).
  { unfold df3. rewrite brand_column_assign_same by apply group_transform_length.
    rewrite (group_transform_pick (fun x => Preprocessing.bfill (ffill x)))
      by apply bfill_ffill_length.
    now rewrite G2. }
  assert (L4 : List.length
                 (Preprocessing.fillna_with (Preprocessing.rcolumn "Total_Sales" df3)
                    (Preprocessing.rcolumn "Sales_MA_3" df3))
               = List.length df3).
  { unfold Preprocessing.fillna_with.
    now rewrite length_map, length_combine, !rcolumn_length, Nat.min_id. }
  split; [|split].
  - rewrite brand_column_assign_other; [exact S3|discriminate|exact L4].
  - rewrite brand_column_assign_other; [exact G3|discriminate|exact L4].
  - rewrite brand_column_assign_same by exact L4.
    rewrite pick_fillna_with by apply rcolumn_length.
    now rewrite !pick_rcolumn, S3, M3.
Qed.

Lemma ffill_from_present prev xs :
  Forall (fun x => notnull x = true) xs -> ffill_from prev xs = xs.
Proof.
  intros H. revert prev. induction H as [|x t Hx Ht IH]; intros prev; simpl;
    [reflexivity|].
  unfold notnull in Hx. apply negb_true_iff in Hx. rewrite Hx. now rewrite IH.
Qed.

Lemma last_indep {A} (d d' : A) l : l <> [] -> last l d = last l d'.
Proof.
  induction l as [|x t IH]; intros H; [congruence|].
  destruct t as [|y t']; [reflexivity|].
  change (last (y :: t') d = last (y :: t') d'). apply IH. discriminate.
Qed.

Lemma ffill_from_trailing_gap prev xs :
  Forall (fun x => notnull x = true) xs ->
  ffill_from prev (xs ++ [NaN]) = xs ++ [last xs prev].
Proof.
  intros H. revert prev. induction H as [|x t Hx Ht IH]; intros prev;
    [reflexivity|].
  cbn [app ffill_from].
  unfold notnull in Hx. apply negb_true_iff in Hx. rewrite Hx.
  rewrite IH. destruct t as [|y t']; [reflexivity|].
  f_equal. f_equal. f_equal.
  change (last (x :: y :: t') prev) with (last (y :: t') prev).
  apply last_indep. discriminate.
Qed.

Lemma last_rev_hd {A} (d : A) l : last (rev l) d = hd d l.
Proof.
  destruct l as [|x t]; [reflexivity|]. simpl. apply last_last.
Qed.

Lemma Forall_removelast {A} (P : A -> Prop) l :
  Forall P l -> Forall P (removelast l).
Proof.
  intros H. rewrite Forall_forall in *. intros x Hx. apply H.
  destruct l as [|y t]; [contradiction|].
  rewrite (app_removelast_last y (l := y :: t)) by discriminate.
  apply in_or_app. now left.
Qed.

(** The lag of a series without gaps: every value moves one place down,
    and the first place takes the first value. *)
Lemma lag_of_series xs :
  Forall (fun x => notnull x = true) xs -> (2 <= List.length xs)%nat ->
  Preprocessing.bfill (ffill (Preprocessing.shift1 xs)) = hd NaN xs :: removelast xs.
Proof.
  intros Hall Hlen. destruct xs as [|x0 t]; [simpl in Hlen; lia|].
  assert (Hrl : Forall (fun x => notnull x = true) (removelast (x0 :: t)))
    by now apply Forall_removelast.
  assert (Hne : removelast (x0 :: t) <> []).
  { destruct t as [|x1 t']; [simpl in Hlen; lia|]. discriminate. }
  assert (Hhd : hd NaN (removelast (x0 :: t)) = x0).
  { destruct t as [|x1 t']; [simpl in Hlen; lia|]. reflexivity. }
  unfold Preprocessing.shift1. set (ys := removelast (x0 :: t)) in *.
  assert (E1 : ffill (NaN :: ys) = NaN :: ys).
  { unfold ffill. cbn [ffill_from isnull]. now rewrite ffill_from_present. }
  rewrite E1. unfold Preprocessing.bfill, ffill. cbn [rev].
  rewrite ffill_from_trailing_gap
    by (apply Forall_rev; exact Hrl).
  rewrite rev_app_distr, rev_involutive. cbn [rev app].
  rewrite last_rev_hd.
  destruct ys as [|y ys']; [congruence|]. simpl in Hhd. subst y. reflexivity.
Qed.

(** X4. The lag feature of a row is computed inside the brand of the row:
    the lag column of a brand is the sales column of that brand shifted by
    one row, forward-filled and back-filled.  For a brand with at least
    two rows and no missing sales, a row holds the sales of the row before
    it and the first row holds its own sales; for a brand with a single
    row the lag is missing.  The sales column itself is not changed. *)
Theorem X4_sales_lag_within_brand (b : string) (df : list RawRow) :
  let sales := Preprocessing.rcolumn "Total_Sales" (brand_rows_of b df) in
  let out := brand_rows_of b (Preprocessing.engineer df) in
  map raw_key (Preprocessing.engineer df) = map raw_key df
  /\ Preprocessing.rcolumn "Total_Sales" out = sales
  /\ Preprocessing.rcolumn "Sales_Lag_1" out
     = Preprocessing.bfill (ffill (Preprocessing.shift1 sales))
  /\ (Forall (fun x => notnull x = true) sales -> (2 <= List.length sales)%nat ->
      Preprocessing.rcolumn "Sales_Lag_1" out = hd NaN sales :: removelast sales)
  /\ (List.length sales = 1%nat ->
      Preprocessing.rcolumn "Sales_Lag_1" out = [NaN]).
Proof.
  intros sales out.
  destruct (engineer_brand_columns b df) as (HS & HG & _).
  fold sales in HS, HG. fold out in HS, HG.
  split; [apply engineer_keys|]. split; [exact HS|]. split; [exact HG|]. split.
  - intros Hall Hlen. rewrite HG. now apply lag_of_series.
  - intros Hlen. rewrite HG.
    destruct sales as [|x [|y t]]; try discriminate Hlen. reflexivity.
Qed.

(** X4, witness: the brand with three records of the raw table. *)
Lemma X4_sales_lag_within_brand_witness :
  Preprocessing.rcolumn "Sales_Lag_1"
    (brand_rows_of "Alpha" (Preprocessing.engineer (raw_rows Examples.raw_sales)))
  = [ Examples.qz 10; Examples.qz 10; Examples.qz 20 ]
  /\ Preprocessing.rcolumn "Sales_Lag_1"
       (brand_rows_of "Beta" (Preprocessing.engineer (raw_rows Examples.raw_sales)))
     = [ NaN ].
Proof.
  split.
  - rewrite (proj1 (proj2 (proj2 (proj2
               (X4_sales_lag_within_brand "Alpha" (raw_rows Examples.raw_sales)))))).
    + reflexivity.
    + repeat constructor.
    + simpl. lia.
  - apply (proj2 (proj2 (proj2 (proj2
             (X4_sales_lag_within_brand "Beta" (raw_rows Examples.raw_sales)))))).
    reflexivity.
Defined.

Lemma fold_nadd_all_finite ys : forall a,
  Forall (fun z => isfinite z = true) ys ->
  exists q, fold_left nadd ys (Fin a) = Fin q.
Proof.
  induction ys as [|y t IH]; intros a H; simpl; [eauto|].
  inversion H as [|? ? Hy Ht]; subst.
  destruct y; try discriminate. simpl. now apply IH.
Qed.

(** The mean of a window with a value and without infinities is a number. *)
Lemma col_mean_present w :
  Forall no_inf w -> (exists x, In x w /\ notnull x = true) ->
  exists q, col_mean w = Fin q.
Proof.
  intros Hinf (x & Hx & Hn). unfold col_mean.
  pose proof (dropna_finite Hinf) as Hfin.
  assert (Hin : In x (dropna w)) by (apply filter_In; auto).
  destruct (dropna w) as [|y ys] eqn:E; [contradiction|].
  destruct (fold_nadd_all_finite (y :: ys) 0%Q Hfin) as (q & Hq).
  rewrite Hq. unfold of_nat, ndiv.
  rewrite Qeq_bool_nonzero by (apply inject_nat_nonzero; simpl; lia).
  eauto.
Qed.

Lemma fillna_with_noop other xs :
  Forall2 (fun o x => isnull x = true -> o = x) other xs ->
  Preprocessing.fillna_with other xs = xs.
Proof.
  unfold Preprocessing.fillna_with.
  induction 1 as [|o x os xs' Hox HF IH]; simpl; [reflexivity|].
  rewrite IH. destruct (isnull x) eqn:E; [|reflexivity]. now rewrite Hox.
Qed.

Lemma window_last xs i :
  (i < List.length xs)%nat ->
  In (nth i xs NaN) (skipn (i - 2) (firstn (S i) xs)).
Proof.
  intros Hi.
  assert (E : firstn (S i) xs = firstn i xs ++ [nth i xs NaN]).
  { revert xs Hi. induction i as [|i IH]; intros [|x t] Hi; simpl in *; try lia;
      [reflexivity|].
    f_equal. apply IH. lia. }
  rewrite E, skipn_app. apply in_or_app. right.
  assert (Hl : List.length (firstn i xs) = i) by (apply firstn_length_le; lia).
  rewrite Hl. replace (i - 2 - i)%nat with 0%nat by lia. now left.
Qed.


Lemma In_skipn_incl {A} (x : A) n l : In x (skipn n l) -> In x l.
Proof.
  intros H. rewrite <- (firstn_skipn n l). apply in_or_app. now right.
Qed.

Lemma In_firstn_incl {A} (x : A) n l : In x (firstn n l) -> In x l.
Proof.
  intros H. rewrite <- (firstn_skipn n l). apply in_or_app. now left.
Qed.

(** A row whose sales are there has a moving average; so filling the gaps
    of the moving average with the sales of the row changes nothing. *)
Lemma rolling3_mean_gaps xs :
  Forall no_inf xs ->
  Forall2 (fun o x => isnull x = true -> o = x) xs (Preprocessing.rolling3_mean xs).
Proof.
  intros Hinf. unfold Preprocessing.rolling3_mean.
  apply Forall2_from_nth with (d := NaN). intros j Hj. cbn [Nat.add]. intros Hnull.
  destruct (isnull (nth j xs NaN)) eqn:E.
  - destruct (nth j xs NaN); try discriminate E.
    destruct (col_mean (skipn (j - 2) (firstn (S j) xs))); try discriminate Hnull.
    reflexivity.
  - exfalso.
    destruct (col_mean_present (skipn (j - 2) (firstn (S j) xs))) as (q & Hq).
    + rewrite Forall_forall in *. intros x Hx. apply Hinf.
      apply In_skipn_incl in Hx. now apply In_firstn_incl in Hx.
    + exists (nth j xs NaN). split; [now apply window_last|].
      unfold notnull. now rewrite E.
    + rewrite Hq in Hnull. discriminate Hnull.
Qed.



(* ===================================================================== *)
(** * Preprocessing: the aggregated table *)
(* ===================================================================== *)

(** X6. The processed table lists its rows in strictly ascending order of
    (Category, Brand, Date): categories in ascending order, the brands of
    a category in ascending order, the dates of a brand in ascending
    order. *)
Theorem X6_processed_rows_ascending (Qsqrt : Q -> Q) (raw : RawFrame) :
  StronglySorted (fun a b => Preprocessing.cmp_key a b = Lt)
                 (map row_key (rows (Preprocessing.transform Qsqrt raw))).
Proof.
  unfold Preprocessing.transform. cbn [rows]. rewrite aggregate_keys.
  apply unique_sorted_sorted;
    [exact cmp_key_eq|exact cmp_key_antisym|exact cmp_key_trans].
Qed.

(** The finite values of a column. *)
Definition qvals (xs : list num) : list Q :=
  flat_map (fun x => match x with Fin q => [q] | _ => [] end) xs.

Lemma dropna_qvals xs : Forall no_inf xs -> dropna xs = map Fin (qvals xs).
Proof.
  unfold dropna, qvals. induction 1 as [|x t Hx Ht IH]; simpl; [reflexivity|].
  destruct x; try discriminate Hx; simpl; now rewrite IH.
Qed.

Lemma col_sum_no_inf xs : Forall no_inf xs -> col_sum xs = Fin (Qsum (qvals xs)).
Proof.
  intros H. unfold col_sum. rewrite (dropna_qvals xs H). apply fold_nadd_finite.
Qed.

Lemma Qsum_app l1 l2 : (Qsum (l1 ++ l2) == Qsum l1 + Qsum l2)%Q.
Proof.
  induction l1 as [|x t IH]; simpl.
  - unfold Qsum at 2. simpl. ring.
  - rewrite !Qsum_cons, IH. ring.
Qed.

Lemma Qsum_map_plus {A} (f g : A -> Q) l :
  (Qsum (map (fun x => f x + g x) l) == Qsum (map f l) + Qsum (map g l))%Q.
Proof.
  induction l as [|x t IH]; simpl.
  - unfold Qsum. simpl. ring.
  - rewrite !Qsum_cons, IH. ring.
Qed.

Lemma Qsum_zeros {A} (l : list A) : (Qsum (map (fun _ => 0) l) == 0)%Q.
Proof.
  induction l as [|x t IH]; simpl; [reflexivity|]. rewrite Qsum_cons, IH. ring.
Qed.

Section Partition.
Local Open Scope Q_scope.
Variables (A K : Type).
Variable cmp : K -> K -> comparison.
Hypothesis cmp_eq : forall a b, cmp a b = Eq <-> a = b.
Variable key : A -> K.
Variable w : A -> list Q.

Lemma Qsum_indicator_absent (k0 : K) (a : Q) (ks : list K) :
  ~ In k0 ks ->
  Qsum (map (fun k => if key_eqb cmp k0 k then a else 0) ks) == 0.
Proof.
  induction ks as [|k t IH]; intros Hin; [reflexivity|].
  cbn [map]. rewrite Qsum_cons, IH by (intros H; apply Hin; now right).
  destruct (key_eqb cmp k0 k) eqn:E; [|ring].
  apply key_eqb_eq in E; [|exact cmp_eq]. exfalso. apply Hin. now left.
Qed.

Lemma Qsum_indicator (k0 : K) (a : Q) (ks : list K) :
  NoDup ks -> In k0 ks ->
  Qsum (map (fun k => if key_eqb cmp k0 k then a else 0) ks) == a.
Proof.
  induction 1 as [|k t Hk Hnd IH]; intros Hin; [contradiction|].
  cbn [map]. rewrite Qsum_cons.
  destruct (key_eqb cmp k0 k) eqn:E.
  - apply key_eqb_eq in E; [|exact cmp_eq]. subst k0.
    rewrite Qsum_indicator_absent by exact Hk. ring.
  - destruct Hin as [Hin|Hin].
    + subst k0. rewrite key_eqb_refl in E by exact cmp_eq. discriminate E.
    + rewrite IH by exact Hin. ring.
Qed.

(** Summing group by group gives the sum of the whole list. *)
Lemma Qsum_partition (ks : list K) (l : list A) :
  NoDup ks -> (forall x, In x l -> In (key x) ks) ->
  Qsum (map (fun k => Qsum (flat_map w (filter (fun r => key_eqb cmp (key r) k) l))) ks)
  == Qsum (flat_map w l).
Proof.
  intros Hnd. induction l as [|x t IH]; intros Hin.
  - cbn [filter flat_map]. apply Qsum_zeros.
  - cbn [flat_map]. rewrite Qsum_app, <- IH by (intros y Hy; apply Hin; now right).
    rewrite <- (Qsum_indicator (key x) (Qsum (w x)) ks Hnd)
      by (apply Hin; now left).
    rewrite <- Qsum_map_plus. apply Qsum_ext. intros k. cbn [filter].
    destruct (key_eqb cmp (key x) k); cbn [flat_map].
    + apply Qsum_app.
    + ring.
Qed.
End Partition.

Lemma qvals_map {A} (f : A -> num) l :
  qvals (map f l)
  = flat_map (fun r => match f r with Fin q => [q] | _ => [] end) l.
Proof. unfold qvals. induction l as [|x t IH]; simpl; [reflexivity|now rewrite IH]. Qed.

Lemma qvals_Fin qs : qvals (map Fin qs) = qs.
Proof. unfold qvals. induction qs as [|q t IH]; simpl; [reflexivity|now rewrite IH]. Qed.

Lemma get_agg_cell (F : string * aggfn -> num) c f agg :
  NoDup (map fst agg) -> In (c, f) agg ->
  get c (map (fun ca => (fst ca, F ca)) agg) = F (c, f).
Proof.
  unfold get. induction agg as [|[c' f'] t IH]; simpl; intros Hnd Hin; [contradiction|].
  inversion Hnd as [|? ? Hc' Hnd']; subst.
  destruct (String.eqb_spec c c') as [->|Hne].
  - destruct Hin as [E|Hin]; [now inversion E|].
    exfalso. apply Hc'. apply in_map_iff. exists (c', f). now split.
  - destruct Hin as [E|Hin]; [inversion E; congruence|]. now apply IH.
Qed.

Lemma dated_rows df r d : In (r, d) (Preprocessing.dated df) -> In r df.
Proof.
  unfold Preprocessing.dated. intros H. apply in_flat_map in H.
  destruct H as (r' & Hr' & H). destruct (raw_Date r'); [|contradiction].
  destruct H as [E|[]]. now inversion E; subst.
Qed.

(** A summed column of the aggregated table, and its total. *)
Lemma aggregate_sum_total agg df c :
  In (c, agg_sum) agg -> NoDup (map fst agg) ->
  Forall no_inf (Preprocessing.rcolumn c df) ->
  exists total total',
    col_sum (map (fun r => get c (cells r)) (Preprocessing.aggregate agg df))
    = Fin total'
    /\ col_sum (Preprocessing.rcolumn c (map fst (Preprocessing.dated df))) = Fin total
    /\ (total' == total)%Q.
Proof.
  intros Hin Hnd Hinf.
  set (l := Preprocessing.dated df).
  set (f := fun r : RawRow * Z => get c (raw_cells (fst r))).
  set (w := fun r : RawRow * Z => match f r with Fin q => [q] | _ => [] end).
  set (ks := unique_sorted Preprocessing.cmp_key (map Preprocessing.group_key l)).
  assert (Hl : forall l', (forall x, In x l' -> In x l) -> Forall no_inf (map f l')).
  { intros l' Hsub. rewrite Forall_forall. intros x Hx.
    apply in_map_iff in Hx. destruct Hx as ([r d] & <- & Hr).
    rewrite Forall_forall in Hinf. apply Hinf. unfold Preprocessing.rcolumn.
    apply in_map_iff. exists r. split; [reflexivity|].
    apply (dated_rows df r d). now apply Hsub. }
  assert (Hcol : map (fun r => get c (cells r)) (Preprocessing.aggregate agg df)
                 = map Fin
                     (map (fun k => Qsum (flat_map w
                             (filter (fun r => key_eqb Preprocessing.cmp_key
                                                 (Preprocessing.group_key r) k) l)))
                          ks)).
  { unfold Preprocessing.aggregate, groupby. fold l. fold ks. rewrite !map_map.
    apply map_ext. intros k. cbn [cells fst snd].
    rewrite (get_agg_cell
               (fun ca => apply_agg (snd ca)
                            (map (fun r : RawRow * Z => get (fst ca) (raw_cells (fst r)))
                                 (filter (fun r => key_eqb Preprocessing.cmp_key
                                                     (Preprocessing.group_key r) k) l)))
               c agg_sum agg Hnd Hin).
    cbn [apply_agg fst snd]. fold f.
    rewrite col_sum_no_inf by (apply Hl; intros x Hx; now apply filter_In in Hx).
    now rewrite qvals_map. }
  exists (Qsum (flat_map w l)).
  eexists. split; [|split].
  - rewrite Hcol. rewrite col_sum_no_inf.
    + rewrite qvals_Fin. reflexivity.
    + rewrite Forall_forall. intros x Hx. apply in_map_iff in Hx.
      destruct Hx as (q & <- & _). reflexivity.
  - unfold Preprocessing.rcolumn. rewrite map_map. fold f. fold l.
    rewrite col_sum_no_inf by (apply Hl; auto). now rewrite qvals_map.
  - apply (Qsum_partition _ _ Preprocessing.cmp_key cmp_key_eq).
    + apply unique_sorted_NoDup;
        [exact cmp_key_eq|exact cmp_key_antisym|exact cmp_key_trans].
    + intros x Hx. apply unique_sorted_In; [exact cmp_key_eq|]. now apply in_map.
Qed.

Lemma agg_dict_names_NoDup cols :
  NoDup (map fst (filter (fun ca => has_column cols (fst ca)) Preprocessing.agg_dict)).
Proof.
  assert (H : NoDup (map fst Preprocessing.agg_dict)).
  { cbv [Preprocessing.agg_dict map fst].
    repeat (constructor; [simpl; intros H;
                          repeat (destruct H as [H|H]; [discriminate H|]); exact H|]).
    constructor. }
  revert H. generalize Preprocessing.agg_dict. intros l.
  induction l as [|[c f] t IH]; simpl; intros H; [constructor|].
  inversion H as [|? ? Hc Ht]; subst.
  destruct (has_column cols c); simpl; [|now apply IH].
  constructor; [|now apply IH].
  intros Hin. apply Hc. apply in_map_iff in Hin. destruct Hin as (x & E & Hx).
  apply filter_In in Hx. apply in_map_iff. exists x. tauto.
Qed.



(* ===================================================================== *)
(** * The seasonal forecaster: cleaning and the skip guards *)
(* ===================================================================== *)

Lemma lookup_map_values (g : num -> num) c r :
  lookup c (map (fun cv => (fst cv, g (snd cv))) r) = option_map g (lookup c r).
Proof.
  induction r as [|[c' v] t IH]; simpl; [reflexivity|].
  destruct (String.eqb c c'); [reflexivity|exact IH].
Qed.

Lemma get_replace_inf_notnull c r :
  notnull (get c (vals (Seasonal.replace_inf_row r))) = isfinite (get c (vals r)).
Proof.
  unfold get, Seasonal.replace_inf_row. cbn [vals].
  rewrite lookup_map_values. destruct (lookup c (vals r)) as [v|]; [|reflexivity].
  destruct v; reflexivity.
Qed.

Lemma filter_twice {A} (p : A -> bool) l : filter p (filter p l) = filter p l.
Proof.
  induction l as [|x t IH]; simpl; [reflexivity|].
  destruct (p x) eqn:E; simpl; [rewrite E|]; now rewrite IH.
Qed.

Lemma filter_map_commute {A B} (f : A -> B) (p : B -> bool) l :
  filter p (map f l) = map f (filter (fun x => p (f x)) l).
Proof.
  induction l as [|x t IH]; simpl; [reflexivity|].
  destruct (p (f x)); simpl; now rewrite IH.
Qed.

(** X8. The cleaning block keeps a row exactly when its target [y] is a
    finite number (an infinite target is first turned into a missing one),
    keeps the rows in their order, and leaves no infinite cell: in a kept
    row every infinite cell has become missing and every other cell is as
    it was. *)
Theorem X8_clean_keeps_finite_targets (prophet_df : list DatedRow) :
  let out := Seasonal.clean prophet_df in
  out = map Seasonal.replace_inf_row
            (filter (fun r => isfinite (get "y" (vals r))) prophet_df)
  /\ Forall (fun r => isfinite (get "y" (vals r)) = true) out
  /\ Forall (fun r => Forall (fun cv => no_inf (snd cv)) (vals r)) out
  /\ (forall r, map fst (vals (Seasonal.replace_inf_row r)) = map fst (vals r)
                /\ ds (Seasonal.replace_inf_row r) = ds r
                /\ forall c, get c (vals (Seasonal.replace_inf_row r))
                             = (if isinf (get c (vals r)) then NaN else get c (vals r))).
Proof.
  intros out.
  assert (E : out = map Seasonal.replace_inf_row
                        (filter (fun r => isfinite (get "y" (vals r))) prophet_df)).
  { unfold out, Seasonal.clean. rewrite filter_twice, filter_map_commute.
    f_equal. apply filter_ext. intros r. apply get_replace_inf_notnull. }
  split; [exact E|]. split; [|split].
  - rewrite E, Forall_forall. intros r' Hr'. apply in_map_iff in Hr'.
    destruct Hr' as (r & <- & Hr). apply filter_In in Hr. destruct Hr as [_ Hy].
    unfold get, Seasonal.replace_inf_row in *. cbn [vals].
    rewrite lookup_map_values.
    destruct (lookup "y" (vals r)) as [v|]; [|discriminate Hy].
    destruct v; try discriminate Hy. reflexivity.
  - rewrite E, Forall_forall. intros r' Hr'. apply in_map_iff in Hr'.
    destruct Hr' as (r & <- & _). unfold Seasonal.replace_inf_row. cbn [vals].
    rewrite Forall_forall. intros cv Hcv. apply in_map_iff in Hcv.
    destruct Hcv as ([c v] & <- & _). cbn [snd].
    unfold no_inf, Seasonal.replace_inf. destruct v; reflexivity.
  - intros r. split; [|split; [reflexivity|]].
    + unfold Seasonal.replace_inf_row. cbn [vals]. rewrite map_map.
      apply map_ext. now intros [c v].
    + intros c. unfold get, Seasonal.replace_inf_row. cbn [vals].
      rewrite lookup_map_values.
      destruct (lookup c (vals r)) as [v|]; [|reflexivity]. reflexivity.
Qed.

Lemma train_size_ge_2 n : (3 <= n)%nat -> (2 <= train_size_of n)%nat.
Proof.
  intros H. unfold train_size_of. apply Nat.div_le_lower_bound; lia.
Qed.

Lemma train_size_lt n : (1 <= n)%nat -> (train_size_of n < n)%nat.
Proof.
  intros H. unfold train_size_of. apply Nat.Div0.div_lt_upper_bound. lia.
Qed.

Lemma split_sizes {A} (xs : list A) :
  List.length (fst (split_80_20 xs)) = train_size_of (List.length xs)
  /\ List.length (snd (split_80_20 xs))
     = (List.length xs - train_size_of (List.length xs))%nat.
Proof.
  unfold split_80_20. cbn [fst snd]. split.
  - apply firstn_length_le, train_size_le.
  - apply length_skipn.
Qed.

Lemma Produced_not_Skipped m f : Ok (Produced m f) = Ok Skipped -> False.
Proof. discriminate. Qed.

Lemma if_skip_cases (b : bool) (r : result outcome) :
  (if b then Ok Skipped else r) = Ok Skipped ->
  b = true \/ (b = false /\ r = Ok Skipped).
Proof. destruct b; auto. Qed.

Lemma empty_skip_cases {A} (l : list A) (r : A -> list A -> result outcome) :
  match l with [] => Ok Skipped | x :: t => r x t end = Ok Skipped ->
  l = [] \/ exists x t, l = x :: t /\ r x t = Ok Skipped.
Proof. destruct l; eauto. Qed.

(** X9. What makes the seasonal forecaster skip a brand.  A frame of at
    least 3 usable rows always splits into at least 2 training rows and a
    holdout that is not empty, so the guards on the sizes of the two parts
    never fire: the iteration of a brand ends in [continue] exactly when
    fewer than 3 usable rows are left or a cell of the training rows is
    missing; a brand that is forecast has at least 3 usable rows and no
    missing cell in its training rows. *)
Theorem X9_seasonal_skip_reasons
    (Model : Type) (fit_params : list string -> list DatedRow -> Model)
    (predict_row : Model -> DatedRow -> num * (num * num))
    (L : Metrics) (cols : list string) (brand : string) (brand_rows : list Row) :
  let prophet_df := Seasonal.prophet_frame cols brand_rows in
  let train := fst (split_80_20 prophet_df) in
  let test := snd (split_80_20 prophet_df) in
  let run := Seasonal.forecast_brand fit_params predict_row L cols brand brand_rows in
  ((3 <= List.length prophet_df)%nat -> (2 <= List.length train)%nat /\ test <> [])
  /\ (run = Ok Skipped
      <-> (List.length prophet_df < 3)%nat \/ Seasonal.any_null train = true)
  /\ (forall m f, run = Ok (Produced m f) ->
        (3 <= List.length prophet_df)%nat /\ Seasonal.any_null train = false).
Proof.
  intros prophet_df train test run.
  assert (Hsizes : (3 <= List.length prophet_df)%nat ->
                   (2 <= List.length train)%nat /\ test <> []).
  { intros H3. destruct (split_sizes prophet_df) as [Htr Hte].
    fold train in Htr. fold test in Hte. split.
    - rewrite Htr. now apply train_size_ge_2.
    - intros E. rewrite E in Hte. simpl in Hte.
      pose proof (train_size_lt (List.length prophet_df)). lia. }
  split; [exact Hsizes|]. split; [split|].
  - intros H. unfold run, Seasonal.forecast_brand in H.
    fold prophet_df in H. fold train in H. fold test in H.
    apply if_skip_cases in H. destruct H as [G1|[G1 H]];
      [left; now apply Nat.ltb_lt in G1|].
    apply Nat.ltb_ge in G1. destruct (Hsizes G1) as [Htr Hte].
    apply if_skip_cases in H. destruct H as [G2|[G2 H]].
    + apply orb_true_iff in G2. destruct G2 as [G2|G2]; [|now right].
      apply Nat.ltb_lt in G2. lia.
    + exfalso. apply empty_skip_cases in H.
      destruct H as [H|(x & t & _ & H)]; [contradiction|].
      bind_ok H model E. bind_ok H scores E0. bind_ok H f' E1.
      now apply Produced_not_Skipped in H.
  - intros H. unfold run. apply seasonal_skips.
    unfold seasonal_skip_condition. fold prophet_df. fold train.
    destruct H as [H|H]; [now left|right; right; now left].
  - intros m f H. unfold run, Seasonal.forecast_brand in H.
    fold prophet_df in H. fold train in H. fold test in H.
    apply if_skip_inv in H. destruct H as [G1 H].
    apply if_skip_inv in H. destruct H as [G2 _].
    apply Nat.ltb_ge in G1. apply orb_false_iff in G2. tauto.
Qed.

(* ===================================================================== *)
(** * The sequence forecaster: the skip guards *)
(* ===================================================================== *)

Lemma fit_transform_Ok_bounded X fitted :
  scaler_fit_transform X = Ok fitted -> existsb (existsb isinf) X = false.
Proof.
  intros E. destruct (existsb (existsb isinf) X) eqn:H; [|reflexivity].
  unfold scaler_fit_transform, scaler_fit, check_array in E. rewrite H in E.
  discriminate E.
Qed.

Lemma fit_transform_unbounded X :
  existsb (existsb isinf) X = true ->
  scaler_fit_transform X
  = Raise (ValueError "Input contains infinity or a value too large.").
Proof.
  intros H. unfold scaler_fit_transform, scaler_fit, check_array. now rewrite H.
Qed.

Lemma holdout_sizes k :
  (20 <= k)%nat -> (16 <= train_size_of k)%nat /\ (4 <= k - train_size_of k)%nat.
Proof.
  intros H. unfold train_size_of. split.
  - apply Nat.div_le_lower_bound; lia.
  - pose proof (Nat.Div0.mul_div_le (k * 8) 10). lia.
Qed.

(** X10. What the sequence forecaster does with a brand of [n] distinct
    dates.  Its iteration ends in [continue] exactly when [n < 8], or
    [n < 27] and no feature value is infinite; with [n >= 8] and an
    infinite feature value it raises the scaler's exception; and a brand
    that is forecast has at least 27 dates and no infinite feature value,
    at least 16 training samples and at least 4 holdout samples. *)
Theorem X10_sequence_skip_reasons
    (Net : Type) (train_net : nat -> list matrix -> list num -> Net)
    (forward : Net -> matrix -> num) (L : Metrics)
    (cols : list string) (brand : string) (brand_rows : list Row) :
  let n := List.length (Lstm.brand_frame cols brand_rows) in
  let run := Lstm.forecast_brand train_net forward L cols brand brand_rows in
  n = List.length (unique_sorted Z.compare (map Date brand_rows))
  /\ (run = Ok Skipped
      <-> (n < 8)%nat \/ ((n < 27)%nat /\ lstm_features_bounded cols brand_rows))
  /\ ((8 <= n)%nat -> ~ lstm_features_bounded cols brand_rows ->
      run = Raise (ValueError "Input contains infinity or a value too large."))
  /\ (forall m f, run = Ok (Produced m f) ->
        (27 <= n)%nat /\ lstm_features_bounded cols brand_rows
        /\ (16 <= train_size_of (n - 7))%nat
        /\ (4 <= n - 7 - train_size_of (n - 7))%nat).
Proof.
  intros n run.
  assert (Hsamples : forall fitted,
            scaler_fit_transform
              (Lstm.feature_array (Lstm.features (map fst (Lstm.agg_dict cols)))
                                  (Lstm.brand_frame cols brand_rows)) = Ok fitted ->
            List.length (map fst (Lstm.samples (snd fitted))) = (n - 7)%nat).
  { intros fitted E. rewrite length_map. unfold Lstm.samples.
    rewrite length_map, length_seq, (fit_transform_length _ _ E).
    unfold Lstm.feature_array. now rewrite length_map. }
  split; [|split; [split|split]].
  - unfold n, Lstm.brand_frame. rewrite <- (length_map ds), aggregate_by_date_ds.
    reflexivity.
  - intros H. unfold run, Lstm.forecast_brand in H.
    apply if_skip_cases in H. destruct H as [G1|[G1 H]].
    { left. apply Nat.ltb_lt in G1. unfold Lstm.seq_length in G1. fold n in G1. lia. }
    apply Nat.ltb_ge in G1. unfold Lstm.seq_length in G1. fold n in G1.
    bind_ok H fitted E.
    apply if_skip_cases in H. destruct H as [G2|[G2 H]].
    + right. apply Nat.ltb_lt in G2. rewrite (Hsamples fitted E) in G2.
      split; [lia|]. exact (fit_transform_Ok_bounded _ _ E).
    + exfalso. bind_ok H scores E0. bind_ok H f' E1.
      now apply Produced_not_Skipped in H.
  - intros H. unfold run. apply lstm_skips.
    unfold lstm_too_short, lstm_few_samples, Lstm.seq_length. fold n.
    destruct H as [H|[H Hb]]; [left; lia|].
    destruct (Nat.lt_ge_cases n 8) as [H8|H8]; [left; lia|right; split; [lia|exact Hb]].
  - intros H8 Hinf. unfold run, Lstm.forecast_brand.
    assert (G1 : (n <? Lstm.seq_length + 1)%nat = false)
      by (apply Nat.ltb_ge; unfold Lstm.seq_length; lia).
    fold n. rewrite G1.
    unfold lstm_features_bounded in Hinf. apply not_false_is_true in Hinf.
    rewrite (fit_transform_unbounded _ Hinf). reflexivity.
  - intros m f H.
    destruct (lstm_brand_produced _ train_net forward L cols brand brand_rows m f H)
      as (_ & _ & _ & Hn).
    unfold Lstm.seq_length in Hn. fold n in Hn.
    unfold run, Lstm.forecast_brand in H.
    apply if_skip_inv in H. destruct H as [_ H]. bind_ok H fitted E.
    split; [lia|]. split; [exact (fit_transform_Ok_bounded _ _ E)|].
    apply holdout_sizes. lia.
Qed.

(* ===================================================================== *)
(** * The sequence forecaster: back to sales units *)
(* ===================================================================== *)

Lemma scaler_fit_head X sc :
  scaler_fit X = Ok sc -> (0 < n_features X)%nat ->
  exists rest,
    combine (scale_ sc) (min_ sc)
    = (column_scale (mcolumn 0 X), column_min (mcolumn 0 X)) :: rest.
Proof.
  intros Hfit Hn.
  assert (Hc : check_array X = Ok tt).
  { unfold scaler_fit in Hfit. destruct (check_array X) as [[]|e]; [reflexivity|].
    discriminate Hfit. }
  destruct (scaler_fit_params X Hc) as (sc' & Hfit' & Hpar).
  rewrite Hfit in Hfit'. apply Ok_inj in Hfit'. subst sc'.
  rewrite Hpar. destruct (n_features X) as [|k]; [lia|].
  cbn [seq map]. eauto.
Qed.

Lemma inverse_transform_rows sc X inv :
  scaler_inverse_transform sc X = Ok inv -> inv = map (inverse_row sc) X.
Proof.
  unfold scaler_inverse_transform. destruct (check_array X) as [[]|e]; simpl;
    [|discriminate].
  intros H. apply Ok_inj in H. now subst inv.
Qed.

Lemma inverse_row_head sc s0 m0 rest p row :
  combine (scale_ sc) (min_ sc) = (s0, m0) :: rest ->
  nth 0 (inverse_row sc (p :: row)) NaN = unscale_cell p (s0, m0).
Proof. intros H. unfold inverse_row. rewrite H. reflexivity. Qed.

(** The first column of the inverse transform of the stacked matrix: the
    first cells of [future_scaled] through the parameters of column 0. *)
Lemma future_sales_values sc s0 m0 rest (future_scaled repeated : matrix) inv :
  combine (scale_ sc) (min_ sc) = (s0, m0) :: rest ->
  List.length future_scaled = List.length repeated ->
  scaler_inverse_transform sc
    (map (fun fr => nth 0 (fst fr) NaN :: snd fr) (combine future_scaled repeated))
  = Ok inv ->
  map (fun row => nth 0 row NaN) inv
  = map (fun p => unscale_cell p (s0, m0))
        (map (fun row => nth 0 row NaN) future_scaled).
Proof.
  intros Hhead Hlen Hinv. apply inverse_transform_rows in Hinv. subst inv.
  rewrite !map_map.
  rewrite (map_ext _ (fun fr => unscale_cell (nth 0 (fst fr) NaN) (s0, m0)))
    by (intros [r f]; apply (inverse_row_head sc _ _ rest); exact Hhead).
  rewrite <- (map_map fst (fun r => unscale_cell (nth 0 r NaN) (s0, m0))).
  now rewrite combine_fst.
Qed.

Lemma forecast_rows_values brand (dates : list Z) (values : list num) :
  List.length dates = List.length values ->
  map fc_Predicted_Sales
      (map (fun dv => {| fc_Date := fst dv; fc_Brand := brand;
                         fc_Predicted_Sales := snd dv; fc_bounds := None |})
           (combine dates values))
  = values.
Proof.
  intros H. rewrite map_map. rewrite (map_ext _ snd) by reflexivity.
  now apply combine_snd.
Qed.

(** The value that the inverse transform gives to a finite scaled value of
    a column with finite minimum and maximum. *)
Lemma unscale_value col mn mx p :
  nanmin col = Fin mn -> nanmax col = Fin mx ->
  exists v,
    unscale_cell (Fin p) (column_scale col, column_min col) = Fin v
    /\ (v == p * (if Qle_bool (10 * float_eps) (mx - mn) then mx - mn else 1) + mn)%Q.
Proof.
  intros Hmn Hmx. unfold column_min, column_scale. rewrite Hmn, Hmx.
  change (nsub (Fin mx) (Fin mn)) with (Fin (mx - mn)).
  destruct (handle_zeros_positive (mx - mn)) as (r & Hr & Hpos).
  assert (Er : r = if Qle_bool (10 * float_eps) (mx - mn) then (mx - mn)%Q else 1%Q).
  { unfold handle_zeros_in_scale in Hr.
    destruct (Qle_bool (10 * float_eps) (mx - mn)); now inversion Hr. }
  rewrite <- Er. rewrite Hr.
  assert (Hr0 : ~ (r == 0)%Q) by (intros E; rewrite E in Hpos; discriminate).
  assert (Hs0 : ~ (1 / r == 0)%Q).
  { intros E. assert (H1 : (r * (1 / r) == 1)%Q) by (field; exact Hr0).
    rewrite E, Qmult_0_r in H1. discriminate. }
  assert (Es : ndiv (Fin 1) (Fin r) = Fin (1 / r))
    by (unfold ndiv; now rewrite (Qeq_bool_nonzero r Hr0)).
  rewrite !Es. unfold unscale_cell. cbn [fst snd nmul nsub nopp nadd].
  unfold ndiv. rewrite (Qeq_bool_nonzero _ Hs0).
  eexists. split; [reflexivity|]. field. exact Hr0.
Qed.

Lemma forecast_future_values
    (Net : Type) (forward : Net -> matrix -> num)
    (brand : string) (brand_df : list DatedRow) (X0 : matrix)
    (scaler : MinMaxScaler) (scaled : matrix) (model : Net)
    (rows : list ForecastRow) s0 m0 rest :
  combine (scale_ scaler) (min_ scaler) = (s0, m0) :: rest ->
  Lstm.forecast_future forward brand brand_df X0 scaler scaled model = Ok rows ->
  map fc_Predicted_Sales rows
  = map (fun p => unscale_cell p (s0, m0))
        (map (fun row => nth 0 row NaN)
             (Lstm.rs_future_scaled (Lstm.rollout forward model 30 scaled))).
Proof.
  unfold Lstm.forecast_future. intros Hhead H.
  pose proof (rollout_length Net forward model 30 scaled) as Hlen.
  bind_ok H inv Einv.
  apply Ok_inj in H. subst rows.
  assert (Hrep : List.length
                   (Lstm.rs_future_scaled (Lstm.rollout forward model 30 scaled))
                 = List.length (repeat (tl (last X0 [])) 30))
    by (rewrite repeat_length; exact Hlen).
  rewrite forecast_rows_values.
  - exact (future_sales_values scaler _ _ rest _ _ inv Hhead Hrep Einv).
  - rewrite date_range_length, length_map.
    rewrite (inverse_transform_length _ _ _ Einv), length_map, length_combine.
    rewrite Hlen, repeat_length. reflexivity.
Qed.



(* ===================================================================== *)
(** * The forecasters: the files they touch and the order of their rows *)
(* ===================================================================== *)

(** The files after a run of the sequence forecaster that forecast the
    blocks [F] with the metrics [M]. *)
Definition lstm_written (fs : FileSystem) (F : list (list ForecastRow))
    (M : list MetricsRecord) : FileSystem :=
  match F with
  | [] => fs
  | _ :: _ =>
      {| RAW_DATA_FILE := RAW_DATA_FILE fs;
         PROCESSED_FILE := PROCESSED_FILE fs;
         PROPHET_FORECAST_FILE := PROPHET_FORECAST_FILE fs;
         PROPHET_METRICS_FILE := PROPHET_METRICS_FILE fs;
         LSTM_FORECAST_FILE := Some (List.concat F);
         LSTM_METRICS_FILE := Some M |}
  end.

(** The same for the seasonal forecaster, with the value it returns. *)
Definition prophet_written (fs : FileSystem) (F : list (list ForecastRow))
    (M : list MetricsRecord) : FileSystem * option (list MetricsRecord) :=
  match F with
  | [] => (fs, None)
  | _ :: _ =>
      ({| RAW_DATA_FILE := RAW_DATA_FILE fs;
          PROCESSED_FILE := PROCESSED_FILE fs;
          PROPHET_FORECAST_FILE := Some (List.concat F);
          PROPHET_METRICS_FILE := Some M;
          LSTM_FORECAST_FILE := LSTM_FORECAST_FILE fs;
          LSTM_METRICS_FILE := LSTM_METRICS_FILE fs |},
       Some M)
  end.

Section Runs.
Variable Net : Type.
Variable train_net : nat -> list matrix -> list num -> Net.
Variable forward : Net -> matrix -> num.
Variable Model : Type.
Variable fit_params : list string -> list DatedRow -> Model.
Variable predict_row : Model -> DatedRow -> num * (num * num).
Variable L : Metrics.

Lemma lstm_run_Ok fs fs' M :
  Lstm.run_lstm_forecast train_net forward L fs = Ok (fs', M) <->
  exists df F,
    PROCESSED_FILE fs = Some df
    /\ Lstm.run_brands train_net forward L df = Ok (F, M)
    /\ fs' = lstm_written fs F M.
Proof.
  unfold Lstm.run_lstm_forecast. split.
  - destruct (PROCESSED_FILE fs) as [df|] eqn:Hdf; [|discriminate].
    intros H. bind_ok H out E. destruct out as [F M0]. cbn [fst snd] in H.
    exists df, F. split; [reflexivity|].
    destruct F as [|f F']; apply Ok_inj in H; inversion H; subst;
      (split; [exact E|unfold lstm_written; rewrite ?Hdf; reflexivity]).
  - intros (df & F & Hdf & Hrun & ->). unfold lstm_written.
    rewrite Hdf, Hrun. destruct F; reflexivity.
Qed.

Lemma prophet_run_Ok fs fs' R :
  Seasonal.forecast_with_prophet fit_params predict_row L fs = Ok (fs', R) <->
  exists df F M,
    PROCESSED_FILE fs = Some df
    /\ Seasonal.run_brands fit_params predict_row L df = Ok (F, M)
    /\ (fs', R) = prophet_written fs F M.
Proof.
  unfold Seasonal.forecast_with_prophet. split.
  - destruct (PROCESSED_FILE fs) as [df|] eqn:Hdf; [|discriminate].
    intros H. bind_ok H out E. destruct out as [F M]. cbn [fst snd] in H.
    exists df, F, M. split; [reflexivity|]. split; [exact E|].
    destruct F as [|f F']; apply Ok_inj in H; inversion H; subst;
      unfold prophet_written; rewrite ?Hdf; reflexivity.
  - intros (df & F & M & Hdf & Hrun & Hw). unfold prophet_written in Hw.
    rewrite Hdf, Hrun. cbn [bind fst snd].
    destruct F; inversion Hw; subst; rewrite ?Hdf; reflexivity.
Qed.

Lemma lstm_written_processed fs F M :
  PROCESSED_FILE (lstm_written fs F M) = PROCESSED_FILE fs.
Proof. destruct F; reflexivity. Qed.

Lemma prophet_written_processed fs F M :
  PROCESSED_FILE (fst (prophet_written fs F M)) = PROCESSED_FILE fs.
Proof. destruct F; reflexivity. Qed.

Lemma written_commute fs Fp Mp Fl Ml :
  prophet_written (lstm_written fs Fl Ml) Fp Mp
  = (lstm_written (fst (prophet_written fs Fp Mp)) Fl Ml,
     snd (prophet_written fs Fp Mp)).
Proof. destruct Fp, Fl; reflexivity. Qed.
End Runs.

(** X12. A forecaster reads the processed table and nothing else, and
    writes its own two files and nothing else: the raw file, the processed
    file and the files of the other forecaster are as they were.  So the
    two forecasters, which the workflow starts side by side, can run in
    either order: if one order completes, the other completes too, with
    the same returned values and the same files. *)
Theorem X12_forecasters_do_not_interfere
    (Net : Type) (train_net : nat -> list matrix -> list num -> Net)
    (forward : Net -> matrix -> num)
    (Model : Type) (fit_params : list string -> list DatedRow -> Model)
    (predict_row : Model -> DatedRow -> num * (num * num))
    (L : Metrics) (fs : FileSystem) :
  let lstm := Lstm.run_lstm_forecast train_net forward L in
  let prophet := Seasonal.forecast_with_prophet fit_params predict_row L in
  (forall fs' M, lstm fs = Ok (fs', M) ->
     RAW_DATA_FILE fs' = RAW_DATA_FILE fs
     /\ PROCESSED_FILE fs' = PROCESSED_FILE fs
     /\ PROPHET_FORECAST_FILE fs' = PROPHET_FORECAST_FILE fs
     /\ PROPHET_METRICS_FILE fs' = PROPHET_METRICS_FILE fs)
  /\ (forall fs' R, prophet fs = Ok (fs', R) ->
        RAW_DATA_FILE fs' = RAW_DATA_FILE fs
        /\ PROCESSED_FILE fs' = PROCESSED_FILE fs
        /\ LSTM_FORECAST_FILE fs' = LSTM_FORECAST_FILE fs
        /\ LSTM_METRICS_FILE fs' = LSTM_METRICS_FILE fs)
  /\ (forall fs1 R fs2 M,
        prophet fs = Ok (fs1, R) -> lstm fs1 = Ok (fs2, M) ->
        exists fs1', lstm fs = Ok (fs1', M) /\ prophet fs1' = Ok (fs2, R))
  /\ (forall fs1 M fs2 R,
        lstm fs = Ok (fs1, M) -> prophet fs1 = Ok (fs2, R) ->
        exists fs1', prophet fs = Ok (fs1', R) /\ lstm fs1' = Ok (fs2, M)).
Proof.
  intros lstm prophet. split; [|split; [|split]].
  - intros fs' M H. apply lstm_run_Ok in H.
    destruct H as (df & F & _ & _ & ->). destruct F; repeat split.
  - intros fs' R H. apply prophet_run_Ok in H.
    destruct H as (df & F & M & _ & _ & Hw).
    destruct F; inversion Hw; subst; repeat split.
  - intros fs1 R fs2 M Hp Hl.
    apply prophet_run_Ok in Hp. destruct Hp as (df & Fp & Mp & Hdf & Hrp & Hw).
    apply lstm_run_Ok in Hl. destruct Hl as (df' & Fl & Hdf' & Hrl & ->).
    assert (E1 : fs1 = fst (prophet_written fs Fp Mp)) by (now rewrite <- Hw).
    assert (E2 : R = snd (prophet_written fs Fp Mp)) by (now rewrite <- Hw).
    rewrite E1, prophet_written_processed, Hdf in Hdf'.
    apply (f_equal (fun o => match o with Some d => d | None => df end)) in Hdf'.
    subst df'.
    exists (lstm_written fs Fl M). split.
    + apply lstm_run_Ok. exists df, Fl. auto.
    + apply prophet_run_Ok. exists df, Fp, Mp.
      rewrite lstm_written_processed. split; [exact Hdf|]. split; [exact Hrp|].
      rewrite written_commute, E1, E2. reflexivity.
  - intros fs1 M fs2 R Hl Hp.
    apply lstm_run_Ok in Hl. destruct Hl as (df & Fl & Hdf & Hrl & ->).
    apply prophet_run_Ok in Hp. destruct Hp as (df' & Fp & Mp & Hdf' & Hrp & Hw).
    rewrite lstm_written_processed, Hdf in Hdf'.
    apply (f_equal (fun o => match o with Some d => d | None => df end)) in Hdf'.
    subst df'.
    rewrite written_commute in Hw.
    exists (fst (prophet_written fs Fp Mp)). split.
    + apply prophet_run_Ok. exists df, Fp, Mp. split; [exact Hdf|].
      split; [exact Hrp|]. inversion Hw. symmetry. apply surjective_pairing.
    + apply lstm_run_Ok. exists df, Fl.
      rewrite prophet_written_processed. split; [exact Hdf|]. split; [exact Hrl|].
      now inversion Hw.
Qed.

Section Order.
Variable step : string -> list Row -> result outcome.
Hypothesis step_brand : forall k rows m f,
  step k rows = Ok (Produced m f) ->
  m_Brand m = k /\ Forall (fun r => fc_Brand r = k) f /\ f <> [].

Lemma loop_brands_of_groups groups outs b :
  Forall2 (steps_to step) groups outs ->
  In b (map m_Brand (metrics_of outs))
  \/ In b (map fc_Brand (List.concat (forecasts_of outs))) ->
  In b (map fst groups).
Proof.
  induction 1 as [|[k rows] o gs os Hs HF IH]; simpl; [tauto|].
  destruct o as [|m f]; simpl; [intros H; right; now apply IH|].
  destruct (step_brand _ _ _ _ Hs) as (Hm & Hf & _). cbn [fst snd] in Hm, Hf.
  rewrite map_app, in_app_iff. intros [[H|H]|[H|H]].
  - left. congruence.
  - right. apply IH. now left.
  - left. apply in_map_iff in H. destruct H as (r & <- & Hr).
    rewrite Forall_forall in Hf. symmetry. now apply Hf.
  - right. apply IH. now right.
Qed.

(** The metrics rows come in the order of the groups, and so do the
    blocks of the forecast table. *)
Lemma loop_brands_sorted groups outs :
  Forall2 (steps_to step) groups outs ->
  StronglySorted (fun a b => String.compare a b = Lt) (map fst groups) ->
  StronglySorted (fun a b => String.compare a b = Lt)
                 (map m_Brand (metrics_of outs))
  /\ StronglySorted (fun a b => String.compare a b <> Gt)
                    (map fc_Brand (List.concat (forecasts_of outs))).
Proof.
  induction 1 as [|[k rows] o gs os Hs HF IH]; simpl; intros Hsorted;
    [split; constructor|].
  inversion Hsorted as [|? ? Hs' Hall]; subst.
  destruct (IH Hs') as [IHm IHf].
  destruct o as [|m f]; simpl; [split; assumption|].
  destruct (step_brand _ _ _ _ Hs) as (Hm & Hf & _). cbn [fst snd] in Hm, Hf.
  rewrite Forall_forall in Hall.
  split.
  - constructor; [exact IHm|]. rewrite Forall_forall. intros b Hb. rewrite Hm.
    apply Hall. apply (loop_brands_of_groups gs os b HF). now left.
  - rewrite map_app. clear - Hf IHf Hall HF step_brand.
    induction Hf as [|r t Hr Ht IHt]; simpl; [exact IHf|].
    constructor; [exact IHt|]. rewrite Forall_forall. intros b Hb.
    apply in_app_or in Hb. rewrite Hr. destruct Hb as [Hb|Hb].
    + apply in_map_iff in Hb. destruct Hb as (r' & <- & Hr').
      rewrite Forall_forall in Ht. rewrite (Ht _ Hr').
      rewrite (proj2 (Scmp_eq k k) eq_refl). discriminate.
    + rewrite (Hall b); [discriminate|].
      apply (loop_brands_of_groups gs os b HF). now right.
Qed.
End Order.

Lemma groupby_brand_sorted df :
  StronglySorted (fun a b => String.compare a b = Lt) (map fst (groupby_brand df)).
Proof.
  unfold groupby_brand. rewrite groupby_keys.
  apply unique_sorted_sorted; [exact Scmp_eq|exact Scmp_antisym|exact Scmp_trans].
Qed.

(** X13. Both forecasters write their tables in ascending order of the
    brand: the metrics table has its brands in strictly ascending order
    (one row per forecast brand), the forecast table has the rows of a
    brand in one block and the blocks in ascending order, and every brand
    of either table is a brand of the processed table. *)
Theorem X13_tables_in_brand_order
    (Net : Type) (train_net : nat -> list matrix -> list num -> Net)
    (forward : Net -> matrix -> num)
    (Model : Type) (fit_params : list string -> list DatedRow -> Model)
    (predict_row : Model -> DatedRow -> num * (num * num))
    (L : Metrics) (df : DataFrame) (F : list (list ForecastRow))
    (M : list MetricsRecord) :
  Lstm.run_brands train_net forward L df = Ok (F, M)
  \/ Seasonal.run_brands fit_params predict_row L df = Ok (F, M) ->
  StronglySorted (fun a b => String.compare a b = Lt) (map m_Brand M)
  /\ StronglySorted (fun a b => String.compare a b <> Gt)
                    (map fc_Brand (List.concat F))
  /\ (forall b, In b (map m_Brand M) -> In b (map Brand (rows df)))
  /\ (forall b, In b (map fc_Brand (List.concat F)) -> In b (map Brand (rows df))).
Proof.
  assert (Hgen : forall step,
            (forall k rows m f, step k rows = Ok (Produced m f) ->
               m_Brand m = k /\ Forall (fun r => fc_Brand r = k) f /\ f <> []) ->
            brand_loop step (groupby_brand df) [] [] = Ok (F, M) ->
            StronglySorted (fun a b => String.compare a b = Lt) (map m_Brand M)
            /\ StronglySorted (fun a b => String.compare a b <> Gt)
                              (map fc_Brand (List.concat F))
            /\ (forall b, In b (map m_Brand M) -> In b (map Brand (rows df)))
            /\ (forall b, In b (map fc_Brand (List.concat F)) ->
                          In b (map Brand (rows df)))).
  { intros step Hstep H. apply brand_loop_Ok in H.
    destruct H as (outs & HF & -> & ->). cbn [app].
    destruct (loop_brands_sorted step Hstep _ _ HF (groupby_brand_sorted df))
      as [Hm Hf].
    assert (Hkeys : forall b, In b (map fst (groupby_brand df)) ->
                              In b (map Brand (rows df))).
    { intros b Hb. unfold groupby_brand in Hb. rewrite groupby_keys in Hb.
      apply unique_sorted_In in Hb; [exact Hb|exact Scmp_eq]. }
    split; [exact Hm|]. split; [exact Hf|]. split; intros b Hb; apply Hkeys.
    - apply (loop_brands_of_groups step Hstep _ outs b HF). now left.
    - apply (loop_brands_of_groups step Hstep _ outs b HF). now right. }
  intros [H|H].
  - apply (Hgen (Lstm.forecast_brand train_net forward L (columns df)));
      [|exact H].
    intros k rows m f. apply lstm_step_brand.
  - apply (Hgen (Seasonal.forecast_brand fit_params predict_row L (columns df)));
      [|exact H].
    intros k rows m f. apply seasonal_step_brand.
Qed.

(** X13, witness: two brands of 30 days each, the sequence forecaster. *)
Lemma X13_tables_in_brand_order_witness :
  exists F M,
    Examples.lstm_brands Examples.healthy = Ok (F, M)
    /\ StronglySorted (fun a b => String.compare a b = Lt) (map m_Brand M)
    /\ map m_Brand M = [ "Alpha"; "Beta" ].
Proof.
  destruct (Examples.lstm_brands Examples.healthy) as [[F M]|e] eqn:E;
    [|vm_compute in E; discriminate E].
  exists F, M. split; [reflexivity|]. split.
  - exact (proj1 (X13_tables_in_brand_order unit Examples.train_double
                    Examples.forward_double unit Examples.fit_double
                    Examples.predict_double Examples.metrics_double
                    Examples.healthy F M (or_introl E))).
  - vm_compute in E. apply Ok_inj in E. inversion E. reflexivity.
Defined.

(* ===================================================================== *)
(** * The seasonal forecaster: when the iteration of a brand fails *)
(* ===================================================================== *)

Lemma lookup_present k (l : record) :
  In k (map fst l) -> exists v, lookup k l = Some v /\ In (k, v) l.
Proof.
  induction l as [|[c v] t IH]; simpl; intros H; [contradiction|].
  destruct (String.eqb_spec k c) as [->|Hne]; [eauto|].
  destruct H as [E|H]; [congruence|].
  destruct (IH H) as (v' & Hl & Hin). eauto.
Qed.

Lemma get_select_in c cols r :
  In c cols -> get c (vals (Seasonal.select cols r)) = get c (vals r).
Proof.
  unfold get, Seasonal.select. cbn [vals].
  induction cols as [|c' t IH]; simpl; intros H; [contradiction|].
  destruct (String.eqb_spec c c') as [->|Hne]; [reflexivity|].
  destruct H as [E|H]; [congruence|]. now apply IH.
Qed.

Lemma select_keys cols r : map fst (vals (Seasonal.select cols r)) = cols.
Proof.
  unfold Seasonal.select. cbn [vals]. rewrite map_map. apply map_id.
Qed.

Lemma rename_regressor u :
  In u Seasonal.extra_regressors -> Seasonal.rename u = u.
Proof.
  intros H. simpl in H.
  repeat (destruct H as [<-|H]; [reflexivity|]). contradiction.
Qed.

(** The columns of the frame the model sees. *)
Definition prophet_columns (cols : list string) : list string :=
  "y" :: "Trend_Score" :: Seasonal.used_regressors (map fst (Seasonal.agg_dict cols)).

Lemma used_regressors_rename l :
  map Seasonal.rename (Seasonal.used_regressors l) = Seasonal.used_regressors l.
Proof.
  rewrite <- (map_id (Seasonal.used_regressors l)) at 2.
  apply map_ext_in. intros u Hu. apply rename_regressor.
  unfold Seasonal.used_regressors in Hu. apply filter_In in Hu. exact (proj1 Hu).
Qed.

Lemma select_rename_keys cs r :
  map fst (vals (Seasonal.select_rename cs r)) = map Seasonal.rename cs.
Proof.
  unfold Seasonal.select_rename. cbn [vals]. rewrite map_map. reflexivity.
Qed.

Lemma replace_inf_row_keys r :
  map fst (vals (Seasonal.replace_inf_row r)) = map fst (vals r).
Proof.
  unfold Seasonal.replace_inf_row. cbn [vals]. rewrite map_map. reflexivity.
Qed.

Lemma prophet_frame_keys cols brand_rows r :
  In r (Seasonal.prophet_frame cols brand_rows) ->
  map fst (vals r) = prophet_columns cols.
Proof.
  unfold Seasonal.prophet_frame, Seasonal.clean. intros H.
  apply filter_In in H. destruct H as [H _].
  apply filter_In in H. destruct H as [H _].
  apply in_map_iff in H. destruct H as (r1 & <- & H).
  apply in_map_iff in H. destruct H as (r0 & <- & _).
  rewrite replace_inf_row_keys, select_rename_keys.
  unfold prophet_columns.
  generalize (used_regressors_rename (map fst (Seasonal.agg_dict cols))).
  generalize (Seasonal.used_regressors (map fst (Seasonal.agg_dict cols))).
  intros l Hl. cbn [map]. rewrite Hl. reflexivity.
Qed.

Lemma prophet_frame_target_finite cols brand_rows r :
  In r (Seasonal.prophet_frame cols brand_rows) ->
  isfinite (get "y" (vals r)) = true.
Proof.
  unfold Seasonal.prophet_frame, Seasonal.clean. intros H.
  apply filter_In in H. destruct H as [H _].
  apply filter_In in H. destruct H as [H Hy].
  apply in_map_iff in H. destruct H as (r1 & <- & _).
  rewrite get_replace_inf_notnull in Hy.
  unfold get, Seasonal.replace_inf_row in *. cbn [vals].
  rewrite lookup_map_values.
  destruct (lookup "y" (vals r1)) as [v|]; [|discriminate Hy].
  destruct v; try discriminate Hy. reflexivity.
Qed.

Lemma any_null_false df r c :
  Seasonal.any_null df = false -> In r df -> In c (map fst (vals r)) ->
  notnull (get c (vals r)) = true.
Proof.
  unfold Seasonal.any_null. intros Hn Hr Hc.
  destruct (lookup_present c (vals r) Hc) as (v & Hl & Hin).
  unfold get. rewrite Hl. unfold notnull.
  destruct (isnull v) eqn:E; [|reflexivity].
  assert (existsb (fun r => existsb (fun cv => isnull (snd cv)) (vals r)) df = true);
    [|congruence].
  apply existsb_exists. exists r. split; [exact Hr|].
  apply existsb_exists. exists (c, v). split; [exact Hin|exact E].
Qed.

Lemma target_not_regressor l : ~ In "y" (Seasonal.used_regressors l).
Proof.
  unfold Seasonal.used_regressors. intros H. apply filter_In in H.
  destruct H as [H _]. revert H. generalize (has_column l). intros _ H.
  unfold Seasonal.extra_regressors in H. cbn [In] in H.
  repeat (destruct H as [H|H]; [discriminate H|]). exact H.
Qed.

Lemma regressors_are_columns cols train reg :
  In reg (Seasonal.regressors_to_use
            (Seasonal.used_regressors (map fst (Seasonal.agg_dict cols))) train) ->
  In reg (prophet_columns cols) /\ reg <> "y".
Proof.
  unfold prophet_columns.
  generalize (target_not_regressor (map fst (Seasonal.agg_dict cols))).
  generalize (Seasonal.used_regressors (map fst (Seasonal.agg_dict cols))).
  intros l Hy H. apply regressors_to_use_In in H. destruct H as [[->|H] _].
  - split; [right; left; reflexivity|discriminate].
  - split; [right; right; exact H|].
    intros ->. exact (Hy H).
Qed.

(** Some regressor of the model has a missing value in the frame: the
    condition under which [setup_dataframe] raises. *)
Definition regressor_gap (regs : list string) (df : list DatedRow) : bool :=
  existsb (fun name => existsb isnull (column name df)) regs.

Lemma column_select regs c df :
  In c regs -> column c (map (Seasonal.select regs) df) = column c df.
Proof.
  intros H. unfold column. rewrite map_map. apply map_ext.
  intros r. now apply get_select_in.
Qed.

Lemma regressor_gap_select regs more df :
  incl regs more ->
  regressor_gap regs (map (Seasonal.select more) df) = regressor_gap regs df.
Proof.
  intros Hincl. unfold regressor_gap.
  induction regs as [|c t IH]; [reflexivity|]. cbn [existsb].
  rewrite column_select by (apply Hincl; now left).
  rewrite IH; [reflexivity|]. intros x Hx. apply Hincl. now right.
Qed.

Lemma no_null_no_gap regs df :
  Seasonal.any_null df = false ->
  Forall (fun r => incl regs (map fst (vals r))) df ->
  regressor_gap regs df = false.
Proof.
  intros Hn Hk. unfold regressor_gap.
  destruct (existsb _ regs) eqn:E; [|reflexivity]. exfalso.
  apply existsb_exists in E. destruct E as (c & Hc & E).
  apply existsb_exists in E. destruct E as (v & Hv & E).
  unfold column in Hv. apply in_map_iff in Hv. destruct Hv as (r & <- & Hr).
  rewrite Forall_forall in Hk.
  pose proof (any_null_false df r c Hn Hr (Hk r Hr c Hc)) as G.
  unfold notnull in G. rewrite E in G. discriminate G.
Qed.

Lemma finite_notnull x : isfinite x = true -> notnull x = true.
Proof. destruct x; intros H; try discriminate H; reflexivity. Qed.

Lemma finite_no_inf x : isfinite x = true -> isinf x = false.
Proof. destruct x; intros H; try discriminate H; reflexivity. Qed.

Lemma forallb_filter_all {A} (p : A -> bool) l :
  Forall (fun x => p x = true) l -> filter p l = l.
Proof.
  induction 1 as [|x t Hx _ IH]; simpl; [reflexivity|]. now rewrite Hx, IH.
Qed.

Lemma Forall_existsb_false {A} (p : A -> bool) l :
  Forall (fun x => p x = false) l -> existsb p l = false.
Proof.
  induction 1 as [|x t Hx _ IH]; simpl; [reflexivity|]. now rewrite Hx, IH.
Qed.

Lemma Forall_forallb {A} (p : A -> bool) l :
  Forall (fun x => p x = true) l -> forallb p l = true.
Proof.
  induction 1 as [|x t Hx _ IH]; simpl; [reflexivity|]. now rewrite Hx, IH.
Qed.

(** ** Carrying the regressors forward on the future frame *)

Lemma get_set_cell_other c reg v r :
  c <> reg -> get c (set_cell reg v r) = get c r.
Proof.
  intros Hne. unfold get. f_equal.
  induction r as [|[c' v'] t IH]; [reflexivity|]. cbn [set_cell map lookup fst].
  destruct (String.eqb_spec c' reg) as [->|Hc'].
  - destruct (String.eqb_spec c reg) as [E|_]; [contradiction|]. exact IH.
  - destruct (String.eqb c c'); [reflexivity|exact IH].
Qed.

Lemma get_set_cell_same reg v r :
  In reg (map fst r) -> get reg (set_cell reg v r) = v.
Proof.
  unfold get.
  induction r as [|[c' v'] t IH]; [contradiction|]. cbn [set_cell map lookup fst In].
  intros H. destruct (String.eqb_spec c' reg) as [->|Hc'].
  - now rewrite String.eqb_refl.
  - destruct (String.eqb_spec reg c') as [E|_]; [congruence|].
    apply IH. destruct H as [H|H]; [contradiction|exact H].
Qed.

Lemma set_cell_keys reg v r : map fst (set_cell reg v r) = map fst r.
Proof.
  unfold set_cell. rewrite map_map. apply map_ext. intros [c' v']. cbn [fst].
  destruct (String.eqb_spec c' reg) as [->|_]; reflexivity.
Qed.

Lemma ffill_column_length_eq reg df :
  List.length df = List.length (ffill (column reg df)).
Proof. unfold ffill, column. now rewrite ffill_from_length, length_map. Qed.

Lemma column_ffill_other c reg df :
  c <> reg -> column c (Seasonal.ffill_column reg df) = column c df.
Proof.
  intros Hne. unfold Seasonal.ffill_column, column at 1. rewrite map_map. cbn [vals].
  rewrite (map_ext _ (fun rv => get c (vals (fst rv))))
    by (intros rv; now apply get_set_cell_other).
  rewrite <- (map_map fst (fun r => get c (vals r))).
  rewrite combine_fst by apply ffill_column_length_eq. reflexivity.
Qed.

Lemma column_ffill_same reg df :
  Forall (fun r => In reg (map fst (vals r))) df ->
  column reg (Seasonal.ffill_column reg df) = ffill (column reg df).
Proof.
  intros Hk. unfold Seasonal.ffill_column, column at 1. rewrite map_map. cbn [vals].
  rewrite (map_ext_in _ snd).
  - apply combine_snd, ffill_column_length_eq.
  - intros [r v] Hrv. cbn [fst snd]. apply get_set_cell_same.
    apply in_combine_l in Hrv. rewrite Forall_forall in Hk. now apply Hk.
Qed.

Lemma ffill_column_keys reg df :
  map (fun r => map fst (vals r)) (Seasonal.ffill_column reg df)
  = map (fun r => map fst (vals r)) df.
Proof.
  unfold Seasonal.ffill_column. rewrite map_map. cbn [vals].
  rewrite (map_ext _ (fun rv => map fst (vals (fst rv))))
    by (intros rv; apply set_cell_keys).
  rewrite <- (map_map fst (fun r => map fst (vals r))).
  rewrite combine_fst by apply ffill_column_length_eq. reflexivity.
Qed.

Lemma ffill_from_no_gap prev xs :
  isnull prev = false -> existsb isnull (ffill_from prev xs) = false.
Proof.
  revert prev. induction xs as [|x t IH]; intros prev Hp; [reflexivity|].
  cbn [ffill_from existsb]. destruct (isnull x) eqn:E.
  - rewrite Hp. now apply IH.
  - rewrite E. now apply IH.
Qed.

(** A column that starts with a value: [ffill] keeps its first cell and
    leaves no gap. *)
Definition starts_with_value (xs : list num) : Prop :=
  match xs with
  | [] => False
  | x :: _ => isnull x = false
  end.

Lemma ffill_starts_with_value xs :
  starts_with_value xs ->
  starts_with_value (ffill xs) /\ existsb isnull (ffill xs) = false.
Proof.
  destruct xs as [|x t]; [contradiction|]. cbn [starts_with_value].
  intros Hx. unfold ffill. cbn [ffill_from]. rewrite Hx. cbn [starts_with_value existsb].
  rewrite Hx. split; [reflexivity|]. now apply ffill_from_no_gap.
Qed.

Lemma fold_ffill_no_gap regs l df :
  incl l regs ->
  Forall (fun r => map fst (vals r) = regs) df ->
  (forall c, In c regs -> starts_with_value (column c df)) ->
  forall c, In c l \/ existsb isnull (column c df) = false ->
            In c regs ->
            existsb isnull
              (column c (fold_left (fun f reg => Seasonal.ffill_column reg f) l df))
            = false.
Proof.
  revert df. induction l as [|reg t IH]; intros df Hincl Hk Hs c Hc Hin.
  - destruct Hc as [[]|Hc]. exact Hc.
  - cbn [fold_left].
    assert (Hreg : In reg regs) by (apply Hincl; now left).
    assert (Hkreg : Forall (fun r => In reg (map fst (vals r))) df).
    { eapply Forall_impl; [|exact Hk]. intros r Hr. cbn beta in Hr.
      now rewrite Hr. }
    assert (Hk' : Forall (fun r => map fst (vals r) = regs)
                         (Seasonal.ffill_column reg df)).
    { apply Forall_map with (f := fun r => map fst (vals r)) (P := fun k => k = regs).
      rewrite ffill_column_keys. apply Forall_map. exact Hk. }
    assert (Hs' : forall c', In c' regs ->
                    starts_with_value (column c' (Seasonal.ffill_column reg df))).
    { intros c' Hc'. destruct (String.eqb_spec c' reg) as [->|Hne].
      - rewrite column_ffill_same by exact Hkreg.
        apply ffill_starts_with_value. now apply Hs.
      - rewrite column_ffill_other by exact Hne. now apply Hs. }
    apply IH; [intros x Hx; apply Hincl; now right|exact Hk'|exact Hs'| |exact Hin].
    destruct (String.eqb_spec c reg) as [->|Hne].
    + right. rewrite column_ffill_same by exact Hkreg.
      apply ffill_starts_with_value. now apply Hs.
    + destruct Hc as [[E|Hc]|Hc]; [congruence|now left|].
      right. now rewrite column_ffill_other by exact Hne.
Qed.

Lemma merge_left_keys future regs right :
  Forall (fun r => map fst (vals r) = regs) (Seasonal.merge_left future regs right).
Proof.
  unfold Seasonal.merge_left. rewrite Forall_forall. intros r Hr.
  apply in_flat_map in Hr. destruct Hr as (d & _ & Hr).
  destruct (filter (fun r0 => Z.eqb (ds r0) d) right) as [|x xs].
  - destruct Hr as [<-|[]]. cbn [vals]. rewrite map_map. apply map_id.
  - apply in_map_iff in Hr. destruct Hr as (r0 & <- & _). cbn [vals].
    apply select_keys.
Qed.

(** The merged frame starts with the first row of the history when the
    time line starts with its date. *)
Lemma merge_left_starts d future regs r0 rest c :
  ds r0 = d -> In c regs ->
  notnull (get c (vals r0)) = true ->
  starts_with_value (column c (Seasonal.merge_left (d :: future) regs (r0 :: rest))).
Proof.
  intros Hd Hc Hv. unfold Seasonal.merge_left. cbn [flat_map filter].
  rewrite (proj2 (Z.eqb_eq (ds r0) d) Hd). cbn [map app column].
  unfold column. cbn [map starts_with_value vals].
  change (map (fun c0 => (c0, get c0 (vals r0))) regs)
    with (vals (Seasonal.select regs r0)).
  rewrite get_select_in by exact Hc.
  unfold notnull in Hv. now apply negb_true_iff in Hv.
Qed.

Lemma merge_left_nonempty d future regs r0 rest :
  ds r0 = d -> Seasonal.merge_left (d :: future) regs (r0 :: rest) <> [].
Proof.
  intros Hd. unfold Seasonal.merge_left. cbn [flat_map filter].
  rewrite (proj2 (Z.eqb_eq (ds r0) d) Hd). cbn [map app]. discriminate.
Qed.

Lemma bind_raise_intro {A B} (c : result A) (k : A -> result B) e :
  c = Raise e -> bind c k = Raise e.
Proof. intros ->. reflexivity. Qed.

Lemma if_false_intro {A} (b : bool) (x y : A) :
  b = false -> (if b then x else y) = y.
Proof. intros ->. reflexivity. Qed.

Lemma nonempty_match {A B} (l : list A) (x y : B) :
  l <> [] -> match l with [] => x | _ :: _ => y end = y.
Proof. destruct l; [contradiction|reflexivity]. Qed.

Section Failure.
Variable Model : Type.
Variable fit_params : list string -> list DatedRow -> Model.
Variable predict_row : Model -> DatedRow -> num * (num * num).
Variable L : Metrics.

(** [fit] accepts training rows that have a finite target and no missing
    regressor value. *)
Lemma fit_accepts regs train :
  (2 <= List.length train)%nat ->
  Forall (fun r => isfinite (get "y" (vals r)) = true) train ->
  regressor_gap regs train = false ->
  Seasonal.fit fit_params regs (map (Seasonal.select ("y" :: regs)) train)
  = Ok {| Seasonal.regressors := regs;
          Seasonal.history_dates := unique_sorted Z.compare (map ds train);
          Seasonal.params :=
            fit_params regs (map (Seasonal.select ("y" :: regs)) train) |}.
Proof.
  intros Hlen Hy Hgap. unfold Seasonal.fit.
  assert (Hfin : Forall (fun r => isfinite (get "y" (vals r)) = true)
                        (map (Seasonal.select ("y" :: regs)) train)).
  { apply Forall_map. eapply Forall_impl; [|exact Hy]. intros r Hr. cbn beta.
    rewrite get_select_in by (now left). exact Hr. }
  rewrite forallb_filter_all
    by (eapply Forall_impl; [|exact Hfin]; intros r Hr; now apply finite_notnull).
  rewrite length_map.
  rewrite (proj2 (Nat.ltb_ge (List.length train) 2) Hlen).
  assert (Hs : Seasonal.setup_dataframe regs true
                 (map (Seasonal.select ("y" :: regs)) train) = Ok tt).
  { unfold Seasonal.setup_dataframe.
    rewrite (Forall_existsb_false isinf).
    - cbn [andb].
      change (existsb (fun name => existsb isnull (column name ?d)) regs)
        with (regressor_gap regs d).
      rewrite regressor_gap_select by (intros x Hx; now right).
      now rewrite Hgap.
    - unfold column. apply Forall_map. eapply Forall_impl; [|exact Hfin].
      intros r Hr. now apply finite_no_inf. }
  rewrite Hs. cbn [bind]. rewrite map_map. reflexivity.
Qed.

Lemma predict_nonempty (m : Seasonal.Prophet Model) df :
  df <> [] ->
  Seasonal.predict predict_row m df
  = (if regressor_gap (Seasonal.regressors m) df
     then Raise (ValueError "Found NaN in column of a regressor.")
     else Ok (map (fun r => (ds r, predict_row (Seasonal.params m) r)) df)).
Proof.
  intros Hne. unfold Seasonal.predict. destruct df as [|r t]; [contradiction|].
  unfold Seasonal.setup_dataframe. cbn [andb].
  change (existsb (fun name => existsb isnull (column name ?d)) ?regs)
    with (regressor_gap regs d).
  destruct (regressor_gap _ _); reflexivity.
Qed.

(** The evaluation on a holdout with finite targets: the exception of
    [predict] when a regressor value is missing, the exception of the
    metrics when a prediction is not finite, the two scores otherwise. *)
Lemma evaluate_cases (model : Seasonal.Prophet Model) test :
  test <> [] ->
  Forall (fun r => isfinite (get "y" (vals r)) = true) test ->
  let regs := Seasonal.regressors model in
  let yhat := map (fun r => fst (predict_row (Seasonal.params model)
                                             (Seasonal.select regs r))) test in
  Seasonal.evaluate predict_row L model regs test
  = if regressor_gap regs test
    then Raise (ValueError "Found NaN in column of a regressor.")
    else if forallb isfinite yhat
    then Ok (np_sqrt L (mean_squared_error_value L (column "y" test) yhat),
             nmul (mean_absolute_percentage_error_value L (column "y" test) yhat)
                  (Fin 100))
    else Raise (ValueError "Input contains NaN or infinity.").
Proof.
  intros Hne Hy regs yhat. unfold Seasonal.evaluate.
  rewrite predict_nonempty
    by (intros E; apply map_eq_nil in E; contradiction).
  fold regs. rewrite regressor_gap_select by (intros x Hx; exact Hx).
  destruct (regressor_gap regs test); [reflexivity|]. cbn [bind].
  rewrite !map_map. cbn [fst snd]. fold yhat.
  unfold mean_squared_error, mean_absolute_percentage_error, check_finite_targets.
  assert (Hyt : forallb isfinite (column "y" test) = true).
  { apply Forall_forallb. unfold column. apply Forall_map. exact Hy. }
  rewrite Hyt. cbn [andb]. destruct (forallb isfinite yhat); reflexivity.
Qed.

(** The forecast of the 30 days ahead cannot fail: the future frame
    starts with the first row of the history, so carrying the regressors
    forward leaves no gap. *)
Lemma forecast_future_succeeds brand (model : Seasonal.Prophet Model) regs r0 rest t :
  Seasonal.regressors model = regs ->
  Seasonal.history_dates model = ds r0 :: t ->
  (forall c, In c regs -> notnull (get c (vals r0)) = true) ->
  exists f,
    Seasonal.forecast_future predict_row brand model regs (r0 :: rest) = Ok f.
Proof.
  intros Hregs Hh Hv.
  unfold Seasonal.forecast_future.
  set (frame := Seasonal.future_frame model regs (r0 :: rest)).
  assert (Hframe : frame <> [] /\ regressor_gap regs frame = false).
  { unfold frame, Seasonal.future_frame.
    rewrite make_future_dataframe_dates, Hh. cbn [app].
    set (future := t ++ date_range (max_date (ds r0 :: t) + 1) 30).
    split.
    - intros E. apply (f_equal (map ds)) in E. rewrite fold_ffill_ds in E.
      apply map_eq_nil in E. revert E. now apply merge_left_nonempty.
    - unfold regressor_gap. apply Forall_existsb_false. rewrite Forall_forall.
      intros c Hc. apply (fold_ffill_no_gap regs regs).
      + intros x Hx. exact Hx.
      + apply merge_left_keys.
      + intros c' Hc'. apply merge_left_starts; [reflexivity|exact Hc'|].
        now apply Hv.
      + now left.
      + exact Hc. }
  destruct Hframe as [Hne Hgap].
  rewrite predict_nonempty by exact Hne. rewrite Hregs, Hgap.
  cbn [bind]. eauto.
Qed.

(** The iteration of a brand with at least 3 usable rows and no missing
    training cell is the fit, the evaluation and the forecast in turn. *)
Lemma seasonal_brand_body cols brand brand_rows :
  let prophet_df := Seasonal.prophet_frame cols brand_rows in
  let train := fst (split_80_20 prophet_df) in
  let test := snd (split_80_20 prophet_df) in
  let regs := Seasonal.regressors_to_use
                (Seasonal.used_regressors (map fst (Seasonal.agg_dict cols))) train in
  (3 <= List.length prophet_df)%nat ->
  Seasonal.any_null train = false ->
  Seasonal.forecast_brand fit_params predict_row L cols brand brand_rows
  = (model <- Seasonal.fit fit_params regs (map (Seasonal.select ("y" :: regs)) train) ;;
     scores <- Seasonal.evaluate predict_row L model regs test ;;
     f <- Seasonal.forecast_future predict_row brand model regs prophet_df ;;
     Ok (Produced {| m_Brand := brand; m_RMSE := fst scores; m_MAPE := snd scores |} f)).
Proof.
  intros prophet_df train test regs H3 Hnull.
  destruct (split_sizes prophet_df) as [Htr Hte].
  fold train in Htr. fold test in Hte.
  pose proof (train_size_ge_2 _ H3) as H2.
  pose proof (train_size_lt (List.length prophet_df)) as Hlt.
  unfold Seasonal.forecast_brand.
  fold prophet_df. fold train. fold test. fold regs.
  rewrite if_false_intro by (apply Nat.ltb_ge; exact H3).
  rewrite if_false_intro
    by (apply orb_false_iff; split; [apply Nat.ltb_ge; lia|exact Hnull]).
  apply nonempty_match. intros E. rewrite E in Hte. cbn [List.length] in Hte. lia.
Qed.

Lemma body_cases brand regs prophet_df :
  (3 <= List.length prophet_df)%nat ->
  StronglySorted Z.lt (map ds prophet_df) ->
  Forall (fun r => isfinite (get "y" (vals r)) = true) prophet_df ->
  Forall (fun r => incl regs (map fst (vals r))) prophet_df ->
  Seasonal.any_null (fst (split_80_20 prophet_df)) = false ->
  exists model,
    Seasonal.fit fit_params regs
      (map (Seasonal.select ("y" :: regs)) (fst (split_80_20 prophet_df))) = Ok model
    /\ Seasonal.regressors model = regs
    /\ (exists f, Seasonal.forecast_future predict_row brand model regs prophet_df = Ok f)
    /\ snd (split_80_20 prophet_df) <> []
    /\ Forall (fun r => isfinite (get "y" (vals r)) = true) (snd (split_80_20 prophet_df)).
Proof.
  intros H3 Hsorted Hy Hk Hnull.
  destruct (split_sizes prophet_df) as [Htr Hte].
  destruct (split_80_20_spec prophet_df) as [Happ _].
  pose proof (train_size_ge_2 _ H3) as H2.
  pose proof (train_size_lt (List.length prophet_df)) as Hlt.
  set (train := fst (split_80_20 prophet_df)) in *.
  set (test := snd (split_80_20 prophet_df)) in *.
  rewrite <- Happ in Hy, Hk, Hsorted.
  apply Forall_app in Hy. destruct Hy as [Hytr Hyte].
  apply Forall_app in Hk. destruct Hk as [Hktr _].
  rewrite map_app in Hsorted. apply StronglySorted_prefix in Hsorted.
  eexists. split; [apply fit_accepts|].
  - lia.
  - exact Hytr.
  - now apply no_null_no_gap.
  - split; [reflexivity|]. split; [|split; [|exact Hyte]].
    + destruct train as [|r0 tr] eqn:Etr; [cbn [List.length] in Htr; lia|].
      destruct prophet_df as [|p0 rest]; [discriminate Happ|].
      assert (Ep : p0 = r0) by (cbn [app] in Happ; congruence). subst p0.
      eapply (forecast_future_succeeds brand _ regs r0 rest).
      * reflexivity.
      * cbn [Seasonal.history_dates]. rewrite unique_sorted_of_sorted by exact Hsorted.
        reflexivity.
      * intros c Hc.
        apply (any_null_false (r0 :: tr) r0 c Hnull); [now left|].
        inversion Hktr as [|? ? Hr0 _]; subst. now apply Hr0.
    + intros E. rewrite E in Hte. cbn [List.length] in Hte. lia.
Qed.

End Failure.

(** X14. Where the iteration of a brand can fail in the seasonal
    forecaster.  For a brand that passes the guards (at least 3 usable
    rows, no missing cell in the training rows) [model.fit] always
    succeeds and so does the forecast of the 30 days ahead, whose
    regressors are carried forward from the first training row.  The
    iteration fails only in the evaluation on the holdout, which the
    guards do not inspect: with the exception of [predict] exactly when an
    admitted regressor has a missing value in the holdout, otherwise with
    the exception of the metrics exactly when a prediction for the holdout
    is not finite; in the remaining case the brand is forecast, with the
    scores of the holdout. *)
Theorem X14_seasonal_failure_points
    (Model : Type) (fit_params : list string -> list DatedRow -> Model)
    (predict_row : Model -> DatedRow -> num * (num * num))
    (L : Metrics) (cols : list string) (brand : string) (brand_rows : list Row) :
  let prophet_df := Seasonal.prophet_frame cols brand_rows in
  let train := fst (split_80_20 prophet_df) in
  let test := snd (split_80_20 prophet_df) in
  let regs := Seasonal.regressors_to_use
                (Seasonal.used_regressors (map fst (Seasonal.agg_dict cols))) train in
  let run := Seasonal.forecast_brand fit_params predict_row L cols brand brand_rows in
  (3 <= List.length prophet_df)%nat ->
  Seasonal.any_null train = false ->
  exists model,
    Seasonal.fit fit_params regs (map (Seasonal.select ("y" :: regs)) train) = Ok model
    /\ (exists f,
          Seasonal.forecast_future predict_row brand model regs prophet_df = Ok f)
    /\ (regressor_gap regs test = true ->
        run = Raise (ValueError "Found NaN in column of a regressor."))
    /\ (regressor_gap regs test = false ->
        forallb isfinite
          (map (fun r => fst (predict_row (Seasonal.params model)
                                          (Seasonal.select regs r))) test) = false ->
        run = Raise (ValueError "Input contains NaN or infinity."))
    /\ (regressor_gap regs test = false ->
        forallb isfinite
          (map (fun r => fst (predict_row (Seasonal.params model)
                                          (Seasonal.select regs r))) test) = true ->
        exists f,
          Seasonal.forecast_future predict_row brand model regs prophet_df = Ok f
          /\ run = Ok (Produced
                 {| m_Brand := brand;
                    m_RMSE := np_sqrt L (mean_squared_error_value L (column "y" test)
                                (map (fun r => fst (predict_row (Seasonal.params model)
                                                      (Seasonal.select regs r))) test));
                    m_MAPE := nmul (mean_absolute_percentage_error_value L
                                (column "y" test)
                                (map (fun r => fst (predict_row (Seasonal.params model)
                                                      (Seasonal.select regs r))) test))
                                (Fin 100) |} f)).
Proof.
  intros prophet_df train test regs run H3 Hnull.
  assert (Hy : Forall (fun r => isfinite (get "y" (vals r)) = true) prophet_df).
  { rewrite Forall_forall. intros r Hr.
    exact (prophet_frame_target_finite cols brand_rows r Hr). }
  assert (Hk : Forall (fun r => incl regs (map fst (vals r))) prophet_df).
  { rewrite Forall_forall. intros r Hr c Hc.
    rewrite (prophet_frame_keys cols brand_rows r Hr).
    exact (proj1 (regressors_are_columns cols train c Hc)). }
  destruct (body_cases Model fit_params predict_row brand regs prophet_df H3
              (prophet_frame_sorted cols brand_rows) Hy Hk Hnull)
    as (model & Efit & Eregs & Hfut & Hne & Hyte).
  fold train in Efit. fold test in Hne, Hyte.
  pose proof (evaluate_cases Model predict_row L model test Hne Hyte) as Eev.
  cbv zeta in Eev. rewrite Eregs in Eev.
  assert (Erun : run
                 = (scores <- Seasonal.evaluate predict_row L model regs test ;;
                    f <- Seasonal.forecast_future predict_row brand model regs prophet_df ;;
                    Ok (Produced {| m_Brand := brand; m_RMSE := fst scores;
                                    m_MAPE := snd scores |} f))).
  { unfold run.
    rewrite (seasonal_brand_body Model fit_params predict_row L cols brand brand_rows
               H3 Hnull).
    fold prophet_df. fold train. fold test. fold regs.
    eapply bind_intro; [exact Efit|reflexivity]. }
  exists model. split; [exact Efit|]. split; [exact Hfut|].
  split; [|split].
  - intros Hgap. rewrite Hgap in Eev. rewrite Erun.
    apply bind_raise_intro. exact Eev.
  - intros Hgap Hbad. rewrite Hgap, Hbad in Eev. rewrite Erun.
    apply bind_raise_intro. exact Eev.
  - intros Hgap Hgood. rewrite Hgap, Hgood in Eev.
    destruct Hfut as (f & Ef). exists f. split; [exact Ef|]. rewrite Erun.
    eapply bind_intro; [exact Eev|]. eapply bind_intro; [exact Ef|]. reflexivity.
Qed.

(** X14, witness: the brand of 10 days whose promotion flag is missing on
    the last day, a day of the holdout. *)
Lemma X14_seasonal_failure_points_witness :
  (3 <= List.length (Seasonal.prophet_frame Examples.table_columns Examples.promo_gap))%nat
  /\ Seasonal.any_null
       (fst (split_80_20 (Seasonal.prophet_frame Examples.table_columns
                                                 Examples.promo_gap))) = false
  /\ Seasonal.forecast_brand Examples.fit_double Examples.predict_double
       Examples.metrics_double Examples.table_columns "Gamma" Examples.promo_gap
     = Raise (ValueError "Found NaN in column of a regressor.").
Proof.
  assert (H3 : (3 <= List.length (Seasonal.prophet_frame Examples.table_columns
                                                         Examples.promo_gap))%nat)
    by (vm_compute; lia).
  assert (Hn : Seasonal.any_null
                 (fst (split_80_20 (Seasonal.prophet_frame Examples.table_columns
                                                           Examples.promo_gap))) = false)
    by (vm_compute; reflexivity).
  split; [exact H3|]. split; [exact Hn|].
  destruct (X14_seasonal_failure_points unit Examples.fit_double
              Examples.predict_double Examples.metrics_double
              Examples.table_columns "Gamma" Examples.promo_gap H3 Hn)
    as (model & _ & _ & Hgap & _).
  apply Hgap. vm_compute. reflexivity.
Defined.

(* ===================================================================== *)
(** * The sequence forecaster: when the iteration of a brand fails *)
(* ===================================================================== *)

(** The stacked matrix handed to [inverse_transform] has an infinite cell
    exactly when a first cell of [future_scaled] is infinite, the row
    repeated beside them holding none. *)
Lemma stacked_no_inf (future_scaled : matrix) (tail : list num) n :
  existsb isinf tail = false ->
  existsb (existsb isinf)
    (map (fun fr => nth 0 (fst fr) NaN :: snd fr)
         (combine future_scaled (repeat tail n)))
  = existsb isinf (map (fun row => nth 0 row NaN) (firstn n future_scaled)).
Proof.
  intros Ht. revert n.
  induction future_scaled as [|row t IH]; intros [|n]; try reflexivity.
  cbn [repeat combine map existsb firstn fst snd]. rewrite Ht, IH.
  now rewrite orb_false_r.
Qed.

Lemma last_no_inf (X : matrix) :
  existsb (existsb isinf) X = false -> existsb isinf (tl (last X [])) = false.
Proof.
  intros H.
  assert (Hl : existsb isinf (last X []) = false).
  { destruct X as [|r t]; [reflexivity|].
    destruct (existsb isinf (last (r :: t) [])) eqn:E; [|reflexivity].
    assert (G : existsb (existsb isinf) (r :: t) = true); [|congruence].
    apply existsb_exists. exists (last (r :: t) []). split; [|exact E].
    clear. generalize r. induction t as [|x t IH]; intros r0; [now left|].
    right. apply (IH x). }
  destruct (last X []) as [|x xs]; [reflexivity|].
  cbn [existsb] in Hl. apply orb_false_iff in Hl. exact (proj2 Hl).
Qed.

(** The outputs of the 30 passes of the rollout loop. *)
Definition rollout_outputs {Net : Type} (forward : Net -> matrix -> num)
    (model : Net) (scaled : matrix) : list num :=
  map (fun row => nth 0 row NaN)
      (Lstm.rs_future_scaled (Lstm.rollout forward model 30 scaled)).

(** The holdout of the samples, and the network trained on the rest. *)
Definition holdout_windows (scaled : matrix) : list matrix :=
  snd (split_80_20 (map fst (Lstm.samples scaled))).

Definition holdout_labels (scaled : matrix) : list num :=
  snd (split_80_20 (map snd (Lstm.samples scaled))).

Definition trained {Net : Type} (train_net : nat -> list matrix -> list num -> Net)
    (input_dim : nat) (scaled : matrix) : Net :=
  train_net input_dim
            (fst (split_80_20 (map fst (Lstm.samples scaled))))
            (fst (split_80_20 (map snd (Lstm.samples scaled)))).

(** A sales column of finite numbers is scaled to finite numbers. *)
Lemma scale_cell_finite a s m : exists v, scale_cell (Fin a) (Fin s, Fin m) = Fin v.
Proof. unfold scale_cell. cbn [fst snd nmul nadd]. eauto. Qed.

Lemma scaled_sales_finite X0 fitted :
  scaler_fit_transform X0 = Ok fitted ->
  Forall (fun row => isfinite (nth 0 row NaN) = true) X0 ->
  Forall (fun row => isfinite (nth 0 row NaN) = true) (snd fitted).
Proof.
  unfold scaler_fit_transform. intros H Hfin.
  bind_ok H sc Efit. bind_ok H scaled Etr. apply Ok_inj in H. subst fitted.
  cbn [snd]. unfold scaler_transform in Etr. bind_ok Etr u Ec.
  apply Ok_inj in Etr. subst scaled. destruct u.
  apply Forall_map. rewrite Forall_forall. intros row Hrow.
  rewrite Forall_forall in Hfin. pose proof (Hfin row Hrow) as Hx.
  destruct row as [|x xs]; [discriminate Hx|]. cbn [nth] in Hx.
  destruct x as [a| | |]; try discriminate Hx.
  assert (Hn : (0 < n_features X0)%nat).
  { destruct X0 as [|r0 t]; [contradiction|]. cbn [n_features].
    specialize (Hfin r0 (or_introl eq_refl)).
    destruct r0; [discriminate Hfin|cbn [List.length]; lia]. }
  destruct (scaler_fit_head X0 sc Efit Hn) as (rest & Hhead).
  rewrite transform_row_cells, Hhead. cbn [combine map nth fst snd].
  assert (Hin : In (Fin a) (mcolumn 0 X0)).
  { unfold mcolumn. apply in_map_iff. exists (Fin a :: xs). split; [reflexivity|exact Hrow]. }
  assert (Hinf : Forall no_inf (mcolumn 0 X0)).
  { apply mcolumn_no_inf. apply check_array_ok. exact Ec. }
  destruct (@column_params_finite (mcolumn 0 X0) a Hin Hinf) as (s & m & Es & Em & _).
  rewrite Es, Em. destruct (scale_cell_finite a s m) as (v & ->). reflexivity.
Qed.

Lemma sample_labels_finite scaled :
  Forall (fun row => isfinite (nth 0 row NaN) = true) scaled ->
  Forall (fun v => isfinite v = true) (map snd (Lstm.samples scaled)).
Proof.
  intros H. unfold Lstm.samples. rewrite map_map. apply Forall_map.
  rewrite Forall_forall. intros i Hi. apply in_seq in Hi. cbn [Lstm.sample snd].
  rewrite Forall_forall in H. apply H. apply nth_In. lia.
Qed.

Section SequenceFailure.
Variable Net : Type.
Variable train_net : nat -> list matrix -> list num -> Net.
Variable forward : Net -> matrix -> num.
Variable L : Metrics.

Lemma lstm_evaluate_cases model X_test y_test :
  Lstm.evaluate forward L model X_test y_test
  = if forallb isfinite y_test && forallb isfinite (map (forward model) X_test)
    then Ok (np_sqrt L (mean_squared_error_value L y_test (map (forward model) X_test)),
             nmul (mean_absolute_percentage_error_value L y_test
                     (map (forward model) X_test)) (Fin 100))
    else Raise (ValueError "Input contains NaN or infinity.").
Proof.
  unfold Lstm.evaluate, mean_squared_error, mean_absolute_percentage_error,
    check_finite_targets.
  destruct (forallb isfinite y_test && forallb isfinite (map (forward model) X_test));
    reflexivity.
Qed.

Lemma lstm_future_check brand brand_df X0 scaler scaled model :
  existsb (existsb isinf) X0 = false ->
  (existsb isinf (rollout_outputs forward model scaled) = true ->
   Lstm.forecast_future forward brand brand_df X0 scaler scaled model
   = Raise (ValueError "Input contains infinity or a value too large."))
  /\ (existsb isinf (rollout_outputs forward model scaled) = false ->
      exists f,
        Lstm.forecast_future forward brand brand_df X0 scaler scaled model = Ok f).
Proof.
  intros HX.
  pose proof (rollout_length Net forward model 30 scaled) as Hlen.
  pose proof (stacked_no_inf
                (Lstm.rs_future_scaled (Lstm.rollout forward model 30 scaled))
                (tl (last X0 [])) 30 (last_no_inf X0 HX)) as Hs.
  rewrite firstn_all2 in Hs by (rewrite Hlen; apply Nat.le_refl).
  unfold rollout_outputs. unfold Lstm.forecast_future, scaler_inverse_transform,
    check_array.
  rewrite Hs. split; intros H; rewrite H.
  - reflexivity.
  - cbn [bind]. eauto.
Qed.

End SequenceFailure.

(** X15. Where the iteration of a brand can fail in the sequence
    forecaster.  For a brand that passes the guards (at least 27 dates)
    and has no infinite feature value the scaler is fitted, and the labels
    of the holdout are finite if the daily sales totals of the brand are.
    The iteration then fails with the exception of the metrics exactly
    when a label or a prediction of the holdout is not finite, otherwise
    with the exception of the scaler's inverse transform exactly when one
    of the 30 outputs of the rollout is infinite (the raw features stacked
    beside the outputs never cause it); in the remaining case the brand
    is forecast, with the scores of the holdout. *)
Theorem X15_sequence_failure_points
    (Net : Type) (train_net : nat -> list matrix -> list num -> Net)
    (forward : Net -> matrix -> num) (L : Metrics)
    (cols : list string) (brand : string) (brand_rows : list Row) :
  let brand_df := Lstm.brand_frame cols brand_rows in
  let feats := Lstm.features (map fst (Lstm.agg_dict cols)) in
  let X0 := Lstm.feature_array feats brand_df in
  let run := Lstm.forecast_brand train_net forward L cols brand brand_rows in
  (27 <= List.length brand_df)%nat ->
  existsb (existsb isinf) X0 = false ->
  exists scaler scaled,
    scaler_fit_transform X0 = Ok (scaler, scaled)
    /\ (Forall (fun r => isfinite (get "Total_Sales" (vals r)) = true) brand_df ->
        forallb isfinite (holdout_labels scaled) = true)
    /\ (forallb isfinite (holdout_labels scaled)
        && forallb isfinite
             (map (forward (trained train_net (List.length feats) scaled))
                  (holdout_windows scaled)) = false ->
        run = Raise (ValueError "Input contains NaN or infinity."))
    /\ (forallb isfinite (holdout_labels scaled)
        && forallb isfinite
             (map (forward (trained train_net (List.length feats) scaled))
                  (holdout_windows scaled)) = true ->
        (existsb isinf
           (rollout_outputs forward (trained train_net (List.length feats) scaled)
                            scaled) = true ->
         run = Raise (ValueError "Input contains infinity or a value too large."))
        /\ (existsb isinf
              (rollout_outputs forward (trained train_net (List.length feats) scaled)
                               scaled) = false ->
            exists f,
              run = Ok (Produced
                     {| m_Brand := brand;
                        m_RMSE := np_sqrt L (mean_squared_error_value L
                                    (holdout_labels scaled)
                                    (map (forward (trained train_net (List.length feats)
                                                           scaled))
                                         (holdout_windows scaled)));
                        m_MAPE := nmul (mean_absolute_percentage_error_value L
                                    (holdout_labels scaled)
                                    (map (forward (trained train_net (List.length feats)
                                                           scaled))
                                         (holdout_windows scaled)))
                                    (Fin 100) |} f))).
Proof.
  intros brand_df feats X0 run Hn Hinf.
  destruct (fit_transform_accepts X0 Hinf) as ([scaler scaled] & E).
  exists scaler, scaled. split; [exact E|].
  pose proof (fit_transform_length X0 (scaler, scaled) E) as Hlen.
  cbn [snd] in Hlen.
  assert (HX0 : List.length X0 = List.length brand_df)
    by (unfold X0, Lstm.feature_array; apply length_map).
  assert (Hsamples : List.length (Lstm.samples scaled)
                     = (List.length brand_df - 7)%nat).
  { unfold Lstm.samples. rewrite length_map, length_seq, Hlen, HX0. reflexivity. }
  set (model := trained train_net (List.length feats) scaled).
  assert (Erun : run
                 = (scores <- Lstm.evaluate forward L model (holdout_windows scaled)
                                            (holdout_labels scaled) ;;
                    f <- Lstm.forecast_future forward brand brand_df X0 scaler scaled
                                              model ;;
                    Ok (Produced {| m_Brand := brand; m_RMSE := fst scores;
                                    m_MAPE := snd scores |} f))).
  { unfold run, Lstm.forecast_brand. fold brand_df. fold feats. fold X0.
    rewrite if_false_intro
      by (apply Nat.ltb_ge; unfold Lstm.seq_length; lia).
    eapply bind_intro; [exact E|]. cbn [fst snd].
    rewrite if_false_intro
      by (apply Nat.ltb_ge; rewrite length_map, Hsamples; lia).
    reflexivity. }
  pose proof (lstm_evaluate_cases Net forward L model (holdout_windows scaled)
                (holdout_labels scaled)) as Eev.
  destruct (lstm_future_check Net forward brand brand_df X0 scaler scaled model Hinf)
    as [Hbad Hgood].
  split; [|split].
  - intros Hsales. apply Forall_forallb. unfold holdout_labels.
    assert (Hall : Forall (fun v => isfinite v = true)
                          (map snd (Lstm.samples scaled))).
    { apply sample_labels_finite.
      apply (scaled_sales_finite X0 (scaler, scaled) E).
      unfold X0, Lstm.feature_array. apply Forall_map.
      eapply Forall_impl; [|exact Hsales]. intros r Hr. exact Hr. }
    destruct (split_80_20_spec (map snd (Lstm.samples scaled))) as [Happ _].
    rewrite <- Happ in Hall. apply Forall_app in Hall. exact (proj2 Hall).
  - intros Hc. rewrite Hc in Eev. rewrite Erun.
    apply bind_raise_intro. exact Eev.
  - intros Hc. rewrite Hc in Eev. split.
    + intros Hr. rewrite Erun. eapply bind_intro; [exact Eev|].
      apply bind_raise_intro. exact (Hbad Hr).
    + intros Hr. destruct (Hgood Hr) as (f & Ef). exists f. rewrite Erun.
      eapply bind_intro; [exact Eev|]. eapply bind_intro; [exact Ef|]. reflexivity.
Qed.

(** X15, witness: the brand of 30 days with the network that answers one
    half is forecast. *)
Lemma X15_sequence_failure_points_witness :
  (27 <= List.length (Lstm.brand_frame Examples.table_columns
                                       (Examples.daily "Alpha" 30)))%nat
  /\ existsb (existsb isinf)
       (Lstm.feature_array
          (Lstm.features (map fst (Lstm.agg_dict Examples.table_columns)))
          (Lstm.brand_frame Examples.table_columns (Examples.daily "Alpha" 30)))
     = false
  /\ exists m f,
       Lstm.forecast_brand Examples.train_double Examples.forward_double
         Examples.metrics_double Examples.table_columns "Alpha"
         (Examples.daily "Alpha" 30) = Ok (Produced m f).
Proof.
  assert (Hn : (27 <= List.length (Lstm.brand_frame Examples.table_columns
                                     (Examples.daily "Alpha" 30)))%nat)
    by (vm_compute; lia).
  assert (Hinf : existsb (existsb isinf)
                   (Lstm.feature_array
                      (Lstm.features (map fst (Lstm.agg_dict Examples.table_columns)))
                      (Lstm.brand_frame Examples.table_columns
                                        (Examples.daily "Alpha" 30))) = false)
    by (vm_compute; reflexivity).
  split; [exact Hn|]. split; [exact Hinf|].
  destruct (X15_sequence_failure_points unit Examples.train_double
              Examples.forward_double Examples.metrics_double
              Examples.table_columns "Alpha" (Examples.daily "Alpha" 30) Hn Hinf)
    as (scaler & scaled & E & _ & _ & Hok).
  vm_compute in E. apply Ok_inj in E. inversion E; subst scaler scaled.
  destruct Hok as [_ Hok]; [vm_compute; reflexivity|].
  destruct Hok as (f & Hf); [vm_compute; reflexivity|].
  eexists. exists f. exact Hf.
Defined.

(* ===================================================================== *)
(** * Infinite values through the pipeline *)
(* ===================================================================== *)

(** A column, a record, a raw frame and a processed frame without an
    infinite value. *)
Definition bounded_cells (r : record) : Prop := Forall (fun cv => no_inf (snd cv)) r.

Definition bounded_raw (df : list RawRow) : Prop :=
  Forall (fun r => bounded_cells (raw_cells r)) df.

Definition bounded_rows (df : list Row) : Prop :=
  Forall (fun r => bounded_cells (cells r)) df.

Lemma no_inf_cases x : no_inf x <-> (x = NaN \/ exists q, x = Fin q).
Proof.
  unfold no_inf. destruct x; simpl; split; intros H; try discriminate; eauto;
    destruct H as [H|(q & H)]; discriminate H.
Qed.

Lemma no_inf_finite x : isfinite x = true -> no_inf x.
Proof. destruct x; intros H; try discriminate H; reflexivity. Qed.

Lemma get_bounded c r : bounded_cells r -> no_inf (get c r).
Proof.
  unfold get, bounded_cells. induction 1 as [|[c' v] t Hv _ IH]; [reflexivity|].
  cbn [lookup]. destruct (String.eqb c c'); [exact Hv|exact IH].
Qed.

Lemma rcolumn_bounded c df :
  bounded_raw df -> Forall no_inf (Preprocessing.rcolumn c df).
Proof.
  intros H. unfold Preprocessing.rcolumn. apply Forall_map.
  eapply Forall_impl; [|exact H]. intros r Hr. now apply get_bounded.
Qed.

Lemma set_cell_bounded c v r :
  no_inf v -> bounded_cells r -> bounded_cells (set_cell c v r).
Proof.
  intros Hv Hr. unfold set_cell, bounded_cells. apply Forall_map.
  eapply Forall_impl; [|exact Hr]. intros [c' v'] H. cbn [fst snd] in *.
  destruct (String.eqb c' c); [exact Hv|exact H].
Qed.

Lemma assign_cell_bounded c v r :
  no_inf v -> bounded_cells r -> bounded_cells (Preprocessing.assign_cell c v r).
Proof.
  intros Hv Hr. unfold Preprocessing.assign_cell.
  destruct (lookup c r); [now apply set_cell_bounded|].
  apply Forall_app. split; [exact Hr|]. constructor; [exact Hv|constructor].
Qed.

Lemma assign_bounded c values df :
  Forall no_inf values -> bounded_raw df ->
  bounded_raw (Preprocessing.assign c values df).
Proof.
  intros Hv Hdf. unfold Preprocessing.assign, bounded_raw. apply Forall_map.
  rewrite Forall_forall. intros [r v] Hrv. cbn [fst snd Preprocessing.with_cells raw_cells].
  unfold bounded_raw in Hdf. rewrite Forall_forall in Hv, Hdf.
  apply assign_cell_bounded.
  - apply Hv. exact (in_combine_r _ _ _ _ Hrv).
  - apply (Hdf r). exact (in_combine_l _ _ _ _ Hrv).
Qed.

(** ** The statistics of a column without infinite values *)

Lemma col_sum_bounded xs : Forall no_inf xs -> no_inf (col_sum xs).
Proof. intros H. now rewrite (col_sum_no_inf xs H). Qed.

Lemma of_nat_nonzero n : (0 < n)%nat -> Qeq_bool (inject_Z (Z.of_nat n)) 0 = false.
Proof.
  intros H. apply Qeq_bool_false_of_neq. intros E.
  unfold Qeq, inject_Z in E. cbn [Qnum Qden] in E. lia.
Qed.

Lemma col_mean_bounded xs : Forall no_inf xs -> no_inf (col_mean xs).
Proof.
  intros H. unfold col_mean. pose proof (dropna_finite H) as Hfin.
  destruct (dropna xs) as [|y ys] eqn:E; [reflexivity|].
  destruct (fold_nadd_all_finite (y :: ys) 0 Hfin) as (q & ->).
  unfold ndiv, of_nat. rewrite of_nat_nonzero by (cbn [List.length]; lia).
  reflexivity.
Qed.

Lemma col_first_bounded xs : Forall no_inf xs -> no_inf (col_first xs).
Proof.
  intros H. unfold col_first. pose proof (dropna_finite H) as Hfin.
  destruct (dropna xs) as [|y ys]; [reflexivity|].
  inversion Hfin; subst. now apply no_inf_finite.
Qed.

Lemma apply_agg_bounded f xs : Forall no_inf xs -> no_inf (apply_agg f xs).
Proof.
  intros H. destruct f; cbn [apply_agg];
    [now apply col_sum_bounded|now apply col_mean_bounded|now apply col_first_bounded].
Qed.

Lemma median_bounded xs : Forall no_inf xs -> no_inf (Preprocessing.median xs).
Proof.
  intros H. destruct (existsb notnull xs) eqn:E.
  - apply existsb_exists in E. destruct (median_finite xs H E) as (m & ->). reflexivity.
  - rewrite median_all_missing; [reflexivity|].
    rewrite Forall_forall. intros x Hx.
    destruct (isnull x) eqn:Ex; [reflexivity|].
    assert (G : existsb notnull xs = true); [|congruence].
    apply existsb_exists. exists x. split; [exact Hx|]. unfold notnull. now rewrite Ex.
Qed.

Lemma fillna_bounded v xs :
  no_inf v -> Forall no_inf xs -> Forall no_inf (Preprocessing.fillna v xs).
Proof.
  intros Hv H. unfold Preprocessing.fillna. apply Forall_map.
  eapply Forall_impl; [|exact H]. intros x Hx. cbn beta.
  destruct (isnull x); assumption.
Qed.

Lemma fillna_with_bounded other xs :
  Forall no_inf other -> Forall no_inf xs ->
  Forall no_inf (Preprocessing.fillna_with other xs).
Proof.
  intros Ho Hx. unfold Preprocessing.fillna_with. apply Forall_map.
  rewrite Forall_forall in *. intros [x o] Hxo. cbn [fst snd].
  destruct (isnull x).
  - apply Ho. exact (in_combine_r _ _ _ _ Hxo).
  - apply Hx. exact (in_combine_l _ _ _ _ Hxo).
Qed.

(** ** The blocks of the preprocessing *)

Lemma fill_median_bounded c df :
  bounded_raw df -> bounded_raw (Preprocessing.fill_median c df).
Proof.
  intros H. unfold Preprocessing.fill_median. apply assign_bounded; [|exact H].
  apply fillna_bounded; [apply median_bounded|]; now apply rcolumn_bounded.
Qed.

Lemma fold_fill_median_bounded cs df :
  bounded_raw df ->
  bounded_raw (fold_left (fun acc c => Preprocessing.fill_median c acc) cs df).
Proof.
  revert df. induction cs as [|c t IH]; intros df H; [exact H|].
  cbn [fold_left]. apply IH. now apply fill_median_bounded.
Qed.

Lemma fill_missing_bounded cols df :
  bounded_raw df -> bounded_raw (Preprocessing.fill_missing cols df).
Proof.
  intros H. unfold Preprocessing.fill_missing.
  assert (G : bounded_raw
                (fold_left (fun acc c => Preprocessing.fill_median c acc)
                   (filter (has_column cols) Preprocessing.numeric_fill_cols)
                   (Preprocessing.fill_median "Quantity_Sold"
                      (Preprocessing.fill_median "Total_Sales"
                         (Preprocessing.fill_median "Online_Popularity" df))))).
  { apply fold_fill_median_bounded. now do 3 apply fill_median_bounded. }
  destruct (has_column cols "Is_Holiday"); [|exact G].
  apply assign_bounded; [|exact G].
  apply fillna_bounded; [reflexivity|]. now apply rcolumn_bounded.
Qed.

Lemma sort_values_bounded df :
  bounded_raw df -> bounded_raw (Preprocessing.sort_values df).
Proof.
  unfold bounded_raw. rewrite !Forall_forall. intros H r Hr.
  apply H. apply sort_values_In. exact Hr.
Qed.

Lemma label_encode_bounded values :
  Forall no_inf (Preprocessing.label_encode values).
Proof.
  unfold Preprocessing.label_encode. apply Forall_map.
  rewrite Forall_forall. intros v _. reflexivity.
Qed.

Lemma encode_bounded df : bounded_raw df -> bounded_raw (Preprocessing.encode df).
Proof.
  intros H. unfold Preprocessing.encode.
  repeat (apply assign_bounded; [apply label_encode_bounded|]). exact H.
Qed.

Lemma nth_bounded i xs : Forall no_inf xs -> no_inf (nth i xs NaN).
Proof.
  intros H. destruct (Nat.lt_ge_cases i (List.length xs)) as [Hi|Hi].
  - rewrite Forall_forall in H. apply H. now apply nth_In.
  - now rewrite nth_overflow.
Qed.

Lemma group_transform_bounded (f : list num -> list num) c df :
  (forall xs, Forall no_inf xs -> Forall no_inf (f xs)) ->
  bounded_raw df -> Forall no_inf (Preprocessing.group_transform f c df).
Proof.
  intros Hf H. unfold Preprocessing.group_transform. apply Forall_map.
  rewrite Forall_forall. intros [r p] _. cbn [fst snd].
  apply nth_bounded, Hf, rcolumn_bounded.
  unfold bounded_raw in *. rewrite Forall_forall in *. intros x Hx.
  apply filter_In in Hx. now apply H.
Qed.

Lemma removelast_bounded xs : Forall no_inf xs -> Forall no_inf (removelast xs).
Proof.
  intros H. rewrite Forall_forall in *. intros x Hx. apply H.
  revert Hx. clear. induction xs as [|a t IH]; [intros []|].
  destruct t as [|b t']; [intros []|]. intros [->|Hx]; [now left|right; now apply IH].
Qed.

Lemma shift1_bounded xs : Forall no_inf xs -> Forall no_inf (Preprocessing.shift1 xs).
Proof.
  intros H. unfold Preprocessing.shift1. destruct xs as [|x t]; [constructor|].
  constructor; [reflexivity|now apply removelast_bounded].
Qed.

Lemma rolling3_mean_bounded xs :
  Forall no_inf xs -> Forall no_inf (Preprocessing.rolling3_mean xs).
Proof.
  intros H. unfold Preprocessing.rolling3_mean. apply Forall_map.
  rewrite Forall_forall. intros i _. apply col_mean_bounded.
  rewrite Forall_forall in *. intros x Hx. apply H.
  apply In_skipn_incl in Hx. now apply In_firstn_incl in Hx.
Qed.

Lemma ffill_from_bounded prev xs :
  no_inf prev -> Forall no_inf xs -> Forall no_inf (ffill_from prev xs).
Proof.
  intros Hp H. revert prev Hp.
  induction H as [|x t Hx _ IH]; intros prev Hp; [constructor|].
  cbn [ffill_from]. destruct (isnull x); constructor; auto.
Qed.

Lemma ffill_bounded xs : Forall no_inf xs -> Forall no_inf (ffill xs).
Proof. intros H. unfold ffill. now apply ffill_from_bounded. Qed.

Lemma bfill_bounded xs : Forall no_inf xs -> Forall no_inf (Preprocessing.bfill xs).
Proof.
  intros H. unfold Preprocessing.bfill. apply Forall_rev, ffill_bounded, Forall_rev.
  exact H.
Qed.

Lemma engineer_bounded df : bounded_raw df -> bounded_raw (Preprocessing.engineer df).
Proof.
  intros H. unfold Preprocessing.engineer.
  assert (H1 : bounded_raw
                 (Preprocessing.assign "Sales_Lag_1"
                    (Preprocessing.group_transform Preprocessing.shift1 "Total_Sales" df)
                    df)).
  { apply assign_bounded; [|exact H].
    apply group_transform_bounded; [apply shift1_bounded|exact H]. }
  set (df1 := Preprocessing.assign "Sales_Lag_1" _ df) in *.
  assert (H2 : bounded_raw
                 (Preprocessing.assign "Sales_MA_3"
                    (Preprocessing.group_transform Preprocessing.rolling3_mean
                       "Total_Sales" df1) df1)).
  { apply assign_bounded; [|exact H1].
    apply group_transform_bounded; [apply rolling3_mean_bounded|exact H1]. }
  set (df2 := Preprocessing.assign "Sales_MA_3" _ df1) in *.
  assert (H3 : bounded_raw
                 (Preprocessing.assign "Sales_Lag_1"
                    (Preprocessing.group_transform
                       (fun x => Preprocessing.bfill (ffill x)) "Sales_Lag_1" df2) df2)).
  { apply assign_bounded; [|exact H2].
    apply group_transform_bounded; [|exact H2].
    intros xs Hxs. now apply bfill_bounded, ffill_bounded. }
  set (df3 := Preprocessing.assign "Sales_Lag_1" _ df2) in *.
  apply assign_bounded; [|exact H3].
  apply fillna_with_bounded; now apply rcolumn_bounded.
Qed.

Lemma nsub_bounded x y : no_inf x -> no_inf y -> no_inf (nsub x y).
Proof. destruct x, y; intros Hx Hy; try discriminate Hx; try discriminate Hy; reflexivity. Qed.

Lemma ndiv_bounded x d :
  no_inf x -> num_eqb d (Fin 0) = false -> no_inf (ndiv x d).
Proof.
  destruct x as [a| | |], d as [b| | |]; intros Hx Hd; try discriminate Hx;
    try reflexivity.
  unfold ndiv. cbn [num_eqb] in Hd. rewrite Hd. reflexivity.
Qed.

Section RootBounded.
Variable Qsqrt : Q -> Q.
Hypothesis Qsqrt_nonneg : forall q, (0 <= Qsqrt q)%Q.

Lemma zscore_bounded xs :
  Forall no_inf xs -> Forall no_inf (Preprocessing.zscore Qsqrt xs).
Proof.
  intros H. unfold Preprocessing.zscore. apply Forall_map.
  eapply Forall_impl; [|exact H]. intros x Hx. cbn beta.
  apply ndiv_bounded.
  - apply nsub_bounded; [exact Hx|now apply col_mean_bounded].
  - apply denominator_nonzero. exact Qsqrt_nonneg.
Qed.

Lemma normalize_bounded cols df :
  bounded_raw df -> bounded_raw (Preprocessing.normalize Qsqrt cols df).
Proof.
  intros H. unfold Preprocessing.normalize.
  generalize (filter (has_column cols) Preprocessing.numeric_cols_to_normalize).
  intros cs.
  assert (G : forall acc, bounded_raw acc ->
                bounded_raw
                  (fold_left
                     (fun acc c =>
                        Preprocessing.assign c
                          (Preprocessing.zscore Qsqrt (Preprocessing.rcolumn c df)) acc)
                     cs acc)).
  { induction cs as [|c t IH]; intros acc Hacc; [exact Hacc|].
    cbn [fold_left]. apply IH. apply assign_bounded; [|exact Hacc].
    apply zscore_bounded. now apply rcolumn_bounded. }
  now apply G.
Qed.

Lemma aggregate_bounded agg df :
  bounded_raw df -> bounded_rows (Preprocessing.aggregate agg df).
Proof.
  intros H. unfold Preprocessing.aggregate, bounded_rows. apply Forall_map.
  rewrite Forall_forall. intros [k g] Hg. cbn [cells fst snd].
  unfold bounded_cells. apply Forall_map. rewrite Forall_forall.
  intros [c f] _. cbn [fst snd]. apply apply_agg_bounded. apply Forall_map.
  rewrite Forall_forall. intros [r d] Hr. cbn [fst]. apply get_bounded.
  apply groupby_In in Hg; [|exact cmp_key_eq]. destruct Hg as [_ ->].
  apply filter_In in Hr.
  destruct Hr as [Hr _]. apply dated_rows in Hr.
  unfold bounded_raw in H. rewrite Forall_forall in H. now apply H.
Qed.

Lemma transform_bounded raw :
  bounded_raw (raw_rows raw) -> bounded_rows (rows (Preprocessing.transform Qsqrt raw)).
Proof.
  intros H. unfold Preprocessing.transform. cbn [rows].
  apply aggregate_bounded, normalize_bounded, engineer_bounded, encode_bounded,
    sort_values_bounded, fill_missing_bounded. exact H.
Qed.

End RootBounded.

(** ** What the forecasters find in a processed table without infinities *)

Lemma aggregate_by_date_bounded agg brand_rows :
  bounded_rows brand_rows ->
  Forall (fun r => bounded_cells (vals r)) (aggregate_by_date agg brand_rows).
Proof.
  intros H. unfold aggregate_by_date. apply Forall_map.
  rewrite Forall_forall. intros [d g] Hg. cbn [vals fst snd].
  unfold bounded_cells. apply Forall_map. rewrite Forall_forall.
  intros [c f] _. cbn [fst snd]. apply apply_agg_bounded. apply Forall_map.
  rewrite Forall_forall. intros r Hr. apply get_bounded.
  apply groupby_In in Hg; [|exact Z.compare_eq_iff]. destruct Hg as [_ ->].
  apply filter_In in Hr. destruct Hr as [Hr _].
  unfold bounded_rows in H. rewrite Forall_forall in H. now apply H.
Qed.

Lemma feature_array_bounded feats brand_df :
  Forall (fun r => bounded_cells (vals r)) brand_df ->
  existsb (existsb isinf) (Lstm.feature_array feats brand_df) = false.
Proof.
  intros H. unfold Lstm.feature_array. apply Forall_existsb_false.
  apply Forall_map. eapply Forall_impl; [|exact H]. intros r Hr. cbn beta.
  apply Forall_existsb_false. apply Forall_map. rewrite Forall_forall.
  intros c _. now apply get_bounded.
Qed.

Lemma groupby_brand_bounded df brand brand_rows :
  bounded_rows (rows df) -> In (brand, brand_rows) (groupby_brand df) ->
  bounded_rows brand_rows.
Proof.
  intros H Hg. rewrite (groupby_brand_In brand brand_rows df Hg).
  unfold bounded_rows in *. rewrite Forall_forall in *. intros r Hr.
  apply filter_In in Hr. now apply H.
Qed.

(** The target of the seasonal forecaster on a date is the sum of the
    sales of that date. *)
Lemma seasonal_target cols brand_rows r :
  In r (aggregate_by_date (Seasonal.agg_dict cols) brand_rows) ->
  exists g,
    get "y" (vals (Seasonal.select_rename
                     ("Total_Sales" :: "Online_Popularity"
                        :: Seasonal.used_regressors (map fst (Seasonal.agg_dict cols)))
                     r))
    = col_sum (map (fun x => get "Total_Sales" (cells x)) g)
    /\ incl g brand_rows.
Proof.
  unfold aggregate_by_date. intros H. apply in_map_iff in H.
  destruct H as ([d g] & <- & Hg). exists g. split.
  - generalize (Seasonal.used_regressors (map fst (Seasonal.agg_dict cols))).
    intros used. unfold Seasonal.select_rename, Seasonal.agg_dict.
    cbn [vals fst snd map]. reflexivity.
  - apply groupby_In in Hg; [|exact Z.compare_eq_iff]. destruct Hg as [_ ->].
    intros x Hx. apply filter_In in Hx. exact (proj1 Hx).
Qed.

Lemma replace_inf_row_bounded r :
  bounded_cells (vals r) -> Seasonal.replace_inf_row r = r.
Proof.
  intros H. unfold Seasonal.replace_inf_row. destruct r as [d v]. cbn [ds vals] in *.
  f_equal. rewrite <- (map_id v) at 2. apply map_ext_in. intros [c x] Hcx.
  cbn [fst snd]. unfold bounded_cells in H. rewrite Forall_forall in H.
  specialize (H _ Hcx). cbn [snd] in H. unfold Seasonal.replace_inf.
  unfold no_inf in H. now rewrite H.
Qed.

Lemma select_rename_bounded cs r :
  bounded_cells (vals r) -> bounded_cells (vals (Seasonal.select_rename cs r)).
Proof.
  intros H. unfold Seasonal.select_rename. cbn [vals]. unfold bounded_cells.
  apply Forall_map. rewrite Forall_forall. intros c _. cbn [snd].
  now apply get_bounded.
Qed.

Lemma prophet_frame_bounded cols brand_rows :
  bounded_rows brand_rows ->
  Seasonal.prophet_frame cols brand_rows
  = map (Seasonal.select_rename
           ("Total_Sales" :: "Online_Popularity"
              :: Seasonal.used_regressors (map fst (Seasonal.agg_dict cols))))
        (aggregate_by_date (Seasonal.agg_dict cols) brand_rows).
Proof.
  intros H. unfold Seasonal.prophet_frame, Seasonal.clean.
  rewrite filter_twice.
  set (frame := map _ (aggregate_by_date (Seasonal.agg_dict cols) brand_rows)).
  assert (Hb : Forall (fun r => bounded_cells (vals r)) frame).
  { unfold frame. apply Forall_map.
    eapply Forall_impl; [|exact (aggregate_by_date_bounded _ _ H)].
    intros r Hr. now apply select_rename_bounded. }
  assert (Hid : map Seasonal.replace_inf_row frame = frame).
  { rewrite <- (map_id frame) at 2. apply map_ext_in. intros r Hr.
    rewrite Forall_forall in Hb. now apply replace_inf_row_bounded, Hb. }
  rewrite Hid. apply forallb_filter_all. unfold frame. apply Forall_map.
  rewrite Forall_forall. intros r Hr. cbn beta.
  destruct (seasonal_target cols brand_rows r Hr) as (g & -> & Hg).
  rewrite col_sum_no_inf; [reflexivity|]. apply Forall_map.
  rewrite Forall_forall. intros x Hx. apply get_bounded.
  unfold bounded_rows in H. rewrite Forall_forall in H. now apply H, Hg.
Qed.



(* ===================================================================== *)
(** * Missing values through the pipeline *)
(* ===================================================================== *)

(** The columns whose missing values the preprocessing fills. *)
Definition filled_columns : list string :=
  "Online_Popularity" :: "Total_Sales" :: "Quantity_Sold"
  :: Preprocessing.numeric_fill_cols ++ [ "Is_Holiday" ].

(** A column all of whose cells are finite numbers, and a column that has
    a value at all. *)
Definition complete (xs : list num) : Prop := Forall (fun x => isfinite x = true) xs.

Definition has_value (xs : list num) : Prop := exists x, In x xs /\ notnull x = true.

Lemma complete_values xs : complete xs -> exists qs, xs = map Fin qs.
Proof.
  induction 1 as [|x t Hx _ (qs & ->)]; [now exists []|].
  destruct x as [q| | |]; try discriminate Hx. now exists (q :: qs).
Qed.

Lemma bounded_present x : no_inf x -> notnull x = true -> isfinite x = true.
Proof. destruct x; intros H1 H2; try discriminate H1; try discriminate H2; reflexivity. Qed.

Lemma fillna_complete v xs :
  isfinite v = true -> Forall no_inf xs -> complete (Preprocessing.fillna v xs).
Proof.
  intros Hv H. unfold Preprocessing.fillna, complete. apply Forall_map.
  eapply Forall_impl; [|exact H]. intros x Hx. cbn beta.
  destruct (isnull x) eqn:E; [exact Hv|].
  apply bounded_present; [exact Hx|]. unfold notnull. now rewrite E.
Qed.

Lemma fillna_of_complete v xs : complete xs -> Preprocessing.fillna v xs = xs.
Proof.
  intros H. unfold Preprocessing.fillna. rewrite <- (map_id xs) at 2.
  apply map_ext_in. intros x Hx. unfold complete in H. rewrite Forall_forall in H.
  specialize (H x Hx). destruct x; try discriminate H. reflexivity.
Qed.

Lemma fill_median_values_length c df :
  List.length (Preprocessing.fillna (Preprocessing.median (Preprocessing.rcolumn c df))
                                    (Preprocessing.rcolumn c df))
  = List.length df.
Proof. now rewrite fillna_length, rcolumn_length. Qed.

Lemma fill_median_other c c' df :
  c' <> c ->
  Preprocessing.rcolumn c (Preprocessing.fill_median c' df) = Preprocessing.rcolumn c df.
Proof.
  intros Hne. unfold Preprocessing.fill_median.
  apply rcolumn_assign_other; [exact Hne|apply fill_median_values_length].
Qed.

Lemma fill_median_completes c df :
  bounded_raw df -> has_value (Preprocessing.rcolumn c df) ->
  complete (Preprocessing.rcolumn c (Preprocessing.fill_median c df)).
Proof.
  intros Hb Hv. rewrite fill_median_column.
  pose proof (rcolumn_bounded c df Hb) as Hcol.
  destruct (median_finite _ Hcol Hv) as (m & ->).
  now apply fillna_complete.
Qed.

Lemma fill_median_keeps_complete c c' df :
  complete (Preprocessing.rcolumn c df) ->
  complete (Preprocessing.rcolumn c (Preprocessing.fill_median c' df)).
Proof.
  intros H. destruct (string_dec c' c) as [->|Hne].
  - rewrite fill_median_column, fillna_of_complete; exact H.
  - now rewrite fill_median_other.
Qed.

Lemma fold_fill_median_complete c cs df :
  bounded_raw df ->
  complete (Preprocessing.rcolumn c df)
  \/ (has_value (Preprocessing.rcolumn c df) /\ In c cs) ->
  complete (Preprocessing.rcolumn c
              (fold_left (fun acc c0 => Preprocessing.fill_median c0 acc) cs df)).
Proof.
  revert df. induction cs as [|c' t IH]; intros df Hb H.
  - destruct H as [H|[_ []]]. exact H.
  - cbn [fold_left]. apply IH; [now apply fill_median_bounded|].
    destruct H as [H|[Hv Hin]]; [left; now apply fill_median_keeps_complete|].
    destruct (string_dec c' c) as [->|Hne].
    + left. now apply fill_median_completes.
    + right. rewrite fill_median_other by exact Hne.
      split; [exact Hv|]. destruct Hin as [E|Hin]; [contradiction|exact Hin].
Qed.

Lemma fill_missing_fold cols df :
  Preprocessing.fill_missing cols df
  = (let filled :=
       fold_left (fun acc c0 => Preprocessing.fill_median c0 acc)
         ("Online_Popularity" :: "Total_Sales" :: "Quantity_Sold"
            :: filter (has_column cols) Preprocessing.numeric_fill_cols) df in
     if has_column cols "Is_Holiday"
     then Preprocessing.assign "Is_Holiday"
            (Preprocessing.fillna (Fin 0) (Preprocessing.rcolumn "Is_Holiday" filled))
            filled
     else filled).
Proof. reflexivity. Qed.

Lemma fill_missing_complete cols df c :
  bounded_raw df -> In c filled_columns -> has_column cols c = true ->
  c = "Is_Holiday" \/ has_value (Preprocessing.rcolumn c df) ->
  complete (Preprocessing.rcolumn c (Preprocessing.fill_missing cols df)).
Proof.
  intros Hb Hin Hc Hv. rewrite fill_missing_fold. cbv zeta.
  set (cs := "Online_Popularity" :: "Total_Sales" :: "Quantity_Sold"
               :: filter (has_column cols) Preprocessing.numeric_fill_cols).
  pose proof (fold_fill_median_bounded cs df Hb) as Hfb.
  destruct (string_dec c "Is_Holiday") as [->|Hne].
  - rewrite Hc. rewrite rcolumn_assign_same
      by (now rewrite fillna_length, rcolumn_length).
    apply fillna_complete; [reflexivity|now apply rcolumn_bounded].
  - destruct Hv as [E|Hv]; [contradiction|].
    assert (Hcs : In c cs).
    { unfold filled_columns in Hin. unfold cs.
      destruct Hin as [<-|[<-|[<-|Hin]]];
        [now left|right; now left|right; right; now left|].
      do 3 right. apply in_app_or in Hin.
      destruct Hin as [Hin|[E|[]]]; [|congruence].
      apply filter_In. now split. }
    assert (G : complete (Preprocessing.rcolumn c
                  (fold_left (fun acc c0 => Preprocessing.fill_median c0 acc) cs df)))
      by (apply fold_fill_median_complete; [exact Hb|right; now split]).
    destruct (has_column cols "Is_Holiday"); [|exact G].
    rewrite rcolumn_assign_other;
      [exact G|congruence|now rewrite fillna_length, rcolumn_length].
Qed.

Lemma assign_keeps_complete c c' values df :
  c' <> c -> complete (Preprocessing.rcolumn c df) ->
  complete (Preprocessing.rcolumn c (Preprocessing.assign c' values df)).
Proof.
  intros Hne H. unfold complete, Preprocessing.rcolumn, Preprocessing.assign in *.
  rewrite map_map. apply Forall_map. rewrite Forall_forall. intros [r v] Hrv.
  cbn [fst snd Preprocessing.with_cells raw_cells].
  rewrite get_assign_cell_other by exact Hne.
  apply Forall_map in H. rewrite Forall_forall in H. apply H.
  exact (in_combine_l _ _ _ _ Hrv).
Qed.

Lemma sort_values_complete c df :
  complete (Preprocessing.rcolumn c df) ->
  complete (Preprocessing.rcolumn c (Preprocessing.sort_values df)).
Proof.
  unfold complete, Preprocessing.rcolumn. intros H. apply Forall_map.
  apply Forall_map in H. rewrite Forall_forall in *. intros r Hr.
  apply H. apply sort_values_In. exact Hr.
Qed.

Lemma filled_not_added c :
  In c filled_columns -> ~ In c Preprocessing.added_columns.
Proof.
  intros H Ha. unfold filled_columns, Preprocessing.numeric_fill_cols in H.
  cbn [app In] in H.
  repeat (destruct H as [<-|H];
          [cbn [Preprocessing.added_columns In] in Ha;
           repeat (destruct Ha as [Ha|Ha]; [discriminate Ha|]); exact Ha|]).
  exact H.
Qed.

Lemma encode_complete c df :
  ~ In c Preprocessing.added_columns ->
  complete (Preprocessing.rcolumn c df) ->
  complete (Preprocessing.rcolumn c (Preprocessing.encode df)).
Proof.
  intros Hc H. unfold Preprocessing.encode.
  repeat (apply assign_keeps_complete;
          [intros <-; apply Hc; cbn [Preprocessing.added_columns In]; tauto|]).
  exact H.
Qed.

Lemma engineer_complete c df :
  ~ In c Preprocessing.added_columns ->
  complete (Preprocessing.rcolumn c df) ->
  complete (Preprocessing.rcolumn c (Preprocessing.engineer df)).
Proof.
  intros Hc H. unfold Preprocessing.engineer.
  repeat (apply assign_keeps_complete;
          [intros <-; apply Hc; cbn [Preprocessing.added_columns In]; tauto|]).
  exact H.
Qed.

Lemma sort_values_length df :
  List.length (Preprocessing.sort_values df) = List.length df.
Proof.
  unfold Preprocessing.sort_values. induction df as [|r t IH]; [reflexivity|].
  cbn [fold_right]. rewrite (Permutation_length (insert_row_Permutation r _)).
  cbn [List.length]. now rewrite IH.
Qed.

Lemma same_keys_length (df df' : list RawRow) :
  map raw_key df = map raw_key df' -> List.length df = List.length df'.
Proof. intros E. now rewrite <- (length_map raw_key df), E, length_map. Qed.

Lemma apply_agg_complete f xs :
  xs <> [] -> complete xs -> isfinite (apply_agg f xs) = true.
Proof.
  intros Hne H. destruct (complete_values xs H) as (qs & ->).
  assert (Hq : qs <> []) by (intros ->; now apply Hne).
  destruct f; cbn [apply_agg].
  - unfold col_sum. rewrite dropna_all_finite, fold_nadd_finite. reflexivity.
  - rewrite col_mean_finite by exact Hq. reflexivity.
  - unfold col_first. rewrite dropna_all_finite.
    destruct qs; [congruence|reflexivity].
Qed.

Section RootComplete.
Variable Qsqrt : Q -> Q.
Hypothesis Qsqrt_nonneg : forall q, (0 <= Qsqrt q)%Q.

Lemma normalize_complete cols df c :
  (2 <= List.length df)%nat ->
  complete (Preprocessing.rcolumn c df) ->
  complete (Preprocessing.rcolumn c (Preprocessing.normalize Qsqrt cols df)).
Proof.
  intros Hlen H.
  destruct (in_dec string_dec c Preprocessing.numeric_cols_to_normalize) as [Hin|Hout];
    [destruct (has_column cols c) eqn:Hc|].
  - rewrite (normalize_selected Qsqrt cols df c Hin Hc).
    destruct (complete_values _ H) as (qs & E). rewrite E.
    assert (Hq : (2 <= List.length qs)%nat).
    { rewrite <- (length_map Fin qs), <- E, rcolumn_length. exact Hlen. }
    rewrite (zscore_finite Qsqrt Qsqrt_nonneg qs Hq).
    unfold complete. apply Forall_map. rewrite Forall_forall. reflexivity.
  - rewrite normalize_others by (now right). exact H.
  - rewrite normalize_others by (now left). exact H.
Qed.

Lemma aggregate_complete agg df c f :
  NoDup (map fst agg) -> In (c, f) agg ->
  complete (Preprocessing.rcolumn c df) ->
  Forall (fun r => isfinite (get c (cells r)) = true) (Preprocessing.aggregate agg df).
Proof.
  intros Hnd Hin H. unfold Preprocessing.aggregate. apply Forall_map.
  rewrite Forall_forall. intros [k g] Hg. cbn [cells fst snd].
  rewrite (get_agg_cell
             (fun ca => apply_agg (snd ca)
                          (map (fun r => get (fst ca) (raw_cells (fst r))) g))
             c f agg Hnd Hin).
  cbn [fst snd]. apply apply_agg_complete.
  - intros E. apply map_eq_nil in E. revert E.
    eapply groupby_group_nonempty; [exact cmp_key_eq|exact Hg].
  - unfold complete. apply Forall_map. rewrite Forall_forall. intros [r d] Hr.
    cbn [fst]. apply groupby_In in Hg; [|exact cmp_key_eq]. destruct Hg as [_ ->].
    apply filter_In in Hr. destruct Hr as [Hr _]. apply dated_rows in Hr.
    unfold complete, Preprocessing.rcolumn in H. apply Forall_map in H.
    rewrite Forall_forall in H. now apply H.
Qed.

End RootComplete.

Lemma filled_in_agg c :
  In c filled_columns -> exists f, In (c, f) Preprocessing.agg_dict.
Proof.
  intros H. unfold filled_columns, Preprocessing.numeric_fill_cols in H.
  cbn [app In] in H.
  repeat (destruct H as [<-|H];
          [eexists; unfold Preprocessing.agg_dict;
           repeat (first [left; reflexivity | right])|]).
  contradiction.
Qed.

Lemma has_column_In cols c : has_column cols c = true <-> In c cols.
Proof.
  unfold has_column. rewrite existsb_exists. split.
  - intros (x & Hx & E). apply String.eqb_eq in E. now subst.
  - intros H. exists c. split; [exact H|apply String.eqb_refl].
Qed.

Lemma has_column_app cols more c :
  has_column cols c = true -> has_column (cols ++ more) c = true.
Proof. rewrite !has_column_In. intros H. apply in_or_app. now left. Qed.

Section RootPipeline.
Variable Qsqrt : Q -> Q.
Hypothesis Qsqrt_nonneg : forall q, (0 <= Qsqrt q)%Q.

Lemma transform_columns raw c :
  In c filled_columns -> has_column (raw_columns raw) c = true ->
  has_column (columns (Preprocessing.transform Qsqrt raw)) c = true.
Proof.
  intros Hin Hc. unfold Preprocessing.transform. cbn [columns].
  destruct (filled_in_agg c Hin) as (f & Hf).
  apply has_column_In. apply in_map_iff. exists (c, f). split; [reflexivity|].
  apply filter_In. split; [exact Hf|]. cbn [fst]. now apply has_column_app.
Qed.

Lemma transform_complete raw c :
  bounded_raw (raw_rows raw) ->
  (2 <= List.length (raw_rows raw))%nat ->
  has_column (raw_columns raw) c = true ->
  In c filled_columns ->
  c = "Is_Holiday" \/ has_value (Preprocessing.rcolumn c (raw_rows raw)) ->
  Forall (fun r => isfinite (get c (cells r)) = true)
         (rows (Preprocessing.transform Qsqrt raw)).
Proof.
  intros Hb Hlen Hc Hin Hv. unfold Preprocessing.transform. cbn [rows].
  destruct (filled_in_agg c Hin) as (f & Hf).
  pose proof (filled_not_added c Hin) as Hna.
  apply (aggregate_complete _ _ c f).
  - apply agg_dict_names_NoDup.
  - apply filter_In. split; [exact Hf|]. cbn [fst]. now apply has_column_app.
  - apply (normalize_complete Qsqrt Qsqrt_nonneg).
    + rewrite (same_keys_length _ _ (engineer_keys _)).
      rewrite (same_keys_length _ _ (encode_keys _)).
      rewrite sort_values_length.
      rewrite (same_keys_length _ _ (fill_missing_keys _ _)). exact Hlen.
    + apply engineer_complete; [exact Hna|].
      apply encode_complete; [exact Hna|].
      apply sort_values_complete.
      now apply fill_missing_complete.
Qed.

End RootPipeline.

(** ** The frames of the forecasters *)

Lemma aggregate_by_date_complete agg brand_rows c f :
  NoDup (map fst agg) -> In (c, f) agg ->
  Forall (fun r => isfinite (get c (cells r)) = true) brand_rows ->
  Forall (fun r => isfinite (get c (vals r)) = true) (aggregate_by_date agg brand_rows).
Proof.
  intros Hnd Hin H. unfold aggregate_by_date. apply Forall_map.
  rewrite Forall_forall. intros [d g] Hg. cbn [vals fst snd].
  rewrite (get_agg_cell
             (fun ca => apply_agg (snd ca) (map (fun r => get (fst ca) (cells r)) g))
             c f agg Hnd Hin).
  cbn [fst snd]. apply apply_agg_complete.
  - intros E. apply map_eq_nil in E. revert E.
    eapply groupby_group_nonempty; [exact Z.compare_eq_iff|exact Hg].
  - unfold complete. apply Forall_map. rewrite Forall_forall. intros r Hr.
    apply groupby_In in Hg; [|exact Z.compare_eq_iff]. destruct Hg as [_ ->].
    apply filter_In in Hr. destruct Hr as [Hr _].
    rewrite Forall_forall in H. now apply H.
Qed.

(** The aggregation dictionaries of the two forecasters have the same
    shape: the sales, the popularity, and the covariates that exist. *)
Definition forecaster_agg (p : string -> bool) (extras : list string)
  : list (string * aggfn) :=
  ("Total_Sales", agg_sum) :: ("Online_Popularity", agg_mean)
  :: map (fun reg => (reg, agg_mean)) (filter p extras).

Lemma forecaster_agg_NoDup p extras :
  NoDup extras -> ~ In "Total_Sales" extras -> ~ In "Online_Popularity" extras ->
  NoDup ("Total_Sales" :: "Online_Popularity" :: filter p extras).
Proof.
  intros Hnd Hs Hp.
  assert (Hf : forall x, In x (filter p extras) -> In x extras)
    by (intros x Hx; apply filter_In in Hx; tauto).
  constructor; [|constructor; [|now apply NoDup_filter]].
  - intros [E|H]; [discriminate E|]. apply Hs. now apply Hf.
  - intros H. apply Hp. now apply Hf.
Qed.

Lemma forecaster_agg_In p extras c :
  c = "Total_Sales" \/ c = "Online_Popularity" \/ (In c extras /\ p c = true) ->
  exists f, In (c, f) (forecaster_agg p extras).
Proof.
  unfold forecaster_agg. intros [->|[->|[Hin Hp]]].
  - eexists. left. reflexivity.
  - eexists. right. left. reflexivity.
  - exists agg_mean. right. right. apply in_map_iff. exists c. split; [reflexivity|].
    apply filter_In. now split.
Qed.

Lemma forecaster_agg_names p extras :
  map fst (forecaster_agg p extras)
  = "Total_Sales" :: "Online_Popularity" :: filter p extras.
Proof.
  unfold forecaster_agg. cbn [map fst]. rewrite map_map. cbn [fst].
  now rewrite map_id.
Qed.

Lemma lstm_agg_dict_shape cols :
  Lstm.agg_dict cols = forecaster_agg (has_column cols) Lstm.extra_regressors.
Proof. reflexivity. Qed.

Lemma seasonal_agg_dict_shape cols :
  Seasonal.agg_dict cols = forecaster_agg (has_column cols) Seasonal.extra_regressors.
Proof. reflexivity. Qed.

Lemma lstm_extras_facts :
  NoDup Lstm.extra_regressors
  /\ ~ In "Total_Sales" Lstm.extra_regressors
  /\ ~ In "Online_Popularity" Lstm.extra_regressors.
Proof.
  unfold Lstm.extra_regressors. split; [|split].
  - repeat (constructor;
            [cbn [In]; intros H;
             repeat (destruct H as [H|H]; [discriminate H|]); exact H|]).
    constructor.
  - cbn [In]. intros H. repeat (destruct H as [H|H]; [discriminate H|]). exact H.
  - cbn [In]. intros H. repeat (destruct H as [H|H]; [discriminate H|]). exact H.
Qed.

Lemma seasonal_extras_facts :
  NoDup Seasonal.extra_regressors
  /\ ~ In "Total_Sales" Seasonal.extra_regressors
  /\ ~ In "Online_Popularity" Seasonal.extra_regressors.
Proof.
  unfold Seasonal.extra_regressors. split; [|split].
  - repeat (constructor;
            [cbn [In]; intros H;
             repeat (destruct H as [H|H]; [discriminate H|]); exact H|]).
    constructor.
  - cbn [In]. intros H. repeat (destruct H as [H|H]; [discriminate H|]). exact H.
  - cbn [In]. intros H. repeat (destruct H as [H|H]; [discriminate H|]). exact H.
Qed.

(** The filled columns that the forecasters read. *)
Lemma filled_is_feature c :
  In c filled_columns -> c <> "Quantity_Sold" ->
  c = "Total_Sales" \/ c = "Online_Popularity"
  \/ (In c Lstm.extra_regressors /\ In c Seasonal.extra_regressors).
Proof.
  intros H Hq. unfold filled_columns, Preprocessing.numeric_fill_cols in H.
  cbn [app In] in H.
  destruct H as [<-|[<-|[<-|H]]]; [now right; left|now left|congruence|].
  right. right.
  repeat (destruct H as [<-|H];
          [split; [unfold Lstm.extra_regressors|unfold Seasonal.extra_regressors];
           cbn [In]; tauto|]).
  contradiction.
Qed.

Lemma frame_complete (p : string -> bool) extras brand_rows c :
  NoDup extras -> ~ In "Total_Sales" extras -> ~ In "Online_Popularity" extras ->
  c = "Total_Sales" \/ c = "Online_Popularity" \/ (In c extras /\ p c = true) ->
  Forall (fun r => isfinite (get c (cells r)) = true) brand_rows ->
  Forall (fun r => isfinite (get c (vals r)) = true)
         (aggregate_by_date (forecaster_agg p extras) brand_rows).
Proof.
  intros Hnd Hs Hp Hc H. destruct (forecaster_agg_In p extras c Hc) as (f & Hf).
  apply (aggregate_by_date_complete _ _ c f);
    [rewrite forecaster_agg_names; now apply forecaster_agg_NoDup|exact Hf|exact H].
Qed.

Lemma seasonal_extras_plain u :
  In u Seasonal.extra_regressors -> u <> "y" /\ u <> "Trend_Score".
Proof.
  unfold Seasonal.extra_regressors. cbn [In]. intros H.
  repeat (destruct H as [<-|H]; [split; discriminate|]). contradiction.
Qed.

Lemma rename_injective used c c' :
  (forall u, In u used -> In u Seasonal.extra_regressors) ->
  In c ("Total_Sales" :: "Online_Popularity" :: used) ->
  In c' ("Total_Sales" :: "Online_Popularity" :: used) ->
  Seasonal.rename c' = Seasonal.rename c -> c' = c.
Proof.
  intros Hu Hc Hc'.
  assert (Hr : forall x, In x ("Total_Sales" :: "Online_Popularity" :: used) ->
                 (x = "Total_Sales" /\ Seasonal.rename x = "y")
                 \/ (x = "Online_Popularity" /\ Seasonal.rename x = "Trend_Score")
                 \/ (Seasonal.rename x = x /\ x <> "y" /\ x <> "Trend_Score")).
  { intros x [<-|[<-|Hx]]; [left; now split|right; left; now split|].
    right. right. split; [apply rename_regressor; now apply Hu|].
    apply seasonal_extras_plain. now apply Hu. }
  destruct (Hr c Hc) as [[-> E]|[[-> E]|(E & Hy & Ht)]];
    destruct (Hr c' Hc') as [[-> E']|[[-> E']|(E' & Hy' & Ht')]];
    try rewrite E; try rewrite E'; intros G; try reflexivity; try discriminate G;
    congruence.
Qed.

Lemma get_select_rename c cs r :
  In c cs ->
  (forall c', In c' cs -> Seasonal.rename c' = Seasonal.rename c -> c' = c) ->
  get (Seasonal.rename c) (vals (Seasonal.select_rename cs r)) = get c (vals r).
Proof.
  unfold Seasonal.select_rename. cbn [vals]. unfold get at 1.
  induction cs as [|c' t IH]; intros Hin Hinj; [contradiction|].
  cbn [map lookup].
  destruct (String.eqb_spec (Seasonal.rename c) (Seasonal.rename c')) as [E|Hne].
  - rewrite (Hinj c' (or_introl eq_refl) (eq_sym E)). reflexivity.
  - apply IH.
    + destruct Hin as [->|Hin]; [congruence|exact Hin].
    + intros x Hx. apply Hinj. now right.
Qed.

Lemma select_rename_complete used (frame : list DatedRow) c :
  (forall u, In u used -> In u Seasonal.extra_regressors) ->
  In c ("Total_Sales" :: "Online_Popularity" :: used) ->
  Forall (fun r => isfinite (get c (vals r)) = true) frame ->
  Forall (fun r => isfinite (get (Seasonal.rename c) (vals r)) = true)
         (map (Seasonal.select_rename ("Total_Sales" :: "Online_Popularity" :: used))
              frame).
Proof.
  intros Hused Hin Hframe. apply Forall_map.
  eapply Forall_impl; [|exact Hframe]. intros r Hr. cbn beta.
  rewrite get_select_rename; [exact Hr|exact Hin|].
  intros c' Hc'. now apply (rename_injective used).
Qed.

Lemma used_regressors_extras l u :
  In u (Seasonal.used_regressors l) -> In u Seasonal.extra_regressors.
Proof.
  unfold Seasonal.used_regressors. intros Hu. apply filter_In in Hu. exact (proj1 Hu).
Qed.

Lemma used_regressors_present cols c :
  In c Seasonal.extra_regressors -> has_column cols c = true ->
  In c (Seasonal.used_regressors (map fst (Seasonal.agg_dict cols))).
Proof.
  intros Hi Hh. unfold Seasonal.used_regressors. apply filter_In.
  split; [exact Hi|]. apply has_column_In.
  rewrite seasonal_agg_dict_shape, forecaster_agg_names.
  right. right. apply filter_In. split; [exact Hi|exact Hh].
Qed.

Lemma feature_listed (l : list string) c :
  c = "Total_Sales" \/ c = "Online_Popularity" \/ In c l ->
  In c ("Total_Sales" :: "Online_Popularity" :: l).
Proof.
  intros [->|[->|Hi]]; [left; reflexivity|right; left; reflexivity|].
  right. right. exact Hi.
Qed.

Lemma seasonal_feature_used cols c :
  c = "Total_Sales" \/ c = "Online_Popularity"
  \/ (In c Seasonal.extra_regressors /\ has_column cols c = true) ->
  In c ("Total_Sales" :: "Online_Popularity"
          :: Seasonal.used_regressors (map fst (Seasonal.agg_dict cols))).
Proof.
  intros H. apply feature_listed.
  destruct H as [H|[H|[H1 H2]]]; [now left|right; now left|].
  right. right. now apply used_regressors_present.
Qed.

Lemma prophet_frame_complete cols brand_rows c :
  bounded_rows brand_rows ->
  c = "Total_Sales" \/ c = "Online_Popularity"
  \/ (In c Seasonal.extra_regressors /\ has_column cols c = true) ->
  Forall (fun r => isfinite (get c (cells r)) = true) brand_rows ->
  Forall (fun r => isfinite (get (Seasonal.rename c) (vals r)) = true)
         (Seasonal.prophet_frame cols brand_rows).
Proof.
  intros Hb Hc H. rewrite (prophet_frame_bounded cols brand_rows Hb).
  apply select_rename_complete.
  - apply used_regressors_extras.
  - apply seasonal_feature_used. exact Hc.
  - rewrite seasonal_agg_dict_shape.
    destruct seasonal_extras_facts as (Hnd & Hs & Hp).
    apply frame_complete; assumption.
Qed.



(* ===================================================================== *)
(** * The sequence forecaster: the range of the scaled features *)
(* ===================================================================== *)

Local Open Scope Q_scope.

(** A scaled cell: missing, or a number between 0 and 1. *)
Definition in_unit_interval (v : num) : Prop :=
  v = NaN \/ exists q, v = Fin q /\ 0 <= q /\ q <= 1.

Lemma nmin_Fin a b : exists m, nmin (Fin a) (Fin b) = Fin m /\ m <= a /\ m <= b.
Proof.
  unfold nmin. cbn [num_leb]. destruct (Qle_bool a b) eqn:E.
  - exists a. split; [reflexivity|]. split; [apply Qle_refl|now apply Qle_bool_iff].
  - exists b. split; [reflexivity|]. split; [|apply Qle_refl].
    apply Qlt_le_weak, Qnot_le_lt. intros H. apply Qle_bool_iff in H. congruence.
Qed.

Lemma nmax_Fin a b : exists m, nmax (Fin a) (Fin b) = Fin m /\ a <= m /\ b <= m.
Proof.
  unfold nmax. cbn [num_leb]. destruct (Qle_bool a b) eqn:E.
  - exists b. split; [reflexivity|]. split; [now apply Qle_bool_iff|apply Qle_refl].
  - exists a. split; [reflexivity|]. split; [apply Qle_refl|].
    apply Qlt_le_weak, Qnot_le_lt. intros H. apply Qle_bool_iff in H. congruence.
Qed.

Lemma fold_nmin_bound qs : forall q0,
  exists m, fold_left nmin (map Fin qs) (Fin q0) = Fin m
            /\ m <= q0 /\ Forall (fun q => m <= q) qs.
Proof.
  induction qs as [|q t IH]; intros q0; cbn [map fold_left].
  - exists q0. split; [reflexivity|]. split; [apply Qle_refl|constructor].
  - destruct (nmin_Fin q0 q) as (m0 & -> & H0 & Hq).
    destruct (IH m0) as (m & -> & Hm & Ht). exists m. split; [reflexivity|].
    split; [now apply Qle_trans with m0|].
    constructor; [now apply Qle_trans with m0|exact Ht].
Qed.

Lemma fold_nmax_bound qs : forall q0,
  exists m, fold_left nmax (map Fin qs) (Fin q0) = Fin m
            /\ q0 <= m /\ Forall (fun q => q <= m) qs.
Proof.
  induction qs as [|q t IH]; intros q0; cbn [map fold_left].
  - exists q0. split; [reflexivity|]. split; [apply Qle_refl|constructor].
  - destruct (nmax_Fin q0 q) as (m0 & -> & H0 & Hq).
    destruct (IH m0) as (m & -> & Hm & Ht). exists m. split; [reflexivity|].
    split; [now apply Qle_trans with m0|].
    constructor; [now apply Qle_trans with m0|exact Ht].
Qed.

Lemma qvals_In a col : In (Fin a) col -> In a (qvals col).
Proof.
  intros H. rewrite <- (map_id col), qvals_map. apply in_flat_map.
  exists (Fin a). split; [exact H|now left].
Qed.

(** The observed minimum and maximum of a column bound its values. *)
Lemma nan_stats_bound col a :
  In (Fin a) col -> Forall no_inf col ->
  exists mn mx, nanmin col = Fin mn /\ nanmax col = Fin mx /\ mn <= a /\ a <= mx.
Proof.
  intros Hin Hall. pose proof (qvals_In a col Hin) as Hq.
  unfold nanmin, nanmax. rewrite (dropna_qvals col Hall).
  destruct (qvals col) as [|q0 qs]; [contradiction|]. cbn [map].
  destruct (fold_nmin_bound qs q0) as (mn & -> & Hmn0 & Hmn).
  destruct (fold_nmax_bound qs q0) as (mx & -> & Hmx0 & Hmx).
  exists mn, mx. split; [reflexivity|]. split; [reflexivity|].
  rewrite Forall_forall in Hmn, Hmx.
  destruct Hq as [<-|Hq]; [now split|]. split; [now apply Hmn|now apply Hmx].
Qed.

Lemma ten_eps_le_1 : 10 * float_eps <= 1.
Proof. unfold float_eps, Qle. cbn. lia. Qed.

Lemma column_scaled_unit col x :
  In x col -> Forall no_inf col ->
  in_unit_interval (scale_cell x (column_scale col, column_min col)).
Proof.
  intros Hin Hall. destruct x as [a| | |].
  - destruct (nan_stats_bound col a Hin Hall) as (mn & mx & Hmn & Hmx & Hlo & Hhi).
    unfold column_min, column_scale. rewrite Hmn, Hmx.
    change (nsub (Fin mx) (Fin mn)) with (Fin (mx + - mn)).
    destruct (handle_zeros_positive (mx + - mn)) as (r & Hr & Hpos).
    assert (Hle : a - mn <= r).
    { unfold handle_zeros_in_scale in Hr.
      destruct (Qle_bool (10 * float_eps) (mx + - mn)) eqn:E.
      - inversion Hr; subst r. unfold Qminus. apply Qplus_le_compat;
          [exact Hhi|apply Qle_refl].
      - inversion Hr; subst r.
        apply Qle_trans with (mx + - mn);
          [unfold Qminus; apply Qplus_le_compat; [exact Hhi|apply Qle_refl]|].
        apply Qle_trans with (10 * float_eps); [|exact ten_eps_le_1].
        apply Qlt_le_weak, Qnot_le_lt. intros H. apply Qle_bool_iff in H. congruence. }
    rewrite Hr.
    assert (Hr0 : ~ r == 0) by (intros E; rewrite E in Hpos; discriminate).
    unfold ndiv. rewrite (Qeq_bool_false_of_neq Hr0).
    unfold scale_cell. cbn [fst snd nmul nsub nopp nadd].
    right. eexists. split; [reflexivity|].
    assert (Ev : a * (1 / r) + (0 + - (mn * (1 / r))) == (a - mn) / r)
      by (field; exact Hr0).
    rewrite Ev. split.
    + apply Qle_shift_div_l; [exact Hpos|]. rewrite Qmult_0_l.
      unfold Qminus. rewrite <- Qle_minus_iff. exact Hlo.
    + apply Qle_shift_div_r; [exact Hpos|]. rewrite Qmult_1_l. exact Hle.
  - left. reflexivity.
  - rewrite Forall_forall in Hall. specialize (Hall _ Hin). discriminate.
  - rewrite Forall_forall in Hall. specialize (Hall _ Hin). discriminate.
Qed.

Lemma rows_scaled_unit X row :
  well_shaped X -> In row X ->
  Forall in_unit_interval
    (map (fun xsm => scale_cell (fst xsm) (snd xsm))
         (combine row
            (map (fun j => (column_scale (mcolumn j X), column_min (mcolumn j X)))
                 (seq 0 (n_features X))))).
Proof.
  intros [Hlen Hinf] Hrow.
  assert (HF : Forall2 (fun x sm => in_unit_interval (scale_cell x sm)) row
                 (map (fun j => (column_scale (mcolumn j X), column_min (mcolumn j X)))
                      (seq 0 (n_features X)))).
  { rewrite Forall_forall in Hlen. rewrite <- (Hlen _ Hrow).
    apply Forall2_from_nth with (d := NaN). intros j Hj. cbn [Nat.add].
    apply column_scaled_unit.
    - unfold mcolumn. apply in_map_iff. exists row. split; [reflexivity|exact Hrow].
    - now apply mcolumn_no_inf. }
  clear Hrow. induction HF as [|x sm r P Hx _ IH]; cbn [combine map].
  - constructor.
  - constructor; [exact Hx|exact IH].
Qed.

Lemma fit_transform_unit X fitted :
  Forall (fun row => List.length row = n_features X) X ->
  scaler_fit_transform X = Ok fitted ->
  Forall (Forall in_unit_interval) (snd fitted).
Proof.
  intros Hshape E. unfold scaler_fit_transform in E.
  bind_ok E sc Efit. bind_ok E scaled Etr. apply Ok_inj in E. subst fitted.
  cbn [snd]. unfold scaler_transform in Etr. bind_ok Etr u Ec.
  apply Ok_inj in Etr. subst scaled. destruct u.
  destruct (scaler_fit_params X Ec) as (sc' & Hfit' & Hpar).
  rewrite Efit in Hfit'. apply Ok_inj in Hfit'. subst sc'.
  apply Forall_map. rewrite Forall_forall. intros row Hrow.
  rewrite transform_row_cells, Hpar. apply rows_scaled_unit; [|exact Hrow].
  split; [exact Hshape|]. apply check_array_ok. exact Ec.
Qed.

Local Close Scope Q_scope.



(* ===================================================================== *)
(** * The seasonal forecaster: the regressors of the future frame *)
(* ===================================================================== *)

(** The value of a regressor that the history holds for a date: the cell
    of the row of that date, missing when the history has no such row. *)
Definition observed (reg : string) (prophet_df : list DatedRow) (d : Z) : num :=
  match filter (fun r => Z.eqb (ds r) d) prophet_df with
  | [] => NaN
  | r :: _ => get reg (vals r)
  end.

Lemma ffill_from_idempotent prev xs :
  ffill_from prev (ffill_from prev xs) = ffill_from prev xs.
Proof.
  revert prev. induction xs as [|x t IH]; intros prev; [reflexivity|].
  cbn [ffill_from]. destruct (isnull x) eqn:Ex.
  - destruct (isnull prev) eqn:Ep; rewrite IH; reflexivity.
  - rewrite Ex, IH. reflexivity.
Qed.

Lemma fold_ffill_column regs l df c :
  incl l regs ->
  Forall (fun r => map fst (vals r) = regs) df ->
  column c (fold_left (fun f reg => Seasonal.ffill_column reg f) l df)
  = if in_dec string_dec c l then ffill (column c df) else column c df.
Proof.
  revert df. induction l as [|reg t IH]; intros df Hincl Hk; [reflexivity|].
  cbn [fold_left].
  assert (Hreg : In reg regs) by (apply Hincl; now left).
  assert (Hkreg : Forall (fun r => In reg (map fst (vals r))) df).
  { eapply Forall_impl; [|exact Hk]. intros r Hr. cbn beta in Hr. now rewrite Hr. }
  assert (Hk' : Forall (fun r => map fst (vals r) = regs)
                       (Seasonal.ffill_column reg df)).
  { apply Forall_map with (f := fun r => map fst (vals r)) (P := fun k => k = regs).
    rewrite ffill_column_keys. apply Forall_map. exact Hk. }
  rewrite IH; [|intros x Hx; apply Hincl; now right|exact Hk'].
  destruct (string_dec reg c) as [->|Hne].
  - rewrite column_ffill_same by exact Hkreg.
    destruct (in_dec string_dec c t) as [_|_];
      destruct (in_dec string_dec c (c :: t)) as [_|Hout];
      try reflexivity; try (exfalso; apply Hout; now left).
    unfold ffill. apply ffill_from_idempotent.
  - rewrite column_ffill_other by congruence.
    destruct (in_dec string_dec c t) as [Hin|Hout];
      destruct (in_dec string_dec c (reg :: t)) as [Hin'|Hout'];
      try reflexivity.
    + exfalso. apply Hout'. now right.
    + exfalso. destruct Hin' as [E|Hin']; [congruence|contradiction].
Qed.

Lemma merge_left_column future regs right c :
  NoDup (map ds right) -> In c regs ->
  column c (Seasonal.merge_left future regs right) = map (observed c right) future.
Proof.
  intros Hnd Hc. unfold Seasonal.merge_left, column.
  induction future as [|d t IH]; [reflexivity|].
  cbn [flat_map]. rewrite map_app, IH. cbn [map]. unfold observed at 2.
  pose proof (filter_ds_unique d right Hnd) as Hle.
  destruct (filter (fun r => Z.eqb (ds r) d) right) as [|x [|y ys]].
  - cbn [map app vals]. f_equal. unfold get.
    clear. induction regs as [|c' t' IH]; [reflexivity|]. cbn [map lookup].
    destruct (String.eqb c c'); [reflexivity|exact IH].
  - cbn [map app vals]. f_equal. now apply get_select_in.
  - cbn [List.length] in Hle. lia.
Qed.

(** X19. The regressors that the seasonal forecaster feeds to the final
    forecast.  With one row per date in the history of the brand, the
    column of an admitted regressor in the future frame is the forward
    fill, along the time line of the model, of the values that the history
    holds for those dates: a date without a row, or with a missing cell,
    takes the last value present before it, and filling one regressor
    leaves the others as they are. *)
Theorem X19_future_regressors_carried_forward
    (Model : Type) (model : Seasonal.Prophet Model)
    (regs : list string) (prophet_df : list DatedRow) (reg : string) :
  NoDup (map ds prophet_df) ->
  In reg regs ->
  column reg (Seasonal.future_frame model regs prophet_df)
  = ffill (map (observed reg prophet_df)
               (Seasonal.history_dates model
                ++ date_range (max_date (Seasonal.history_dates model) + 1) 30)).
Proof.
  intros Hnd Hreg. unfold Seasonal.future_frame.
  rewrite (fold_ffill_column regs regs) by
    (first [intros x Hx; exact Hx | apply merge_left_keys]).
  destruct (in_dec string_dec reg regs) as [_|Hout]; [|contradiction].
  rewrite merge_left_column by assumption.
  now rewrite make_future_dataframe_dates.
Qed.

(** X19, witness: the brand of 10 days whose promotion flag is missing on
    the last day, with a model fitted on the first 8 days. *)
Lemma X19_future_regressors_carried_forward_witness :
  let prophet_df := Seasonal.prophet_frame Examples.table_columns Examples.promo_gap in
  let model := {| Seasonal.regressors := [ "Promotion" ];
                  Seasonal.history_dates := map ds (firstn 8 prophet_df);
                  Seasonal.params := tt |} in
  NoDup (map ds prophet_df)
  /\ column "Promotion" (Seasonal.future_frame model [ "Promotion" ] prophet_df)
     = ffill (map (observed "Promotion" prophet_df)
                  (Seasonal.history_dates model
                   ++ date_range (max_date (Seasonal.history_dates model) + 1) 30)).
Proof.
  intros prophet_df model.
  assert (Hnd : NoDup (map ds prophet_df))
    by (apply sorted_Z_NoDup, prophet_frame_sorted).
  split; [exact Hnd|].
  exact (X19_future_regressors_carried_forward unit model [ "Promotion" ] prophet_df
           "Promotion" Hnd (or_introl eq_refl)).
Defined.

(* ===================================================================== *)
(** * Preprocessing: the codes in the processed table *)
(* ===================================================================== *)

(** Two strictly ascending lists with the same elements are equal. *)
Lemma ascending_same_elements (l1 l2 : list string) :
  StronglySorted (fun a b => String.compare a b = Lt) l1 ->
  StronglySorted (fun a b => String.compare a b = Lt) l2 ->
  (forall x, In x l1 <-> In x l2) -> l1 = l2.
Proof.
  assert (Hirr : forall a, String.compare a a = Lt -> False).
  { intros a H. assert (E : String.compare a a = Eq) by now apply Scmp_eq.
    congruence. }
  intros H1. revert l2. induction H1 as [|h1 t1 Hs1 IH Hall1]; intros l2 H2 Hsame.
  - destruct l2 as [|h2 t2]; [reflexivity|].
    exfalso. apply (Hsame h2). now left.
  - destruct H2 as [|h2 t2 Hs2 Hall2].
    + exfalso. apply (Hsame h1). now left.
    + rewrite Forall_forall in Hall1, Hall2.
      assert (Eh : h1 = h2).
      { destruct (proj1 (Hsame h1) (or_introl eq_refl)) as [E|Hin1]; [now symmetry|].
        destruct (proj2 (Hsame h2) (or_introl eq_refl)) as [E|Hin2]; [exact E|].
        exfalso. apply (Hirr h1).
        exact (Scmp_trans _ _ _ (Hall1 _ Hin2) (Hall2 _ Hin1)). }
      subst h2. f_equal. apply IH; [exact Hs2|].
      intros x. split; intros Hx.
      * destruct (proj1 (Hsame x) (or_intror Hx)) as [E|Hin]; [|exact Hin].
        subst x. exfalso. exact (Hirr _ (Hall1 _ Hx)).
      * destruct (proj2 (Hsame x) (or_intror Hx)) as [E|Hin]; [|exact Hin].
        subst x. exfalso. exact (Hirr _ (Hall2 _ Hx)).
Qed.

Lemma classes_same_elements (l1 l2 : list string) :
  (forall x, In x l1 <-> In x l2) ->
  unique_sorted String.compare l1 = unique_sorted String.compare l2.
Proof.
  intros H. apply ascending_same_elements; [apply classes_sorted..|].
  intros x. rewrite !classes_In. apply H.
Qed.

(** The code of a label among the labels of a column. *)
Definition code_of (values : list string) (v : string) : num :=
  of_nat (Preprocessing.index_of v (unique_sorted String.compare values)).

(** Every row carries in column [c] the code of its label [f]. *)
Definition coded (c : string) (f : RawRow -> string) (values : list string)
    (df : list RawRow) : Prop :=
  Forall (fun r => get c (raw_cells r) = code_of values (f r)) df.

Lemma combine_with_map {A B} (g : A -> B) (l : list A) :
  combine l (map g l) = map (fun x => (x, g x)) l.
Proof. induction l as [|x t IH]; [reflexivity|]. cbn [map combine]. now rewrite IH. Qed.

Lemma assign_codes c (f : RawRow -> string) df :
  (forall r cells, f (Preprocessing.with_cells r cells) = f r) ->
  coded c f (map f df)
        (Preprocessing.assign c (Preprocessing.label_encode (map f df)) df).
Proof.
  intros Hf. unfold coded, Preprocessing.assign, Preprocessing.label_encode.
  rewrite map_map, combine_with_map, map_map. cbn [fst snd].
  apply Forall_map. rewrite Forall_forall. intros r _.
  cbn [Preprocessing.with_cells raw_cells].
  rewrite get_assign_cell_same, Hf. reflexivity.
Qed.

Lemma assign_keeps_codes c c' f values xs df :
  (forall r cells, f (Preprocessing.with_cells r cells) = f r) ->
  c' <> c -> coded c f values df ->
  coded c f values (Preprocessing.assign c' xs df).
Proof.
  intros Hf Hne H. unfold coded, Preprocessing.assign in *. apply Forall_map.
  rewrite Forall_forall in *. intros [r v] Hrv. cbn [fst snd].
  cbn [Preprocessing.with_cells raw_cells].
  rewrite get_assign_cell_other by exact Hne. rewrite Hf.
  apply H. exact (in_combine_l _ _ _ _ Hrv).
Qed.

Lemma coded_same_values c f values values' df :
  (forall x, In x values <-> In x values') ->
  coded c f values df -> coded c f values' df.
Proof.
  intros Hsame H. unfold coded, code_of in *.
  now rewrite <- (classes_same_elements values values' Hsame).
Qed.

Lemma assign_labels (f : RawRow -> string) c values df :
  (forall r cells, f (Preprocessing.with_cells r cells) = f r) ->
  List.length values = List.length df ->
  map f (Preprocessing.assign c values df) = map f df.
Proof.
  intros Hf Hlen. unfold Preprocessing.assign. rewrite map_map.
  rewrite (map_ext _ (fun rv => f (fst rv))) by (intros rv; apply Hf).
  rewrite <- (map_map fst f). f_equal. apply combine_fst. now symmetry.
Qed.

Lemma encode_codes df :
  coded "Category_Encoded" raw_Category (map raw_Category df) (Preprocessing.encode df)
  /\ coded "Brand_Encoded" raw_Brand (map raw_Brand df) (Preprocessing.encode df).
Proof.
  unfold Preprocessing.encode.
  set (df1 := Preprocessing.assign "Category_Encoded"
                (Preprocessing.label_encode (map raw_Category df)) df).
  split.
  - do 2 (apply assign_keeps_codes; [reflexivity|discriminate|]).
    apply assign_codes. reflexivity.
  - apply assign_keeps_codes; [reflexivity|discriminate|].
    assert (E : map raw_Brand df1 = map raw_Brand df).
    { apply assign_labels; [reflexivity|].
      now rewrite label_encode_length, length_map. }
    rewrite <- E. apply assign_codes. reflexivity.
Qed.

Lemma engineer_codes c f values df :
  (forall r cells, f (Preprocessing.with_cells r cells) = f r) ->
  c <> "Sales_Lag_1" -> c <> "Sales_MA_3" ->
  coded c f values df -> coded c f values (Preprocessing.engineer df).
Proof.
  intros Hf H1 H2 H. unfold Preprocessing.engineer.
  repeat (apply assign_keeps_codes; [exact Hf|congruence|]). exact H.
Qed.

Lemma normalize_codes Qsqrt cols c f values df :
  (forall r cells, f (Preprocessing.with_cells r cells) = f r) ->
  ~ In c Preprocessing.numeric_cols_to_normalize ->
  coded c f values df -> coded c f values (Preprocessing.normalize Qsqrt cols df).
Proof.
  intros Hf Hc H. unfold Preprocessing.normalize.
  assert (Hcs : forall c', In c' (filter (has_column cols)
                                          Preprocessing.numeric_cols_to_normalize) ->
                           c' <> c).
  { intros c' Hc' E. subst c'. apply Hc. apply filter_In in Hc'. exact (proj1 Hc'). }
  revert Hcs. generalize (filter (has_column cols) Preprocessing.numeric_cols_to_normalize).
  intros cs Hcs.
  assert (G : forall acc, coded c f values acc ->
                coded c f values
                  (fold_left
                     (fun acc c0 =>
                        Preprocessing.assign c0
                          (Preprocessing.zscore Qsqrt (Preprocessing.rcolumn c0 df)) acc)
                     cs acc)).
  { induction cs as [|c' t IH]; intros acc Hacc; [exact Hacc|].
    cbn [fold_left]. apply IH; [intros x Hx; apply Hcs; now right|].
    apply assign_keeps_codes; [exact Hf|apply Hcs; now left|exact Hacc]. }
  now apply G.
Qed.

Lemma col_first_constant xs q :
  xs <> [] -> Forall (fun x => x = Fin q) xs -> col_first xs = Fin q.
Proof.
  intros Hne H. unfold col_first.
  destruct xs as [|x t]; [congruence|]. inversion H as [|? ? Hx _]; subst.
  reflexivity.
Qed.

Lemma aggregate_codes agg df c (f : RawRow -> string)
    (proj : string * (string * Z) -> string) values :
  (forall rd, f (fst rd) = proj (Preprocessing.group_key rd)) ->
  NoDup (map fst agg) -> In (c, agg_first) agg ->
  coded c f values df ->
  Forall (fun r => get c (cells r) = code_of values (proj (row_key r)))
         (Preprocessing.aggregate agg df).
Proof.
  intros Hf Hnd Hin H. unfold Preprocessing.aggregate. apply Forall_map.
  rewrite Forall_forall. intros [k g] Hg. cbn [cells fst snd].
  rewrite (get_agg_cell
             (fun ca => apply_agg (snd ca)
                          (map (fun r => get (fst ca) (raw_cells (fst r))) g))
             c agg_first agg Hnd Hin).
  cbn [fst snd apply_agg]. unfold row_key. cbn [Category Brand Date].
  assert (Ek : (fst k, (fst (snd k), snd (snd k))) = k)
    by (destruct k as [a [b d]]; reflexivity).
  rewrite Ek. unfold code_of, of_nat. apply col_first_constant.
  - intros E. apply map_eq_nil in E. revert E.
    eapply groupby_group_nonempty; [exact cmp_key_eq|exact Hg].
  - apply Forall_map. rewrite Forall_forall. intros rd Hrd.
    assert (Hkeys : Forall (fun r => Preprocessing.group_key r = k) g)
      by (eapply groupby_group_keys; [exact cmp_key_eq|exact Hg]).
    rewrite Forall_forall in Hkeys. rewrite <- (Hkeys rd Hrd), <- Hf.
    apply groupby_In in Hg; [|exact cmp_key_eq]. destruct Hg as [_ ->].
    apply filter_In in Hrd. destruct Hrd as [Hrd _].
    destruct rd as [r d]. apply dated_rows in Hrd.
    unfold coded in H. rewrite Forall_forall in H. exact (H r Hrd).
Qed.

Lemma pipeline_labels (f : RawRow -> string)
    (p : string * (string * option Z) -> string) cols df :
  (forall r, f r = p (raw_key r)) ->
  forall x,
    In x (map f (Preprocessing.sort_values (Preprocessing.fill_missing cols df)))
    <-> In x (map f df).
Proof.
  intros Hf x.
  assert (E : map f (Preprocessing.fill_missing cols df) = map f df).
  { transitivity (map p (map raw_key (Preprocessing.fill_missing cols df))).
    - rewrite map_map. apply map_ext. exact Hf.
    - rewrite fill_missing_keys, map_map. symmetry. apply map_ext. exact Hf. }
  rewrite <- E, !in_map_iff.
  split; intros (r & Er & Hr); exists r; (split; [exact Er|]);
    apply sort_values_In; exact Hr.
Qed.

Lemma encoded_in_agg cols0 c :
  In c Preprocessing.added_columns ->
  In (c, agg_first) Preprocessing.agg_dict ->
  In (c, agg_first)
     (filter (fun ca => has_column (cols0 ++ Preprocessing.added_columns) (fst ca))
             Preprocessing.agg_dict).
Proof.
  intros Ha Hin. apply filter_In. split; [exact Hin|]. cbn [fst].
  apply has_column_In, in_or_app. right. exact Ha.
Qed.

(** X20. The codes of the processed table identify the names.  In every
    row of the processed table, [Category_Encoded] is the rank of the
    category of the row among the categories of the raw table in ascending
    order, and [Brand_Encoded] the rank of its brand among the brands of
    the raw table: the later blocks (feature engineering, normalisation,
    aggregation by [first]) leave the two codes as the label encoder made
    them. *)
Theorem X20_codes_identify_names (Qsqrt : Q -> Q) (raw : RawFrame) :
  Forall (fun r =>
            get "Category_Encoded" (cells r)
            = code_of (map raw_Category (raw_rows raw)) (Category r)
            /\ get "Brand_Encoded" (cells r)
               = code_of (map raw_Brand (raw_rows raw)) (Brand r))
         (rows (Preprocessing.transform Qsqrt raw)).
Proof.
  unfold Preprocessing.transform. cbn [rows].
  set (cols0 := raw_columns raw).
  set (sorted := Preprocessing.sort_values
                   (Preprocessing.fill_missing cols0 (raw_rows raw))).
  destruct (encode_codes sorted) as [Hc Hb].
  apply (coded_same_values _ _ _ (map raw_Category (raw_rows raw))) in Hc;
    [|apply (pipeline_labels raw_Category fst); reflexivity].
  apply (coded_same_values _ _ _ (map raw_Brand (raw_rows raw))) in Hb;
    [|apply (pipeline_labels raw_Brand (fun k => fst (snd k))); reflexivity].
  clearbody sorted.
  assert (Hnot : forall c, In c [ "Category_Encoded"; "Brand_Encoded" ] ->
                   ~ In c Preprocessing.numeric_cols_to_normalize).
  { intros c Hin Hn. unfold Preprocessing.numeric_cols_to_normalize in Hn.
    cbn [In] in Hin, Hn.
    destruct Hin as [<-|[<-|[]]];
      repeat (destruct Hn as [Hn|Hn]; [discriminate Hn|]); exact Hn. }
  pose proof (agg_dict_names_NoDup (cols0 ++ Preprocessing.added_columns)) as Hnd.
  assert (Hcat : In ("Category_Encoded", agg_first)
                    (filter (fun ca => has_column (cols0 ++ Preprocessing.added_columns)
                                                  (fst ca))
                            Preprocessing.agg_dict)).
  { apply encoded_in_agg; [now left|].
    unfold Preprocessing.agg_dict. repeat (first [left; reflexivity | right]). }
  assert (Hbr : In ("Brand_Encoded", agg_first)
                   (filter (fun ca => has_column (cols0 ++ Preprocessing.added_columns)
                                                 (fst ca))
                           Preprocessing.agg_dict)).
  { apply encoded_in_agg; [right; now left|].
    unfold Preprocessing.agg_dict. repeat (first [left; reflexivity | right]). }
  revert Hnd Hcat Hbr.
  generalize (filter (fun ca => has_column (cols0 ++ Preprocessing.added_columns)
                                           (fst ca))
                     Preprocessing.agg_dict).
  intros agg Hnd Hcat Hbr.
  assert (Gc : coded "Category_Encoded" raw_Category (map raw_Category (raw_rows raw))
                 (Preprocessing.normalize Qsqrt (cols0 ++ Preprocessing.added_columns)
                    (Preprocessing.engineer (Preprocessing.encode sorted)))).
  { apply normalize_codes; [reflexivity|apply Hnot; now left|].
    apply engineer_codes; [reflexivity|discriminate|discriminate|exact Hc]. }
  assert (Gb : coded "Brand_Encoded" raw_Brand (map raw_Brand (raw_rows raw))
                 (Preprocessing.normalize Qsqrt (cols0 ++ Preprocessing.added_columns)
                    (Preprocessing.engineer (Preprocessing.encode sorted)))).
  { apply normalize_codes; [reflexivity|apply Hnot; right; now left|].
    apply engineer_codes; [reflexivity|discriminate|discriminate|exact Hb]. }
  pose proof (aggregate_codes agg _ "Category_Encoded" raw_Category fst _
                (fun rd => eq_refl) Hnd Hcat Gc) as Ac.
  pose proof (aggregate_codes agg _ "Brand_Encoded" raw_Brand (fun k => fst (snd k)) _
                (fun rd => eq_refl) Hnd Hbr Gb) as Ab.
  rewrite Forall_forall in *. intros r Hr. split.
  - exact (Ac r Hr).
  - exact (Ab r Hr).
Qed.

(* ===================================================================== *)
(** * The sequence forecaster on a clean table *)
(* ===================================================================== *)

(** A matrix of finite numbers, and a network whose output on a window of
    finite numbers is a finite number. *)
Definition all_finite (X : matrix) : Prop :=
  Forall (Forall (fun v => isfinite v = true)) X.

Definition finite_net {Net : Type} (forward : Net -> matrix -> num) : Prop :=
  forall net w, all_finite w -> isfinite (forward net w) = true.

Lemma all_finite_no_inf X : all_finite X -> existsb (existsb isinf) X = false.
Proof.
  intros H. apply Forall_existsb_false. eapply Forall_impl; [|exact H].
  intros row Hrow. cbn beta. apply Forall_existsb_false.
  eapply Forall_impl; [|exact Hrow]. intros x Hx. now apply finite_no_inf.
Qed.

Lemma column_scaled_finite col a :
  In (Fin a) col -> Forall no_inf col ->
  isfinite (scale_cell (Fin a) (column_scale col, column_min col)) = true.
Proof.
  intros Hin Hall.
  destruct (@column_params_finite col a Hin Hall) as (s & m & -> & -> & _).
  destruct (scale_cell_finite a s m) as (v & ->). reflexivity.
Qed.

Lemma rows_scaled_finite X row :
  well_shaped X -> In row X -> Forall (fun v => isfinite v = true) row ->
  Forall (fun v => isfinite v = true)
    (map (fun xsm => scale_cell (fst xsm) (snd xsm))
         (combine row
            (map (fun j => (column_scale (mcolumn j X), column_min (mcolumn j X)))
                 (seq 0 (n_features X))))).
Proof.
  intros [Hlen Hinf] Hrow Hfin.
  assert (HF : Forall2 (fun x sm => isfinite (scale_cell x sm) = true) row
                 (map (fun j => (column_scale (mcolumn j X), column_min (mcolumn j X)))
                      (seq 0 (n_features X)))).
  { rewrite Forall_forall in Hlen. rewrite <- (Hlen _ Hrow).
    apply Forall2_from_nth with (d := NaN). intros j Hj. cbn [Nat.add].
    rewrite Forall_forall in Hfin. pose proof (Hfin _ (nth_In row NaN Hj)) as Hx.
    assert (Hcol : In (nth j row NaN) (mcolumn j X)).
    { unfold mcolumn. apply in_map_iff. exists row. split; [reflexivity|exact Hrow]. }
    destruct (nth j row NaN) as [a| | |]; try discriminate Hx.
    apply column_scaled_finite; [exact Hcol|now apply mcolumn_no_inf]. }
  clear Hrow Hfin. induction HF as [|x sm r P Hx _ IH]; cbn [combine map].
  - constructor.
  - constructor; [exact Hx|exact IH].
Qed.

Lemma fit_transform_finite X fitted :
  Forall (fun row => List.length row = n_features X) X ->
  scaler_fit_transform X = Ok fitted ->
  all_finite X -> all_finite (snd fitted).
Proof.
  intros Hshape E Hfin. unfold scaler_fit_transform in E.
  bind_ok E sc Efit. bind_ok E scaled Etr. apply Ok_inj in E. subst fitted.
  cbn [snd]. unfold scaler_transform in Etr. bind_ok Etr u Ec.
  apply Ok_inj in Etr. subst scaled. destruct u.
  destruct (scaler_fit_params X Ec) as (sc' & Hfit' & Hpar).
  rewrite Efit in Hfit'. apply Ok_inj in Hfit'. subst sc'.
  unfold all_finite in *. apply Forall_map. rewrite Forall_forall. intros row Hrow.
  rewrite transform_row_cells, Hpar. apply rows_scaled_finite; [|exact Hrow|].
  - split; [exact Hshape|]. apply check_array_ok. exact Ec.
  - rewrite Forall_forall in Hfin. now apply Hfin.
Qed.

Lemma lastn_incl {A} n (l : list A) x : In x (lastn n l) -> In x l.
Proof. unfold lastn. apply In_skipn_incl. Qed.

Section CleanRun.
Variable Net : Type.
Variable train_net : nat -> list matrix -> list num -> Net.
Variable forward : Net -> matrix -> num.
Variable L : Metrics.
Hypothesis forward_finite : finite_net forward.

(** What the rollout loop keeps when it starts from finite numbers. *)
Definition rollout_finite (s : Lstm.rollout_state) : Prop :=
  all_finite (Lstm.rs_scaled s)
  /\ all_finite (Lstm.rs_last_seq s)
  /\ Forall (fun row => isfinite (nth 0 row NaN) = true) (Lstm.rs_future_scaled s).

Lemma rollout_step_finite model s :
  rollout_finite s -> rollout_finite (Lstm.rollout_step forward model s).
Proof.
  intros (Hs & Hl & Hf). unfold rollout_finite, Lstm.rollout_step.
  cbn [Lstm.rs_scaled Lstm.rs_last_seq Lstm.rs_future_scaled].
  pose proof (forward_finite model _ Hl) as Hp.
  assert (Hnext : Forall (fun v => isfinite v = true)
                         (forward model (Lstm.rs_last_seq s)
                            :: tl (last (Lstm.rs_scaled s) []))).
  { constructor; [exact Hp|].
    assert (Hlast : Forall (fun v => isfinite v = true) (last (Lstm.rs_scaled s) [])).
    { destruct (Lstm.rs_scaled s) as [|r t] eqn:E; [constructor|].
      unfold all_finite in Hs. rewrite Forall_forall in Hs. apply Hs.
      clear. generalize r. induction t as [|x t IH]; intros r0; [now left|].
      right. apply (IH x). }
    destruct (last (Lstm.rs_scaled s) []) as [|x xs]; [constructor|].
    now inversion Hlast. }
  assert (Hs' : all_finite
                  (Lstm.rs_scaled s
                     ++ [forward model (Lstm.rs_last_seq s)
                           :: tl (last (Lstm.rs_scaled s) [])])).
  { unfold all_finite. apply Forall_app. split; [exact Hs|].
    constructor; [exact Hnext|constructor]. }
  split; [exact Hs'|]. split.
  - unfold all_finite in *. rewrite Forall_forall in *. intros row Hrow.
    apply Hs'. now apply lastn_incl in Hrow.
  - apply Forall_app. split; [exact Hf|]. constructor; [exact Hp|constructor].
Qed.

Lemma rollout_keeps_finite model n scaled :
  all_finite scaled -> rollout_finite (Lstm.rollout forward model n scaled).
Proof.
  intros H. unfold Lstm.rollout. induction n as [|n IH].
  - cbn [Nat.iter]. unfold rollout_finite.
    cbn [Lstm.rs_scaled Lstm.rs_last_seq Lstm.rs_future_scaled].
    split; [exact H|]. split; [|constructor].
    unfold all_finite in *. rewrite Forall_forall in *. intros row Hrow.
    apply H. now apply lastn_incl in Hrow.
  - rewrite Nat.iter_succ. now apply rollout_step_finite.
Qed.

Lemma rollout_outputs_finite model scaled :
  all_finite scaled ->
  existsb isinf (rollout_outputs forward model scaled) = false.
Proof.
  intros H. destruct (rollout_keeps_finite model 30 scaled H) as (_ & _ & Hf).
  unfold rollout_outputs. apply Forall_existsb_false. apply Forall_map.
  eapply Forall_impl; [|exact Hf]. intros row Hrow. now apply finite_no_inf.
Qed.

End CleanRun.

Lemma features_head l :
  exists rest, Lstm.features l = "Total_Sales" :: rest.
Proof. unfold Lstm.features. eauto. Qed.

Lemma feature_array_sales feats rest brand_df :
  feats = "Total_Sales" :: rest ->
  all_finite (Lstm.feature_array feats brand_df) ->
  Forall (fun row => isfinite (nth 0 row NaN) = true) (Lstm.feature_array feats brand_df).
Proof.
  intros -> H. unfold all_finite, Lstm.feature_array in *. apply Forall_map.
  apply (proj1 (Forall_map _ _ _)) in H. eapply Forall_impl; [|exact H]. intros r Hr.
  cbn beta in *. cbn [map nth] in *. now inversion Hr.
Qed.

Lemma holdout_windows_finite scaled :
  all_finite scaled -> Forall all_finite (holdout_windows scaled).
Proof.
  intros H. unfold holdout_windows, split_80_20. cbn [snd].
  rewrite Forall_forall. intros w Hw. apply In_skipn_incl in Hw.
  unfold Lstm.samples in Hw. rewrite map_map in Hw. apply in_map_iff in Hw.
  destruct Hw as (i & <- & _). cbn [Lstm.sample fst].
  unfold all_finite in *. rewrite Forall_forall in *. intros row Hrow.
  apply H. apply In_firstn_incl in Hrow. now apply In_skipn_incl in Hrow.
Qed.

Lemma holdout_labels_finite scaled :
  Forall (fun row => isfinite (nth 0 row NaN) = true) scaled ->
  Forall (fun v => isfinite v = true) (holdout_labels scaled).
Proof.
  intros H. pose proof (sample_labels_finite scaled H) as Hall.
  unfold holdout_labels, split_80_20. cbn [snd].
  rewrite Forall_forall in *. intros v Hv. apply Hall.
  now apply In_skipn_incl in Hv.
Qed.

Section CleanBrand.
Variable Net : Type.
Variable train_net : nat -> list matrix -> list num -> Net.
Variable forward : Net -> matrix -> num.
Variable L : Metrics.
Hypothesis forward_finite : finite_net forward.

(** The iteration of a brand of at least 27 dates whose features the
    scaler accepts: the evaluation, then the forecast. *)
Lemma lstm_brand_body cols brand brand_rows scaler scaled :
  (27 <= List.length (Lstm.brand_frame cols brand_rows))%nat ->
  scaler_fit_transform
    (Lstm.feature_array (Lstm.features (map fst (Lstm.agg_dict cols)))
                        (Lstm.brand_frame cols brand_rows)) = Ok (scaler, scaled) ->
  Lstm.forecast_brand train_net forward L cols brand brand_rows
  = (scores <- Lstm.evaluate forward L
                 (trained train_net
                    (List.length (Lstm.features (map fst (Lstm.agg_dict cols)))) scaled)
                 (holdout_windows scaled) (holdout_labels scaled) ;;
     f <- Lstm.forecast_future forward brand (Lstm.brand_frame cols brand_rows)
            (Lstm.feature_array (Lstm.features (map fst (Lstm.agg_dict cols)))
                                (Lstm.brand_frame cols brand_rows))
            scaler scaled
            (trained train_net
               (List.length (Lstm.features (map fst (Lstm.agg_dict cols)))) scaled) ;;
     Ok (Produced {| m_Brand := brand; m_RMSE := fst scores; m_MAPE := snd scores |} f)).
Proof.
  intros Hn E.
  pose proof (fit_transform_length _ (scaler, scaled) E) as Hlen. cbn [snd] in Hlen.
  unfold Lstm.feature_array in Hlen. rewrite length_map in Hlen.
  assert (Hsamples : List.length (Lstm.samples scaled)
                     = (List.length (Lstm.brand_frame cols brand_rows) - 7)%nat).
  { unfold Lstm.samples. rewrite length_map, length_seq, Hlen. reflexivity. }
  unfold Lstm.forecast_brand.
  rewrite if_false_intro by (apply Nat.ltb_ge; unfold Lstm.seq_length; lia).
  eapply bind_intro; [exact E|]. cbn [fst snd].
  rewrite if_false_intro by (apply Nat.ltb_ge; rewrite length_map, Hsamples; lia).
  reflexivity.
Qed.

Lemma lstm_brand_completes cols brand brand_rows :
  all_finite (Lstm.feature_array (Lstm.features (map fst (Lstm.agg_dict cols)))
                                 (Lstm.brand_frame cols brand_rows)) ->
  exists o, Lstm.forecast_brand train_net forward L cols brand brand_rows = Ok o.
Proof.
  intros HX.
  pose proof (all_finite_no_inf _ HX) as Hinf.
  destruct (Nat.lt_ge_cases (List.length (Lstm.brand_frame cols brand_rows)) 27)
    as [Hn|Hn].
  - exists Skipped. apply lstm_skips.
    destruct (Nat.lt_ge_cases (List.length (Lstm.brand_frame cols brand_rows)) 8)
      as [H8|H8].
    + left. unfold lstm_too_short, Lstm.seq_length. lia.
    + right. split; [unfold lstm_few_samples, Lstm.seq_length; lia|exact Hinf].
  - destruct (fit_transform_accepts _ Hinf) as ([scaler scaled] & E).
    rewrite (lstm_brand_body cols brand brand_rows scaler scaled Hn E).
    assert (Hscaled : all_finite scaled)
      by exact (fit_transform_finite _ (scaler, scaled)
                  (feature_array_shape _ _) E HX).
    assert (Hsales : Forall (fun row => isfinite (nth 0 row NaN) = true) scaled).
    { apply (scaled_sales_finite _ (scaler, scaled) E).
      destruct (features_head (map fst (Lstm.agg_dict cols))) as (rest & Er).
      exact (feature_array_sales _ rest _ Er HX). }
    rewrite lstm_evaluate_cases.
    assert (Hy : forallb isfinite (holdout_labels scaled) = true)
      by (apply Forall_forallb; now apply holdout_labels_finite).
    assert (Hp : forallb isfinite
                   (map (forward (trained train_net
                                    (List.length
                                       (Lstm.features (map fst (Lstm.agg_dict cols))))
                                    scaled))
                        (holdout_windows scaled)) = true).
    { apply Forall_forallb. apply Forall_map.
      eapply Forall_impl; [|exact (holdout_windows_finite scaled Hscaled)].
      intros w Hw. now apply forward_finite. }
    rewrite Hy, Hp. cbn [andb bind].
    destruct (lstm_future_check Net forward brand (Lstm.brand_frame cols brand_rows)
                _ scaler scaled
                (trained train_net
                   (List.length (Lstm.features (map fst (Lstm.agg_dict cols)))) scaled)
                Hinf) as [_ Hgood].
    destruct (Hgood (rollout_outputs_finite Net forward forward_finite _ scaled Hscaled))
      as (f & ->).
    cbn [bind]. eauto.
Qed.

End CleanBrand.

Lemma feature_array_finite feats brand_df :
  (forall c, In c feats -> Forall (fun r => isfinite (get c (vals r)) = true) brand_df) ->
  all_finite (Lstm.feature_array feats brand_df).
Proof.
  intros H. unfold all_finite, Lstm.feature_array. apply Forall_map.
  rewrite Forall_forall. intros r Hr. apply Forall_map. rewrite Forall_forall.
  intros c Hc. specialize (H c Hc). rewrite Forall_forall in H. now apply H.
Qed.

Lemma listed_feature (l : list string) c :
  In c ("Total_Sales" :: "Online_Popularity" :: l) ->
  c = "Total_Sales" \/ c = "Online_Popularity" \/ In c l.
Proof. intros [E|[E|H]]; [left; now symmetry|right; left; now symmetry|now do 2 right]. Qed.

Lemma lstm_feature_cases cols c :
  In c (Lstm.features (map fst (Lstm.agg_dict cols))) ->
  c = "Total_Sales" \/ c = "Online_Popularity"
  \/ (In c Lstm.extra_regressors /\ has_column cols c = true).
Proof.
  unfold Lstm.features. intros H. apply listed_feature in H.
  destruct H as [H|[H|H]]; [now left|right; now left|]. right. right.
  apply filter_In in H. destruct H as [Hin Hc]. split; [exact Hin|].
  apply has_column_In in Hc.
  rewrite lstm_agg_dict_shape, forecaster_agg_names in Hc.
  apply listed_feature in Hc. destruct lstm_extras_facts as (_ & Hs & Hp).
  destruct Hc as [E|[E|Hc]]; [subst c; contradiction|subst c; contradiction|].
  apply filter_In in Hc. exact (proj2 Hc).
Qed.

Lemma lstm_extras_filled c :
  In c Lstm.extra_regressors -> In c filled_columns.
Proof.
  unfold Lstm.extra_regressors, filled_columns, Preprocessing.numeric_fill_cols.
  cbn [app In]. intros H.
  repeat (destruct H as [<-|H]; [tauto|]). contradiction.
Qed.

Lemma transform_columns_inv Qsqrt raw c :
  has_column (columns (Preprocessing.transform Qsqrt raw)) c = true ->
  In c Preprocessing.added_columns \/ has_column (raw_columns raw) c = true.
Proof.
  unfold Preprocessing.transform. cbn [columns]. intros H.
  apply has_column_In, in_map_iff in H. destruct H as ([c' f] & E & H).
  cbn [fst] in E. subst c'. apply filter_In in H. destruct H as [_ H].
  cbn [fst] in H. apply has_column_In, in_app_or in H.
  destruct H as [H|H]; [right; now apply has_column_In|now left].
Qed.

Lemma all_steps_complete (step : string -> list Row -> result outcome) groups :
  (forall k rows, In (k, rows) groups -> exists o, step k rows = Ok o) ->
  exists outs, Forall2 (steps_to step) groups outs.
Proof.
  induction groups as [|[k rows] t IH]; intros H; [exists []; constructor|].
  destruct (H k rows (or_introl eq_refl)) as (o & Ho).
  destruct IH as (outs & Houts); [intros k' r' Hin; apply H; now right|].
  exists (o :: outs). constructor; [exact Ho|exact Houts].
Qed.

Section CleanPipeline.
Variable Qsqrt : Q -> Q.
Hypothesis Qsqrt_nonneg : forall q, (0 <= Qsqrt q)%Q.

(** Every feature of every brand of the processed table is a finite
    number when the raw table is clean. *)
Lemma clean_feature_matrix raw brand brand_rows :
  bounded_raw (raw_rows raw) ->
  (2 <= List.length (raw_rows raw))%nat ->
  has_column (raw_columns raw) "Total_Sales" = true ->
  has_column (raw_columns raw) "Online_Popularity" = true ->
  (forall c, In c filled_columns -> has_column (raw_columns raw) c = true ->
             c = "Is_Holiday" \/ has_value (Preprocessing.rcolumn c (raw_rows raw))) ->
  In (brand, brand_rows) (groupby_brand (Preprocessing.transform Qsqrt raw)) ->
  all_finite
    (Lstm.feature_array
       (Lstm.features
          (map fst (Lstm.agg_dict (columns (Preprocessing.transform Qsqrt raw)))))
       (Lstm.brand_frame (columns (Preprocessing.transform Qsqrt raw)) brand_rows)).
Proof.
  intros Hb Hlen Hts Hop Hval Hg.
  assert (Hcol : forall c, In c filled_columns ->
                   has_column (raw_columns raw) c = true ->
                   Forall (fun r => isfinite (get c (cells r)) = true) brand_rows).
  { intros c Hin Hc.
    pose proof (transform_complete Qsqrt Qsqrt_nonneg raw c Hb Hlen Hc Hin
                  (Hval c Hin Hc)) as Hdf.
    rewrite (groupby_brand_In brand brand_rows _ Hg).
    rewrite Forall_forall in Hdf. rewrite Forall_forall. intros r Hr.
    apply filter_In in Hr. exact (Hdf r (proj1 Hr)). }
  assert (Hinv : forall c,
             has_column (columns (Preprocessing.transform Qsqrt raw)) c = true ->
             In c Preprocessing.added_columns \/ has_column (raw_columns raw) c = true)
    by (intros c; apply transform_columns_inv).
  clear Hg Hval Hb Hlen.
  revert Hinv. generalize (columns (Preprocessing.transform Qsqrt raw)).
  intros cols Hinv.
  apply feature_array_finite. intros c Hc.
  apply lstm_feature_cases in Hc.
  unfold Lstm.brand_frame. rewrite lstm_agg_dict_shape.
  destruct lstm_extras_facts as (Hnd & Hs & Hp).
  assert (Hfilled : In c filled_columns /\ has_column (raw_columns raw) c = true).
  { destruct Hc as [->|[->|[Hin Hh]]].
    - split; [right; left; reflexivity|exact Hts].
    - split; [left; reflexivity|exact Hop].
    - pose proof (lstm_extras_filled c Hin) as Hf. split; [exact Hf|].
      destruct (Hinv c Hh) as [Ha|Hr]; [|exact Hr].
      exfalso. exact (filled_not_added c Hf Ha). }
  apply (frame_complete (has_column cols) Lstm.extra_regressors brand_rows c
           Hnd Hs Hp Hc).
  exact (Hcol c (proj1 Hfilled) (proj2 Hfilled)).
Qed.

End CleanPipeline.



(* ===================================================================== *)
(** * The seasonal forecaster on a clean table *)
(* ===================================================================== *)

Lemma finite_no_gap regs df :
  (forall c, In c regs -> Forall (fun r => isfinite (get c (vals r)) = true) df) ->
  regressor_gap regs df = false.
Proof.
  intros H. unfold regressor_gap. apply Forall_existsb_false.
  rewrite Forall_forall. intros c Hc. apply Forall_existsb_false.
  unfold column. apply Forall_map. eapply Forall_impl; [|exact (H c Hc)].
  intros r Hr. cbn beta in *. destruct (get c (vals r)); try discriminate Hr.
  reflexivity.
Qed.

Section CleanSeasonalBrand.
Variable Model : Type.
Variable fit_params : list string -> list DatedRow -> Model.
Variable predict_row : Model -> DatedRow -> num * (num * num).
Variable L : Metrics.
Hypothesis predict_finite : forall m r, isfinite (fst (predict_row m r)) = true.

Lemma seasonal_brand_completes cols brand brand_rows :
  (forall c,
     In c ("Trend_Score"
             :: Seasonal.used_regressors (map fst (Seasonal.agg_dict cols))) ->
     Forall (fun r => isfinite (get c (vals r)) = true)
            (Seasonal.prophet_frame cols brand_rows)) ->
  exists o, Seasonal.forecast_brand fit_params predict_row L cols brand brand_rows
            = Ok o.
Proof.
  intros Hcols.
  destruct (Nat.lt_ge_cases (List.length (Seasonal.prophet_frame cols brand_rows)) 3)
    as [H3|H3].
  { exists Skipped. apply seasonal_skips. left. exact H3. }
  destruct (Seasonal.any_null (fst (split_80_20 (Seasonal.prophet_frame cols brand_rows))))
    eqn:Hnull.
  { exists Skipped. apply seasonal_skips. right. right. left. exact Hnull. }
  rewrite (seasonal_brand_body Model fit_params predict_row L cols brand brand_rows
             H3 Hnull).
  assert (Hy : Forall (fun r => isfinite (get "y" (vals r)) = true)
                      (Seasonal.prophet_frame cols brand_rows)).
  { rewrite Forall_forall. intros r Hr.
    exact (prophet_frame_target_finite cols brand_rows r Hr). }
  assert (Hk : Forall (fun r =>
                         incl (Seasonal.regressors_to_use
                                 (Seasonal.used_regressors
                                    (map fst (Seasonal.agg_dict cols)))
                                 (fst (split_80_20
                                         (Seasonal.prophet_frame cols brand_rows))))
                              (map fst (vals r)))
                      (Seasonal.prophet_frame cols brand_rows)).
  { rewrite Forall_forall. intros r Hr c Hc.
    rewrite (prophet_frame_keys cols brand_rows r Hr).
    exact (proj1 (regressors_are_columns cols _ c Hc)). }
  destruct (body_cases Model fit_params predict_row brand _ _ H3
              (prophet_frame_sorted cols brand_rows) Hy Hk Hnull)
    as (model & Efit & Eregs & (f & Ef) & Hne & Hyte).
  pose proof (evaluate_cases Model predict_row L model _ Hne Hyte) as Eev.
  cbv zeta in Eev. rewrite Eregs in Eev.
  rewrite finite_no_gap in Eev.
  - rewrite Forall_forallb in Eev
      by (apply Forall_map; rewrite Forall_forall; intros r _; apply predict_finite).
    eexists. eapply bind_intro; [exact Efit|].
    eapply bind_intro; [exact Eev|]. eapply bind_intro; [exact Ef|]. reflexivity.
  - intros c Hc. apply regressors_to_use_In in Hc. destruct Hc as [Hc _].
    assert (Hall : Forall (fun r => isfinite (get c (vals r)) = true)
                          (Seasonal.prophet_frame cols brand_rows)).
    { apply Hcols. destruct Hc as [->|Hc]; [apply in_eq|apply in_cons; exact Hc]. }
    destruct (split_80_20_spec (Seasonal.prophet_frame cols brand_rows)) as [Happ _].
    rewrite <- Happ in Hall. apply Forall_app in Hall. exact (proj2 Hall).
Qed.

End CleanSeasonalBrand.

Lemma fill_missing_keeps_complete cols df c :
  bounded_raw df ->
  complete (Preprocessing.rcolumn c df) ->
  complete (Preprocessing.rcolumn c (Preprocessing.fill_missing cols df)).
Proof.
  intros Hb H. rewrite fill_missing_fold. cbv zeta.
  set (cs := "Online_Popularity" :: "Total_Sales" :: "Quantity_Sold"
               :: filter (has_column cols) Preprocessing.numeric_fill_cols).
  pose proof (fold_fill_median_bounded cs df Hb) as Hfb.
  assert (G : complete (Preprocessing.rcolumn c
                (fold_left (fun acc c0 => Preprocessing.fill_median c0 acc) cs df)))
    by (apply fold_fill_median_complete; [exact Hb|left; exact H]).
  destruct (has_column cols "Is_Holiday"); [|exact G].
  destruct (string_dec c "Is_Holiday") as [->|Hne].
  - rewrite rcolumn_assign_same by (now rewrite fillna_length, rcolumn_length).
    apply fillna_complete; [reflexivity|now apply rcolumn_bounded].
  - apply assign_keeps_complete; [congruence|exact G].
Qed.

Section CleanSeasonalPipeline.
Variable Qsqrt : Q -> Q.
Hypothesis Qsqrt_nonneg : forall q, (0 <= Qsqrt q)%Q.

(** A column without a gap in the raw table that the preprocessing only
    carries along has no gap in the processed table. *)
Lemma transform_keeps_complete raw c f :
  bounded_raw (raw_rows raw) ->
  (2 <= List.length (raw_rows raw))%nat ->
  In (c, f) Preprocessing.agg_dict ->
  has_column (raw_columns raw) c = true ->
  ~ In c Preprocessing.added_columns ->
  complete (Preprocessing.rcolumn c (raw_rows raw)) ->
  Forall (fun r => isfinite (get c (cells r)) = true)
         (rows (Preprocessing.transform Qsqrt raw)).
Proof.
  intros Hb Hlen Hf Hc Hna H. unfold Preprocessing.transform. cbn [rows].
  apply (aggregate_complete _ _ c f).
  - apply agg_dict_names_NoDup.
  - apply filter_In. split; [exact Hf|]. cbn [fst]. now apply has_column_app.
  - apply (normalize_complete Qsqrt Qsqrt_nonneg).
    + rewrite (same_keys_length _ _ (engineer_keys _)).
      rewrite (same_keys_length _ _ (encode_keys _)).
      rewrite sort_values_length.
      rewrite (same_keys_length _ _ (fill_missing_keys _ _)). exact Hlen.
    + apply engineer_complete; [exact Hna|].
      apply encode_complete; [exact Hna|].
      apply sort_values_complete.
      now apply fill_missing_keeps_complete.
Qed.

End CleanSeasonalPipeline.

Lemma seasonal_used_cases cols c :
  In c (Seasonal.used_regressors (map fst (Seasonal.agg_dict cols))) ->
  In c Seasonal.extra_regressors /\ has_column cols c = true.
Proof.
  unfold Seasonal.used_regressors. intros H.
  apply filter_In in H. destruct H as [Hin Hc]. split; [exact Hin|].
  apply has_column_In in Hc.
  rewrite seasonal_agg_dict_shape, forecaster_agg_names in Hc.
  apply listed_feature in Hc. destruct seasonal_extras_facts as (_ & Hs & Hp).
  destruct Hc as [E|[E|Hc]]; [subst c; contradiction|subst c; contradiction|].
  apply filter_In in Hc. exact (proj2 Hc).
Qed.

(** The covariates of the seasonal forecaster: filled by the
    preprocessing, or one of the two that it only carries along. *)
Definition carried_columns : list string := [ "Promotion"; "Discount_Percentage" ].

Lemma seasonal_extras_split c :
  In c Seasonal.extra_regressors ->
  In c filled_columns
  \/ (In c carried_columns /\ exists f, In (c, f) Preprocessing.agg_dict).
Proof.
  unfold Seasonal.extra_regressors, filled_columns, Preprocessing.numeric_fill_cols,
    carried_columns.
  cbn [app In]. intros H.
  do 8 (destruct H as [<-|H]; [left; tauto|]).
  destruct H as [<-|H].
  { right. split; [tauto|]. eexists. unfold Preprocessing.agg_dict.
    repeat (first [left; reflexivity | right]). }
  destruct H as [<-|H].
  { right. split; [tauto|]. eexists. unfold Preprocessing.agg_dict.
    repeat (first [left; reflexivity | right]). }
  destruct H as [<-|H]; [left; tauto|contradiction].
Qed.

Lemma carried_not_added c :
  In c carried_columns -> ~ In c Preprocessing.added_columns.
Proof.
  unfold carried_columns, Preprocessing.added_columns. cbn [In]. intros H Ha.
  destruct H as [<-|[<-|[]]];
    repeat (destruct Ha as [Ha|Ha]; [discriminate Ha|]); exact Ha.
Qed.

Section CleanSeasonalFrames.
Variable Qsqrt : Q -> Q.
Hypothesis Qsqrt_nonneg : forall q, (0 <= Qsqrt q)%Q.

Lemma clean_prophet_columns raw brand brand_rows :
  bounded_raw (raw_rows raw) ->
  (2 <= List.length (raw_rows raw))%nat ->
  has_column (raw_columns raw) "Online_Popularity" = true ->
  (forall c, In c filled_columns -> has_column (raw_columns raw) c = true ->
             c = "Is_Holiday" \/ has_value (Preprocessing.rcolumn c (raw_rows raw))) ->
  (forall c, In c carried_columns -> has_column (raw_columns raw) c = true ->
             complete (Preprocessing.rcolumn c (raw_rows raw))) ->
  In (brand, brand_rows) (groupby_brand (Preprocessing.transform Qsqrt raw)) ->
  forall c,
    In c ("Trend_Score"
            :: Seasonal.used_regressors
                 (map fst (Seasonal.agg_dict
                             (columns (Preprocessing.transform Qsqrt raw))))) ->
    Forall (fun r => isfinite (get c (vals r)) = true)
           (Seasonal.prophet_frame (columns (Preprocessing.transform Qsqrt raw))
                                   brand_rows).
Proof.
  intros Hb Hlen Hop Hval Hcar Hg.
  assert (Hbb : bounded_rows brand_rows).
  { apply (groupby_brand_bounded (Preprocessing.transform Qsqrt raw) brand brand_rows);
      [|exact Hg].
    exact (transform_bounded Qsqrt Qsqrt_nonneg raw Hb). }
  assert (Hrows : forall c,
             Forall (fun r => isfinite (get c (cells r)) = true)
                    (rows (Preprocessing.transform Qsqrt raw)) ->
             Forall (fun r => isfinite (get c (cells r)) = true) brand_rows).
  { intros c Hdf. rewrite (groupby_brand_In brand brand_rows _ Hg).
    rewrite Forall_forall in Hdf. rewrite Forall_forall. intros r Hr.
    apply filter_In in Hr. exact (Hdf r (proj1 Hr)). }
  assert (Hfilled : forall c, In c filled_columns ->
                      has_column (raw_columns raw) c = true ->
                      Forall (fun r => isfinite (get c (cells r)) = true) brand_rows).
  { intros c Hin Hc. apply Hrows.
    exact (transform_complete Qsqrt Qsqrt_nonneg raw c Hb Hlen Hc Hin (Hval c Hin Hc)). }
  assert (Hcarried : forall c f, In c carried_columns ->
                       In (c, f) Preprocessing.agg_dict ->
                       has_column (raw_columns raw) c = true ->
                       Forall (fun r => isfinite (get c (cells r)) = true) brand_rows).
  { intros c f Hin Hf Hc. apply Hrows.
    exact (transform_keeps_complete Qsqrt Qsqrt_nonneg raw c f Hb Hlen Hf Hc
             (carried_not_added c Hin) (Hcar c Hin Hc)). }
  assert (Hinv : forall c,
             has_column (columns (Preprocessing.transform Qsqrt raw)) c = true ->
             In c Preprocessing.added_columns \/ has_column (raw_columns raw) c = true)
    by (intros c; apply transform_columns_inv).
  clear Hg Hval Hcar Hb Hlen Hrows.
  revert Hinv. generalize (columns (Preprocessing.transform Qsqrt raw)).
  intros cols Hinv c Hc. apply in_inv in Hc. destruct Hc as [<-|Hc].
  - change "Trend_Score" with (Seasonal.rename "Online_Popularity").
    apply prophet_frame_complete; [exact Hbb|right; left; reflexivity|].
    apply Hfilled; [left; reflexivity|exact Hop].
  - apply seasonal_used_cases in Hc. destruct Hc as [Hin Hh].
    rewrite <- (rename_regressor c Hin).
    apply prophet_frame_complete; [exact Hbb|right; right; split; assumption|].
    destruct (seasonal_extras_split c Hin) as [Hf|[Hcr (f & Hf)]].
    + apply Hfilled; [exact Hf|].
      destruct (Hinv c Hh) as [Ha|Hr]; [|exact Hr].
      exfalso. exact (filled_not_added c Hf Ha).
    + apply (Hcarried c f Hcr Hf).
      destruct (Hinv c Hh) as [Ha|Hr]; [|exact Hr].
      exfalso. exact (carried_not_added c Hcr Ha).
Qed.

End CleanSeasonalFrames.


